(** * Particle viewer: sampler, transition driver and camera framer

    A shallow embedding of the particle engine of the viewer component
    (src/unnamed/part_001; the easing functions and the constants are also
    in particleViewer/easing.ts and particleViewer/types.ts, the camera
    functions in src/unnamed/part_000), and the properties of the sampler
    [imageToParticles], of the transition driver [transitionToNext] with its
    frame function [animateTransition], of the initial load
    [loadInitialImage] and of the camera framer [updateCameraForParticles].

    Numbers.  A JavaScript number is a [number]: a rational, one of the two
    infinities, or NaN.  Arithmetic on finite values is exact: there is no
    rounding, no overflow to an infinity, and a [Float32Array] keeps the
    value it is given.  The sign of zero is not tracked: a non-zero finite
    value divided by zero is the infinity of the sign of the dividend.

    The host.  What the component calls and has no rational model
    ([Math.sqrt], [Math.cos], [Math.sin], [Math.atan2], [Math.pow] at an
    exponent that is not a natural number, [Math.PI], [Math.random], the
    loading of an image, the bounding box three.js computes) is a field of
    the class [Host]; every property is proved for every host.

    Objects.  A particle mesh lives in a heap and the variables of the
    component refer to it by its index; the instance matrices of a mesh
    mirror its [positions] and are not represented, nor is what is drawn.

    Time.  An [async] function is cut at its [await]: the part up to it and
    the part from the moment the promise settles are two functions, and
    the clock is an argument of each function that reads it.  Messages on
    the console are not represented. *)

From Stdlib Require Import QArith Qround Qabs Qminmax Lqa ZArith Lia String.
From stdpp Require Import base list.

Open Scope Q_scope.

(** ** JavaScript numbers *)

Module JS.

Inductive number : Type :=
| Fin (q : Q)
| PosInf
| NegInf
| NaN.

Definition Qlt_bool (a b : Q) : bool := negb (Qle_bool b a).

Definition isFinite (a : number) : bool :=
  match a with Fin _ => true | _ => false end.

Definition neg (a : number) : number :=
  match a with
  | Fin x => Fin (- x)
  | PosInf => NegInf
  | NegInf => PosInf
  | NaN => NaN
  end.

Definition add (a b : number) : number :=
  match a, b with
  | NaN, _ | _, NaN => NaN
  | Fin x, Fin y => Fin (x + y)
  | PosInf, NegInf | NegInf, PosInf => NaN
  | PosInf, _ | _, PosInf => PosInf
  | NegInf, _ | _, NegInf => NegInf
  end.

Definition sub (a b : number) : number :=
  match a, b with
  | NaN, _ | _, NaN => NaN
  | Fin x, Fin y => Fin (x - y)
  | PosInf, PosInf | NegInf, NegInf => NaN
  | PosInf, _ | _, NegInf => PosInf
  | NegInf, _ | _, PosInf => NegInf
  end.

(** An infinity scaled by a finite factor: the sign follows the factor, and
    a zero factor gives NaN. *)
Definition scaleInf (positive : bool) (q : Q) : number :=
  if Qeq_bool q 0 then NaN
  else if Bool.eqb positive (Qlt_bool 0 q) then PosInf else NegInf.

Definition mul (a b : number) : number :=
  match a, b with
  | NaN, _ | _, NaN => NaN
  | Fin x, Fin y => Fin (x * y)
  | PosInf, Fin q | Fin q, PosInf => scaleInf true q
  | NegInf, Fin q | Fin q, NegInf => scaleInf false q
  | PosInf, PosInf | NegInf, NegInf => PosInf
  | PosInf, NegInf | NegInf, PosInf => NegInf
  end.

Definition div (a b : number) : number :=
  match a, b with
  | NaN, _ | _, NaN => NaN
  | Fin x, Fin y =>
      if Qeq_bool y 0 then
        if Qeq_bool x 0 then NaN
        else if Qlt_bool 0 x then PosInf else NegInf
      else Fin (x / y)
  | Fin _, PosInf | Fin _, NegInf => Fin 0
  | PosInf, Fin q => if Qlt_bool q 0 then NegInf else PosInf
  | NegInf, Fin q => if Qlt_bool q 0 then PosInf else NegInf
  | PosInf, _ | NegInf, _ => NaN
  end.

(** [a < b]; every comparison with NaN is false. *)
Definition lt (a b : number) : bool :=
  match a, b with
  | NaN, _ | _, NaN => false
  | Fin x, Fin y => Qlt_bool x y
  | NegInf, NegInf | PosInf, _ => false
  | NegInf, _ => true
  | Fin _, PosInf => true
  | Fin _, NegInf => false
  end.

(** [a <= b] *)
Definition le (a b : number) : bool :=
  match a, b with
  | NaN, _ | _, NaN => false
  | Fin x, Fin y => Qle_bool x y
  | NegInf, _ | _, PosInf => true
  | PosInf, _ | _, NegInf => false
  end.

(** [a > b] and [a >= b] *)
Definition gt (a b : number) : bool := lt b a.
Definition ge (a b : number) : bool := le b a.

(** [a === b] *)
Definition strictEq (a b : number) : bool :=
  match a, b with
  | Fin x, Fin y => Qeq_bool x y
  | PosInf, PosInf | NegInf, NegInf => true
  | _, _ => false
  end.

(** [Math.min(a, b)] and [Math.max(a, b)]: NaN as soon as one argument is. *)
Definition min (a b : number) : number :=
  match a, b with
  | NaN, _ | _, NaN => NaN
  | _, _ => if le a b then a else b
  end.

Definition max (a b : number) : number :=
  match a, b with
  | NaN, _ | _, NaN => NaN
  | _, _ => if le a b then b else a
  end.

(** [Math.floor] and [Math.round] (round half up). *)
Definition floor (a : number) : number :=
  match a with
  | Fin q => Fin (inject_Z (Qfloor q))
  | _ => a
  end.

Definition round (a : number) : number :=
  match a with
  | Fin q => Fin (inject_Z (Qfloor (q + (1 # 2))))
  | _ => a
  end.

(** [x * x * ... * x], [n] factors, as [Math.pow(x, n)] gives for a
    non-negative integer [n] ([Math.pow(x, 0)] is 1 for every [x]). *)
Fixpoint powNat (x : number) (n : nat) : number :=
  match n with
  | O => Fin 1
  | S O => x
  | S n' => mul x (powNat x n')
  end.

(** The exponent as a natural number when it is a non-negative integer. *)
Definition asNat (e : number) : option nat :=
  match e with
  | Fin q =>
      if Qle_bool 0 q && Qeq_bool (inject_Z (Qfloor q)) q
      then Some (Z.to_nat (Qfloor q)) else None
  | _ => None
  end.

(** Equality of numbers up to the representation of a rational. *)
Definition eqv (a b : number) : Prop :=
  match a, b with
  | Fin x, Fin y => x == y
  | PosInf, PosInf | NegInf, NegInf | NaN, NaN => True
  | _, _ => False
  end.

End JS.

Export JS (number, Fin, PosInf, NegInf, NaN).

Declare Scope js_scope.
Delimit Scope js_scope with js.
Bind Scope js_scope with JS.number.
Infix "+" := JS.add : js_scope.
Infix "-" := JS.sub : js_scope.
Infix "*" := JS.mul : js_scope.
Infix "/" := JS.div : js_scope.
Notation "- x" := (JS.neg x) : js_scope.
Infix "<?" := JS.lt : js_scope.
Infix "<=?" := JS.le : js_scope.
Infix ">?" := JS.gt : js_scope.
Infix ">=?" := JS.ge : js_scope.
Infix "===" := JS.strictEq (at level 70, no associativity) : js_scope.
Infix "=~" := JS.eqv (at level 70, no associativity) : js_scope.

(** ** The data model *)

(** [userData] of a particle mesh (part_001 lines 803-810). *)
Record UserData : Type := mkUserData {
  positions : list number;
  originalPositions : list number;
  velocities : list number;
  colors : list number;
  delays : list number;
  count : nat
}.

(** A particle set: the [THREE.InstancedMesh] with what the driver reads and
    writes of it.  The instance matrices mirror [positions] (each write of a
    position is followed by [setMatrixAt] with the same translation); they
    are only read by the renderer and are not represented. *)
Record Mesh : Type := mkMesh {
  userData : option UserData;
  material_opacity : number;
  geometry_disposed : nat;       (* number of calls of geometry.dispose() *)
  material_disposed : nat        (* number of calls of material.dispose() *)
}.

(** ** The host: the parts of the JavaScript runtime and of three.js that
    the component calls and that have no rational model *)

(** [Box3]: the axis-aligned box of three.js, by its two corners. *)
Record Box3 : Type := mkBox3 {
  box_min : number * number * number;
  box_max : number * number * number
}.

(** An image as the browser delivers it for a URL: how the load ends, the
    properties the sampler tests, whether a 2d context can be had for the
    working canvas, and the bytes [getImageData] returns (RGBA, row by row)
    once the canvas was cleared, filled and the image drawn into the given
    rectangle (x, y, width, height). *)
Record Image : Type := mkImage {
  img_onload : bool;             (* the load ends in onload, not in onerror *)
  img_complete : bool;
  naturalWidth : Z;
  naturalHeight : Z;
  context2d : bool;
  imageData : number -> number -> number -> number -> list Z
}.

Class Host : Type := {
  Math_PI : number;
  Math_sqrt : number -> number;
  Math_cos : number -> number;
  Math_sin : number -> number;
  Math_atan2 : number -> number -> number;
  (** [Math.pow(b, e)] where [e] is not a non-negative integer *)
  Math_pow_frac : number -> number -> number;
  (** the value of the [n]-th call of [Math.random()] *)
  Math_random : nat -> Q;
  (** what [new Image()] with [src] set to the URL ends in *)
  loadImage : string -> Image;
  (** the box [Box3.setFromObject] computes for a particle mesh *)
  Box3_setFromObject : Mesh -> Box3;
  Math_random_range : forall n, 0 <= Math_random n /\ Math_random n < 1;
  (** the square root of a non-negative finite number is one *)
  Math_sqrt_finite :
    forall q, 0 <= q -> exists r, Math_sqrt (Fin q) = Fin r /\ 0 <= r
}.

Section Program.

Context `{host : Host}.

Open Scope js_scope.

Definition Math_pow (b e : number) : number :=
  match JS.asNat e with
  | Some n => JS.powNat b n
  | None => Math_pow_frac b e
  end.

(** ** particleViewer/types.ts and particleViewer/easing.ts
    (the same constants and functions are inlined in the component,
    part_001 lines 63-64 and 1019-1027) *)

Definition explodeForce : number := Fin 2.
Definition implodeSpeed : number := Fin 0.02.

Definition easeInOutCubic (t : number) : number :=
  if t <? Fin 0.5 then Fin 4 * t * t * t
  else Fin 1 - Math_pow (Fin (-2) * t + Fin 2) (Fin 3) / Fin 2.

Definition easeOutExponential (t : number) : number :=
  if t === Fin 1 then Fin 1 else Fin 1 - Math_pow (Fin 2) (Fin (-10) * t).

(** ** Arrays of numbers

    Every read of a particle array in the animation and camera code has the
    form [a[i] ?? 0]; a write [a[i] = v] past the end extends the array.
    The slots a write skips are holes: they read as [undefined], hence as 0
    through [?? 0], and are stored here as 0. *)

Definition get (a : list number) (i : nat) : number :=
  default (Fin 0) (a !! i).

Definition set (a : list number) (i : nat) (v : number) : list number :=
  if decide (i < length a)%nat then <[i := v]> a
  else a ++ replicate (i - length a) (Fin 0) ++ [v].

(** ** The component *)

Record Camera : Type := mkCamera {
  fov : number;
  near : number;
  far : number
}.

Record Props : Type := mkProps {
  images : list string;
  particleDensity : number;
  transitionDuration : number;
  autoAdvance : bool;
  autoAdvanceInterval : number
}.

(** The component state (the free-standing [let] variables of part_001,
    lines 28-59; the fields of [ParticleViewerState] in types.ts) with the
    objects it refers to.  Particle meshes live in [heap]; a reference to
    one is its index there, and an object is never removed from the heap,
    so that what became of an object no variable refers to any more can
    still be read.  [scene] lists the children of the scene that are
    particle meshes. *)
Record State : Type := mkState {
  heap : list Mesh;
  scene : list nat;
  camera : option Camera;
  currentParticles : option nat;
  nextParticles : option nat;
  currentImageIndex : nat;
  isTransitioning : bool;
  animationFrameId : option nat;
  autoAdvanceTimer : option nat;
  targetCameraZ : number;
  innerWidth : number;   (* window.innerWidth *)
  innerHeight : number;   (* window.innerHeight *)
  timers : list (nat * number);   (* pending setTimeout calls *)
  frames : list nat;   (* pending requestAnimationFrame calls *)
  nextHandle : nat;   (* the next timer or frame handle *)
  randomDraws : nat   (* calls of Math.random() so far *)
}.

(** Assignments to one variable of the state. *)
Definition set_heap (v : list Mesh) (s : State) : State :=
  {| heap := v;
     scene := scene s;
     camera := camera s;
     currentParticles := currentParticles s;
     nextParticles := nextParticles s;
     currentImageIndex := currentImageIndex s;
     isTransitioning := isTransitioning s;
     animationFrameId := animationFrameId s;
     autoAdvanceTimer := autoAdvanceTimer s;
     targetCameraZ := targetCameraZ s;
     innerWidth := innerWidth s;
     innerHeight := innerHeight s;
     timers := timers s;
     frames := frames s;
     nextHandle := nextHandle s;
     randomDraws := randomDraws s |}.

Definition set_scene (v : list nat) (s : State) : State :=
  {| heap := heap s;
     scene := v;
     camera := camera s;
     currentParticles := currentParticles s;
     nextParticles := nextParticles s;
     currentImageIndex := currentImageIndex s;
     isTransitioning := isTransitioning s;
     animationFrameId := animationFrameId s;
     autoAdvanceTimer := autoAdvanceTimer s;
     targetCameraZ := targetCameraZ s;
     innerWidth := innerWidth s;
     innerHeight := innerHeight s;
     timers := timers s;
     frames := frames s;
     nextHandle := nextHandle s;
     randomDraws := randomDraws s |}.

Definition set_currentParticles (v : option nat) (s : State) : State :=
  {| heap := heap s;
     scene := scene s;
     camera := camera s;
     currentParticles := v;
     nextParticles := nextParticles s;
     currentImageIndex := currentImageIndex s;
     isTransitioning := isTransitioning s;
     animationFrameId := animationFrameId s;
     autoAdvanceTimer := autoAdvanceTimer s;
     targetCameraZ := targetCameraZ s;
     innerWidth := innerWidth s;
     innerHeight := innerHeight s;
     timers := timers s;
     frames := frames s;
     nextHandle := nextHandle s;
     randomDraws := randomDraws s |}.

Definition set_nextParticles (v : option nat) (s : State) : State :=
  {| heap := heap s;
     scene := scene s;
     camera := camera s;
     currentParticles := currentParticles s;
     nextParticles := v;
     currentImageIndex := currentImageIndex s;
     isTransitioning := isTransitioning s;
     animationFrameId := animationFrameId s;
     autoAdvanceTimer := autoAdvanceTimer s;
     targetCameraZ := targetCameraZ s;
     innerWidth := innerWidth s;
     innerHeight := innerHeight s;
     timers := timers s;
     frames := frames s;
     nextHandle := nextHandle s;
     randomDraws := randomDraws s |}.

Definition set_currentImageIndex (v : nat) (s : State) : State :=
  {| heap := heap s;
     scene := scene s;
     camera := camera s;
     currentParticles := currentParticles s;
     nextParticles := nextParticles s;
     currentImageIndex := v;
     isTransitioning := isTransitioning s;
     animationFrameId := animationFrameId s;
     autoAdvanceTimer := autoAdvanceTimer s;
     targetCameraZ := targetCameraZ s;
     innerWidth := innerWidth s;
     innerHeight := innerHeight s;
     timers := timers s;
     frames := frames s;
     nextHandle := nextHandle s;
     randomDraws := randomDraws s |}.

Definition set_isTransitioning (v : bool) (s : State) : State :=
  {| heap := heap s;
     scene := scene s;
     camera := camera s;
     currentParticles := currentParticles s;
     nextParticles := nextParticles s;
     currentImageIndex := currentImageIndex s;
     isTransitioning := v;
     animationFrameId := animationFrameId s;
     autoAdvanceTimer := autoAdvanceTimer s;
     targetCameraZ := targetCameraZ s;
     innerWidth := innerWidth s;
     innerHeight := innerHeight s;
     timers := timers s;
     frames := frames s;
     nextHandle := nextHandle s;
     randomDraws := randomDraws s |}.

Definition set_animationFrameId (v : option nat) (s : State) : State :=
  {| heap := heap s;
     scene := scene s;
     camera := camera s;
     currentParticles := currentParticles s;
     nextParticles := nextParticles s;
     currentImageIndex := currentImageIndex s;
     isTransitioning := isTransitioning s;
     animationFrameId := v;
     autoAdvanceTimer := autoAdvanceTimer s;
     targetCameraZ := targetCameraZ s;
     innerWidth := innerWidth s;
     innerHeight := innerHeight s;
     timers := timers s;
     frames := frames s;
     nextHandle := nextHandle s;
     randomDraws := randomDraws s |}.

Definition set_autoAdvanceTimer (v : option nat) (s : State) : State :=
  {| heap := heap s;
     scene := scene s;
     camera := camera s;
     currentParticles := currentParticles s;
     nextParticles := nextParticles s;
     currentImageIndex := currentImageIndex s;
     isTransitioning := isTransitioning s;
     animationFrameId := animationFrameId s;
     autoAdvanceTimer := v;
     targetCameraZ := targetCameraZ s;
     innerWidth := innerWidth s;
     innerHeight := innerHeight s;
     timers := timers s;
     frames := frames s;
     nextHandle := nextHandle s;
     randomDraws := randomDraws s |}.

Definition set_targetCameraZ (v : number) (s : State) : State :=
  {| heap := heap s;
     scene := scene s;
     camera := camera s;
     currentParticles := currentParticles s;
     nextParticles := nextParticles s;
     currentImageIndex := currentImageIndex s;
     isTransitioning := isTransitioning s;
     animationFrameId := animationFrameId s;
     autoAdvanceTimer := autoAdvanceTimer s;
     targetCameraZ := v;
     innerWidth := innerWidth s;
     innerHeight := innerHeight s;
     timers := timers s;
     frames := frames s;
     nextHandle := nextHandle s;
     randomDraws := randomDraws s |}.

Definition set_timers (v : list (nat * number)) (s : State) : State :=
  {| heap := heap s;
     scene := scene s;
     camera := camera s;
     currentParticles := currentParticles s;
     nextParticles := nextParticles s;
     currentImageIndex := currentImageIndex s;
     isTransitioning := isTransitioning s;
     animationFrameId := animationFrameId s;
     autoAdvanceTimer := autoAdvanceTimer s;
     targetCameraZ := targetCameraZ s;
     innerWidth := innerWidth s;
     innerHeight := innerHeight s;
     timers := v;
     frames := frames s;
     nextHandle := nextHandle s;
     randomDraws := randomDraws s |}.

Definition set_frames (v : list nat) (s : State) : State :=
  {| heap := heap s;
     scene := scene s;
     camera := camera s;
     currentParticles := currentParticles s;
     nextParticles := nextParticles s;
     currentImageIndex := currentImageIndex s;
     isTransitioning := isTransitioning s;
     animationFrameId := animationFrameId s;
     autoAdvanceTimer := autoAdvanceTimer s;
     targetCameraZ := targetCameraZ s;
     innerWidth := innerWidth s;
     innerHeight := innerHeight s;
     timers := timers s;
     frames := v;
     nextHandle := nextHandle s;
     randomDraws := randomDraws s |}.

Definition set_nextHandle (v : nat) (s : State) : State :=
  {| heap := heap s;
     scene := scene s;
     camera := camera s;
     currentParticles := currentParticles s;
     nextParticles := nextParticles s;
     currentImageIndex := currentImageIndex s;
     isTransitioning := isTransitioning s;
     animationFrameId := animationFrameId s;
     autoAdvanceTimer := autoAdvanceTimer s;
     targetCameraZ := targetCameraZ s;
     innerWidth := innerWidth s;
     innerHeight := innerHeight s;
     timers := timers s;
     frames := frames s;
     nextHandle := v;
     randomDraws := randomDraws s |}.

Definition set_randomDraws (v : nat) (s : State) : State :=
  {| heap := heap s;
     scene := scene s;
     camera := camera s;
     currentParticles := currentParticles s;
     nextParticles := nextParticles s;
     currentImageIndex := currentImageIndex s;
     isTransitioning := isTransitioning s;
     animationFrameId := animationFrameId s;
     autoAdvanceTimer := autoAdvanceTimer s;
     targetCameraZ := targetCameraZ s;
     innerWidth := innerWidth s;
     innerHeight := innerHeight s;
     timers := timers s;
     frames := frames s;
     nextHandle := nextHandle s;
     randomDraws := v |}.

(** ** The sampler: [imageToParticles] (part_001 lines 581-822) *)

Inductive Error : Type :=
| FailedToLoadImage (imageUrl : string)     (* img.onerror *)
| ImageFailedToLoadCompletely
| CouldNotGetCanvasContext
| InvalidImageDimensions.

Definition canvasSize : Z := 1600.

Definition ofZ (z : Z) : number := Fin (inject_Z z).

(** [for (let i = start; i < bound; i += step) body]: the counter is an
    integer; a step that is NaN or infinite makes the test fail after the
    first turn.  [fuel] bounds the number of turns. *)
Fixpoint forStep {A : Type} (fuel : nat) (i bound : Z) (step : number)
    (body : Z -> A -> A) (acc : A) : A :=
  match fuel with
  | O => acc
  | S fuel' =>
      if (i <? bound)%Z then
        match step with
        | Fin k => forStep fuel' (i + Qfloor k)%Z bound step body (body i acc)
        | _ => body i acc
        end
      else acc
  end.

(** [for (let i = 0; i < n; i++) body] *)
Fixpoint forCount {A : Type} (n : nat) (i : nat) (body : nat -> A -> A)
    (acc : A) : A :=
  match n with
  | O => acc
  | S n' => forCount n' (S i) body (body i acc)
  end.

(** The arrays the scan fills (lines 666-669) and the calls of
    [Math.random()] made so far. *)
Record Samples : Type := mkSamples {
  s_positions : list number;
  s_colors : list number;
  s_velocities : list number;
  s_originalPositions : list number;
  s_draws : nat
}.

(** The body of the scan for the pixel (x, y) (lines 681-717). *)
Definition samplePixel (width height : Z) (pixels : list Z) (y x : Z)
    (acc : Samples) : Samples :=
  let index := Z.to_nat ((y * width + x) * 4) in
  if decide (length pixels <= index + 3)%nat then acc else
  let r := default 0%Z (pixels !! index) in
  let g := default 0%Z (pixels !! (index + 1)%nat) in
  let b := default 0%Z (pixels !! (index + 2)%nat) in
  let a := default 0%Z (pixels !! (index + 3)%nat) in
  if (a <? 10)%Z then acc else
  let rNorm := ofZ r / Fin 255 in
  let gNorm := ofZ g / Fin 255 in
  let bNorm := ofZ b / Fin 255 in
  let normalizedX := (ofZ x / ofZ width) * Fin 2 - Fin 1 in
  let normalizedY := Fin 1 - (ofZ y / ofZ height) * Fin 2 in
  {| s_positions := s_positions acc ++ [normalizedX; normalizedY; Fin 0];
     s_originalPositions :=
       s_originalPositions acc ++ [normalizedX; normalizedY; Fin 0];
     s_colors := s_colors acc ++ [rNorm; gNorm; bNorm];
     s_velocities :=
       s_velocities acc ++
       [(- normalizedX) * Fin 100;
        (- normalizedY) * Fin 10;
        (Fin (Math_random (s_draws acc)) - Fin 0.5) * Fin 2];
     s_draws := S (s_draws acc) |}.

(** The sampling stride (line 672). *)
Definition samplingStep (density : number) : number :=
  JS.max (Fin 1) (JS.floor (Fin 1 / density)).

(** The scan of the canvas (lines 672-719). *)
Definition scanCanvas (width height : Z) (pixels : list Z) (density : number)
    (draws : nat) : Samples :=
  let step := samplingStep density in
  forStep (Z.to_nat height) 0 height step
    (fun y acc =>
       forStep (Z.to_nat width) 0 width step
         (samplePixel width height pixels y) acc)
    (mkSamples [] [] [] [] draws).

(** The instance colours: a [Float32Array] of [3 * particleCount] slots
    filled from [colors] (lines 727-738); a typed array ignores a write out
    of range, and stores NaN for [undefined]. *)
Definition instanceColors (colors : list number) (particleCount : nat)
    : list number :=
  forCount particleCount 0
    (fun i arr =>
       let r := default NaN (colors !! (i * 3)%nat) in
       let g := default NaN (colors !! (i * 3 + 1)%nat) in
       let b := default NaN (colors !! (i * 3 + 2)%nat) in
       <[(i * 3 + 2)%nat := b]>
         (<[(i * 3 + 1)%nat := g]> (<[(i * 3)%nat := r]> arr)))
    (replicate (particleCount * 3) (Fin 0)).

(** The random delays (lines 797-800), with the calls of [Math.random()]. *)
Definition randomDelays (particleCount : nat) (draws : nat)
    : list number * nat :=
  forCount particleCount 0
    (fun i '(arr, n) =>
       (<[i := Fin (Math_random n) * Fin 2000]> arr, S n))
    (replicate particleCount (Fin 0), draws).

(** The particle set built from the scanned canvas (lines 721-812). *)
Definition particlesFromCanvas (width height : Z) (pixels : list Z)
    (density : number) (draws : nat) : Mesh * nat :=
  let sm := scanCanvas width height pixels density draws in
  let particleCount := (length (s_positions sm) / 3)%nat in
  let '(dl, draws') := randomDelays particleCount (s_draws sm) in
  ({| userData := Some
        {| positions := s_positions sm;
           originalPositions := s_originalPositions sm;
           velocities := s_velocities sm;
           colors := instanceColors (s_colors sm) particleCount;
           delays := dl;
           count := particleCount |};
      material_opacity := Fin 0.9;
      geometry_disposed := 0;
      material_disposed := 0 |}, draws').

(** The rectangle the image is drawn into (lines 620-646): scaled to fit
    the square canvas, centred on the other axis, rounded to integers. *)
Definition drawRect (imgWidth imgHeight : Z)
    : number * number * number * number :=
  let size := ofZ canvasSize in
  let imgAspect := ofZ imgWidth / ofZ imgHeight in
  let '(drawWidth, drawHeight, offsetX, offsetY) :=
    if imgAspect >=? Fin 1
    then (size, size / imgAspect,
          Fin 0, JS.round ((size - size / imgAspect) / Fin 2))
    else (size * imgAspect, size,
          JS.round ((size - size * imgAspect) / Fin 2), Fin 0) in
  (JS.round offsetX, JS.round offsetY,
   JS.round drawWidth, JS.round drawHeight).

(** [imageToParticles(imageUrl)]: the value the promise settles with
    ([inl]: rejected), and the calls of [Math.random()] after it. *)
Definition imageToParticles (density : number) (imageUrl : string)
    (draws : nat) : (Error + Mesh) * nat :=
  let img := loadImage imageUrl in
  if negb (img_onload img) then (inl (FailedToLoadImage imageUrl), draws)
  else if negb (img_complete img) || (naturalWidth img =? 0)%Z
          || (naturalHeight img =? 0)%Z
  then (inl ImageFailedToLoadCompletely, draws)
  else if negb (context2d img) then (inl CouldNotGetCanvasContext, draws)
  else if (naturalWidth img =? 0)%Z || (naturalHeight img =? 0)%Z
  then (inl InvalidImageDimensions, draws)
  else
    let '(drawX, drawY, drawW, drawH) :=
      drawRect (naturalWidth img) (naturalHeight img) in
    let pixels := imageData img drawX drawY drawW drawH in
    let '(mesh, draws') :=
      particlesFromCanvas canvasSize canvasSize pixels density draws in
    (inr mesh, draws').

(** ** The camera framer: [updateCameraForParticles]
    (part_001 lines 464-570; part_000 lines 8-89 is the same function on an
    explicit state) *)

Definition Box3_isEmpty (b : Box3) : bool :=
  let '(minX, minY, minZ) := box_min b in
  let '(maxX, maxY, maxZ) := box_max b in
  (maxX <? minX) || (maxY <? minY) || (maxZ <? minZ).

Definition Box3_getSize (b : Box3) : number * number * number :=
  let '(minX, minY, minZ) := box_min b in
  let '(maxX, maxY, maxZ) := box_max b in
  if Box3_isEmpty b then (Fin 0, Fin 0, Fin 0)
  else (maxX - minX, maxY - minY, maxZ - minZ).

(** The distance at which a rectangle of the given size fills the screen
    (lines 536-556, and 483-489 on the fallback path). *)
Definition fillDistance (cam : Camera) (width height sizeX sizeY : number)
    : number :=
  let screenAspect := width / height in
  let fovRad := fov cam * (Math_PI / Fin 180) in
  let halfFovRad := fovRad / Fin 2 in
  let tanHalfFov := halfFovRad in
  let distanceForWidth := (sizeX / Fin 2) / (tanHalfFov * screenAspect) in
  let distanceForHeight := (sizeY / Fin 2) / tanHalfFov in
  JS.min distanceForWidth distanceForHeight.

Definition badSize (sizeX sizeY : number) : bool :=
  (sizeX <=? Fin 0) || (sizeY <=? Fin 0)
  || negb (JS.isFinite sizeX) || negb (JS.isFinite sizeY).

Definition badDistance (distance : number) : bool :=
  negb (JS.isFinite distance) || (distance <=? Fin 0)
  || (distance >? Fin 1000).

(** The minima and maxima of the resting positions (lines 510-525). *)
Definition bounds (originalPositions : list number) (count : nat)
    : number * number * number * number * number * number :=
  forCount count 0
    (fun i '(minX, maxX, minY, maxY, minZ, maxZ) =>
       let x := get originalPositions (i * 3) in
       let y := get originalPositions (i * 3 + 1) in
       let z := get originalPositions (i * 3 + 2) in
       (JS.min minX x, JS.max maxX x,
        JS.min minY y, JS.max maxY y,
        JS.min minZ z, JS.max maxZ z))
    (PosInf, NegInf, PosInf, NegInf, PosInf, NegInf).

(** The value the framer assigns to [targetCameraZ] once it is past its
    entry test (lines 469-565). *)
Definition framedCameraZ (cam : Camera) (width height : number) (m : Mesh)
    : number :=
  match userData m with
  | None =>
      let box := Box3_setFromObject m in
      if Box3_isEmpty box then Fin 5 else
      let '(sizeX, sizeY, _) := Box3_getSize box in
      if badSize sizeX sizeY then Fin 5 else
      let distance := fillDistance cam width height sizeX sizeY in
      if badDistance distance then Fin 5 else distance * Fin 0.05
  | Some ud =>
      if (count ud =? 0)%nat || (length (originalPositions ud) =? 0)%nat
      then Fin 5 else
      let '(minX, maxX, minY, maxY, minZ, maxZ) :=
        bounds (originalPositions ud) (count ud) in
      let sizeX := maxX - minX in
      let sizeY := maxY - minY in
      if badSize sizeX sizeY then Fin 5 else
      let distance := fillDistance cam width height sizeX sizeY in
      if badDistance distance then Fin 5 else distance * Fin 0.5
  end.

Definition updateCameraForParticles (s : State) : State :=
  match camera s, currentParticles s with
  | Some cam, Some r =>
      if isTransitioning s then s else
      match heap s !! r with
      | Some m =>
          set_targetCameraZ
            (framedCameraZ cam (innerWidth s) (innerHeight s) m) s
      | None => s
      end
  | _, _ => s
  end.

(** ** Timers and frames *)

(** [startAutoAdvance] (lines 1446-1453) *)
Definition startAutoAdvance (props : Props) (s : State) : State :=
  let pending :=
    match autoAdvanceTimer s with
    | Some t =>
        if (t =? 0)%nat then timers s                  (* a falsy handle *)
        else filter (fun e => fst e <> t) (timers s)   (* clearTimeout *)
    | None => timers s
    end in
  let t := nextHandle s in
  set_autoAdvanceTimer (Some t)
    (set_timers (pending ++ [(t, autoAdvanceInterval props)])
       (set_nextHandle (S t) s)).

(** [animationFrameId = requestAnimationFrame(...)] *)
Definition requestAnimationFrame (s : State) : State :=
  let f := nextHandle s in
  set_animationFrameId (Some f)
    (set_frames (frames s ++ [f]) (set_nextHandle (S f) s)).

(** ** Objects *)

(** A change of the object a reference points to. *)
Definition update (r : nat) (f : Mesh -> Mesh) (s : State) : State :=
  set_heap (alter f r (heap s)) s.

Definition setUserData (ud : UserData) (m : Mesh) : Mesh :=
  {| userData := Some ud;
     material_opacity := material_opacity m;
     geometry_disposed := geometry_disposed m;
     material_disposed := material_disposed m |}.

Definition setOpacity (v : number) (m : Mesh) : Mesh :=
  {| userData := userData m;
     material_opacity := v;
     geometry_disposed := geometry_disposed m;
     material_disposed := material_disposed m |}.

Definition setPositions (p : list number) (ud : UserData) : UserData :=
  {| positions := p;
     originalPositions := originalPositions ud;
     velocities := velocities ud;
     colors := colors ud;
     delays := delays ud;
     count := count ud |}.

(** [(object as any).userData] of the object a reference points to. *)
Definition userDataAt (s : State) (r : nat) : option UserData :=
  match heap s !! r with
  | Some m => userData m
  | None => None
  end.

(** [geometry.dispose()] and [material.dispose()] *)
Definition dispose (m : Mesh) : Mesh :=
  {| userData := userData m;
     material_opacity := material_opacity m;
     geometry_disposed := S (geometry_disposed m);
     material_disposed := S (material_disposed m) |}.

(** [scene.add(object)]: three.js detaches the object from its parent
    before it appends it; [scene.remove(object)]. *)
Definition scene_remove (r : nat) (children : list nat) : list nat :=
  filter (fun c => c <> r) children.

Definition scene_add (r : nat) (children : list nat) : list nat :=
  scene_remove r children ++ [r].

(** ** Seeding a new set far away
    (lines 851-869 in [transitionToNext], 1046-1064 in [loadInitialImage]) *)

Definition farPosition (x y : number) (random : Q)
    : number * number * number :=
  let distance := Math_sqrt (x * x + y * y) in
  let scale := Fin 10 + distance * Fin 5 in
  let farX := x * scale in
  let farY := y * scale in
  let farZ := (Fin random - Fin 0.5) * Fin 20 in
  (farX, farY, farZ).

(** One turn of the seeding loop: the layout position is read from [from]
    ([positions] itself in [transitionToNext], [originalPositions] in
    [loadInitialImage]). *)
Definition seedParticle (from : list number) (i : nat)
    (acc : list number * nat) : list number * nat :=
  let '(positions, draws) := acc in
  let x := get from (i * 3) in
  let y := get from (i * 3 + 1) in
  let '(farX, farY, farZ) := farPosition x y (Math_random draws) in
  (set (set (set positions (i * 3) farX) (i * 3 + 1) farY) (i * 3 + 2) farZ,
   S draws).

(** Lines 848-869: the loop reads the array it writes. *)
Definition seedNext (ud : UserData) (draws : nat) : UserData * nat :=
  let '(p, draws') :=
    forCount (count ud) 0
      (fun i acc => seedParticle (fst acc) i acc)
      (positions ud, draws) in
  (setPositions p ud, draws').

(** Lines 1042-1064. *)
Definition seedInitial (ud : UserData) (draws : nat) : UserData * nat :=
  let '(p, draws') :=
    forCount (count ud) 0
      (seedParticle (originalPositions ud))
      (positions ud, draws) in
  (setPositions p ud, draws').

(** ** The transition driver: [transitionToNext] (lines 825-1017) *)

(** A transition in flight: what the closure [animateTransition] captures
    (lines 829, 874-875). *)
Record Session : Type := mkSession {
  nextIndex : nat;
  startTime : number;
  duration : number
}.

(** Lines 879-880. *)
Definition baseProgress (elapsed duration : number) : number :=
  JS.min (elapsed / duration) (Fin 1).

(** The progress of one particle (lines 898-900 and 954-956). *)
Definition particleProgress (elapsed duration particleDelay : number)
    : number :=
  let particleElapsed := JS.max (Fin 0) (elapsed - particleDelay) in
  JS.min (particleElapsed / duration) (Fin 1).

(** One turn of the explode loop (lines 897-930); four calls of
    [Math.random()]. *)
Definition explodeParticle (elapsed duration : number)
    (originalPositions delays : list number) (i : nat)
    (acc : list number * nat) : list number * nat :=
  let '(positions, draws) := acc in
  let particleDelay := get delays i in
  let particleExplodeEase :=
    easeOutExponential (particleProgress elapsed duration particleDelay) in
  let x := get originalPositions (i * 3) in
  let y := get originalPositions (i * 3 + 1) in
  let angle := Math_atan2 y x in
  let force :=
    explodeForce * (Fin 1 + Fin (Math_random draws) * Fin 0.5) in
  let vx :=
    (Math_cos angle * force
     + (Fin (Math_random (draws + 1)) - Fin 0.5) * Fin 0.5)
    * particleExplodeEase * Fin 0.1 in
  let vy :=
    (Math_sin angle * force
     + (Fin (Math_random (draws + 2)) - Fin 0.5) * Fin 0.5)
    * particleExplodeEase * Fin 0.1 in
  let vz :=
    (Fin (Math_random (draws + 3)) - Fin 0.5) * explodeForce
    * particleExplodeEase * Fin 0.1 in
  let newX := get positions (i * 3) + vx in
  let newY := get positions (i * 3 + 1) + vy in
  let newZ := get positions (i * 3 + 2) + vz in
  (set (set (set positions (i * 3) newX) (i * 3 + 1) newY) (i * 3 + 2) newZ,
   (draws + 4)%nat).

(** The new value of one coordinate of an imploding particle
    (lines 967-969). *)
Definition implodeCoordinate (current target particleEaseProgress : number)
    : number :=
  current
  + (target - current) * implodeSpeed * (Fin 1 + particleEaseProgress * Fin 10).

(** One turn of the implode loop (lines 953-978; the same text at lines
    1093-1118 in [animateInitial]). *)
Definition implodeParticle (elapsed duration : number)
    (originalPositions delays : list number) (i : nat)
    (positions : list number) : list number :=
  let particleDelay := get delays i in
  let particleEaseProgress :=
    easeInOutCubic (particleProgress elapsed duration particleDelay) in
  let targetX := get originalPositions (i * 3) in
  let targetY := get originalPositions (i * 3 + 1) in
  let targetZ := get originalPositions (i * 3 + 2) in
  let currentX := get positions (i * 3) in
  let currentY := get positions (i * 3 + 1) in
  let currentZ := get positions (i * 3 + 2) in
  let newX := implodeCoordinate currentX targetX particleEaseProgress in
  let newY := implodeCoordinate currentY targetY particleEaseProgress in
  let newZ := implodeCoordinate currentZ targetZ particleEaseProgress in
  set (set (set positions (i * 3) newX) (i * 3 + 1) newY) (i * 3 + 2) newZ.

(** The explode loop over a set (lines 890-931). *)
Definition explodeSet (elapsed duration : number) (ud : UserData)
    (draws : nat) : UserData * nat :=
  let '(p, draws') :=
    forCount (count ud) 0
      (explodeParticle elapsed duration (originalPositions ud) (delays ud))
      (positions ud, draws) in
  (setPositions p ud, draws').

(** The implode loop over a set (lines 947-979). *)
Definition implodeSet (elapsed duration : number) (ud : UserData)
    : UserData :=
  setPositions
    (forCount (count ud) 0
       (implodeParticle elapsed duration (originalPositions ud) (delays ud))
       (positions ud))
    ud.

(** Lines 882-937: the outgoing set explodes and fades out.  [None]: the
    function returns early (lines 885-888). *)
Definition explodeCurrent (elapsed duration easeProgress : number)
    (s : State) : option State :=
  match currentParticles s with
  | None => Some s
  | Some r =>
      match userDataAt s r with
      | None => None
      | Some ud =>
          let '(ud', draws') := explodeSet elapsed duration ud (randomDraws s) in
          Some
            (update r (setOpacity (Fin 0.9 * (Fin 1 - easeProgress)))
               (update r (setUserData ud') (set_randomDraws draws' s)))
      end
  end.

(** Lines 939-985: the incoming set implodes and fades in. *)
Definition implodeNext (elapsed duration easeProgress : number)
    (s : State) : option State :=
  match nextParticles s with
  | None => Some s
  | Some r =>
      match userDataAt s r with
      | None => None
      | Some ud =>
          Some
            (update r (setOpacity (Fin 0.9 * easeProgress))
               (update r (setUserData (implodeSet elapsed duration ud)) s))
      end
  end.

(** Lines 991-1000: the outgoing set leaves the scene and is disposed,
    the incoming set becomes the current one. *)
Definition promoteNext (sess : Session) (s : State) : State :=
  let s1 :=
    match currentParticles s with
    | Some r => update r dispose (set_scene (scene_remove r (scene s)) s)
    | None => s
    end in
  set_isTransitioning false
    (set_currentImageIndex (nextIndex sess)
       (set_nextParticles None
          (set_currentParticles (nextParticles s1) s1))).

(** Lines 990-1008: the transition is complete. *)
Definition completeTransition (props : Props) (sess : Session) (s : State)
    : State :=
  let s3 := updateCameraForParticles (promoteNext sess s) in
  if autoAdvance props then startAutoAdvance props s3 else s3.

(** One frame: [animateTransition] (lines 877-1010) run when the clock
    reads [now]. *)
Definition animateTransition (props : Props) (sess : Session) (now : number)
    (s : State) : State :=
  let elapsed := now - startTime sess in
  let progress := baseProgress elapsed (duration sess) in
  let easeProgress := easeInOutCubic progress in
  match explodeCurrent elapsed (duration sess) easeProgress s with
  | None => set_isTransitioning false s
  | Some s1 =>
      match implodeNext elapsed (duration sess) easeProgress s1 with
      | None => set_isTransitioning false s1
      | Some s2 =>
          if progress <? Fin 1 then requestAnimationFrame s2
          else completeTransition props sess s2
      end
  end.

(** [transitionToNext] up to its [await] (lines 826-839): the guard, the
    busy flag, the next image.  [Some (nextIndex, url)]: the function
    awaits [imageToParticles(url)]; [None]: it has returned. *)
Definition transitionToNext_begin (props : Props) (s : State)
    : State * option (nat * string) :=
  if isTransitioning s || (length (images props) =? 0)%nat then (s, None)
  else
    let s1 := set_isTransitioning true s in
    let nextIndex := ((currentImageIndex s + 1) mod length (images props))%nat in
    match images props !! nextIndex with
    | Some nextImageUrl =>
        if String.eqb nextImageUrl "" then (set_isTransitioning false s1, None)
        else (s1, Some (nextIndex, nextImageUrl))
    | None => (set_isTransitioning false s1, None)
    end.

(** [transitionToNext] from the moment the promise settles (lines 839-876,
    1012-1016), the first frame included.  [now] is the clock at line 874,
    [now'] the clock of the first frame.  [Some sess]: a transition is in
    flight. *)
Definition transitionToNext_resume (props : Props) (nextIndex : nat)
    (nextImageUrl : string) (now now' : number) (s : State)
    : State * option Session :=
  match imageToParticles (particleDensity props) nextImageUrl (randomDraws s)
  with
  | (inl _, _) => (set_isTransitioning false s, None)
  | (inr mesh, draws) =>
      let r := length (heap s) in
      let s1 :=
        set_nextParticles (Some r)
          (set_heap (heap s ++ [mesh]) (set_randomDraws draws s)) in
      match userData mesh with
      | None => (set_isTransitioning false s1, None)
      | Some nextUserData =>
          let '(ud, draws') := seedNext nextUserData draws in
          let s2 := update r (setUserData ud) (set_randomDraws draws' s1) in
          let s3 := set_scene (scene_add r (scene s2)) s2 in
          let sess :=
            {| nextIndex := nextIndex;
               startTime := now;
               duration := transitionDuration props |} in
          (animateTransition props sess now' s3, Some sess)
      end
  end.

(** [transitionToNext] when nothing else runs while it awaits. *)
Definition transitionToNext (props : Props) (now now' : number) (s : State)
    : State * option Session :=
  match transitionToNext_begin props s with
  | (s1, Some (nextIndex, nextImageUrl)) =>
      transitionToNext_resume props nextIndex nextImageUrl now now' s1
  | (s1, None) => (s1, None)
  end.

(** ** The initial load: [loadInitialImage] (lines 1030-1140) *)

(** One frame of [animateInitial] (lines 1076-1134). *)
Definition animateInitial (props : Props) (startTime duration now : number)
    (s : State) : State :=
  let elapsed := now - startTime in
  let progress := JS.min (elapsed / duration) (Fin 1) in
  let easeProgress := easeInOutCubic progress in
  let finish (s' : State) : State :=
    if progress <? Fin 1 then requestAnimationFrame s'
    else if autoAdvance props then startAutoAdvance props s' else s' in
  match currentParticles s with
  | None => finish s
  | Some r =>
      match userDataAt s r with
      | None => s
      | Some ud =>
          finish
            (update r (setOpacity (Fin 0.9 * easeProgress))
               (update r (setUserData (implodeSet elapsed duration ud)) s))
      end
  end.

(** [loadInitialImage], the first frame of [animateInitial] included.
    [now] is the clock at line 1073, [now'] the clock of the first frame. *)
Definition loadInitialImage (props : Props) (now now' : number) (s : State)
    : State :=
  if (length (images props) =? 0)%nat then s else
  match images props !! currentImageIndex s with
  | None => s
  | Some imageUrl =>
      if String.eqb imageUrl "" then s else
      match imageToParticles (particleDensity props) imageUrl (randomDraws s)
      with
      | (inl _, _) => s
      | (inr mesh, draws) =>
          let r := length (heap s) in
          let s1 :=
            set_currentParticles (Some r)
              (set_heap (heap s ++ [mesh]) (set_randomDraws draws s)) in
          let s2 :=
            match userData mesh with
            | None => s1
            | Some currentUserData =>
                let '(ud, draws') := seedInitial currentUserData draws in
                update r (setUserData ud) (set_randomDraws draws' s1)
            end in
          let s3 := set_scene (scene_add r (scene s2)) s2 in
          let s4 := updateCameraForParticles s3 in
          animateInitial props now (transitionDuration props) now' s4
      end
  end.

End Program.

(** ** The watcher of the list of images and the timer callback *)

Section Lifecycle.

Context `{host : Host}.

Open Scope js_scope.

(** The watcher of [props.images] (part_001 lines 1456-1468), run with the
    new properties: unless a transition is in flight, the first image is
    loaded again in place of the current set. *)
Definition onImagesChanged (props : Props) (now now' : number) (s : State)
    : State :=
  if (0 <? length (images props))%nat && negb (isTransitioning s) then
    let s1 := set_currentImageIndex 0 s in
    let s2 :=
      match currentParticles s1 with
      | Some r =>
          set_currentParticles None
            (update r dispose (set_scene (scene_remove r (scene s1)) s1))
      | None => s1
      end in
    loadInitialImage props now now' s2
  else s.

(** The timer [t] fires (lines 1450-1452): it is not pending any more, and
    its callback calls [transitionToNext], here up to its [await]. *)
Definition autoAdvanceFires (props : Props) (t : nat) (s : State)
    : State * option (nat * string) :=
  transitionToNext_begin props
    (set_timers (filter (fun e => fst e <> t) (timers s)) s).

End Lifecycle.

(** ** The camera module (src/unnamed/part_000)

    [updateCameraForParticles] is the function of the component, on an
    explicit state.  Of the state of the module the two other framers read
    the camera, the window and the number of planes of the work gallery,
    which is an argument here; [handleResize] (also part_001 lines 572-578)
    reads and writes the renderer and the aspect of the camera. *)

Section CameraModule.

Context `{host : Host}.

Open Scope js_scope.

(** [Math.ceil] *)
Definition Math_ceil (a : number) : number :=
  match a with
  | Fin q => Fin (inject_Z (Qceiling q))
  | _ => a
  end.

(** The distance both framers of the work gallery compute for a rectangle
    (part_000 lines 103-110 and 119-126). *)
Definition fitDistance (cam : Camera) (innerWidth innerHeight : number)
    (width height : number) : number :=
  let screenAspect := innerWidth / innerHeight in
  let fovRad := fov cam * (Math_PI / Fin 180) in
  let halfFovRad := fovRad / Fin 2 in
  let tanHalfFov := halfFovRad in
  let distanceForWidth := (width / Fin 2) / (tanHalfFov * screenAspect) in
  let distanceForHeight := (height / Fin 2) / tanHalfFov in
  JS.max distanceForWidth distanceForHeight * Fin 1.1.

(** [updateCameraForWorkGrid] (part_000 lines 91-113) *)
Definition updateCameraForWorkGrid (workImagePlanes : nat) (s : State)
    : State :=
  match camera s with
  | None => s
  | Some cam =>
      if (workImagePlanes =? 0)%nat then s else
      let length := Fin (inject_Z (Z.of_nat workImagePlanes)) in
      let cols := Math_ceil (Math_sqrt length) in
      let rows := Math_ceil (length / cols) in
      let spacing := Fin 0.4 in
      let margin := Fin 0.2 in
      let totalWidth := cols * spacing - spacing + margin * Fin 2 in
      let totalHeight := rows * spacing - spacing + margin * Fin 2 in
      set_targetCameraZ
        (fitDistance cam (innerWidth s) (innerHeight s) totalWidth totalHeight)
        s
  end.

(** [updateCameraForWorkImage] (part_000 lines 115-129) *)
Definition updateCameraForWorkImage (width height : number) (s : State)
    : State :=
  match camera s with
  | None => s
  | Some cam =>
      set_targetCameraZ
        (fitDistance cam (innerWidth s) (innerHeight s) width height) s
  end.

(** The renderer, by the size it was last given ([None]: there is no
    renderer), and the aspect of the camera. *)
Record Display : Type := mkDisplay {
  renderer : option (number * number);
  cameraAspect : number
}.

(** [handleResize] (part_000 lines 131-138, part_001 lines 572-578) *)
Definition handleResize (s : State) (d : Display) : State * Display :=
  match camera s, renderer d with
  | Some _, Some _ =>
      (updateCameraForParticles s,
       {| renderer := Some (innerWidth s, innerHeight s);
          cameraAspect := innerWidth s / innerHeight s |})
  | _, _ => (s, d)
  end.

End CameraModule.

(** ** The overlay and the camera rig
    (part_001 lines 39-59, 184-265 and 1143-1443)

    The texts over the particles, the menu they make, the mouse and the
    render loop.  They share the window, the camera target and the handles
    of the browser with the viewer, whose state they extend. *)

(** What the overlay asks of the browser and of the font. *)
Class Browser : Type := {
  (** the value of the [n]-th call of [Date.now()] made by the overlay and
      the render loop *)
  Date_now : nat -> number;
  (** [min.x] and [max.x] of the bounding box the [TextGeometry] of a word
      of the CV has after [computeBoundingBox], if it has one *)
  wordBoundingBox : string -> option (number * number)
}.

Section Interface.

Context `{host : Host} `{browser : Browser}.

Open Scope js_scope.

(** A text of the overlay: a [THREE.Mesh] of a [TextGeometry] with its
    [MeshStandardMaterial].  Every write of the scale is
    [scale.set(v, v, v)] and every read is of [scale.x]. *)
Record Text : Type := mkText {
  color : Z;   (* material.color *)
  opacity : number;   (* material.opacity *)
  emissiveIntensity : number;   (* material.emissiveIntensity *)
  scale_x : number;   (* scale.x *)
  position : number * number * number;   (* position *)
  text_geometry_disposed : nat;   (* calls of geometry.dispose() *)
  text_material_disposed : nat   (* calls of material.dispose() *)
}.

(** The array an animation of the menu walks through: one made for the call
    ([[...].filter(Boolean)]) or the array [cvTextMeshes] held when the
    animation started, which later calls of [push] extend. *)
Inductive Meshes : Type :=
| Own (elements : list nat)
| Shared (array : nat).

(** What the closure [animate] of [animateMenuTransition] keeps
    (lines 1143-1154). *)
Record MenuAnimation : Type := mkMenuAnimation {
  meshes : Meshes;
  targetOpacity : number;
  targetScale : number;
  menuDuration : number;   (* duration *)
  menuStartTime : number;   (* startTime *)
  startOpacities : list number;
  startScales : list number
}.

(** The texts and the menu (the variables of lines 39-46), with the objects
    they refer to and the callbacks that are pending for them.  A text is
    referred to by its index in [texts], an array by its index in
    [arrays]. *)
Record Overlay : Type := mkOverlay {
  texts : list Text;   (* the text objects *)
  arrays : list (list nat);   (* the arrays cvTextMeshes has held *)
  textChildren : list nat;   (* the children of the scene that are texts *)
  textMesh : option nat;
  workTextMesh : option nat;
  cvTextMesh : option nat;
  contactTextMesh : option nat;
  emailTextMesh : option nat;
  cvTextMeshes : nat;   (* the array the variable holds *)
  showingEmail : bool;
  showingCV : bool;
  menuFrames : list (nat * MenuAnimation);   (* pending frames of animateMenuTransition *)
  revealTimers : list nat;   (* pending timeouts of showCVWords *)
  fontLoads : nat;   (* pending font loads of createCVWords *)
  dateNowCalls : nat   (* calls of Date.now() so far *)
}.

(** The mouse and the camera rig (lines 47-59). *)
Record Rig : Type := mkRig {
  mouseX : number;
  mouseY : number;
  targetRotationX : number;
  targetRotationY : number;
  currentRotationX : number;
  currentRotationY : number;
  mouse : number * number;   (* the Vector2 of the raycaster *)
  isCameraZoomedOut : bool;
  currentCameraZ : number;
  camera_position : number * number * number;   (* camera.position *)
  raycaster : bool   (* the raycaster exists *)
}.

(** The element of the component. *)
Record Page : Type := mkPage {
  containerRef : bool;   (* containerRef.value is an element *)
  cursor : string;   (* its style.cursor *)
  sceneCreated : bool   (* scene has been assigned *)
}.

(** The whole component. *)
Record Viewer : Type := mkViewer {
  state : State;
  display : Display;
  page : Page;
  rig : Rig;
  overlay : Overlay
}.

(** Assignments to one part of the component. *)
Definition mapState (f : State -> State) (c : Viewer) : Viewer :=
  {| state := f (state c);
     display := display c;
     page := page c;
     rig := rig c;
     overlay := overlay c |}.

Definition mapDisplay (f : Display -> Display) (c : Viewer) : Viewer :=
  {| state := state c;
     display := f (display c);
     page := page c;
     rig := rig c;
     overlay := overlay c |}.

Definition mapPage (f : Page -> Page) (c : Viewer) : Viewer :=
  {| state := state c;
     display := display c;
     page := f (page c);
     rig := rig c;
     overlay := overlay c |}.

Definition mapRig (f : Rig -> Rig) (c : Viewer) : Viewer :=
  {| state := state c;
     display := display c;
     page := page c;
     rig := f (rig c);
     overlay := overlay c |}.

Definition mapOverlay (f : Overlay -> Overlay) (c : Viewer) : Viewer :=
  {| state := state c;
     display := display c;
     page := page c;
     rig := rig c;
     overlay := f (overlay c) |}.

Definition setText_opacity (v : number) (x : Text) : Text :=
  {| color := color x;
     opacity := v;
     emissiveIntensity := emissiveIntensity x;
     scale_x := scale_x x;
     position := position x;
     text_geometry_disposed := text_geometry_disposed x;
     text_material_disposed := text_material_disposed x |}.

Definition setText_emissiveIntensity (v : number) (x : Text) : Text :=
  {| color := color x;
     opacity := opacity x;
     emissiveIntensity := v;
     scale_x := scale_x x;
     position := position x;
     text_geometry_disposed := text_geometry_disposed x;
     text_material_disposed := text_material_disposed x |}.

Definition setText_scale_x (v : number) (x : Text) : Text :=
  {| color := color x;
     opacity := opacity x;
     emissiveIntensity := emissiveIntensity x;
     scale_x := v;
     position := position x;
     text_geometry_disposed := text_geometry_disposed x;
     text_material_disposed := text_material_disposed x |}.

(** [geometry.dispose()] and [material.dispose()] of a text *)
Definition disposeText (x : Text) : Text :=
  {| color := color x;
     opacity := opacity x;
     emissiveIntensity := emissiveIntensity x;
     scale_x := scale_x x;
     position := position x;
     text_geometry_disposed := S (text_geometry_disposed x);
     text_material_disposed := S (text_material_disposed x) |}.

Definition set_texts (v : list Text) (o : Overlay) : Overlay :=
  {| texts := v;
     arrays := arrays o;
     textChildren := textChildren o;
     textMesh := textMesh o;
     workTextMesh := workTextMesh o;
     cvTextMesh := cvTextMesh o;
     contactTextMesh := contactTextMesh o;
     emailTextMesh := emailTextMesh o;
     cvTextMeshes := cvTextMeshes o;
     showingEmail := showingEmail o;
     showingCV := showingCV o;
     menuFrames := menuFrames o;
     revealTimers := revealTimers o;
     fontLoads := fontLoads o;
     dateNowCalls := dateNowCalls o |}.

Definition set_arrays (v : list (list nat)) (o : Overlay) : Overlay :=
  {| texts := texts o;
     arrays := v;
     textChildren := textChildren o;
     textMesh := textMesh o;
     workTextMesh := workTextMesh o;
     cvTextMesh := cvTextMesh o;
     contactTextMesh := contactTextMesh o;
     emailTextMesh := emailTextMesh o;
     cvTextMeshes := cvTextMeshes o;
     showingEmail := showingEmail o;
     showingCV := showingCV o;
     menuFrames := menuFrames o;
     revealTimers := revealTimers o;
     fontLoads := fontLoads o;
     dateNowCalls := dateNowCalls o |}.

Definition set_textChildren (v : list nat) (o : Overlay) : Overlay :=
  {| texts := texts o;
     arrays := arrays o;
     textChildren := v;
     textMesh := textMesh o;
     workTextMesh := workTextMesh o;
     cvTextMesh := cvTextMesh o;
     contactTextMesh := contactTextMesh o;
     emailTextMesh := emailTextMesh o;
     cvTextMeshes := cvTextMeshes o;
     showingEmail := showingEmail o;
     showingCV := showingCV o;
     menuFrames := menuFrames o;
     revealTimers := revealTimers o;
     fontLoads := fontLoads o;
     dateNowCalls := dateNowCalls o |}.

Definition set_textMesh (v : option nat) (o : Overlay) : Overlay :=
  {| texts := texts o;
     arrays := arrays o;
     textChildren := textChildren o;
     textMesh := v;
     workTextMesh := workTextMesh o;
     cvTextMesh := cvTextMesh o;
     contactTextMesh := contactTextMesh o;
     emailTextMesh := emailTextMesh o;
     cvTextMeshes := cvTextMeshes o;
     showingEmail := showingEmail o;
     showingCV := showingCV o;
     menuFrames := menuFrames o;
     revealTimers := revealTimers o;
     fontLoads := fontLoads o;
     dateNowCalls := dateNowCalls o |}.

Definition set_workTextMesh (v : option nat) (o : Overlay) : Overlay :=
  {| texts := texts o;
     arrays := arrays o;
     textChildren := textChildren o;
     textMesh := textMesh o;
     workTextMesh := v;
     cvTextMesh := cvTextMesh o;
     contactTextMesh := contactTextMesh o;
     emailTextMesh := emailTextMesh o;
     cvTextMeshes := cvTextMeshes o;
     showingEmail := showingEmail o;
     showingCV := showingCV o;
     menuFrames := menuFrames o;
     revealTimers := revealTimers o;
     fontLoads := fontLoads o;
     dateNowCalls := dateNowCalls o |}.

Definition set_cvTextMesh (v : option nat) (o : Overlay) : Overlay :=
  {| texts := texts o;
     arrays := arrays o;
     textChildren := textChildren o;
     textMesh := textMesh o;
     workTextMesh := workTextMesh o;
     cvTextMesh := v;
     contactTextMesh := contactTextMesh o;
     emailTextMesh := emailTextMesh o;
     cvTextMeshes := cvTextMeshes o;
     showingEmail := showingEmail o;
     showingCV := showingCV o;
     menuFrames := menuFrames o;
     revealTimers := revealTimers o;
     fontLoads := fontLoads o;
     dateNowCalls := dateNowCalls o |}.

Definition set_contactTextMesh (v : option nat) (o : Overlay) : Overlay :=
  {| texts := texts o;
     arrays := arrays o;
     textChildren := textChildren o;
     textMesh := textMesh o;
     workTextMesh := workTextMesh o;
     cvTextMesh := cvTextMesh o;
     contactTextMesh := v;
     emailTextMesh := emailTextMesh o;
     cvTextMeshes := cvTextMeshes o;
     showingEmail := showingEmail o;
     showingCV := showingCV o;
     menuFrames := menuFrames o;
     revealTimers := revealTimers o;
     fontLoads := fontLoads o;
     dateNowCalls := dateNowCalls o |}.

Definition set_emailTextMesh (v : option nat) (o : Overlay) : Overlay :=
  {| texts := texts o;
     arrays := arrays o;
     textChildren := textChildren o;
     textMesh := textMesh o;
     workTextMesh := workTextMesh o;
     cvTextMesh := cvTextMesh o;
     contactTextMesh := contactTextMesh o;
     emailTextMesh := v;
     cvTextMeshes := cvTextMeshes o;
     showingEmail := showingEmail o;
     showingCV := showingCV o;
     menuFrames := menuFrames o;
     revealTimers := revealTimers o;
     fontLoads := fontLoads o;
     dateNowCalls := dateNowCalls o |}.

Definition set_cvTextMeshes (v : nat) (o : Overlay) : Overlay :=
  {| texts := texts o;
     arrays := arrays o;
     textChildren := textChildren o;
     textMesh := textMesh o;
     workTextMesh := workTextMesh o;
     cvTextMesh := cvTextMesh o;
     contactTextMesh := contactTextMesh o;
     emailTextMesh := emailTextMesh o;
     cvTextMeshes := v;
     showingEmail := showingEmail o;
     showingCV := showingCV o;
     menuFrames := menuFrames o;
     revealTimers := revealTimers o;
     fontLoads := fontLoads o;
     dateNowCalls := dateNowCalls o |}.

Definition set_showingEmail (v : bool) (o : Overlay) : Overlay :=
  {| texts := texts o;
     arrays := arrays o;
     textChildren := textChildren o;
     textMesh := textMesh o;
     workTextMesh := workTextMesh o;
     cvTextMesh := cvTextMesh o;
     contactTextMesh := contactTextMesh o;
     emailTextMesh := emailTextMesh o;
     cvTextMeshes := cvTextMeshes o;
     showingEmail := v;
     showingCV := showingCV o;
     menuFrames := menuFrames o;
     revealTimers := revealTimers o;
     fontLoads := fontLoads o;
     dateNowCalls := dateNowCalls o |}.

Definition set_showingCV (v : bool) (o : Overlay) : Overlay :=
  {| texts := texts o;
     arrays := arrays o;
     textChildren := textChildren o;
     textMesh := textMesh o;
     workTextMesh := workTextMesh o;
     cvTextMesh := cvTextMesh o;
     contactTextMesh := contactTextMesh o;
     emailTextMesh := emailTextMesh o;
     cvTextMeshes := cvTextMeshes o;
     showingEmail := showingEmail o;
     showingCV := v;
     menuFrames := menuFrames o;
     revealTimers := revealTimers o;
     fontLoads := fontLoads o;
     dateNowCalls := dateNowCalls o |}.

Definition set_menuFrames (v : list (nat * MenuAnimation)) (o : Overlay) : Overlay :=
  {| texts := texts o;
     arrays := arrays o;
     textChildren := textChildren o;
     textMesh := textMesh o;
     workTextMesh := workTextMesh o;
     cvTextMesh := cvTextMesh o;
     contactTextMesh := contactTextMesh o;
     emailTextMesh := emailTextMesh o;
     cvTextMeshes := cvTextMeshes o;
     showingEmail := showingEmail o;
     showingCV := showingCV o;
     menuFrames := v;
     revealTimers := revealTimers o;
     fontLoads := fontLoads o;
     dateNowCalls := dateNowCalls o |}.

Definition set_revealTimers (v : list nat) (o : Overlay) : Overlay :=
  {| texts := texts o;
     arrays := arrays o;
     textChildren := textChildren o;
     textMesh := textMesh o;
     workTextMesh := workTextMesh o;
     cvTextMesh := cvTextMesh o;
     contactTextMesh := contactTextMesh o;
     emailTextMesh := emailTextMesh o;
     cvTextMeshes := cvTextMeshes o;
     showingEmail := showingEmail o;
     showingCV := showingCV o;
     menuFrames := menuFrames o;
     revealTimers := v;
     fontLoads := fontLoads o;
     dateNowCalls := dateNowCalls o |}.

Definition set_fontLoads (v : nat) (o : Overlay) : Overlay :=
  {| texts := texts o;
     arrays := arrays o;
     textChildren := textChildren o;
     textMesh := textMesh o;
     workTextMesh := workTextMesh o;
     cvTextMesh := cvTextMesh o;
     contactTextMesh := contactTextMesh o;
     emailTextMesh := emailTextMesh o;
     cvTextMeshes := cvTextMeshes o;
     showingEmail := showingEmail o;
     showingCV := showingCV o;
     menuFrames := menuFrames o;
     revealTimers := revealTimers o;
     fontLoads := v;
     dateNowCalls := dateNowCalls o |}.

Definition set_dateNowCalls (v : nat) (o : Overlay) : Overlay :=
  {| texts := texts o;
     arrays := arrays o;
     textChildren := textChildren o;
     textMesh := textMesh o;
     workTextMesh := workTextMesh o;
     cvTextMesh := cvTextMesh o;
     contactTextMesh := contactTextMesh o;
     emailTextMesh := emailTextMesh o;
     cvTextMeshes := cvTextMeshes o;
     showingEmail := showingEmail o;
     showingCV := showingCV o;
     menuFrames := menuFrames o;
     revealTimers := revealTimers o;
     fontLoads := fontLoads o;
     dateNowCalls := v |}.

Definition set_mouse (v : number * number) (r : Rig) : Rig :=
  {| mouseX := mouseX r;
     mouseY := mouseY r;
     targetRotationX := targetRotationX r;
     targetRotationY := targetRotationY r;
     currentRotationX := currentRotationX r;
     currentRotationY := currentRotationY r;
     mouse := v;
     isCameraZoomedOut := isCameraZoomedOut r;
     currentCameraZ := currentCameraZ r;
     camera_position := camera_position r;
     raycaster := raycaster r |}.

Definition set_isCameraZoomedOut (v : bool) (r : Rig) : Rig :=
  {| mouseX := mouseX r;
     mouseY := mouseY r;
     targetRotationX := targetRotationX r;
     targetRotationY := targetRotationY r;
     currentRotationX := currentRotationX r;
     currentRotationY := currentRotationY r;
     mouse := mouse r;
     isCameraZoomedOut := v;
     currentCameraZ := currentCameraZ r;
     camera_position := camera_position r;
     raycaster := raycaster r |}.

Definition set_currentCameraZ (v : number) (r : Rig) : Rig :=
  {| mouseX := mouseX r;
     mouseY := mouseY r;
     targetRotationX := targetRotationX r;
     targetRotationY := targetRotationY r;
     currentRotationX := currentRotationX r;
     currentRotationY := currentRotationY r;
     mouse := mouse r;
     isCameraZoomedOut := isCameraZoomedOut r;
     currentCameraZ := v;
     camera_position := camera_position r;
     raycaster := raycaster r |}.

Definition set_currentRotationX (v : number) (r : Rig) : Rig :=
  {| mouseX := mouseX r;
     mouseY := mouseY r;
     targetRotationX := targetRotationX r;
     targetRotationY := targetRotationY r;
     currentRotationX := v;
     currentRotationY := currentRotationY r;
     mouse := mouse r;
     isCameraZoomedOut := isCameraZoomedOut r;
     currentCameraZ := currentCameraZ r;
     camera_position := camera_position r;
     raycaster := raycaster r |}.

Definition set_currentRotationY (v : number) (r : Rig) : Rig :=
  {| mouseX := mouseX r;
     mouseY := mouseY r;
     targetRotationX := targetRotationX r;
     targetRotationY := targetRotationY r;
     currentRotationX := currentRotationX r;
     currentRotationY := v;
     mouse := mouse r;
     isCameraZoomedOut := isCameraZoomedOut r;
     currentCameraZ := currentCameraZ r;
     camera_position := camera_position r;
     raycaster := raycaster r |}.

Definition set_camera_position (v : number * number * number) (r : Rig) : Rig :=
  {| mouseX := mouseX r;
     mouseY := mouseY r;
     targetRotationX := targetRotationX r;
     targetRotationY := targetRotationY r;
     currentRotationX := currentRotationX r;
     currentRotationY := currentRotationY r;
     mouse := mouse r;
     isCameraZoomedOut := isCameraZoomedOut r;
     currentCameraZ := currentCameraZ r;
     camera_position := v;
     raycaster := raycaster r |}.

Definition set_raycaster (v : bool) (r : Rig) : Rig :=
  {| mouseX := mouseX r;
     mouseY := mouseY r;
     targetRotationX := targetRotationX r;
     targetRotationY := targetRotationY r;
     currentRotationX := currentRotationX r;
     currentRotationY := currentRotationY r;
     mouse := mouse r;
     isCameraZoomedOut := isCameraZoomedOut r;
     currentCameraZ := currentCameraZ r;
     camera_position := camera_position r;
     raycaster := v |}.

Definition set_cursor (v : string) (p : Page) : Page :=
  {| containerRef := containerRef p;
     cursor := v;
     sceneCreated := sceneCreated p |}.

Definition set_sceneCreated (v : bool) (p : Page) : Page :=
  {| containerRef := containerRef p;
     cursor := cursor p;
     sceneCreated := v |}.

(** ** Reads and writes of the objects *)

(** [Date.now()] *)
Definition dateNow (c : Viewer) : number * Viewer :=
  (Date_now (dateNowCalls (overlay c)),
   mapOverlay (fun o => set_dateNowCalls (S (dateNowCalls o)) o) c).

(** A change of the text a reference points to. *)
Definition updateText (r : nat) (f : Text -> Text) (c : Viewer) : Viewer :=
  mapOverlay (fun o => set_texts (alter f r (texts o)) o) c.

(** The elements of an array of texts. *)
Definition elementsOf (o : Overlay) (ms : Meshes) : list nat :=
  match ms with
  | Own elements => elements
  | Shared array => default [] (arrays o !! array)
  end.

(** An element of an array of numbers where it is used in arithmetic: a
    read past the end gives [undefined], which counts as NaN there. *)
Definition item (a : list number) (i : nat) : number :=
  default NaN (a !! i).

(** [[...].filter(Boolean)] on variables that hold a text or [null] *)
Definition nonNull (variables : list (option nat)) : list nat :=
  omap id variables.

(** [array.forEach((x, i) => body)] *)
Fixpoint forEach {A B : Type} (l : list A) (i : nat)
    (body : A -> nat -> B -> B) (acc : B) : B :=
  match l with
  | [] => acc
  | x :: l' => forEach l' (S i) body (body x i acc)
  end.

Definition ofNat (n : nat) : number := Fin (inject_Z (Z.of_nat n)).

(** ** The mouse (lines 184-196) *)

Definition handleMouseMove (clientX clientY : number) (c : Viewer) : Viewer :=
  let mouseX' := (clientX / innerWidth (state c)) * Fin 2 - Fin 1 in
  let mouseY' := (clientY / innerHeight (state c)) * Fin 2 - Fin 1 in
  mapRig
    (fun r =>
       {| mouseX := mouseX';
          mouseY := mouseY';
          targetRotationX := (- mouseY') * Fin 0.15;
          targetRotationY := mouseX' * Fin 0.15;
          currentRotationX := currentRotationX r;
          currentRotationY := currentRotationY r;
          mouse := (mouseX', - mouseY');
          isCameraZoomedOut := isCameraZoomedOut r;
          currentCameraZ := currentCameraZ r;
          camera_position := camera_position r;
          raycaster := raycaster r |})
    c.

(** ** The animations of the menu (lines 1143-1176) *)

(** The ease of the menu (lines 1159-1161). *)
Definition menuEase (progress : number) : number :=
  if progress <? Fin 0.5 then Fin 2 * progress * progress
  else Fin 1 - Math_pow (Fin (-2) * progress + Fin 2) (Fin 2) / Fin 2.

(** [requestAnimationFrame(animate)] in the closure of an animation: the
    handle is not kept. *)
Definition requestMenuFrame (a : MenuAnimation) (c : Viewer) : Viewer :=
  let f := nextHandle (state c) in
  mapOverlay (fun o => set_menuFrames (menuFrames o ++ [(f, a)]) o)
    (mapState (set_nextHandle (S f)) c).

(** One run of the closure [animate] of an animation (lines 1156-1173). *)
Definition menuAnimate (a : MenuAnimation) (c : Viewer) : Viewer :=
  let '(now, c1) := dateNow c in
  let elapsed := now - menuStartTime a in
  let progress := JS.min (elapsed / menuDuration a) (Fin 1) in
  let easeProgress := menuEase progress in
  let c2 :=
    forEach (elementsOf (overlay c1) (meshes a)) 0
      (fun mesh i c' =>
         let startOpacity := item (startOpacities a) i in
         let startScale := item (startScales a) i in
         let scale :=
           startScale + (targetScale a - startScale) * easeProgress in
         updateText mesh
           (fun x =>
              setText_scale_x scale
                (setText_opacity
                   (startOpacity
                    + (targetOpacity a - startOpacity) * easeProgress) x))
           c')
      c1 in
  if progress <? Fin 1 then requestMenuFrame a c2 else c2.

(** A property of the text a reference points to, where it is used in
    arithmetic. *)
Definition textValue (f : Text -> number) (c : Viewer) (r : nat) : number :=
  match texts (overlay c) !! r with
  | Some x => f x
  | None => NaN
  end.

Definition animateMenuTransition (ms : Meshes)
    (targetOpacity targetScale duration : number) (c : Viewer) : Viewer :=
  let '(startTime, c1) := dateNow c in
  let startOpacities :=
    map (textValue opacity c1) (elementsOf (overlay c1) ms) in
  let startScales :=
    map (textValue scale_x c1) (elementsOf (overlay c1) ms) in
  menuAnimate
    (mkMenuAnimation ms targetOpacity targetScale duration startTime
       startOpacities startScales)
    c1.

(** A pending frame of an animation runs. *)
Definition menuFrameFires (f : nat) (c : Viewer) : Viewer :=
  match list_find (fun e => e.1 = f) (menuFrames (overlay c)) with
  | Some (_, (_, a)) =>
      menuAnimate a
        (mapOverlay
           (fun o =>
              set_menuFrames
                (filter (fun e => e.1 <> f) (menuFrames o)) o)
           c)
  | None => c
  end.

(** ** The words of the CV (lines 1255-1340) *)

Definition cvWordList : list string :=
  ["40 YEARS OF EXPERIENCE IN"; "VUE"; "ANGULAR"; "REACT";
   "THREEJS"; "CINEMA4D"; "AFTERFX"; "PHOTOSHOP"; "C++"; "TYPESCRIPT";
   "JAVASCRIPT"; "NODEJS"; "C#"; "VIDEO"; "3D"; "SOUND"; "MUSIC"; "ESP32";
   "ARDUINO"; "RASPBERRY PI"; "ANALOGUE ELECTRONICS";
   "DIGITAL ELECTRONICS"; "AI"]%string.

(** Cyan, magenta and yellow: 0x00ffff, 0xff00ff and 0xffff00. *)
Definition cvWordColors : list Z := [65535; 16711935; 16776960]%Z.

(** [createCVWords] up to the call of the loader. *)
Definition createCVWords (c : Viewer) : Viewer :=
  match textMesh (overlay c) with
  | None => c
  | Some _ => mapOverlay (fun o => set_fontLoads (S (fontLoads o)) o) c
  end.

(** [scene.add(wordMesh)] and [cvTextMeshes.push(wordMesh)] for a new
    text. *)
Definition addWord (wordMesh : Text) (c : Viewer) : Viewer :=
  mapOverlay
    (fun o =>
       let r := length (texts o) in
       set_arrays (alter (fun a => a ++ [r]) (cvTextMeshes o) (arrays o))
         (set_textChildren (textChildren o ++ [r])
            (set_texts (texts o ++ [wordMesh]) o)))
    c.

(** The body of the loop over the words (lines 1286-1331), on
    [currentX], [currentY] and [colorIndex]. *)
Definition placeWord (colors : list Z) (spacing : number) (wordsPerRow : nat)
    (word : string) (index : nat)
    (acc : number * number * nat * Viewer) : number * number * nat * Viewer :=
  let '(currentX, currentY, colorIndex, c) := acc in
  let color := default 0%Z (colors !! colorIndex) in
  let '(position, currentX1) :=
    match wordBoundingBox word with
    | Some (min_x, max_x) =>
        let wordWidth := max_x - min_x in
        ((currentX - min_x, currentY, Fin 0.1),
         currentX + (wordWidth + spacing))
    | None =>
        ((currentX, currentY, Fin 0.1), currentX + (Fin 0.3 + spacing))
    end in
  let '(currentX2, currentY2) :=
    if ((index + 1) mod wordsPerRow =? 0)%nat
    then (Fin (-0.6), currentY - spacing)
    else (currentX1, currentY) in
  let wordMesh :=
    {| color := color;
       opacity := Fin 0;
       emissiveIntensity := Fin 0.5;
       scale_x := Fin 0;
       position := position;
       text_geometry_disposed := 0;
       text_material_disposed := 0 |} in
  (currentX2, currentY2, ((colorIndex + 1) mod length colors)%nat,
   addWord wordMesh c).

(** The callback of the loader (lines 1285-1333), with the constants and
    the variables of the call it belongs to (lines 1258-1279). *)
Definition cvWordsLoaded (c : Viewer) : Viewer :=
  let words := cvWordList in
  let colors := cvWordColors in
  let wordSize := Fin 0.04 in
  let spacing := Fin 0.06 in
  let wordsPerRow := 4%nat in
  let totalRows := Math_ceil (ofNat (length words) / ofNat wordsPerRow) in
  let totalHeight := (totalRows - Fin 1) * spacing + wordSize in
  let startY := totalHeight / Fin 2 in
  (forEach words 0 (placeWord colors spacing wordsPerRow)
     (Fin (-0.6), startY, 0%nat, c)).2.

(** A pending load of the font ends: with the font, or in an error, which
    is only logged. *)
Definition fontLoads_end (loaded : bool) (c : Viewer) : Viewer :=
  match fontLoads (overlay c) with
  | O => c
  | S n =>
      let c1 := mapOverlay (set_fontLoads n) c in
      if loaded then cvWordsLoaded c1 else c1
  end.

(** ** The menu (lines 1179-1252) *)

Definition menuItemsOf (o : Overlay) : list nat :=
  nonNull [workTextMesh o; cvTextMesh o; contactTextMesh o].

Definition showEmail (c : Viewer) : Viewer :=
  let c1 := mapOverlay (set_showingEmail true) c in
  let menuItems := menuItemsOf (overlay c1) in
  let c2 :=
    if (0 <? length menuItems)%nat
    then animateMenuTransition (Own menuItems) (Fin 0) (Fin 0) (Fin 300) c1
    else c1 in
  match emailTextMesh (overlay c2) with
  | Some e => animateMenuTransition (Own [e]) (Fin 0.8) (Fin 1) (Fin 300) c2
  | None => c2
  end.

Definition showMenu (c : Viewer) : Viewer :=
  let c1 := mapOverlay (set_showingEmail false) c in
  let c2 :=
    match emailTextMesh (overlay c1) with
    | Some e => animateMenuTransition (Own [e]) (Fin 0) (Fin 0) (Fin 300) c1
    | None => c1
    end in
  let menuItems := menuItemsOf (overlay c2) in
  if (0 <? length menuItems)%nat
  then animateMenuTransition (Own menuItems) (Fin 0.8) (Fin 1) (Fin 300) c2
  else c2.

(** The array the variable [cvTextMeshes] holds. *)
Definition cvWords (o : Overlay) : list nat :=
  default [] (arrays o !! cvTextMeshes o).

Definition showCVWords (c : Viewer) : Viewer :=
  let c1 := mapOverlay (set_showingCV true) c in
  let allText :=
    nonNull [textMesh (overlay c1); workTextMesh (overlay c1);
             cvTextMesh (overlay c1); contactTextMesh (overlay c1);
             emailTextMesh (overlay c1)] in
  let c2 :=
    if (0 <? length allText)%nat
    then animateMenuTransition (Own allText) (Fin 0) (Fin 0) (Fin 300) c1
    else c1 in
  let c3 :=
    if (length (cvWords (overlay c2)) =? 0)%nat then createCVWords c2
    else c2 in
  let t := nextHandle (state c3) in
  mapOverlay (fun o => set_revealTimers (revealTimers o ++ [t]) o)
    (mapState (set_nextHandle (S t)) c3).

(** The timeout of [showCVWords] runs (lines 1226-1230). *)
Definition revealTimerFires (t : nat) (c : Viewer) : Viewer :=
  if bool_decide (t ∈ revealTimers (overlay c)) then
    let c1 :=
      mapOverlay
        (fun o => set_revealTimers (filter (fun h => h <> t) (revealTimers o)) o)
        c in
    if (0 <? length (cvWords (overlay c1)))%nat
    then animateMenuTransition (Shared (cvTextMeshes (overlay c1)))
           (Fin 0.8) (Fin 1) (Fin 300) c1
    else c1
  else c.

Definition hideCVWords (c : Viewer) : Viewer :=
  let c1 := mapOverlay (set_showingCV false) c in
  let c2 :=
    if (0 <? length (cvWords (overlay c1)))%nat
    then animateMenuTransition (Shared (cvTextMeshes (overlay c1)))
           (Fin 0) (Fin 0) (Fin 300) c1
    else c1 in
  let mainText := nonNull [textMesh (overlay c2)] in
  let menuItems := menuItemsOf (overlay c2) in
  let c3 :=
    if (0 <? length mainText)%nat
    then animateMenuTransition (Own mainText) (Fin 0.8) (Fin 1) (Fin 300) c2
    else c2 in
  if (0 <? length menuItems)%nat
  then animateMenuTransition (Own menuItems) (Fin 0.8) (Fin 1) (Fin 300) c3
  else c3.

(** ** Clicks (lines 204-265) *)

(** [clickedMesh === variable] *)
Definition isText (variable : option nat) (clickedMesh : nat) : bool :=
  bool_decide (variable = Some clickedMesh).

(** The three tests the handler makes on the text that was hit: the title
    and WORK (lines 227-245), CONTACT and the email (lines 247-254), CV and
    its words (lines 256-262). *)
Definition clickTitle (clickedMesh : nat) (c : Viewer) : Viewer :=
  if isText (textMesh (overlay c)) clickedMesh
     || isText (workTextMesh (overlay c)) clickedMesh
  then
    let c1 := if showingEmail (overlay c) then showMenu c else c in
    let c2 := if showingCV (overlay c1) then hideCVWords c1 else c1 in
    if isCameraZoomedOut (rig c2) then
      mapRig (set_isCameraZoomedOut false)
        (mapState updateCameraForParticles c2)
    else
      mapRig (set_isCameraZoomedOut true)
        (mapState (set_targetCameraZ (currentCameraZ (rig c2) * Fin 3)) c2)
  else c.

Definition clickContact (clickedMesh : nat) (c : Viewer) : Viewer :=
  if isText (contactTextMesh (overlay c)) clickedMesh
     && negb (showingEmail (overlay c))
     && negb (showingCV (overlay c))
  then showEmail c
  else if isText (emailTextMesh (overlay c)) clickedMesh
          && showingEmail (overlay c)
  then showMenu c
  else c.

Definition clickCV (clickedMesh : nat) (c : Viewer) : Viewer :=
  if isText (cvTextMesh (overlay c)) clickedMesh
     && negb (showingCV (overlay c))
     && negb (showingEmail (overlay c))
  then showCVWords c
  else if showingCV (overlay c)
          && bool_decide (clickedMesh ∈ cvWords (overlay c))
  then hideCVWords c
  else c.

(** [handleClick]; [intersects] is what the raycaster finds of the texts
    under the mouse, the nearest first. *)
Definition handleClick (clientX clientY : number) (intersects : list nat)
    (c : Viewer) : Viewer :=
  match raycaster (rig c), camera (state c) with
  | true, Some _ =>
      let c0 :=
        mapRig
          (set_mouse
             ((clientX / innerWidth (state c)) * Fin 2 - Fin 1,
              (- (clientY / innerHeight (state c))) * Fin 2 + Fin 1))
          c in
      match intersects with
      | [] => c0
      | clickedMesh :: _ =>
          clickCV clickedMesh
            (clickContact clickedMesh (clickTitle clickedMesh c0))
      end
  | _, _ => c
  end.

(** ** The render loop (lines 1343-1443) *)

(** [material.emissiveIntensity = 0.5] for the text of a variable *)
Definition resetGlow (variable : option nat) (c : Viewer) : Viewer :=
  match variable with
  | Some r => updateText r (setText_emissiveIntensity (Fin 0.5)) c
  | None => c
  end.

(** The glow of the texts and the cursor (lines 1357-1422). *)
Definition hover (intersects : list nat) (c : Viewer) : Viewer :=
  let o := overlay c in
  let c1 := if negb (showingCV o) then resetGlow (textMesh o) c else c in
  let c2 :=
    if negb (showingEmail o) && negb (showingCV o) then
      resetGlow (contactTextMesh o)
        (resetGlow (cvTextMesh o) (resetGlow (workTextMesh o) c1))
    else c1 in
  let c3 := if showingEmail o then resetGlow (emailTextMesh o) c2 else c2 in
  let c4 :=
    if showingCV o then
      forEach (cvWords o) 0
        (fun mesh _ c' =>
           updateText mesh (setText_emissiveIntensity (Fin 0.5)) c')
        c3
    else c3 in
  match intersects with
  | hoveredMesh :: _ =>
      if (textValue opacity c4 hoveredMesh >? Fin 0.1)
         && (textValue scale_x c4 hoveredMesh >? Fin 0.1)
      then
        let c5 :=
          updateText hoveredMesh (setText_emissiveIntensity (Fin 2)) c4 in
        if containerRef (page c5) then mapPage (set_cursor "pointer") c5
        else c5
      else c4
  | [] =>
      if containerRef (page c4) then mapPage (set_cursor "default") c4
      else c4
  end.

(** [animate]; [intersects] is what the raycaster finds of the texts under
    the mouse.  The orientation [lookAt] gives the camera and the picture
    [render] draws are not represented. *)
Definition animate (intersects : list nat) (c : Viewer) : Viewer :=
  match renderer (display c), sceneCreated (page c), camera (state c) with
  | Some _, true, Some _ =>
      let zoomLerpFactor := Fin 0.01 in
      let lerpFactor := Fin 0.05 in
      let c1 :=
        mapRig
          (fun r =>
             set_currentRotationY
               (currentRotationY r
                + (targetRotationY r - currentRotationY r) * lerpFactor)
               (set_currentRotationX
                  (currentRotationX r
                   + (targetRotationX r - currentRotationX r) * lerpFactor)
                  (set_currentCameraZ
                     (currentCameraZ r
                      + (targetCameraZ (state c) - currentCameraZ r)
                        * zoomLerpFactor)
                     r)))
          c in
      let c2 := if raycaster (rig c1) then hover intersects c1 else c1 in
      let '(now, c3) := dateNow c2 in
      let autoRotateX := Math_sin (now * Fin 0.0001) * Fin 2 in
      let '(now', c4) := dateNow c3 in
      let autoRotateY := Math_cos (now' * Fin 0.0001) * Fin 2 in
      let c5 :=
        mapRig
          (fun r =>
             set_camera_position
               (autoRotateX + currentRotationY r * Fin 2,
                autoRotateY + currentRotationX r * Fin 2,
                currentCameraZ r)
               r)
          c4 in
      mapState requestAnimationFrame c5
  | _, _, _ => c
  end.

End Interface.

(** ** A host to run the model on

    Coarse rational stand-ins for the transcendental functions, a fixed
    stream of random values, and three images.  No property below depends
    on how well they approximate: the theorems hold for every host. *)

Module TestHost.

Open Scope Q_scope.

Definition pi : Q := 355 # 113.

(** The square root in fixed point, sixteen fractional bits. *)
Definition sqrtQ (q : Q) : Q :=
  Z.sqrt (Qfloor (q * inject_Z (2 ^ 32))) # (2 ^ 16).

Definition sqrt (a : number) : number :=
  match a with
  | Fin q => if JS.Qlt_bool q 0 then NaN else Fin (sqrtQ q)
  | PosInf => PosInf
  | _ => NaN
  end.

(** Taylor polynomials at 0. *)
Definition cos (a : number) : number :=
  match a with
  | Fin x =>
      let x2 := Qred (x * x) in
      Fin (Qred (1 - x2 / 2 + x2 * x2 / 24 - x2 * x2 * x2 / 720))
  | _ => NaN
  end.

Definition sin (a : number) : number :=
  match a with
  | Fin x =>
      let x2 := Qred (x * x) in
      Fin (Qred (x * (1 - x2 / 6 + x2 * x2 / 120 - x2 * x2 * x2 / 5040)))
  | _ => NaN
  end.

(** The arc tangent on [-1, 1]. *)
Definition atanUnit (z : Q) : Q :=
  z * (pi / 4 + (273 # 1000) * (1 - Qabs z)).

Definition atan2 (a b : number) : number :=
  match a, b with
  | Fin y, Fin x =>
      if Qeq_bool x 0 && Qeq_bool y 0 then Fin 0
      else if Qle_bool (Qabs y) (Qabs x) then
        let t := atanUnit (y / x) in
        if JS.Qlt_bool 0 x then Fin (Qred t)
        else if Qle_bool 0 y then Fin (Qred (t + pi))
        else Fin (Qred (t - pi))
      else
        let t := atanUnit (x / y) in
        if JS.Qlt_bool 0 y then Fin (Qred (pi / 2 - t))
        else Fin (Qred (- pi / 2 - t))
  | _, _ => NaN
  end.

(** Powers of two, linear between two integer exponents; other bases are
    not used by the component. *)
Definition pow_frac (b e : number) : number :=
  match b, e with
  | Fin base, Fin x =>
      if Qeq_bool base 2 then
        let n := Qfloor x in
        Fin (Qred (Qpower 2 n * (1 + (x - inject_Z n))))
      else NaN
  | _, _ => NaN
  end.

Definition random (n : nat) : Q :=
  inject_Z ((Z.of_nat n * 37 + 11) mod 100) / 100.

(** An opaque image whose pixel (0, 0) is (200, 100, 50), cut off after
    the first pixel; a fully transparent one; any other URL fails. *)
Definition fetch (url : string) : Image :=
  if String.eqb url "one.png" then
    mkImage true true 4 2 true (fun _ _ _ _ => [200; 100; 50; 255]%Z)
  else if String.eqb url "clear.png" then
    mkImage true true 2 2 true (fun _ _ _ _ => [0; 0; 0; 0]%Z)
  else mkImage false false 0 0 true (fun _ _ _ _ => []).

Definition box (m : Mesh) : Box3 :=
  mkBox3 (PosInf, PosInf, PosInf) (NegInf, NegInf, NegInf).

Lemma random_range n : 0 <= random n /\ random n < 1.
Proof.
  unfold random.
  assert (H : (0 <= (Z.of_nat n * 37 + 11) mod 100 < 100)%Z)
    by (apply Z.mod_pos_bound; lia).
  destruct H as [H0 H1]. unfold Qle, Qlt, Qdiv. simpl. lia.
Qed.

Lemma sqrt_finite q :
  0 <= q -> exists r, sqrt (Fin q) = Fin r /\ 0 <= r.
Proof.
  intros Hq. exists (sqrtQ q). split.
  - unfold sqrt, JS.Qlt_bool.
    destruct (Qle_bool 0 q) eqn:E; [reflexivity|].
    apply Qle_bool_iff in Hq. congruence.
  - unfold sqrtQ, Qle. cbn [Qnum Qden]. rewrite Z.mul_0_l, Z.mul_1_r.
    apply Z.sqrt_nonneg.
Qed.

#[export] Instance host : Host := {|
  Math_PI := Fin pi;
  Math_sqrt := sqrt;
  Math_cos := cos;
  Math_sin := sin;
  Math_atan2 := atan2;
  Math_pow_frac := pow_frac;
  Math_random := random;
  loadImage := fetch;
  Box3_setFromObject := box;
  Math_random_range := random_range;
  Math_sqrt_finite := sqrt_finite
|}.

End TestHost.

(** ** A run of the component on the test host

    Three images, the third of which fails to load; one pixel in 1600 is
    sampled on each axis, so that a set has one particle.  The first image
    is loaded at time 0; [next] is called at time 10000; the frames of the
    transition run at 10000, 11000 and 12000. *)

Module Demo.

#[local] Existing Instance TestHost.host.

Open Scope string_scope.

Definition props : Props :=
  {| images := ["one.png"; "one.png"; "broken.png"];
     particleDensity := Fin (1 # 1600);
     transitionDuration := Fin 2000;
     autoAdvance := true;
     autoAdvanceInterval := Fin 3000 |}.

(** The state [initScene] leaves (lines 150-158). *)
Definition initial : State :=
  {| heap := [];
     scene := [];
     camera := Some (mkCamera (Fin 5) (Fin 0.1) (Fin 1000));
     currentParticles := None;
     nextParticles := None;
     currentImageIndex := 0;
     isTransitioning := false;
     animationFrameId := None;
     autoAdvanceTimer := None;
     targetCameraZ := Fin 5;
     innerWidth := Fin 1920;
     innerHeight := Fin 1080;
     timers := [];
     frames := [];
     nextHandle := 1;
     randomDraws := 0 |}.

Definition loaded : State :=
  Eval vm_compute in loadInitialImage props (Fin 0) (Fin 0) initial.

(** The first set, once loaded. *)
Definition firstSet : Mesh :=
  Eval vm_compute in
    default (mkMesh None NaN 0 0) (heap loaded !! 0%nat).

Definition awaiting : State :=
  Eval vm_compute in (transitionToNext_begin props loaded).1.

Definition session : Session :=
  {| nextIndex := 1; startTime := Fin 10000; duration := Fin 2000 |}.

Definition inFlight : State :=
  Eval vm_compute in
    (transitionToNext_resume props 1 "one.png" (Fin 10000) (Fin 10000)
       awaiting).1.

Definition halfWay : State :=
  Eval vm_compute in animateTransition props session (Fin 11000) inFlight.

Definition settled : State :=
  Eval vm_compute in animateTransition props session (Fin 12000) halfWay.

(** The set the sampler makes of the first image. *)
Definition sampled : UserData :=
  Eval vm_compute in
    match imageToParticles (Fin (1 # 1600)) "one.png" 0 with
    | (inr {| userData := Some ud |}, _) => ud
    | _ => mkUserData [] [] [] [] [] 0
    end.

(** A viewer whose only image is fully transparent, zoomed out by a click
    on the title (line 243: [targetCameraZ = currentCameraZ * 3]) and then
    asked for the next image: the window is resized while the sampler
    runs. *)
Definition clearProps : Props :=
  {| images := ["clear.png"];
     particleDensity := Fin (1 # 1600);
     transitionDuration := Fin 2000;
     autoAdvance := false;
     autoAdvanceInterval := Fin 3000 |}.

Definition zoomedOut : State :=
  Eval vm_compute in
    set_targetCameraZ (Fin 15)
      (loadInitialImage clearProps (Fin 0) (Fin 0) initial).

Definition resizedWhileLoading : State :=
  Eval vm_compute in (transitionToNext_begin clearProps zoomedOut).1.

(** Its current set: no particle. *)
Definition emptySet : Mesh :=
  Eval vm_compute in
    default (mkMesh None NaN 0 0) (heap resizedWhileLoading !! 0%nat).

End Demo.

(** ** More states of the test host

    A viewer whose current set has two particles, at opposite corners of
    the canvas, and is at rest; and the viewer of the run above at its
    third image, which fails to load. *)

Module Tour.

#[local] Existing Instance TestHost.host.

Open Scope string_scope.

Definition corners : UserData :=
  {| positions := [Fin (-1); Fin 1; Fin 0; Fin 1; Fin (-1); Fin 0];
     originalPositions := [Fin (-1); Fin 1; Fin 0; Fin 1; Fin (-1); Fin 0];
     velocities := [Fin 100; Fin (-10); Fin 0; Fin (-100); Fin 10; Fin 0];
     colors := [Fin 1; Fin 0; Fin 0; Fin 0; Fin 0; Fin 1];
     delays := [Fin 100; Fin 1500];
     count := 2 |}.

Definition framed : State :=
  {| heap := [mkMesh (Some corners) (Fin 0.9) 0 0];
     scene := [0%nat];
     camera := Some (mkCamera (Fin 5) (Fin 0.1) (Fin 1000));
     currentParticles := Some 0%nat;
     nextParticles := None;
     currentImageIndex := 0;
     isTransitioning := false;
     animationFrameId := None;
     autoAdvanceTimer := None;
     targetCameraZ := Fin 5;
     innerWidth := Fin 1920;
     innerHeight := Fin 1080;
     timers := [];
     frames := [];
     nextHandle := 1;
     randomDraws := 0 |}.

(** The viewer of the run, mounted with the third image first. *)
Definition atBroken : State :=
  Eval vm_compute in set_currentImageIndex 2 Demo.initial.

End Tour.

(** ** The overlay on the test host

    A browser whose clock advances by 100 ms from one reading to the next
    and whose font makes a letter 0.03 wide, with no box for the last word
    of the CV; and a mounted viewer at rest, its menu shown. *)

Module Stage.

#[local] Existing Instance TestHost.host.

Open Scope string_scope.

Definition clock (n : nat) : number :=
  Fin (inject_Z (Z.of_nat n) * 100).

Definition box (word : string) : option (number * number) :=
  if String.eqb word "AI" then None
  else Some (Fin 0.01,
             Fin (0.01 + inject_Z (Z.of_nat (String.length word)) * 0.03)).

#[export] Instance browser : Browser := {|
  Date_now := clock;
  wordBoundingBox := box
|}.

(** A text of the menu, shown; and the email, hidden. *)
Definition shown : Text :=
  {| color := 16777215;
     opacity := Fin 0.8;
     emissiveIntensity := Fin 0.5;
     scale_x := Fin 1;
     position := (Fin 0, Fin 0, Fin 0.1);
     text_geometry_disposed := 0;
     text_material_disposed := 0 |}.

Definition hidden : Text :=
  {| color := 65280;
     opacity := Fin 0;
     emissiveIntensity := Fin 0.5;
     scale_x := Fin 0;
     position := (Fin 0, Fin 0, Fin 0.1);
     text_geometry_disposed := 0;
     text_material_disposed := 0 |}.

(** The title, WORK, CV, CONTACT and the email. *)
Definition menu : Overlay :=
  {| texts := [shown; shown; shown; shown; hidden];
     arrays := [[]];
     textChildren := [0; 1; 2; 3; 4]%nat;
     textMesh := Some 0%nat;
     workTextMesh := Some 1%nat;
     cvTextMesh := Some 2%nat;
     contactTextMesh := Some 3%nat;
     emailTextMesh := Some 4%nat;
     cvTextMeshes := 0;
     showingEmail := false;
     showingCV := false;
     menuFrames := [];
     revealTimers := [];
     fontLoads := 0;
     dateNowCalls := 0 |}.

Definition mounted : Viewer :=
  {| state := Tour.framed;
     display := {| renderer := Some (Fin 1920, Fin 1080);
                   cameraAspect := Fin (1920 / 1080) |};
     page := {| containerRef := true; cursor := ""; sceneCreated := true |};
     rig := {| mouseX := Fin 0;
               mouseY := Fin 0;
               targetRotationX := Fin 0;
               targetRotationY := Fin 0;
               currentRotationX := Fin 0;
               currentRotationY := Fin 0;
               mouse := (Fin 0, Fin 0);
               isCameraZoomedOut := false;
               currentCameraZ := Fin 5;
               camera_position := (Fin 0, Fin 0, Fin 5);
               raycaster := true |};
     overlay := menu |}.

(** After a click on CONTACT: the email is being shown. *)
Definition contacted : Viewer :=
  Eval vm_compute in handleClick (Fin 960) (Fin 540) [3%nat] mounted.

(** The animation that hides the menu since. *)
Definition hidingMenu : MenuAnimation :=
  Eval vm_compute in
    match menuFrames (overlay contacted) with
    | (_, a) :: _ => a
    | [] => mkMenuAnimation (Own []) NaN NaN NaN NaN [] []
    end.

End Stage.

(** ** Notions used in the statements *)

(** The curve in the words of the specification: [4t^3] below one half,
    [1 - (-2t+2)^3/2] from there on. *)
Definition cubicInOut (t : Q) : Q :=
  if Qlt_le_dec t (1 # 2) then 4 * t ^ 3 else 1 - (-2 * t + 2) ^ 3 / 2.

(** [q] to the power [n]. *)
Fixpoint Qpow (q : Q) (n : nat) : Q :=
  match n with
  | O => 1
  | S n' => q * Qpow q n'
  end.

(** [clamp(x, lo, hi)] *)
Definition clamp (x lo hi : Q) : Q := Qmin (Qmax x lo) hi.

(** The three writes of one turn of a particle loop. *)
Definition set3 (a : list number) (i : nat) (v : number * number * number)
    : list number :=
  set (set (set a (i * 3) v.1.1) (i * 3 + 1) v.1.2) (i * 3 + 2) v.2.

(** The coordinate [k] of a triple. *)
Definition coord (k : nat) (v : number * number * number) : number :=
  match k with O => v.1.1 | S O => v.1.2 | _ => v.2 end.

(** An object the driver still uses: it is in the heap, carries its
    [userData] (every set the sampler makes does) and was not disposed. *)
Definition live (s : State) (r : nat) : Prop :=
  exists m ud,
    heap s !! r = Some m /\ userData m = Some ud
    /\ geometry_disposed m = 0%nat /\ material_disposed m = 0%nat.

(** The invariant of the driver: the current and the incoming set are live
    objects, and two different ones. *)
Record wellFormed (s : State) : Prop := mkWellFormed {
  wf_current : forall r, currentParticles s = Some r -> live s r;
  wf_next : forall r, nextParticles s = Some r -> live s r;
  wf_distinct :
    forall a b, currentParticles s = Some a -> nextParticles s = Some b ->
                a <> b
}.

(** The values a counter takes in [for (i = 0; i < bound; i += step)]. *)
Definition stepsBelow (bound : Z) (step : number) : list Z :=
  forStep (Z.to_nat bound) 0 bound step (fun i visited => visited ++ [i]) [].

(** The pixels the scan visits, row by row. *)
Definition visitedPixels (width height : Z) (step : number) : list (Z * Z) :=
  flat_map (fun y => map (fun x => (x, y)) (stepsBelow width step))
    (stepsBelow height step).

(** A visited pixel survives when its four bytes are in the data and its
    alpha is at least 10. *)
Definition survives (width : Z) (pixels : list Z) (xy : Z * Z) : bool :=
  let index := Z.to_nat ((xy.2 * width + xy.1) * 4) in
  bool_decide (index + 3 < length pixels)%nat
  && (10 <=? default 0%Z (pixels !! (index + 3)%nat))%Z.

(** The resting position of the particle of a pixel. *)
Definition targetOf (width height : Z) (xy : Z * Z) : list number :=
  [Fin (inject_Z xy.1 / inject_Z width * 2 - 1);
   Fin (1 - inject_Z xy.2 / inject_Z height * 2);
   Fin 0].

(** A valid decoded image: the load ends in [onload] with the image
    complete and of non-zero size, and the canvas gives a 2d context. *)
Definition validImage (img : Image) : Prop :=
  img_onload img = true /\ img_complete img = true
  /\ naturalWidth img <> 0%Z /\ naturalHeight img <> 0%Z
  /\ context2d img = true.

(** The bytes of the canvas the sampler scans for an image. *)
Definition canvasData (img : Image) : list Z :=
  let '(drawX, drawY, drawW, drawH) :=
    drawRect (naturalWidth img) (naturalHeight img) in
  imageData img drawX drawY drawW drawH.

(** The pixels of the canvas that give a particle, in the order of the
    scan. *)
Definition sampledPixels (img : Image) (density : number) : list (Z * Z) :=
  filter (fun xy => survives canvasSize (canvasData img) xy = true)
    (visitedPixels canvasSize canvasSize (samplingStep density)).

(** The viewable frustum of a perspective camera placed on the z axis at
    [cameraZ] and looking at the origin, as [initScene] places it (lines
    150-156: near 0.1, far 1000, position z = 5): a point is in view when
    its depth in front of the camera is between [near] and [far] and its
    offsets from the axis are within the half height and half width of the
    view at that depth. *)
Definition inFrustum (cameraZ near far tanHalfFov aspect : Q)
    (p : Q * Q * Q) : Prop :=
  let depth := cameraZ - p.2 in
  near <= depth /\ depth <= far
  /\ Qabs p.1.2 <= depth * tanHalfFov
  /\ Qabs p.1.1 <= depth * tanHalfFov * aspect.

(** The size the framer works on, when it gets as far as having one: the
    extent of the resting positions, or of the box of three.js when the
    mesh carries no [userData]. *)
Definition framedSize `{host : Host} (m : Mesh) : option (number * number) :=
  match userData m with
  | None =>
      if Box3_isEmpty (Box3_setFromObject m) then None
      else Some ((Box3_getSize (Box3_setFromObject m)).1.1,
                 (Box3_getSize (Box3_setFromObject m)).1.2)
  | Some ud =>
      if (count ud =? 0)%nat || (length (originalPositions ud) =? 0)%nat
      then None
      else
        let '(minX, maxX, minY, maxY, _, _) :=
          bounds (originalPositions ud) (count ud) in
        Some (JS.sub maxX minX, JS.sub maxY minY)
  end.

(** The sentence of the specification on the degenerate inputs of the
    framer, read as it is worded: whatever else the state holds, a current
    set without particles sends the target to 5. *)
Definition framerFallsBackWhateverTheState : Prop :=
  forall (host : Host) (s : State) (r : nat) (m : Mesh) (ud : UserData),
    currentParticles s = Some r -> heap s !! r = Some m ->
    userData m = Some ud -> count ud = 0%nat ->
    targetCameraZ (updateCameraForParticles s) = Fin 5.

(** The sentence of the specification on the seeding, read as it is
    worded: whatever its resting position, a seeded particle is outside
    the frustum of the camera [initScene] sets up. *)
Definition seedingHidesEveryParticle : Prop :=
  forall (host : Host) (x y random fx fy fz tanHalfFov aspect : Q),
    -1 <= x /\ x <= 1 -> -1 <= y /\ y <= 1 ->
    0 <= random /\ random < 1 ->
    0 < tanHalfFov -> 0 < aspect ->
    farPosition (Fin x) (Fin y) random = (Fin fx, Fin fy, Fin fz) ->
    ~ inFrustum 5 0.1 1000 tanHalfFov aspect (fx, fy, fz).

(** What the driver may do to an object it keeps using. *)
Definition keepsLive (f : Mesh -> Mesh) : Prop :=
  forall m,
    is_Some (userData m) -> is_Some (userData (f m))
    /\ geometry_disposed (f m) = geometry_disposed m
    /\ material_disposed (f m) = material_disposed m.

(** The states the driver goes through: from a state without sets, by the
    initial load, the two halves of [transitionToNext] and the frames of a
    transition, in any order and at any time. *)
Inductive Reachable `{host : Host} (props : Props) : State -> Prop :=
| reach_idle s :
    currentParticles s = None -> nextParticles s = None ->
    Reachable props s
| reach_load s now now' :
    Reachable props s ->
    Reachable props (loadInitialImage props now now' s)
| reach_begin s :
    Reachable props s ->
    Reachable props (transitionToNext_begin props s).1
| reach_resume s nextIndex url now now' :
    Reachable props s ->
    Reachable props
      (transitionToNext_resume props nextIndex url now now' s).1
| reach_frame s sess now nxt :
    Reachable props s -> nextParticles s = Some nxt ->
    Reachable props (animateTransition props sess now s).

(** The colour of the particle of a pixel: its red, green and blue bytes
    over 255. *)
Definition colourOf (width : Z) (pixels : list Z) (xy : Z * Z) : list number :=
  let index := Z.to_nat ((xy.2 * width + xy.1) * 4) in
  [Fin (inject_Z (default 0%Z (pixels !! index)) / 255);
   Fin (inject_Z (default 0%Z (pixels !! (index + 1)%nat)) / 255);
   Fin (inject_Z (default 0%Z (pixels !! (index + 2)%nat)) / 255)].

(** The rational a finite number holds. *)
Definition finiteValue (v : number) : Q :=
  match v with Fin q => q | _ => 0 end.

(** The arrays of a set have the lengths that go with its count. *)
Definition arraysMatchCount (ud : UserData) : Prop :=
  length (positions ud) = (3 * count ud)%nat
  /\ length (originalPositions ud) = (3 * count ud)%nat
  /\ length (colors ud) = (3 * count ud)%nat
  /\ length (delays ud) = count ud.

(** The displacement of one particle in one turn of the explode loop
    (lines 898-913), from the number of random values drawn before the
    turn. *)
Definition explodeVelocity `{host : Host} (elapsed duration : number)
    (ud : UserData) (i n : nat) : number * number * number :=
  let ease :=
    easeOutExponential
      (particleProgress elapsed duration (get (delays ud) i)) in
  let angle :=
    Math_atan2 (get (originalPositions ud) (i * 3 + 1))
      (get (originalPositions ud) (i * 3)) in
  let force :=
    JS.mul explodeForce
      (JS.add (Fin 1) (JS.mul (Fin (Math_random n)) (Fin 0.5))) in
  (JS.mul
     (JS.mul
        (JS.add (JS.mul (Math_cos angle) force)
           (JS.mul (JS.sub (Fin (Math_random (n + 1))) (Fin 0.5)) (Fin 0.5)))
        ease)
     (Fin 0.1),
   JS.mul
     (JS.mul
        (JS.add (JS.mul (Math_sin angle) force)
           (JS.mul (JS.sub (Fin (Math_random (n + 2))) (Fin 0.5)) (Fin 0.5)))
        ease)
     (Fin 0.1),
   JS.mul
     (JS.mul
        (JS.mul (JS.sub (Fin (Math_random (n + 3))) (Fin 0.5)) explodeForce)
        ease)
     (Fin 0.1)).

(** The window takes a new size. *)
Definition windowResized (width height : number) (s : State) : State :=
  {| heap := heap s;
     scene := scene s;
     camera := camera s;
     currentParticles := currentParticles s;
     nextParticles := nextParticles s;
     currentImageIndex := currentImageIndex s;
     isTransitioning := isTransitioning s;
     animationFrameId := animationFrameId s;
     autoAdvanceTimer := autoAdvanceTimer s;
     targetCameraZ := targetCameraZ s;
     innerWidth := width;
     innerHeight := height;
     timers := timers s;
     frames := frames s;
     nextHandle := nextHandle s;
     randomDraws := randomDraws s |}.

(** What the component has scheduled: the pending timers, the handle it
    keeps of the last one, and the next handle of the browser. *)
Definition sched (s : State) : list (nat * number) * option nat * nat :=
  (timers s, autoAdvanceTimer s, nextHandle s).

(** What a function may do to the schedule: nothing, ask for a frame, or
    restart the auto-advance timer. *)
Definition schedStep (s s' : State) : Prop :=
  sched s' = sched s
  \/ sched s' = sched (requestAnimationFrame s)
  \/ exists props, sched s' = sched (startAutoAdvance props s).

(** The bookkeeping of the auto-advance timer: the handles of the browser
    are positive and fresh, and the only timer that may be pending is the
    one whose handle is in [autoAdvanceTimer]. *)
Record timersTidy (s : State) : Prop := mkTimersTidy {
  tidy_positive : (0 < nextHandle s)%nat;
  tidy_single :
    timers s = []
    \/ exists h d, timers s = [(h, d)] /\ autoAdvanceTimer s = Some h
                   /\ (0 < h < nextHandle s)%nat
}.

(** The states of a mounted viewer: from a state without sets nor timers,
    by the initial load, the watcher of the images, the two halves of
    [transitionToNext], the frames of a transition and of the first
    animation, the auto-advance timer and the resizing of the window, in
    any order, at any time, and with properties that may change from one
    step to the next; the framer also runs, and the camera target is also
    set, from the handler of clicks. *)
Inductive Runs `{host : Host} : State -> Prop :=
| run_mounted s :
    currentParticles s = None -> nextParticles s = None ->
    timers s = [] -> (0 < nextHandle s)%nat ->
    Runs s
| run_load props s now now' :
    Runs s -> Runs (loadInitialImage props now now' s)
| run_images props s now now' :
    Runs s -> Runs (onImagesChanged props now now' s)
| run_begin props s :
    Runs s -> Runs (transitionToNext_begin props s).1
| run_resume props s nextIndex url now now' :
    Runs s ->
    Runs (transitionToNext_resume props nextIndex url now now' s).1
| run_frame props s sess now nxt :
    Runs s -> nextParticles s = Some nxt ->
    Runs (animateTransition props sess now s)
| run_initial_frame props s startTime duration now :
    Runs s -> Runs (animateInitial props startTime duration now s)
| run_timer props s t d :
    Runs s -> (t, d) ∈ timers s ->
    Runs (autoAdvanceFires props t s).1
| run_window s width height :
    Runs s -> Runs (windowResized width height s)
| run_framer s :
    Runs s -> Runs (updateCameraForParticles s)
| run_zoom s z :
    Runs s -> Runs (set_targetCameraZ z s).

(** What a loop that only writes texts does to the list of the texts: the
    writes [g r i] of the texts [r] of the array, in turn. *)
Fixpoint writeTexts (l : list nat) (i : nat) (g : nat -> nat -> Text -> Text)
    (ts : list Text) : list Text :=
  match l with
  | [] => ts
  | r :: l' => writeTexts l' (S i) g (alter (g r i) r ts)
  end.

(** The ease of the menu on a finite progress. *)
Definition menuEaseQ (p : Q) : Q :=
  if Qle_bool 0.5 p then 1 - (-2 * p + 2) * (-2 * p + 2) / 2
  else 2 * p * p.

(** What a frame of an animation writes to the text at index [i] of its
    array, for the ease [e] (lines 1164-1167). *)
Definition frameWrite (a : MenuAnimation) (e : number) (mesh i : nat)
    (x : Text) : Text :=
  setText_scale_x
    (JS.add (item (startScales a) i)
       (JS.mul (JS.sub (targetScale a) (item (startScales a) i)) e))
    (setText_opacity
       (JS.add (item (startOpacities a) i)
          (JS.mul (JS.sub (targetOpacity a) (item (startOpacities a) i)) e))
       x).

(** What the animations of the menu leave as it is: everything but the
    opacity and the scale of texts, the callbacks that are pending for them,
    the two flags of the menu, the clock and the next handle of the
    browser. *)
Record menuKept (c c' : Viewer) : Prop := mkMenuKept {
  kept_display : display c' = display c;
  kept_page : page c' = page c;
  kept_rig : rig c' = rig c;
  kept_state : state c' = set_nextHandle (nextHandle (state c')) (state c);
  kept_handle : (nextHandle (state c) <= nextHandle (state c'))%nat;
  kept_arrays : arrays (overlay c') = arrays (overlay c);
  kept_textChildren : textChildren (overlay c') = textChildren (overlay c);
  kept_textMesh : textMesh (overlay c') = textMesh (overlay c);
  kept_workTextMesh : workTextMesh (overlay c') = workTextMesh (overlay c);
  kept_cvTextMesh : cvTextMesh (overlay c') = cvTextMesh (overlay c);
  kept_contactTextMesh :
    contactTextMesh (overlay c') = contactTextMesh (overlay c);
  kept_emailTextMesh : emailTextMesh (overlay c') = emailTextMesh (overlay c);
  kept_cvTextMeshes : cvTextMeshes (overlay c') = cvTextMeshes (overlay c);
  kept_length : length (texts (overlay c')) = length (texts (overlay c))
}.

(** The texts of the overlay are different objects. *)
Definition distinctTexts (o : Overlay) : Prop :=
  NoDup (nonNull [textMesh o; workTextMesh o; cvTextMesh o;
                  contactTextMesh o; emailTextMesh o] ++ cvWords o).

(** What a click leaves as it is: the variables and the arrays of the
    texts, the element and the renderer. *)
Record clickKept (c c' : Viewer) : Prop := mkClickKept {
  click_display : display c' = display c;
  click_page : page c' = page c;
  click_textMesh : textMesh (overlay c') = textMesh (overlay c);
  click_workTextMesh : workTextMesh (overlay c') = workTextMesh (overlay c);
  click_cvTextMesh : cvTextMesh (overlay c') = cvTextMesh (overlay c);
  click_contactTextMesh :
    contactTextMesh (overlay c') = contactTextMesh (overlay c);
  click_emailTextMesh :
    emailTextMesh (overlay c') = emailTextMesh (overlay c);
  click_cvWords : cvWords (overlay c') = cvWords (overlay c)
}.

(** Frames of the render loop one after the other, with nothing else in
    between; [hits] gives what the raycaster finds in each. *)
Fixpoint animateLoop `{host : Host} `{browser : Browser}
    (hits : list (list nat)) (c : Viewer) : Viewer :=
  match hits with
  | [] => c
  | intersects :: rest => animateLoop rest (animate intersects c)
  end.

(** What the glow of the texts leaves as it is: everything but the texts
    and the cursor. *)
Record hoverKept (c c' : Viewer) : Prop := mkHoverKept {
  hover_state : state c' = state c;
  hover_display : display c' = display c;
  hover_rig : rig c' = rig c;
  hover_page : page c' = set_cursor (cursor (page c')) (page c);
  hover_overlay : overlay c' = set_texts (texts (overlay c')) (overlay c);
  hover_length : length (texts (overlay c')) = length (texts (overlay c))
}.

(** Where the loop over the words of the CV has [currentX] before the word
    [k]: at -0.6 for the first word of a row of four, and else past the
    word before, by its width, or 0.3 if it has no box, and the spacing
    (lines 1310-1324). *)
Fixpoint cvCurrentX `{browser : Browser} (words : list string) (k : nat)
    : number :=
  match k with
  | O => Fin (-0.6)
  | S j =>
      if (S j mod 4 =? 0)%nat then Fin (-0.6)
      else
        JS.add (cvCurrentX words j)
          match words !! j with
          | Some word =>
              match wordBoundingBox word with
              | Some (min_x, max_x) =>
                  JS.add (JS.sub max_x min_x) (Fin 0.06)
              | None => JS.add (Fin 0.3) (Fin 0.06)
              end
          | None => Fin 0
          end
  end.

(** The abscissa of a word the loop places from [currentX]. *)
Definition wordX `{browser : Browser} (currentX : number) (word : string)
    : number :=
  match wordBoundingBox word with
  | Some (min_x, _) => JS.sub currentX min_x
  | None => currentX
  end.

(** * Properties *)

(** ** Numbers *)

Lemma Qlt_bool_iff a b : JS.Qlt_bool a b = true <-> a < b.
Proof.
  unfold JS.Qlt_bool. rewrite Bool.negb_true_iff. split.
  - intros H. apply Qnot_le_lt. intros Hle.
    apply Qle_bool_iff in Hle. congruence.
  - intros H. destruct (Qle_bool b a) eqn:E; [|reflexivity].
    apply Qle_bool_iff in E. lra.
Qed.

Lemma Qlt_bool_false a b : JS.Qlt_bool a b = false <-> b <= a.
Proof.
  unfold JS.Qlt_bool. rewrite Bool.negb_false_iff. apply Qle_bool_iff.
Qed.

Lemma Qle_bool_false a b : Qle_bool a b = false <-> b < a.
Proof.
  split.
  - intros H. apply Qnot_le_lt. intros Hle.
    apply Qle_bool_iff in Hle. congruence.
  - intros H. destruct (Qle_bool a b) eqn:E; [|reflexivity].
    apply Qle_bool_iff in E. lra.
Qed.

Lemma Qeq_bool_false a b : Qeq_bool a b = false <-> ~ a == b.
Proof.
  split.
  - intros H E. apply Qeq_bool_iff in E. congruence.
  - intros H. destruct (Qeq_bool a b) eqn:E; [|reflexivity].
    apply Qeq_bool_iff in E. contradiction.
Qed.

Lemma div_fin a b : ~ b == 0 -> JS.div (Fin a) (Fin b) = Fin (a / b).
Proof.
  intros H. unfold JS.div. apply Qeq_bool_false in H. now rewrite H.
Qed.

Lemma min_fin a b :
  JS.min (Fin a) (Fin b) = if Qle_bool a b then Fin a else Fin b.
Proof. reflexivity. Qed.

Lemma max_fin a b :
  JS.max (Fin a) (Fin b) = if Qle_bool a b then Fin b else Fin a.
Proof. reflexivity. Qed.

Lemma eqv_refl a : JS.eqv a a.
Proof. destruct a; simpl; auto. reflexivity. Qed.

(** ** The easing curve *)

Lemma cubicInOut_range t : 0 <= t <= 1 -> 0 <= cubicInOut t <= 1.
Proof.
  intros [H0 H1]. unfold cubicInOut.
  destruct (Qlt_le_dec t (1 # 2)); simpl.
  - assert (0 <= t * t <= 1 # 4) by nra. split; nra.
  - set (u := -2 * t + 2).
    assert (Hu : 0 <= u <= 1) by (unfold u; lra).
    assert (0 <= u * u <= 1) by nra.
    assert (0 <= u * u * u <= 1) by nra.
    unfold Qdiv. change (/ 2) with (1 # 2). split; lra.
Qed.

Lemma cubicInOut_0 : cubicInOut 0 == 0.
Proof. reflexivity. Qed.

Lemma cubicInOut_1 : cubicInOut 1 == 1.
Proof. reflexivity. Qed.

Lemma cubicInOut_eq a b : a == b -> cubicInOut a == cubicInOut b.
Proof.
  intros E. unfold cubicInOut.
  destruct (Qlt_le_dec a (1 # 2)), (Qlt_le_dec b (1 # 2)); try lra;
    simpl; rewrite E; reflexivity.
Qed.

Lemma cube_mono a b : 0 <= a -> a <= b -> a * a * a <= b * b * b.
Proof.
  intros Ha Hab.
  assert (0 <= a * a) by nra. assert (a * a <= b * b) by nra.
  assert (a * a * a <= b * b * a) by nra. nra.
Qed.

Lemma cubicInOut_mono a b :
  0 <= a -> a <= b -> b <= 1 -> cubicInOut a <= cubicInOut b.
Proof.
  intros H0 Hab H1. unfold cubicInOut.
  destruct (Qlt_le_dec a (1 # 2)), (Qlt_le_dec b (1 # 2)); simpl;
    unfold Qdiv; try change (/ 2) with (1 # 2).
  - pose proof (cube_mono a b H0 Hab). lra.
  - assert (0 <= a * a <= 1 # 4) by nra.
    assert (a * a * a <= 1 # 8) by nra.
    pose proof (cube_mono (-2 * b + 2) 1). lra.
  - lra.
  - pose proof (cube_mono (-2 * b + 2) (-2 * a + 2)). lra.
Qed.

Lemma Qsquare_nonneg x : 0 <= x * x.
Proof. nra. Qed.

Lemma Qabs_positive x : ~ x == 0 -> 0 < Qabs x.
Proof. intros H. apply Qabs_case; intros; lra. Qed.

Lemma clamp_range x : 0 <= clamp x 0 1 <= 1.
Proof.
  unfold clamp.
  destruct (Q.min_spec (Qmax x 0) 1) as [[? E]|[? E]]; rewrite E;
  destruct (Q.max_spec x 0) as [[? E']|[? E']]; try rewrite E' in *; lra.
Qed.

Lemma clamp_cases x :
  (x <= 0 /\ clamp x 0 1 == 0) \/ (0 <= x <= 1 /\ clamp x 0 1 == x)
  \/ (1 <= x /\ clamp x 0 1 == 1).
Proof.
  unfold clamp.
  destruct (Q.min_spec (Qmax x 0) 1) as [[? E]|[? E]]; rewrite E;
  destruct (Q.max_spec x 0) as [[? E']|[? E']]; try rewrite E' in *;
    lra.
Qed.

Lemma clamp_inside x y : x == y -> 0 <= y -> y <= 1 -> clamp x 0 1 == y.
Proof. intros E H0 H1. destruct (clamp_cases x) as [[]|[[]|[]]]; lra. Qed.

Lemma clamp_above x : 1 <= x -> clamp x 0 1 == 1.
Proof. intros H1. destruct (clamp_cases x) as [[]|[[]|[]]]; lra. Qed.

Section Properties.

Context `{host : Host}.

Open Scope js_scope.

(** The cube [Math.pow(x, 3)] is computed by multiplication. *)
Lemma Math_pow_3 x : Math_pow x (Fin 3) = x * (x * x).
Proof. reflexivity. Qed.

(** On a finite argument the code computes the curve of the
    specification. *)
Lemma easeInOutCubic_fin t :
  exists q, easeInOutCubic (Fin t) = Fin q /\ (q == cubicInOut t)%Q.
Proof.
  unfold easeInOutCubic, cubicInOut. cbn.
  destruct (JS.Qlt_bool t 0.5) eqn:E.
  - eexists; split; [reflexivity|].
    apply Qlt_bool_iff in E. destruct (Qlt_le_dec t (1 # 2)); [|lra].
    simpl. ring.
  - eexists; split; [reflexivity|].
    apply Qlt_bool_false in E. destruct (Qlt_le_dec t (1 # 2)); [lra|].
    simpl. field.
Qed.

(** The progress of a particle, on finite arguments and a positive
    duration: [clamp(max(0, elapsed - delay) / duration, 0, 1)]. *)
Lemma particleProgress_fin e d dl :
  (0 < d)%Q ->
  exists t,
    particleProgress (Fin e) (Fin d) (Fin dl) = Fin t
    /\ (t == clamp (Qmax 0 (e - dl) / d) 0 1)%Q.
Proof.
  intros Hd. unfold particleProgress. cbn [JS.sub]. rewrite max_fin.
  assert (Hd0 : ~ (d == 0)%Q) by lra.
  assert (Hpos : forall x, (0 <= x -> 0 <= x / d)%Q)
    by (intros x Hx; apply Qle_shift_div_l; lra).
  destruct (Qle_bool 0 (e - dl)) eqn:E0;
    [apply Qle_bool_iff in E0 | apply Qle_bool_false in E0];
    rewrite div_fin, min_fin by assumption.
  - assert (Emax : (Qmax 0 (e - dl) / d == (e - dl) / d)%Q)
      by (rewrite Q.max_r by assumption; reflexivity).
    pose proof (Hpos _ E0) as Hq.
    destruct (Qle_bool ((e - dl) / d) 1) eqn:E1;
      [apply Qle_bool_iff in E1 | apply Qle_bool_false in E1];
      (eexists; split; [reflexivity|]); symmetry.
    + now apply clamp_inside.
    + apply clamp_above. lra.
  - assert (Hq : (0 / d == 0)%Q) by (unfold Qdiv; ring).
    assert (Emax : (Qmax 0 (e - dl) / d == 0 / d)%Q)
      by (rewrite Q.max_l by lra; reflexivity).
    assert (Qle_bool (0 / d) 1 = true) as ->
      by (apply Qle_bool_iff; lra).
    eexists; split; [reflexivity|]. symmetry.
    apply clamp_inside; lra.
Qed.

(** ** Arrays *)

Lemma get_set_eq a i v : get (set a i v) i = v.
Proof.
  unfold get, set. case_decide.
  - now rewrite list_lookup_insert_eq.
  - rewrite lookup_app_r by lia.
    rewrite lookup_app_r by (rewrite length_replicate; lia).
    rewrite length_replicate.
    replace (i - length a - (i - length a))%nat with 0%nat by lia.
    reflexivity.
Qed.

Lemma get_set_ne a i j v : i <> j -> get (set a i v) j = get a j.
Proof.
  intros Hne. unfold get, set. case_decide.
  - now rewrite list_lookup_insert_ne.
  - destruct (decide (j < length a)%nat).
    + now rewrite lookup_app_l.
    + rewrite (lookup_ge_None_2 a j) by lia.
      rewrite lookup_app_r by lia.
      destruct (decide (j < i)%nat).
      * rewrite lookup_app_l by (rewrite length_replicate; lia).
        rewrite lookup_replicate_2 by lia. reflexivity.
      * rewrite lookup_app_r by (rewrite length_replicate; lia).
        rewrite length_replicate.
        rewrite lookup_ge_None_2; [reflexivity|]. simpl. lia.
Qed.

Lemma length_set a i v : length (set a i v) = Nat.max (length a) (S i).
Proof.
  unfold set. case_decide.
  - rewrite length_insert. lia.
  - rewrite !length_app, length_replicate. simpl. lia.
Qed.

Lemma get_set3 a i v j k :
  (k < 3)%nat ->
  get (set3 a i v) (j * 3 + k) =
  if decide (i = j) then coord k v else get a (j * 3 + k).
Proof.
  intros Hk. unfold set3. case_decide as E.
  - subst j. destruct k as [|[|[|k]]]; try lia; simpl coord.
    + rewrite !get_set_ne by lia.
      replace (i * 3 + 0)%nat with (i * 3)%nat by lia. apply get_set_eq.
    + rewrite get_set_ne by lia. apply get_set_eq.
    + apply get_set_eq.
  - rewrite !get_set_ne by lia. reflexivity.
Qed.

(** ** Loops *)

Lemma forCount_S {A} n i (body : nat -> A -> A) acc :
  forCount (S n) i body acc = forCount n (S i) body (body i acc).
Proof. reflexivity. Qed.

(** A loop that rewrites the coordinates of particle [i] from its own
    coordinates and the number of random values drawn so far, and draws [c]
    values a turn. *)
Lemma particle_loop
    (F : nat -> number -> number -> number -> nat -> number * number * number)
    (c : nat) (body : nat -> list number * nat -> list number * nat) :
  (forall i a n,
     body i (a, n) =
     (set3 a i (F i (get a (i * 3)) (get a (i * 3 + 1)) (get a (i * 3 + 2)) n),
      (n + c)%nat)) ->
  forall n start a draws,
    (forCount n start body (a, draws)).2 = (draws + c * n)%nat
    /\ forall i k, (k < 3)%nat ->
         get (forCount n start body (a, draws)).1 (i * 3 + k) =
         if decide (start <= i < start + n)%nat
         then coord k (F i (get a (i * 3)) (get a (i * 3 + 1))
                         (get a (i * 3 + 2)) (draws + c * (i - start))%nat)
         else get a (i * 3 + k).
Proof.
  intros Hbody. induction n as [|n IH]; intros start a draws.
  - simpl. split; [lia|]. intros i k Hk. case_decide; [lia|reflexivity].
  - rewrite forCount_S, Hbody.
    destruct (IH (S start)
                (set3 a start
                   (F start (get a (start * 3)) (get a (start * 3 + 1))
                      (get a (start * 3 + 2)) draws))
                (draws + c)%nat) as [Hd Hg].
    split; [rewrite Hd; lia|].
    intros i k Hk. rewrite Hg by assumption.
    pose proof (get_set3 a start
                  (F start (get a (start * 3)) (get a (start * 3 + 1))
                     (get a (start * 3 + 2)) draws)) as G.
    destruct (decide (S start <= i < S start + n)%nat) as [Hin|Hout].
    + rewrite decide_True by lia.
      pose proof (G i 0%nat ltac:(lia)) as G0.
      pose proof (G i 1%nat ltac:(lia)) as G1.
      pose proof (G i 2%nat ltac:(lia)) as G2.
      rewrite decide_False in G0, G1, G2 by lia.
      replace (i * 3 + 0)%nat with (i * 3)%nat in G0 by lia.
      rewrite G0, G1, G2.
      replace (draws + c + c * (i - S start))%nat
        with (draws + c * (i - start))%nat by nia.
      reflexivity.
    + rewrite G by assumption.
      destruct (decide (start = i)) as [->|Hne].
      * rewrite decide_True by lia.
        replace (i - i)%nat with 0%nat by lia.
        replace (draws + c * 0)%nat with draws by lia. reflexivity.
      * rewrite decide_False by lia. reflexivity.
Qed.

(** The same for a loop that draws no random value. *)
Lemma particle_loop_pure
    (F : nat -> number -> number -> number -> number * number * number)
    (body : nat -> list number -> list number) :
  (forall i a,
     body i a =
     set3 a i (F i (get a (i * 3)) (get a (i * 3 + 1)) (get a (i * 3 + 2)))) ->
  forall n start a i k, (k < 3)%nat ->
    get (forCount n start body a) (i * 3 + k) =
    if decide (start <= i < start + n)%nat
    then coord k (F i (get a (i * 3)) (get a (i * 3 + 1)) (get a (i * 3 + 2)))
    else get a (i * 3 + k).
Proof.
  intros Hbody. induction n as [|n IH]; intros start a i k Hk.
  - simpl. case_decide; [lia|reflexivity].
  - rewrite forCount_S, Hbody, IH by assumption.
    pose proof (get_set3 a start
                  (F start (get a (start * 3)) (get a (start * 3 + 1))
                     (get a (start * 3 + 2)))) as G.
    destruct (decide (S start <= i < S start + n)%nat) as [Hin|Hout].
    + rewrite decide_True by lia.
      pose proof (G i 0%nat ltac:(lia)) as G0.
      pose proof (G i 1%nat ltac:(lia)) as G1.
      pose proof (G i 2%nat ltac:(lia)) as G2.
      rewrite decide_False in G0, G1, G2 by lia.
      replace (i * 3 + 0)%nat with (i * 3)%nat in G0 by lia.
      now rewrite G0, G1, G2.
    + rewrite G by assumption.
      destruct (decide (start = i)) as [->|Hne].
      * now rewrite decide_True by lia.
      * now rewrite decide_False by lia.
Qed.

(** ** One implode step *)

(** The eased progress of a particle on finite data and a positive
    duration: the curve of the specification at the clamped progress. *)
Lemma particleEase_fin e d dl :
  (0 < d)%Q ->
  exists t q,
    particleProgress (Fin e) (Fin d) (Fin dl) = Fin t
    /\ (0 <= t /\ t <= 1)%Q
    /\ (t == clamp (Qmax 0 (e - dl) / d) 0 1)%Q
    /\ easeInOutCubic (Fin t) = Fin q
    /\ (q == cubicInOut t)%Q
    /\ (0 <= q /\ q <= 1)%Q.
Proof.
  intros Hd.
  destruct (particleProgress_fin e d dl Hd) as (t & Et & Ht).
  destruct (easeInOutCubic_fin t) as (q & Eq & Hq).
  assert (Ht01 : (0 <= t <= 1)%Q) by (rewrite Ht; apply clamp_range).
  exists t, q. repeat split; try assumption; try tauto;
    rewrite Hq; apply cubicInOut_range; assumption.
Qed.

(** The step on finite data. *)
Lemma implodeCoordinate_Fin p g q :
  implodeCoordinate (Fin p) (Fin g) (Fin q)
  = Fin (p + (g - p) * 0.02 * (1 + q * 10)).
Proof. reflexivity. Qed.

(** The facts about one implode step, shared below. *)
Lemma implodeCoordinate_contracts (e d dl p g : Q) :
  (0 < d)%Q ->
  exists t k p' : Q,
    particleProgress (Fin e) (Fin d) (Fin dl) = Fin t
    /\ (0 <= t /\ t <= 1)%Q
    /\ implodeSpeed * (Fin 1 + easeInOutCubic (Fin t) * Fin 10) = Fin k
    /\ implodeCoordinate (Fin p) (Fin g) (easeInOutCubic (Fin t)) = Fin p'
    /\ (0.02 <= k /\ k <= 0.22 /\ k < 1)%Q
    /\ (p' - g == (1 - k) * (p - g))%Q
    /\ (Qabs (p' - g) == (1 - k) * Qabs (p - g))%Q
    /\ (~ (p == g)%Q -> Qabs (p' - g) < Qabs (p - g))%Q
    /\ (0 <= (p' - g) * (p - g))%Q.
Proof.
  intros Hd.
  destruct (particleEase_fin e d dl Hd)
    as (t & q & Et & Ht01 & _ & Eq & _ & Hq01).
  exists t, (0.02 * (1 + q * 10))%Q, (p + (g - p) * 0.02 * (1 + q * 10))%Q.
  rewrite Eq.
  set (k := (0.02 * (1 + q * 10))%Q).
  assert (Hk1 : (0.02 <= k /\ k <= 0.22)%Q) by (unfold k; lra).
  assert (Eoff : (p + (g - p) * 0.02 * (1 + q * 10) - g == (1 - k) * (p - g))%Q)
    by (unfold k; ring).
  assert (Eabs : (Qabs (p + (g - p) * 0.02 * (1 + q * 10) - g)
                  == (1 - k) * Qabs (p - g))%Q).
  { rewrite Eoff, Qabs_Qmult. rewrite (Qabs_pos (1 - k)) by lra.
    reflexivity. }
  split; [exact Et|]. split; [exact Ht01|].
  split; [reflexivity|]. split; [reflexivity|].
  split; [lra|]. split; [exact Eoff|]. split; [exact Eabs|]. split.
  - intros Hne. rewrite Eabs.
    assert (0 < Qabs (p - g))%Q by (apply Qabs_positive; lra).
    nra.
  - rewrite Eoff.
    assert (E : ((1 - k) * (p - g) * (p - g)
                 == (1 - k) * ((p - g) * (p - g)))%Q) by ring.
    rewrite E. apply Qmult_le_0_compat; [lra|]. apply Qsquare_nonneg.
Qed.

Lemma Qpow_nonneg q n : (0 <= q)%Q -> (0 <= Qpow q n)%Q.
Proof.
  intros Hq. induction n as [|n IH]; simpl; [discriminate|].
  now apply Qmult_le_0_compat.
Qed.

(** The chase over the frames of a transition, one step at each clock
    value: the distance to the target shrinks geometrically, by a factor
    between 0.78 and 0.98 a frame, and so stays positive. *)
Lemma implode_chase (d dl g : Q) :
  (0 < d)%Q ->
  forall (clock : list Q) (p : Q),
  exists pn : Q,
    fold_left
      (fun pos e =>
         implodeCoordinate pos (Fin g)
           (easeInOutCubic (particleProgress (Fin e) (Fin d) (Fin dl))))
      clock (Fin p)
    = Fin pn
    /\ (Qpow 0.78 (length clock) * Qabs (p - g) <= Qabs (pn - g))%Q
    /\ (Qabs (pn - g) <= Qpow 0.98 (length clock) * Qabs (p - g))%Q.
Proof.
  intros Hd. induction clock as [|e clock IH]; intros p.
  - exists p. cbn [fold_left length Qpow]. repeat split; lra.
  - destruct (implodeCoordinate_contracts e d dl p g Hd)
      as (t & k & p' & Et & _ & _ & Ep & (Hk1 & Hk2 & _) & _ & Eabs & _).
    destruct (IH p') as (pn & Efold & Hlo & Hhi).
    exists pn. cbn [fold_left length Qpow]. rewrite Et, Ep.
    split; [exact Efold|].
    pose proof (Qpow_nonneg 0.78 (length clock) ltac:(discriminate)) as Hc1.
    pose proof (Qpow_nonneg 0.98 (length clock) ltac:(discriminate)) as Hc2.
    pose proof (Qabs_nonneg (p - g)) as Ha.
    rewrite Eabs in Hlo, Hhi.
    set (c1 := Qpow 0.78 (length clock)) in *.
    set (c2 := Qpow 0.98 (length clock)) in *.
    set (a := Qabs (p - g)) in *.
    set (b := Qabs (pn - g)) in *.
    clearbody c1 c2 a b.
    assert (0 <= c1 * a)%Q by (apply Qmult_le_0_compat; assumption).
    assert (0 <= c2 * a)%Q by (apply Qmult_le_0_compat; assumption).
    split; nra.
Qed.

(** ** One frame of a transition *)

Lemma userDataAt_Some s r m ud :
  heap s !! r = Some m -> userData m = Some ud -> userDataAt s r = Some ud.
Proof. intros H1 H2. unfold userDataAt. now rewrite H1. Qed.

(** The two loops of a frame change the heap and the count of random
    draws, nothing else: the outgoing set explodes and takes the opacity
    [0.9 * (1 - easeProgress)], the incoming set implodes and takes the
    opacity [0.9 * easeProgress]; then the frame either asks for the next
    one or completes the transition. *)
Lemma animateTransition_frame props sess now s nxt mn udn :
  wellFormed s ->
  nextParticles s = Some nxt ->
  heap s !! nxt = Some mn -> userData mn = Some udn ->
  let e := now - startTime sess in
  let d := duration sess in
  let ep := easeInOutCubic (baseProgress e d) in
  exists h2 n2,
    animateTransition props sess now s
    = (if baseProgress e d <? Fin 1
       then requestAnimationFrame (set_heap h2 (set_randomDraws n2 s))
       else completeTransition props sess
              (set_heap h2 (set_randomDraws n2 s)))
    /\ h2 !! nxt
       = Some (setOpacity (Fin 0.9 * ep) (setUserData (implodeSet e d udn) mn))
    /\ (forall cur mc udc,
          currentParticles s = Some cur ->
          heap s !! cur = Some mc -> userData mc = Some udc ->
          h2 !! cur
          = Some (setOpacity (Fin 0.9 * (Fin 1 - ep))
                    (setUserData (explodeSet e d udc (randomDraws s)).1 mc)))
    /\ length h2 = length (heap s).
Proof.
  intros Hwf Hnxt Hmn Hudn e d ep.
  unfold animateTransition. fold e d ep. unfold explodeCurrent.
  destruct (currentParticles s) as [cur|] eqn:Hcur.
  - destruct (wf_current s Hwf cur Hcur) as (mc & udc & Hmc & Hudc & _).
    pose proof (wf_distinct s Hwf cur nxt Hcur Hnxt) as Hne.
    rewrite (userDataAt_Some s cur mc udc Hmc Hudc).
    destruct (explodeSet e d udc (randomDraws s)) as [ud' draws'] eqn:Hex.
    unfold implodeNext. cbn [nextParticles update set_heap set_randomDraws].
    rewrite Hnxt. unfold userDataAt.
    cbn [heap update set_heap set_randomDraws].
    rewrite !list_lookup_alter_ne by assumption. rewrite Hmn, Hudn.
    exists (alter (setOpacity (Fin 0.9 * ep)) nxt
              (alter (setUserData (implodeSet e d udn)) nxt
                 (alter (setOpacity (Fin 0.9 * (Fin 1 - ep))) cur
                    (alter (setUserData ud') cur (heap s))))), draws'.
    split; [reflexivity|]. split; [|split].
    + rewrite !list_lookup_alter_eq, !list_lookup_alter_ne by assumption.
      rewrite Hmn. reflexivity.
    + intros cur' mc' udc' E Hmc' Hudc'. injection E as <-.
      rewrite Hmc in Hmc'. injection Hmc' as <-.
      rewrite Hudc in Hudc'. injection Hudc' as <-.
      rewrite !list_lookup_alter_ne by (intros E; apply Hne; now symmetry).
      rewrite !list_lookup_alter_eq, Hmc, Hex. reflexivity.
    + now rewrite !length_alter.
  - unfold implodeNext. rewrite Hnxt.
    rewrite (userDataAt_Some s nxt mn udn Hmn Hudn).
    exists (alter (setOpacity (Fin 0.9 * ep)) nxt
              (alter (setUserData (implodeSet e d udn)) nxt (heap s))),
           (randomDraws s).
    split; [|split; [|split]].
    + destruct s; reflexivity.
    + rewrite !list_lookup_alter_eq, Hmn. reflexivity.
    + intros cur mc udc E. discriminate.
    + now rewrite !length_alter.
Qed.

Lemma updateCameraForParticles_same s :
  let s' := updateCameraForParticles s in
  heap s' = heap s /\ scene s' = scene s
  /\ currentParticles s' = currentParticles s
  /\ nextParticles s' = nextParticles s
  /\ currentImageIndex s' = currentImageIndex s
  /\ isTransitioning s' = isTransitioning s
  /\ frames s' = frames s /\ timers s' = timers s
  /\ autoAdvanceTimer s' = autoAdvanceTimer s
  /\ camera s' = camera s.
Proof.
  unfold updateCameraForParticles.
  destruct (camera s) eqn:Hc, (currentParticles s) as [r|] eqn:Hr;
    try (repeat split; congruence).
  destruct (isTransitioning s) eqn:Ht; try (repeat split; congruence).
  destruct (heap s !! r); repeat split; simpl; congruence.
Qed.

(** The framer past its entry test. *)
Lemma updateCameraForParticles_runs s cam r m :
  camera s = Some cam -> currentParticles s = Some r ->
  isTransitioning s = false -> heap s !! r = Some m ->
  targetCameraZ (updateCameraForParticles s)
  = framedCameraZ cam (innerWidth s) (innerHeight s) m.
Proof.
  intros Hc Hr Ht Hm. unfold updateCameraForParticles.
  now rewrite Hc, Hr, Ht, Hm.
Qed.

Lemma startAutoAdvance_same props s :
  let s' := startAutoAdvance props s in
  heap s' = heap s /\ scene s' = scene s
  /\ currentParticles s' = currentParticles s
  /\ nextParticles s' = nextParticles s
  /\ currentImageIndex s' = currentImageIndex s
  /\ isTransitioning s' = isTransitioning s
  /\ frames s' = frames s /\ targetCameraZ s' = targetCameraZ s
  /\ camera s' = camera s.
Proof. unfold startAutoAdvance. repeat split; reflexivity. Qed.

(** The state after the completion of a transition (lines 990-1008). *)
Lemma promoteNext_fields sess s :
  let promoted := promoteNext sess s in
  heap promoted
  = match currentParticles s with
    | Some r => alter dispose r (heap s)
    | None => heap s
    end
  /\ scene promoted
     = match currentParticles s with
       | Some r => scene_remove r (scene s)
       | None => scene s
       end
  /\ currentParticles promoted = nextParticles s
  /\ nextParticles promoted = None
  /\ currentImageIndex promoted = nextIndex sess
  /\ isTransitioning promoted = false
  /\ frames promoted = frames s
  /\ camera promoted = camera s
  /\ innerWidth promoted = innerWidth s
  /\ innerHeight promoted = innerHeight s.
Proof.
  unfold promoteNext. destruct (currentParticles s); repeat split; reflexivity.
Qed.

Lemma completeTransition_fields props sess s :
  let s' := completeTransition props sess s in
  let promoted := promoteNext sess s in
  heap s' = heap promoted /\ scene s' = scene promoted
  /\ currentParticles s' = nextParticles s
  /\ nextParticles s' = None
  /\ currentImageIndex s' = nextIndex sess
  /\ isTransitioning s' = false
  /\ frames s' = frames s
  /\ camera s' = camera s
  /\ targetCameraZ s' = targetCameraZ (updateCameraForParticles promoted).
Proof.
  intros s' promoted.
  pose proof (updateCameraForParticles_same promoted) as Hc.
  pose proof (startAutoAdvance_same props (updateCameraForParticles promoted))
    as Ha.
  pose proof (promoteNext_fields sess s) as Hp.
  cbv zeta in Hc, Ha, Hp. fold promoted in Hp.
  destruct Hc as (c1 & c2 & c3 & c4 & c5 & c6 & c7 & c8 & c9 & c10).
  destruct Ha as (a1 & a2 & a3 & a4 & a5 & a6 & a7 & a8 & a9).
  destruct Hp as (_ & _ & p1 & p2 & p3 & p4 & p5 & p6 & _).
  unfold s', completeTransition. fold promoted.
  destruct (autoAdvance props); repeat split; congruence.
Qed.

Lemma requestAnimationFrame_heap s : heap (requestAnimationFrame s) = heap s.
Proof. reflexivity. Qed.

(** The overall progress on finite times and a positive duration. *)
Lemma baseProgress_fin e d :
  (0 < d)%Q -> (0 <= e)%Q ->
  exists t,
    baseProgress (Fin e) (Fin d) = Fin t
    /\ (0 <= t <= 1)%Q /\ (t == Qmin (e / d) 1)%Q
    /\ ((e == 0)%Q -> (t == 0)%Q) /\ ((d <= e)%Q -> (t == 1)%Q)
    /\ (JS.lt (Fin t) (Fin 1) = false <-> (d <= e)%Q).
Proof.
  intros Hd He. unfold baseProgress.
  rewrite div_fin, min_fin by lra.
  assert (Hq : (0 <= e / d)%Q) by (apply Qle_shift_div_l; lra).
  assert (Hone : (1 <= e / d <-> d <= e)%Q).
  { split; intros H.
    - apply (Qmult_le_compat_r _ _ d) in H; [|lra].
      assert (E : (e / d * d == e)%Q) by (field; lra). lra.
    - apply Qle_shift_div_l; lra. }
  destruct (Qle_bool (e / d) 1) eqn:E1;
    [apply Qle_bool_iff in E1 | apply Qle_bool_false in E1];
    eexists; (split; [reflexivity|]).
  - split; [lra|]. split; [now rewrite Q.min_l|]. split; [|split].
    + intros E0. rewrite E0. unfold Qdiv. ring.
    + intros H. apply Hone in H. lra.
    + cbn [JS.lt]. rewrite Qlt_bool_false. rewrite <- Hone. reflexivity.
  - split; [lra|]. split; [rewrite Q.min_r by lra; reflexivity|].
    split; [|split].
    + intros E0. exfalso. rewrite E0 in E1.
      assert (0 / d == 0)%Q by (unfold Qdiv; ring). lra.
    + reflexivity.
    + cbn [JS.lt]. rewrite Qlt_bool_false. split; [|lra].
      intros _. apply Hone. lra.
Qed.

(** The two sets after a frame, whether it is the last one or not: the
    last frame also disposes the outgoing set. *)
Lemma animateTransition_objects props sess now s nxt mn udn :
  wellFormed s ->
  nextParticles s = Some nxt ->
  heap s !! nxt = Some mn -> userData mn = Some udn ->
  let e := now - startTime sess in
  let d := duration sess in
  let ep := easeInOutCubic (baseProgress e d) in
  let s' := animateTransition props sess now s in
  heap s' !! nxt
  = Some (setOpacity (Fin 0.9 * ep) (setUserData (implodeSet e d udn) mn))
  /\ forall cur mc udc,
       currentParticles s = Some cur ->
       heap s !! cur = Some mc -> userData mc = Some udc ->
       heap s' !! cur
       = Some ((if baseProgress e d <? Fin 1 then id else dispose)
                 (setOpacity (Fin 0.9 * (Fin 1 - ep))
                    (setUserData (explodeSet e d udc (randomDraws s)).1 mc))).
Proof.
  intros Hwf Hnxt Hmn Hudn e d ep s'.
  destruct (animateTransition_frame props sess now s nxt mn udn
              Hwf Hnxt Hmn Hudn) as (h2 & n2 & Es & Hn & Hc & _).
  fold e d ep in Es, Hn, Hc. fold s' in Es.
  destruct (baseProgress e d <? Fin 1) eqn:Hbp.
  - rewrite Es, requestAnimationFrame_heap. cbn [heap set_heap].
    split; [exact Hn|]. intros cur mc udc H1 H2 H3.
    now rewrite (Hc cur mc udc).
  - destruct (completeTransition_fields props sess
                (set_heap h2 (set_randomDraws n2 s))) as (Eh & _).
    rewrite <- Es in Eh. rewrite Eh.
    rewrite (proj1 (promoteNext_fields sess _)).
    cbn [heap currentParticles set_heap set_randomDraws].
    destruct (currentParticles s) as [cur|] eqn:Hcur.
    + pose proof (wf_distinct s Hwf cur nxt Hcur Hnxt) as Hne.
      split.
      * now rewrite list_lookup_alter_ne.
      * intros cur' mc udc E H2 H3. injection E as <-.
        rewrite list_lookup_alter_eq, (Hc cur mc udc) by auto.
        reflexivity.
    + split; [exact Hn|]. intros cur mc udc E. discriminate.
Qed.

(** C9.  On every frame of a transition the material opacity of the
    outgoing set is [0.9 * (1 - easeInOutCubic(min(e/d, 1)))] and that of
    the incoming set [0.9 * easeInOutCubic(min(e/d, 1))], whatever the
    delays of the particles; as the elapsed time goes from 0 to the
    duration the eased progress rises from 0 to 1 without ever falling, so
    that the outgoing opacity goes from 0.9 to 0 and the incoming one from
    0 to 0.9. *)
Theorem transition_opacity props sess now s cur nxt :
  wellFormed s ->
  currentParticles s = Some cur ->
  nextParticles s = Some nxt ->
  let e := now - startTime sess in
  let d := duration sess in
  let s' := animateTransition props sess now s in
  (exists m, heap s' !! cur = Some m
             /\ material_opacity m
                = Fin 0.9 * (Fin 1 - easeInOutCubic (JS.min (e / d) (Fin 1))))
  /\ (exists m, heap s' !! nxt = Some m
                /\ material_opacity m
                   = Fin 0.9 * easeInOutCubic (JS.min (e / d) (Fin 1)))
  /\ (forall e1 e2 dq : Q,
        (0 < dq)%Q -> (0 <= e1)%Q -> (e1 <= e2)%Q ->
        exists q1 q2 : Q,
          easeInOutCubic (JS.min (Fin e1 / Fin dq) (Fin 1)) = Fin q1
          /\ easeInOutCubic (JS.min (Fin e2 / Fin dq) (Fin 1)) = Fin q2
          /\ (0 <= q1)%Q /\ (q1 <= q2)%Q /\ (q2 <= 1)%Q
          /\ ((e1 == 0)%Q -> (q1 == 0)%Q)
          /\ ((dq <= e2)%Q -> (q2 == 1)%Q)
          /\ Fin 0.9 * (Fin 1 - Fin q1) = Fin (0.9 * (1 - q1))
          /\ Fin 0.9 * Fin q1 = Fin (0.9 * q1)).
Proof.
  intros Hwf Hcur Hnxt e d s'.
  destruct (wf_current s Hwf cur Hcur) as (mc & udc & Hmc & Hudc & _).
  destruct (wf_next s Hwf nxt Hnxt) as (mn & udn & Hmn & Hudn & _).
  destruct (animateTransition_objects props sess now s nxt mn udn
              Hwf Hnxt Hmn Hudn) as (Hn & Hc).
  fold e d s' in Hn, Hc. specialize (Hc cur mc udc Hcur Hmc Hudc).
  split; [|split].
  - eexists; split; [exact Hc|].
    destruct (baseProgress e d <? Fin 1); reflexivity.
  - eexists; split; [exact Hn|]. reflexivity.
  - intros e1 e2 dq Hd H1 H12.
    destruct (baseProgress_fin e1 dq Hd H1)
      as (t1 & E1 & R1 & M1 & Z1 & _).
    destruct (baseProgress_fin e2 dq Hd ltac:(lra))
      as (t2 & E2 & R2 & M2 & _ & O2 & _).
    unfold baseProgress in E1, E2. rewrite E1, E2.
    destruct (easeInOutCubic_fin t1) as (q1 & -> & Q1).
    destruct (easeInOutCubic_fin t2) as (q2 & -> & Q2).
    exists q1, q2.
    pose proof (cubicInOut_range t1 R1).
    pose proof (cubicInOut_range t2 R2).
    assert (Hle : (t1 <= t2)%Q).
    { rewrite M1, M2. apply Q.min_le_compat_r.
      apply Qmult_le_compat_r; [lra|]. apply Qlt_le_weak.
      now apply Qinv_lt_0_compat. }
    pose proof (cubicInOut_mono t1 t2 ltac:(lra) Hle ltac:(lra)).
    repeat split; try reflexivity; try lra.
    + intros E0. rewrite Q1, (cubicInOut_eq _ _ (Z1 E0)). reflexivity.
    + intros Hpast. rewrite Q2, (cubicInOut_eq _ _ (O2 Hpast)). reflexivity.
Qed.

(** The implode loop, particle by particle. *)
Lemma implodeSet_get e d ud i k :
  (i < count ud)%nat -> (k < 3)%nat ->
  get (positions (implodeSet e d ud)) (i * 3 + k)
  = implodeCoordinate (get (positions ud) (i * 3 + k))
      (get (originalPositions ud) (i * 3 + k))
      (easeInOutCubic (particleProgress e d (get (delays ud) i))).
Proof.
  intros Hi Hk. unfold implodeSet. cbn [positions setPositions].
  rewrite (particle_loop_pure
             (fun i x y z =>
                let ease :=
                  easeInOutCubic (particleProgress e d (get (delays ud) i)) in
                (implodeCoordinate x (get (originalPositions ud) (i * 3)) ease,
                 implodeCoordinate y (get (originalPositions ud) (i * 3 + 1))
                   ease,
                 implodeCoordinate z (get (originalPositions ud) (i * 3 + 2))
                   ease)))
    by (reflexivity || assumption).
  rewrite decide_True by lia.
  destruct k as [|[|[|k]]]; try lia; cbn [coord fst snd];
    rewrite ?Nat.add_0_r; reflexivity.
Qed.


Lemma scene_remove_not_in r children : ~ In r (scene_remove r children).
Proof.
  unfold scene_remove. rewrite <- list_elem_of_In, list_elem_of_filter.
  tauto.
Qed.

Lemma scene_remove_other r r' children :
  r' <> r -> In r' children -> In r' (scene_remove r children).
Proof.
  unfold scene_remove. rewrite <- !list_elem_of_In, list_elem_of_filter.
  tauto.
Qed.

(** C3.  When the overall progress of a transition has reached 1 (for a
    positive duration: when the elapsed time has reached the duration), the
    frame removes the outgoing set from the scene and disposes its geometry
    and its material, each exactly once; the incoming set becomes the
    current one and [nextParticles] is null, so that one set is registered,
    as current, and none as outgoing or incoming; [currentImageIndex] is
    the index of the new image, [isTransitioning] is false, the camera
    framer has run on the new current set, which is still attached, and no
    further frame is requested. *)
Theorem transition_completion props sess now s nxt :
  wellFormed s ->
  nextParticles s = Some nxt ->
  (baseProgress (now - startTime sess) (duration sess) <? Fin 1) = false ->
  let s' := animateTransition props sess now s in
  (forall cur, currentParticles s = Some cur ->
     ~ In cur (scene s')
     /\ currentParticles s' <> Some cur
     /\ exists m', heap s' !! cur = Some m'
                   /\ geometry_disposed m' = 1%nat
                   /\ material_disposed m' = 1%nat)
  /\ currentParticles s' = Some nxt
  /\ nextParticles s' = None
  /\ live s' nxt
  /\ (In nxt (scene s) -> In nxt (scene s'))
  /\ currentImageIndex s' = nextIndex sess
  /\ isTransitioning s' = false
  /\ (forall cam, camera s = Some cam ->
        exists m, heap s' !! nxt = Some m
                  /\ targetCameraZ s'
                     = framedCameraZ cam (innerWidth s) (innerHeight s) m)
  /\ frames s' = frames s
  /\ (forall e d : Q, (0 < d)%Q -> (0 <= e)%Q ->
        (baseProgress (Fin e) (Fin d) <? Fin 1) = false <-> (d <= e)%Q).
Proof.
  intros Hwf Hnxt Hdone s'.
  destruct (wf_next s Hwf nxt Hnxt) as (mn & udn & Hmn & Hudn & Hg & Hm).
  destruct (animateTransition_frame props sess now s nxt mn udn
              Hwf Hnxt Hmn Hudn) as (h2 & n2 & Es & _).
  destruct (animateTransition_objects props sess now s nxt mn udn
              Hwf Hnxt Hmn Hudn) as (Hn & Hc).
  cbv zeta in Es, Hn, Hc. fold s' in Es, Hn, Hc.
  rewrite Hdone in Es, Hc.
  destruct (completeTransition_fields props sess
              (set_heap h2 (set_randomDraws n2 s)))
    as (Eh & Esc & Ecur & Enext & Eidx & Etr & Efr & Ecam & Ez).
  rewrite <- Es in Eh, Esc, Ecur, Enext, Eidx, Etr, Efr, Ecam, Ez.
  destruct (promoteNext_fields sess (set_heap h2 (set_randomDraws n2 s)))
    as (Ph & Psc & Pcur & _ & _ & Ptr & _ & Pcam & Pw & Ph').
  pose proof Eh as EhP. rewrite Ph in Eh. rewrite Psc in Esc.
  cbn [camera innerWidth innerHeight nextParticles set_heap set_randomDraws]
    in Pcam, Pw, Ph', Pcur.
  cbn [nextParticles set_heap set_randomDraws] in Ecur.
  cbn [frames set_heap set_randomDraws] in Efr.
  cbn [camera set_heap set_randomDraws] in Ecam.
  cbn [heap scene currentParticles set_heap set_randomDraws] in Eh, Esc.
  rewrite Hnxt in Ecur.
  split; [|split; [|split; [|split; [|split; [|split; [|split; [|split; [|split]]]]]]]];
    try assumption.
  - intros cur Hcur.
    destruct (wf_current s Hwf cur Hcur) as (mc & udc & Hmc & Hudc & Hg' & Hm').
    pose proof (wf_distinct s Hwf cur nxt Hcur Hnxt) as Hne.
    split; [|split].
    + rewrite Esc, Hcur. apply scene_remove_not_in.
    + rewrite Ecur. congruence.
    + eexists; split; [exact (Hc cur mc udc Hcur Hmc Hudc)|].
      cbn [geometry_disposed material_disposed dispose setOpacity
           setUserData]. now rewrite Hg', Hm'.
  - exists (setOpacity
              (Fin 0.9
               * easeInOutCubic
                   (baseProgress (now - startTime sess) (duration sess)))
              (setUserData
                 (implodeSet (now - startTime sess) (duration sess) udn) mn)),
           (implodeSet (now - startTime sess) (duration sess) udn).
    repeat split; [exact Hn|exact Hg|exact Hm].
  - intros Hin. rewrite Esc.
    destruct (currentParticles s) as [cur|] eqn:Hcur; [|exact Hin].
    apply scene_remove_other; [|exact Hin].
    intros E. exact (wf_distinct s Hwf cur nxt Hcur Hnxt (eq_sym E)).
  - intros cam Hcam. eexists; split; [exact Hn|].
    rewrite Ez.
    erewrite (updateCameraForParticles_runs _ cam nxt);
      [ rewrite Pw, Ph'; reflexivity
      | rewrite Pcam; exact Hcam
      | rewrite Pcur; exact Hnxt
      | exact Ptr
      | rewrite <- EhP; exact Hn ].
  - intros e d Hd He.
    destruct (baseProgress_fin e d Hd He) as (t & -> & _ & _ & _ & _ & H).
    exact H.
Qed.

(** ** The guard and the failure path of [transitionToNext] *)

(** C1.  A call of [transitionToNext] while a transition is in flight, or
    with an empty list of images, returns at once: the state is the one
    before the call and the function does not reach its [await], so that
    no session is created. *)
Theorem transitionToNext_guard props s :
  isTransitioning s = true \/ images props = [] ->
  transitionToNext_begin props s = (s, None)
  /\ forall now now', transitionToNext props now now' s = (s, None).
Proof.
  intros H.
  assert (E : transitionToNext_begin props s = (s, None)).
  { destruct H as [H|H]; unfold transitionToNext_begin.
    - now rewrite H.
    - rewrite H. now rewrite Bool.orb_true_r. }
  split; [exact E|]. intros now now'. unfold transitionToNext. now rewrite E.
Qed.

(** A call that reaches its [await] has set the busy flag and changed
    nothing else; it was made in a state without a transition in flight. *)
Lemma transitionToNext_begin_loading props s s1 nextIndex url :
  transitionToNext_begin props s = (s1, Some (nextIndex, url)) ->
  isTransitioning s = false /\ s1 = set_isTransitioning true s
  /\ images props !! nextIndex = Some url
  /\ nextIndex = ((currentImageIndex s + 1) mod length (images props))%nat.
Proof.
  unfold transitionToNext_begin.
  destruct (isTransitioning s); [discriminate|].
  destruct (length (images props) =? 0)%nat; [discriminate|]. cbn [orb].
  destruct (images props !! _) as [u|] eqn:E; [|discriminate].
  destruct (String.eqb u ""); [discriminate|].
  intros H. injection H as <- <- <-. auto.
Qed.

(** When the sampler rejects. *)
Lemma imageToParticles_rejects density url draws :
  let img := loadImage url in
  (img_onload img = false \/ img_complete img = false
   \/ naturalWidth img = 0%Z \/ naturalHeight img = 0%Z
   \/ context2d img = false)
  <-> exists err, imageToParticles density url draws = (inl err, draws).
Proof.
  intros img. unfold imageToParticles. fold img.
  destruct (img_onload img), (img_complete img), (context2d img);
    cbn [negb orb];
    destruct (Z.eqb_spec (naturalWidth img) 0),
             (Z.eqb_spec (naturalHeight img) 0); cbn [orb];
    try (split; [intros _; eexists; reflexivity | intros _; tauto]).
  destruct (drawRect _ _) as [[[dx dy] dw] dh].
  destruct (particlesFromCanvas _ _ _ _ _) as [mesh draws'].
  split.
  - intros [H|[H|[H|[H|H]]]]; congruence.
  - intros [err H]. discriminate.
Qed.

(** C2.  If the sampler rejects, [transitionToNext] catches the error and
    clears the busy flag, and that is all it does: the current set is the
    one it was and is still in the scene, no incoming set is installed, no
    timer is scheduled, no frame is requested and no session results, hence
    no retry.  When nothing else happened since the call, the state is
    again the one before the call.  A failed load or an incomplete decode
    makes the sampler reject. *)
Theorem sampling_failure_aborts props nextIndex url now now' s1 err :
  (imageToParticles (particleDensity props) url (randomDraws s1)).1
  = inl err ->
  let after := transitionToNext_resume props nextIndex url now now' s1 in
  after = (set_isTransitioning false s1, None)
  /\ isTransitioning after.1 = false
  /\ currentParticles after.1 = currentParticles s1
  /\ nextParticles after.1 = nextParticles s1
  /\ heap after.1 = heap s1
  /\ scene after.1 = scene s1
  /\ timers after.1 = timers s1
  /\ autoAdvanceTimer after.1 = autoAdvanceTimer s1
  /\ frames after.1 = frames s1
  /\ (forall s, transitionToNext_begin props s = (s1, Some (nextIndex, url)) ->
        after = (s, None) /\ transitionToNext props now now' s = (s, None))
  /\ (img_onload (loadImage url) = false
      \/ img_complete (loadImage url) = false ->
      exists err', imageToParticles (particleDensity props) url
                     (randomDraws s1) = (inl err', randomDraws s1)).
Proof.
  intros Hrej after.
  assert (E : after = (set_isTransitioning false s1, None)).
  { unfold after, transitionToNext_resume.
    destruct (imageToParticles _ _ _) as [[e|m] n]; [reflexivity|discriminate]. }
  assert (Hback : forall s,
            transitionToNext_begin props s = (s1, Some (nextIndex, url)) ->
            set_isTransitioning false s1 = s).
  { intros s Hb.
    destruct (transitionToNext_begin_loading _ _ _ _ _ Hb) as (Hidle & -> & _).
    destruct s; cbn in Hidle |- *; now subst. }
  rewrite E. cbn [fst].
  do 9 (split; [reflexivity|]). split.
  - intros s Hb. rewrite (Hback s Hb). split; [reflexivity|].
    unfold transitionToNext. rewrite Hb. fold after.
    now rewrite E, (Hback s Hb).
  - intros H. apply imageToParticles_rejects. tauto.
Qed.

(** ** The sampler *)

(** The stride is an integer of at least 1, unless it is not finite. *)
Lemma samplingStep_finite density k :
  samplingStep density = Fin k -> (1 <= Qfloor k)%Z.
Proof.
  unfold samplingStep.
  destruct (JS.floor (Fin 1 / density)) as [q| | |] eqn:E;
    cbn [JS.max JS.le]; try discriminate.
  - destruct (Fin 1 / density) as [x| | |]; try discriminate.
    cbn [JS.floor] in E. injection E as <-.
    destruct (Qle_bool 1 (inject_Z (Qfloor x))) eqn:L; intros H;
      injection H as <-.
    + apply Qle_bool_iff in L. rewrite Qfloor_Z.
      change 1%Q with (inject_Z 1) in L. now rewrite <- Zle_Qle in L.
    + reflexivity.
  - intros H. injection H as <-. reflexivity.
Qed.

(** For a stride in (0, 1] the stride is the finite integer
    [max(1, floor(1/density))]. *)
Lemma samplingStep_unit_interval density :
  (0 < density)%Q -> (density <= 1)%Q ->
  exists k, samplingStep (Fin density) = Fin (inject_Z k)
            /\ k = Z.max 1 (Qfloor (1 / density)).
Proof.
  intros H0 H1. unfold samplingStep.
  rewrite div_fin by lra. cbn [JS.floor JS.max JS.le].
  assert (Hone : (1 <= 1 / density)%Q) by (apply Qle_shift_div_l; lra).
  assert (Hf : (1 <= Qfloor (1 / density))%Z).
  { change 1%Z with (Qfloor 1). now apply Qfloor_resp_le. }
  assert (Qle_bool 1 (inject_Z (Qfloor (1 / density))) = true) as ->.
  { apply Qle_bool_iff. change 1%Q with (inject_Z 1).
    now rewrite <- Zle_Qle. }
  eexists; split; [reflexivity|]. lia.
Qed.

Lemma forStep_collect fuel i bound step (visited : list Z) :
  forStep fuel i bound step (fun j l => l ++ [j]) visited
  = visited ++ forStep fuel i bound step (fun j l => l ++ [j]) [].
Proof.
  revert i visited. induction fuel as [|fuel IH]; intros i visited; simpl.
  - now rewrite app_nil_r.
  - destruct (i <? bound)%Z; [|now rewrite app_nil_r].
    destruct step; try reflexivity.
    rewrite IH, (IH _ [i]). now rewrite app_assoc.
Qed.

(** A loop is the fold of its body over the values of its counter. *)
Lemma forStep_fold {A} fuel i bound step (body : Z -> A -> A) acc :
  forStep fuel i bound step body acc
  = fold_left (fun a j => body j a)
      (forStep fuel i bound step (fun j l => l ++ [j]) []) acc.
Proof.
  revert i acc. induction fuel as [|fuel IH]; intros i acc; simpl.
  - reflexivity.
  - destruct (i <? bound)%Z; [|reflexivity].
    destruct step; try reflexivity.
    rewrite forStep_collect. simpl. apply IH.
Qed.

(** With the fuel the scan gives it, a loop runs until its test fails:
    more fuel does not change its result. *)
Lemma forStep_fuel {A} bound step (body : Z -> A -> A) :
  (forall k, step = Fin k -> (1 <= Qfloor k)%Z) ->
  forall fuel i acc,
    (Z.to_nat (bound - i) <= fuel)%nat ->
    forStep (S fuel) i bound step body acc
    = forStep fuel i bound step body acc.
Proof.
  intros Hstep. induction fuel as [|fuel IH]; intros i acc Hfuel.
  - simpl. destruct (Z.ltb_spec i bound); [lia|reflexivity].
  - change (forStep (S (S fuel)) i bound step body acc)
      with (if (i <? bound)%Z
            then match step with
                 | Fin k =>
                     forStep (S fuel) (i + Qfloor k) bound step body
                       (body i acc)
                 | _ => body i acc
                 end
            else acc).
    change (forStep (S fuel) i bound step body acc)
      with (if (i <? bound)%Z
            then match step with
                 | Fin k =>
                     forStep fuel (i + Qfloor k) bound step body (body i acc)
                 | _ => body i acc
                 end
            else acc).
    destruct (Z.ltb_spec i bound); [|reflexivity].
    destruct step as [k| | |] eqn:Es; try reflexivity.
    apply IH. pose proof (Hstep k eq_refl). lia.
Qed.

(** The loops of the scan are not cut short: their stride is at least 1
    when it is finite, and they have one unit of fuel for each value below
    the bound. *)
Lemma scan_loop_complete {A} bound density (body : Z -> A -> A) acc extra :
  forStep (Z.to_nat bound + extra) 0 bound (samplingStep density) body acc
  = forStep (Z.to_nat bound) 0 bound (samplingStep density) body acc.
Proof.
  induction extra as [|extra IH].
  - now rewrite Nat.add_0_r.
  - rewrite Nat.add_succ_r, <- IH.
    apply forStep_fuel; [apply samplingStep_finite|]. lia.
Qed.

Lemma forStep_range fuel i bound step :
  (forall k, step = Fin k -> (1 <= Qfloor k)%Z) ->
  (0 <= i)%Z ->
  Forall (fun j => (0 <= j < bound)%Z)
    (forStep fuel i bound step (fun j l => l ++ [j]) []).
Proof.
  intros Hstep. revert i. induction fuel as [|fuel IH]; intros i Hi; simpl.
  - constructor.
  - destruct (Z.ltb_spec i bound); [|constructor].
    destruct step as [k| | |] eqn:Es;
      try (repeat constructor; lia).
    rewrite forStep_collect. apply Forall_app. split.
    + repeat constructor; lia.
    + apply IH. pose proof (Hstep k eq_refl). lia.
Qed.

Lemma visitedPixels_range width height density :
  Forall (fun xy => (0 <= xy.1 < width)%Z /\ (0 <= xy.2 < height)%Z)
    (visitedPixels width height (samplingStep density)).
Proof.
  unfold visitedPixels, stepsBelow.
  pose proof (forStep_range (Z.to_nat width) 0 width (samplingStep density)
                (samplingStep_finite density) ltac:(lia)) as Hx.
  pose proof (forStep_range (Z.to_nat height) 0 height (samplingStep density)
                (samplingStep_finite density) ltac:(lia)) as Hy.
  rewrite Forall_forall in Hx, Hy. apply Forall_forall.
  intros [x y] Hin. apply list_elem_of_In, in_flat_map in Hin.
  destruct Hin as (y' & Hy' & Hin). apply in_map_iff in Hin.
  destruct Hin as (x' & E & Hx'). injection E as <- <-.
  apply list_elem_of_In in Hx', Hy'. cbn [fst snd]. auto.
Qed.

Lemma fold_left_flat_map {A B C} (f : A -> list B) (g : C -> B -> C) l acc :
  fold_left g (flat_map f l) acc
  = fold_left (fun a x => fold_left g (f x) a) l acc.
Proof.
  revert acc. induction l as [|x l IH]; intros acc; simpl; [reflexivity|].
  now rewrite fold_left_app, IH.
Qed.

Lemma fold_left_map {A B C} (f : A -> B) (g : C -> B -> C) l acc :
  fold_left g (map f l) acc = fold_left (fun a x => g a (f x)) l acc.
Proof.
  revert acc. induction l as [|x l IH]; intros acc; simpl; [reflexivity|].
  apply IH.
Qed.

Lemma fold_left_same {A B} (f g : A -> B -> A) l acc :
  (forall a x, f a x = g a x) -> fold_left f l acc = fold_left g l acc.
Proof.
  intros H. revert acc. induction l as [|x l IH]; intros acc; simpl;
    [reflexivity|]. now rewrite H, IH.
Qed.

(** The scan is the fold of its body over the visited pixels. *)
Lemma scanCanvas_fold width height pixels density draws :
  scanCanvas width height pixels density draws
  = fold_left (fun acc xy => samplePixel width height pixels xy.2 xy.1 acc)
      (visitedPixels width height (samplingStep density))
      (mkSamples [] [] [] [] draws).
Proof.
  unfold scanCanvas, visitedPixels, stepsBelow.
  rewrite forStep_fold, fold_left_flat_map.
  apply fold_left_same. intros acc y.
  now rewrite forStep_fold, fold_left_map.
Qed.

Lemma filter_snoc_true {A} (P : A -> Prop) `{!forall x, Decision (P x)} l x :
  P x -> filter P (l ++ [x]) = filter P l ++ [x].
Proof.
  intros HP. rewrite filter_app. f_equal.
  rewrite filter_cons_True by assumption. reflexivity.
Qed.

Lemma filter_snoc_false {A} (P : A -> Prop) `{!forall x, Decision (P x)} l x :
  ~ P x -> filter P (l ++ [x]) = filter P l.
Proof.
  intros HP. rewrite filter_app, filter_cons_False by assumption.
  now rewrite filter_nil, app_nil_r.
Qed.

(** One turn of the scan: a pixel that survives appends one particle to
    each array, another pixel changes nothing. *)
Lemma samplePixel_spec width height pixels x y acc :
  (width <> 0)%Z -> (height <> 0)%Z ->
  let acc' := samplePixel width height pixels y x acc in
  if survives width pixels (x, y) then
    s_originalPositions acc'
    = s_originalPositions acc ++ targetOf width height (x, y)
    /\ s_positions acc' = s_positions acc ++ targetOf width height (x, y)
    /\ length (s_colors acc') = (length (s_colors acc) + 3)%nat
    /\ length (s_velocities acc') = (length (s_velocities acc) + 3)%nat
    /\ s_draws acc' = S (s_draws acc)
  else acc' = acc.
Proof.
  intros Hw Hh. unfold samplePixel, survives. cbn [fst snd].
  set (index := Z.to_nat ((y * width + x) * 4)).
  destruct (decide (length pixels <= index + 3)%nat) as [Hout|Hin].
  - rewrite bool_decide_eq_false_2 by lia. reflexivity.
  - rewrite bool_decide_eq_true_2 by lia. cbn [andb].
    destruct (Z.ltb_spec (default 0%Z (pixels !! (index + 3)%nat)) 10).
    + destruct (Z.leb_spec 10 (default 0%Z (pixels !! (index + 3)%nat)));
        [lia|reflexivity].
    + destruct (Z.leb_spec 10 (default 0%Z (pixels !! (index + 3)%nat)));
        [|lia].
      assert (Ew : ~ (inject_Z width == 0)%Q).
      { change 0%Q with (inject_Z 0). rewrite inject_Z_injective. exact Hw. }
      assert (Eh : ~ (inject_Z height == 0)%Q).
      { change 0%Q with (inject_Z 0). rewrite inject_Z_injective. exact Hh. }
      cbn [s_originalPositions s_positions s_colors s_velocities s_draws].
      unfold ofZ, targetOf. cbn [fst snd].
      rewrite !div_fin by assumption. cbn [JS.mul JS.sub].
      rewrite !length_app. cbn [length]. repeat split; reflexivity.
Qed.

(** The arrays after the scan of a list of pixels. *)
Lemma scan_fold_spec width height pixels :
  (width <> 0)%Z -> (height <> 0)%Z ->
  forall visited acc,
    let acc' :=
      fold_left (fun acc xy => samplePixel width height pixels xy.2 xy.1 acc)
        visited acc in
    let kept := filter (fun xy => survives width pixels xy = true) visited in
    s_originalPositions acc'
    = s_originalPositions acc ++ flat_map (targetOf width height) kept
    /\ s_positions acc'
       = s_positions acc ++ flat_map (targetOf width height) kept
    /\ length (s_colors acc') = (length (s_colors acc) + 3 * length kept)%nat
    /\ length (s_velocities acc')
       = (length (s_velocities acc) + 3 * length kept)%nat
    /\ s_draws acc' = (s_draws acc + length kept)%nat.
Proof.
  intros Hw Hh visited.
  induction visited as [|[x y] visited IH] using rev_ind; intros acc.
  - simpl. rewrite !app_nil_r. repeat split; lia.
  - cbv zeta. rewrite fold_left_app. cbn [fold_left fst snd].
    specialize (IH acc). cbv zeta in IH.
    destruct IH as (I1 & I2 & I3 & I4 & I5).
    pose proof (samplePixel_spec width height pixels x y
                  (fold_left
                     (fun acc xy =>
                        samplePixel width height pixels xy.2 xy.1 acc)
                     visited acc) Hw Hh) as S.
    cbv zeta in S.
    destruct (survives width pixels (x, y)) eqn:E.
    + rewrite filter_snoc_true by exact E.
      destruct S as (S1 & S2 & S3 & S4 & S5).
      rewrite S1, S2, S3, S4, S5, I1, I2, I3, I4, I5.
      rewrite flat_map_app, length_app. cbn [flat_map length].
      rewrite app_nil_r, !app_assoc. repeat split; lia.
    + rewrite filter_snoc_false by (rewrite E; discriminate).
      rewrite S. auto.
Qed.

Lemma length_flat_map_targetOf width height pts :
  length (flat_map (targetOf width height) pts) = (3 * length pts)%nat.
Proof. induction pts as [|p pts IH]; simpl; [reflexivity|]. lia. Qed.

Lemma lookup_flat_map_targetOf width height pts i k :
  (k < 3)%nat ->
  flat_map (targetOf width height) pts !! (i * 3 + k)%nat
  = match pts !! i with
    | Some xy => targetOf width height xy !! k
    | None => None
    end.
Proof.
  intros Hk. revert i. induction pts as [|p pts IH]; intros i.
  - reflexivity.
  - destruct i as [|i].
    + simpl. destruct k as [|[|[|k]]]; try lia; reflexivity.
    + replace (S i * 3 + k)%nat with (3 + (i * 3 + k))%nat by lia.
      cbn [flat_map]. rewrite lookup_app_r by (simpl; lia).
      replace (3 + (i * 3 + k) - length (targetOf width height p))%nat
        with (i * 3 + k)%nat by (simpl; lia).
      apply IH.
Qed.

Lemma forCount_preserves {A} (P : A -> Prop) (body : nat -> A -> A) :
  (forall i a, P a -> P (body i a)) ->
  forall n i acc, P acc -> P (forCount n i body acc).
Proof.
  intros Hbody. induction n as [|n IH]; intros i acc H; simpl; auto.
Qed.

Lemma length_instanceColors colors n :
  length (instanceColors colors n) = (n * 3)%nat.
Proof.
  unfold instanceColors.
  apply (forCount_preserves (fun a => length a = (n * 3)%nat)).
  - intros i a H. now rewrite !length_insert.
  - apply length_replicate.
Qed.

Lemma length_randomDelays n draws :
  length (randomDelays n draws).1 = n.
Proof.
  unfold randomDelays.
  apply (forCount_preserves (fun a => length a.1 = n)).
  - intros i [a k] H. cbn [fst] in *. now rewrite length_insert.
  - apply length_replicate.
Qed.

(** The particle set made from a canvas. *)
Lemma particlesFromCanvas_spec width height pixels density draws :
  (width <> 0)%Z -> (height <> 0)%Z ->
  let kept :=
    filter (fun xy => survives width pixels xy = true)
      (visitedPixels width height (samplingStep density)) in
  exists ud draws',
    particlesFromCanvas width height pixels density draws
    = (mkMesh (Some ud) (Fin 0.9) 0 0, draws')
    /\ originalPositions ud = flat_map (targetOf width height) kept
    /\ positions ud = originalPositions ud
    /\ count ud = length kept
    /\ length (colors ud) = (3 * count ud)%nat
    /\ length (velocities ud) = (3 * count ud)%nat
    /\ length (delays ud) = count ud.
Proof.
  intros Hw Hh kept. unfold particlesFromCanvas.
  rewrite scanCanvas_fold.
  destruct (scan_fold_spec width height pixels Hw Hh
              (visitedPixels width height (samplingStep density))
              (mkSamples [] [] [] [] draws)) as (S1 & S2 & S3 & S4 & S5).
  fold kept in S1, S2, S3, S4, S5.
  cbn [s_originalPositions s_positions s_colors s_velocities s_draws
       app length Nat.add] in S1, S2, S3, S4, S5.
  set (sm := fold_left _ _ _) in *.
  assert (Ecount : (length (s_positions sm) / 3 = length kept)%nat).
  { rewrite S2, length_flat_map_targetOf, Nat.mul_comm.
    now apply Nat.div_mul. }
  rewrite Ecount.
  pose proof (length_randomDelays (length kept) (s_draws sm)) as Hd.
  destruct (randomDelays (length kept) (s_draws sm)) as [dl draws'].
  eexists _, draws'. split; [reflexivity|].
  cbn [originalPositions positions count colors velocities delays].
  rewrite length_instanceColors.
  repeat split; try assumption; try lia; congruence.
Qed.

(** On a valid image the sampler resolves, with the set made from the
    canvas. *)
Lemma imageToParticles_resolves density url draws :
  validImage (loadImage url) ->
  let img := loadImage url in
  imageToParticles density url draws
  = (inr (particlesFromCanvas canvasSize canvasSize (canvasData img)
            density draws).1,
     (particlesFromCanvas canvasSize canvasSize (canvasData img)
        density draws).2).
Proof.
  intros (H1 & H2 & H3 & H4 & H5) img. unfold imageToParticles, canvasData.
  fold img in H1, H2, H3, H4, H5 |- *. rewrite H1, H2, H5. cbn [negb orb].
  apply Z.eqb_neq in H3, H4. rewrite H3, H4. cbn [orb].
  destruct (drawRect _ _) as [[[dx dy] dw] dh].
  now destruct (particlesFromCanvas _ _ _ _ _).
Qed.

(** What a resolved promise carries. *)
Lemma imageToParticles_inr density url draws m draws' :
  imageToParticles density url draws = (inr m, draws') ->
  validImage (loadImage url)
  /\ m = (particlesFromCanvas canvasSize canvasSize
            (canvasData (loadImage url)) density draws).1.
Proof.
  intros H.
  assert (Hv : validImage (loadImage url)).
  { destruct (imageToParticles_rejects density url draws) as [Hr _].
    cbv zeta in Hr.
    assert (Hno : ~ (img_onload (loadImage url) = false
                     \/ img_complete (loadImage url) = false
                     \/ naturalWidth (loadImage url) = 0%Z
                     \/ naturalHeight (loadImage url) = 0%Z
                     \/ context2d (loadImage url) = false)).
    { intros D. destruct (Hr D) as [err Hr']. congruence. }
    unfold validImage.
    destruct (img_onload (loadImage url)); [|tauto].
    destruct (img_complete (loadImage url)); [|tauto].
    destruct (context2d (loadImage url)); [|tauto].
    repeat split; try reflexivity; intros E; apply Hno; tauto. }
  split; [exact Hv|].
  rewrite (imageToParticles_resolves density url draws Hv) in H.
  congruence.
Qed.

(** C4.  For every valid decoded image and every density (in particular
    every density in (0, 1]) the sampler resolves with a particle set in
    which [count] is the number of sampled pixels that survive, the arrays
    [positions], [originalPositions] and [colors] have three entries for
    each of them and [delays] one: [count == positions.length / 3 ==
    originalPositions.length / 3 == colors.length / 3 == delays.length]. *)
Theorem sampler_array_lengths density url draws :
  validImage (loadImage url) ->
  exists m ud draws',
    imageToParticles density url draws = (inr m, draws')
    /\ userData m = Some ud
    /\ count ud = length (sampledPixels (loadImage url) density)
    /\ length (positions ud) = (3 * count ud)%nat
    /\ length (originalPositions ud) = (3 * count ud)%nat
    /\ length (colors ud) = (3 * count ud)%nat
    /\ length (delays ud) = count ud
    /\ (length (positions ud) / 3 = count ud)%nat.
Proof.
  intros Hv. rewrite (imageToParticles_resolves density url draws Hv).
  destruct (particlesFromCanvas_spec canvasSize canvasSize
              (canvasData (loadImage url)) density draws)
    as (ud & draws' & E & Ho & Hp & Hc & Hcol & _ & Hdl);
    [discriminate|discriminate|].
  rewrite E. cbn [fst snd]. exists (mkMesh (Some ud) (Fin 0.9) 0 0), ud, draws'.
  assert (Hlen : length (originalPositions ud) = (3 * count ud)%nat)
    by (rewrite Ho, length_flat_map_targetOf; lia).
  repeat split; try assumption; try congruence.
  rewrite Hp, Hlen, Nat.mul_comm. now apply Nat.div_mul.
Qed.

(** C5.  Every particle the sampler emits comes from a pixel
    [(pixelX, pixelY)] of the canvas; its resting position is
    [x = (pixelX / canvasWidth) * 2 - 1], [y = 1 - (pixelY / canvasHeight) * 2]
    and [z = 0], and [x] and [y] lie in [-1, 1]. *)
Theorem sampler_target_positions density url draws m draws' ud i :
  imageToParticles density url draws = (inr m, draws') ->
  userData m = Some ud ->
  (i < count ud)%nat ->
  exists pixelX pixelY : Z,
    let x := (inject_Z pixelX / inject_Z canvasSize * 2 - 1)%Q in
    let y := (1 - inject_Z pixelY / inject_Z canvasSize * 2)%Q in
    (0 <= pixelX < canvasSize)%Z /\ (0 <= pixelY < canvasSize)%Z
    /\ sampledPixels (loadImage url) density !! i = Some (pixelX, pixelY)
    /\ originalPositions ud !! (i * 3)%nat = Some (Fin x)
    /\ originalPositions ud !! (i * 3 + 1)%nat = Some (Fin y)
    /\ originalPositions ud !! (i * 3 + 2)%nat = Some (Fin 0)
    /\ (-1 <= x /\ x <= 1)%Q /\ (-1 <= y /\ y <= 1)%Q.
Proof.
  intros H Hud Hi.
  destruct (imageToParticles_inr _ _ _ _ _ H) as (Hv & ->).
  destruct (particlesFromCanvas_spec canvasSize canvasSize
              (canvasData (loadImage url)) density draws)
    as (ud' & draws'' & E & Ho & Hp & Hc & _);
    [discriminate|discriminate|].
  rewrite E in Hud. cbn [fst userData] in Hud. injection Hud as <-.
  fold (sampledPixels (loadImage url) density) in Ho, Hc.
  rewrite Hc in Hi.
  destruct (lookup_lt_is_Some_2 _ _ Hi) as [[px py] Hpx].
  pose proof (visitedPixels_range canvasSize canvasSize density) as Hr.
  assert (Hin : (px, py) ∈ sampledPixels (loadImage url) density)
    by (apply list_elem_of_lookup; eauto).
  unfold sampledPixels in Hin. apply list_elem_of_filter in Hin.
  destruct Hin as [_ Hin]. rewrite Forall_forall in Hr.
  destruct (Hr _ Hin) as [Hx Hy]. cbn [fst snd] in Hx, Hy.
  exists px, py. cbv zeta.
  split; [exact Hx|]. split; [exact Hy|]. split; [exact Hpx|].
  pose proof (lookup_flat_map_targetOf canvasSize canvasSize
                (sampledPixels (loadImage url) density) i) as L.
  rewrite Ho.
  rewrite <- (Nat.add_0_r (i * 3)) at 1.
  rewrite !L by lia. rewrite Hpx. cbn [targetOf fst snd].
  split; [reflexivity|]. split; [reflexivity|]. split; [reflexivity|].
  assert (Hqx : (0 <= inject_Z px / inject_Z canvasSize
                 /\ inject_Z px / inject_Z canvasSize < 1)%Q).
  { split.
    - apply Qle_shift_div_l; [reflexivity|].
      rewrite Qmult_0_l. change 0%Q with (inject_Z 0).
      rewrite <- Zle_Qle. lia.
    - apply Qlt_shift_div_r; [reflexivity|].
      rewrite Qmult_1_l. rewrite <- Zlt_Qlt. lia. }
  assert (Hqy : (0 <= inject_Z py / inject_Z canvasSize
                 /\ inject_Z py / inject_Z canvasSize < 1)%Q).
  { split.
    - apply Qle_shift_div_l; [reflexivity|].
      rewrite Qmult_0_l. change 0%Q with (inject_Z 0).
      rewrite <- Zle_Qle. lia.
    - apply Qlt_shift_div_r; [reflexivity|].
      rewrite Qmult_1_l. rewrite <- Zlt_Qlt. lia. }
  repeat split; lra.
Qed.

(** ** Seeding *)

Lemma seedNext_get ud draws i k :
  (i < count ud)%nat -> (k < 3)%nat ->
  get (positions (seedNext ud draws).1) (i * 3 + k)
  = coord k (farPosition (get (positions ud) (i * 3))
               (get (positions ud) (i * 3 + 1))
               (Math_random (draws + i))).
Proof.
  intros Hi Hk. unfold seedNext.
  destruct (particle_loop
              (fun _ x y _ n => farPosition x y (Math_random n)) 1
              (fun i acc => seedParticle acc.1 i acc)) with
    (n := count ud) (start := 0%nat) (a := positions ud) (draws := draws)
    as [_ Hg].
  { intros j a n. unfold seedParticle, farPosition, set3. cbn [fst snd].
    now rewrite (Nat.add_1_r n). }
  destruct (forCount _ _ _ _) as [p draws'].
  cbn [fst positions setPositions] in *.
  rewrite Hg by assumption. rewrite decide_True by lia.
  now rewrite Nat.mul_1_l, Nat.sub_0_r.
Qed.

Lemma seedInitial_get ud draws i k :
  (i < count ud)%nat -> (k < 3)%nat ->
  get (positions (seedInitial ud draws).1) (i * 3 + k)
  = coord k (farPosition (get (originalPositions ud) (i * 3))
               (get (originalPositions ud) (i * 3 + 1))
               (Math_random (draws + i))).
Proof.
  intros Hi Hk. unfold seedInitial.
  destruct (particle_loop
              (fun j _ _ _ n =>
                 farPosition (get (originalPositions ud) (j * 3))
                   (get (originalPositions ud) (j * 3 + 1)) (Math_random n))
              1 (seedParticle (originalPositions ud))) with
    (n := count ud) (start := 0%nat) (a := positions ud) (draws := draws)
    as [_ Hg].
  { intros j a n. unfold seedParticle, farPosition, set3. cbn [fst snd].
    now rewrite (Nat.add_1_r n). }
  destruct (forCount _ _ _ _) as [p draws'].
  cbn [fst positions setPositions] in *.
  rewrite Hg by assumption. rewrite decide_True by lia.
  now rewrite Nat.mul_1_l, Nat.sub_0_r.
Qed.

(** C8, as the code has it.  In both seeding loops (the incoming set of a
    transition, the first set) the particle with resting position [(x, y)]
    starts at [(x * scale, y * scale, z)] with
    [scale = 10 + sqrt(x^2 + y^2) * 5] and [z = (random - 0.5) * 20], a
    value from -10 (included) to 10 (excluded); the scale is at least 10
    and multiplies the offset of the particle from the centre, so that a
    particle that rests at the centre starts on the axis of the camera.
    The seeding gives no guarantee about the frustum. *)
Theorem seeding_far_positions ud draws i :
  (i < count ud)%nat ->
  positions ud = originalPositions ud ->
  let x := get (originalPositions ud) (i * 3) in
  let y := get (originalPositions ud) (i * 3 + 1) in
  let scale := Fin 10 + Math_sqrt (x * x + y * y) * Fin 5 in
  let z := ((Math_random (draws + i) - 0.5) * 20)%Q in
  let seededNext := positions (seedNext ud draws).1 in
  let seededInitial := positions (seedInitial ud draws).1 in
  get seededNext (i * 3) = x * scale
  /\ get seededNext (i * 3 + 1) = y * scale
  /\ get seededNext (i * 3 + 2) = Fin z
  /\ get seededInitial (i * 3) = x * scale
  /\ get seededInitial (i * 3 + 1) = y * scale
  /\ get seededInitial (i * 3 + 2) = Fin z
  /\ (-10 <= z /\ z < 10)%Q
  /\ (forall xq yq, x = Fin xq -> y = Fin yq ->
        exists sc, scale = Fin sc /\ (10 <= sc)%Q
                   /\ x * scale = Fin (xq * sc) /\ y * scale = Fin (yq * sc)).
Proof.
  intros Hi Hpos x y scale z seededNext seededInitial.
  pose proof (seedNext_get ud draws i 0 Hi ltac:(lia)) as N0.
  pose proof (seedNext_get ud draws i 1 Hi ltac:(lia)) as N1.
  pose proof (seedNext_get ud draws i 2 Hi ltac:(lia)) as N2.
  pose proof (seedInitial_get ud draws i 0 Hi ltac:(lia)) as I0.
  pose proof (seedInitial_get ud draws i 1 Hi ltac:(lia)) as I1.
  pose proof (seedInitial_get ud draws i 2 Hi ltac:(lia)) as I2.
  rewrite Hpos in N0, N1, N2. rewrite Nat.add_0_r in N0, I0.
  fold x y in N0, N1, N2, I0, I1, I2.
  unfold seededNext, seededInitial.
  repeat split; try assumption.
  - unfold z. destruct (Math_random_range (draws + i)). lra.
  - unfold z. destruct (Math_random_range (draws + i)). lra.
  - intros xq yq -> ->. unfold scale. cbn [JS.mul JS.add].
    destruct (Math_sqrt_finite (xq * xq + yq * yq)) as (rt & -> & Hrt).
    + pose proof (Qsquare_nonneg xq). pose proof (Qsquare_nonneg yq). lra.
    + eexists; split; [reflexivity|]. split; [lra|]. split; reflexivity.
Qed.

(** ** The camera framer *)

Lemma badDistance_false distance :
  badDistance distance = false ->
  exists q, distance = Fin q /\ (0 < q)%Q /\ (q <= 1000)%Q.
Proof.
  unfold badDistance. destruct distance as [q| | |]; cbn; try discriminate.
  destruct (Qle_bool q 0) eqn:E0; [discriminate|].
  destruct (JS.Qlt_bool 1000 q) eqn:E1; [discriminate|].
  intros _. exists q. apply Qle_bool_false in E0.
  apply Qlt_bool_false in E1. auto.
Qed.

(** The value the framer assigns is 5 on every degenerate input, and a
    finite number in every case. *)
Lemma framedCameraZ_spec cam width height m :
  let z := framedCameraZ cam width height m in
  JS.isFinite z = true
  /\ match framedSize m with
     | None => z = Fin 5
     | Some (sizeX, sizeY) =>
         (badSize sizeX sizeY = true -> z = Fin 5)
         /\ (badDistance (fillDistance cam width height sizeX sizeY) = true ->
             z = Fin 5)
         /\ (badSize sizeX sizeY = false ->
             forall q, fillDistance cam width height sizeX sizeY = Fin q ->
               (0 < q)%Q -> (q <= 1000)%Q ->
               z = Fin (q * match userData m with
                            | Some _ => 0.5
                            | None => 0.05
                            end))
     end.
Proof.
  unfold framedCameraZ, framedSize.
  destruct (userData m) as [ud|].
  - destruct ((count ud =? 0)%nat || (length (originalPositions ud) =? 0)%nat);
      [split; reflexivity|].
    destruct (bounds (originalPositions ud) (count ud))
      as [[[[[minX maxX] minY] maxY] minZ] maxZ].
    destruct (badSize (maxX - minX) (maxY - minY)) eqn:Es.
    + split; [reflexivity|]. repeat split; try reflexivity. discriminate.
    + destruct (badDistance _) eqn:Ed.
      * split; [reflexivity|]. repeat split; try reflexivity.
        intros _ q Eq H0 H1. rewrite Eq in Ed. exfalso.
        unfold badDistance in Ed. cbn in Ed.
        assert (Qle_bool q 0 = false) as E0 by (apply Qle_bool_false; lra).
        assert (JS.Qlt_bool 1000 q = false) as E1
          by (apply Qlt_bool_false; lra).
        rewrite E0, E1 in Ed. discriminate.
      * destruct (badDistance_false _ Ed) as (q & -> & H0 & H1).
        split; [reflexivity|]. repeat split; try discriminate.
        intros _ q' E _ _. now injection E as <-.
  - destruct (Box3_isEmpty (Box3_setFromObject m)); [split; reflexivity|].
    destruct (Box3_getSize (Box3_setFromObject m)) as [[sizeX sizeY] sizeZ].
    cbn [fst snd].
    destruct (badSize sizeX sizeY) eqn:Es.
    + split; [reflexivity|]. repeat split; try reflexivity. discriminate.
    + destruct (badDistance _) eqn:Ed.
      * split; [reflexivity|]. repeat split; try reflexivity.
        intros _ q Eq H0 H1. rewrite Eq in Ed. exfalso.
        unfold badDistance in Ed. cbn in Ed.
        assert (Qle_bool q 0 = false) as E0 by (apply Qle_bool_false; lra).
        assert (JS.Qlt_bool 1000 q = false) as E1
          by (apply Qlt_bool_false; lra).
        rewrite E0, E1 in Ed. discriminate.
      * destruct (badDistance_false _ Ed) as (q & -> & H0 & H1).
        split; [reflexivity|]. repeat split; try discriminate.
        intros _ q' E _ _. now injection E as <-.
Qed.

(** C7, as the code has it.  The framer does nothing without a camera,
    without a current set, or while a transition is in flight.  Past that
    test it sets [targetCameraZ] to 5 on every degenerate input: no
    particle or no resting position, an empty box, a size that is zero,
    negative or not finite on an axis, a distance that is not finite, not
    positive or above 1000.  In no case does it assign NaN or an infinity:
    the target it leaves is the one it found or a finite number. *)
Theorem framer_fallback s :
  let s' := updateCameraForParticles s in
  (camera s = None \/ currentParticles s = None \/ isTransitioning s = true ->
   s' = s)
  /\ (forall cam r m,
        camera s = Some cam -> currentParticles s = Some r ->
        isTransitioning s = false -> heap s !! r = Some m ->
        let z := targetCameraZ s' in
        JS.isFinite z = true
        /\ (forall ud, userData m = Some ud ->
              count ud = 0%nat \/ originalPositions ud = [] -> z = Fin 5)
        /\ (userData m = None ->
            Box3_isEmpty (Box3_setFromObject m) = true -> z = Fin 5)
        /\ forall sizeX sizeY,
             framedSize m = Some (sizeX, sizeY) ->
             let distance :=
               fillDistance cam (innerWidth s) (innerHeight s) sizeX sizeY in
             ((sizeX <=? Fin 0) = true \/ (sizeY <=? Fin 0) = true
              \/ JS.isFinite sizeX = false \/ JS.isFinite sizeY = false ->
              z = Fin 5)
             /\ (JS.isFinite distance = false \/ (distance <=? Fin 0) = true
                 \/ (distance >? Fin 1000) = true ->
                 z = Fin 5))
  /\ (targetCameraZ s' = targetCameraZ s
      \/ JS.isFinite (targetCameraZ s') = true).
Proof.
  intros s'. split; [|split].
  - unfold s', updateCameraForParticles.
    intros [H|[H|H]]; rewrite H; try reflexivity.
    + now destruct (camera s).
    + now destruct (camera s), (currentParticles s).
  - intros cam r m Hc Hr Ht Hm z.
    unfold z, s'. rewrite (updateCameraForParticles_runs s cam r m) by assumption.
    pose proof (framedCameraZ_spec cam (innerWidth s) (innerHeight s) m) as S.
    cbv zeta in S. destruct S as [Hfin S].
    split; [exact Hfin|]. split; [|split].
    + intros ud Hud Hdeg. unfold framedSize in S. rewrite Hud in S.
      destruct Hdeg as [E|E]; rewrite E in S.
      * exact S.
      * cbn [length] in S. rewrite Bool.orb_true_r in S. exact S.
    + intros Hud Hbox. unfold framedSize in S. rewrite Hud, Hbox in S.
      exact S.
    + intros sizeX sizeY Hsize. rewrite Hsize in S.
      destruct S as (Hs & Hd & _). split.
      * intros Hbad. apply Hs. unfold badSize.
        destruct Hbad as [E|[E|[E|E]]]; rewrite E; cbn [negb orb];
          rewrite ?Bool.orb_true_r; reflexivity.
      * intros Hbad. apply Hd. unfold badDistance.
        destruct Hbad as [E|[E|E]]; rewrite E; cbn [negb orb];
          rewrite ?Bool.orb_true_r; reflexivity.
  - unfold s', updateCameraForParticles.
    destruct (camera s) as [cam|]; [|now left].
    destruct (currentParticles s) as [r|]; [|now left].
    destruct (isTransitioning s); [now left|].
    destruct (heap s !! r) as [m|]; [|now left].
    right. cbn [targetCameraZ set_targetCameraZ].
    apply (framedCameraZ_spec cam (innerWidth s) (innerHeight s) m).
Qed.

(** ** The invariant of the driver *)

Lemma wellFormed_idle s :
  currentParticles s = None -> nextParticles s = None -> wellFormed s.
Proof. intros H1 H2. constructor; intros; congruence. Qed.

Lemma wellFormed_same_objects s s' :
  heap s' = heap s -> currentParticles s' = currentParticles s ->
  nextParticles s' = nextParticles s -> wellFormed s -> wellFormed s'.
Proof.
  intros Hh Hc Hn [W1 W2 W3].
  constructor; unfold live; rewrite ?Hh, ?Hc, ?Hn; auto.
Qed.

Lemma wellFormed_begin props s :
  wellFormed s -> wellFormed (transitionToNext_begin props s).1.
Proof.
  intros Hwf. unfold transitionToNext_begin.
  destruct (isTransitioning s || (length (images props) =? 0)%nat);
    [exact Hwf|].
  destruct (images props !! _) as [u|]; [destruct (String.eqb u "")|];
    cbn [fst]; (eapply wellFormed_same_objects; [| | |exact Hwf]);
    reflexivity.
Qed.

(** A second call during the load of the next image is a no-op. *)
Lemma transitionToNext_not_reentrant props s s1 pending :
  transitionToNext_begin props s = (s1, Some pending) ->
  transitionToNext_begin props s1 = (s1, None).
Proof.
  destruct pending as [nextIndex url]. intros H.
  destruct (transitionToNext_begin_loading _ _ _ _ _ H) as (_ & -> & _).
  reflexivity.
Qed.

(** The set the sampler resolves with carries its [userData] and was not
    disposed. *)
Lemma imageToParticles_fresh density url draws m draws' :
  imageToParticles density url draws = (inr m, draws') ->
  exists ud, m = mkMesh (Some ud) (Fin 0.9) 0 0
             /\ positions ud = originalPositions ud.
Proof.
  intros H. destruct (imageToParticles_inr _ _ _ _ _ H) as (_ & ->).
  destruct (particlesFromCanvas_spec canvasSize canvasSize
              (canvasData (loadImage url)) density draws)
    as (ud & d & E & _ & Hp & _); [discriminate|discriminate|].
  rewrite E. eauto.
Qed.

(** A frame keeps the invariant; while the progress is below 1 it also
    keeps the busy flag, so that the guard of [transitionToNext] holds for
    the whole flight. *)
Lemma wellFormed_animateTransition props sess now s nxt :
  wellFormed s -> nextParticles s = Some nxt ->
  let s' := animateTransition props sess now s in
  wellFormed s'
  /\ ((baseProgress (now - startTime sess) (duration sess) <? Fin 1) = true ->
      isTransitioning s' = isTransitioning s
      /\ currentParticles s' = currentParticles s
      /\ nextParticles s' = Some nxt).
Proof.
  intros Hwf Hnxt s'.
  destruct (wf_next s Hwf nxt Hnxt) as (mn & udn & Hmn & Hudn & Hg & Hm).
  destruct (animateTransition_frame props sess now s nxt mn udn
              Hwf Hnxt Hmn Hudn) as (h2 & n2 & Es & _).
  destruct (animateTransition_objects props sess now s nxt mn udn
              Hwf Hnxt Hmn Hudn) as (Hn & Hc).
  cbv zeta in Es, Hn, Hc. fold s' in Es, Hn, Hc.
  assert (Lnxt : live s' nxt).
  { do 2 eexists. split; [exact Hn|]. repeat split; assumption. }
  assert (Lcur : forall cur, currentParticles s = Some cur ->
                 (baseProgress (now - startTime sess) (duration sess)
                  <? Fin 1) = true -> live s' cur).
  { intros cur Hcur Hbp.
    destruct (wf_current s Hwf cur Hcur) as (mc & udc & Hmc & Hudc & Hg' & Hm').
    specialize (Hc cur mc udc Hcur Hmc Hudc). rewrite Hbp in Hc.
    do 2 eexists. split; [exact Hc|]. repeat split; assumption. }
  destruct (baseProgress (now - startTime sess) (duration sess) <? Fin 1)
    eqn:Hbp.
  - assert (E1 : currentParticles s' = currentParticles s)
      by (rewrite Es; reflexivity).
    assert (E2 : nextParticles s' = nextParticles s)
      by (rewrite Es; reflexivity).
    assert (E3 : isTransitioning s' = isTransitioning s)
      by (rewrite Es; reflexivity).
    split; [|intros _; repeat split; congruence].
    constructor.
    + intros r Hr. rewrite E1 in Hr. now apply Lcur.
    + intros r Hr. rewrite E2, Hnxt in Hr. now injection Hr as <-.
    + intros a b Ha Hb. rewrite E1 in Ha. rewrite E2 in Hb.
      exact (wf_distinct s Hwf a b Ha Hb).
  - split; [|discriminate].
    destruct (completeTransition_fields props sess
                (set_heap h2 (set_randomDraws n2 s)))
      as (_ & _ & Ecur & Enext & _).
    rewrite <- Es in Ecur, Enext.
    cbn [nextParticles set_heap set_randomDraws] in Ecur.
    rewrite Hnxt in Ecur.
    constructor.
    + intros r Hr. rewrite Ecur in Hr. now injection Hr as <-.
    + intros r Hr. congruence.
    + intros a b Ha Hb. congruence.
Qed.

Lemma keepsLive_setUserData ud : keepsLive (setUserData ud).
Proof. intros m _. repeat split. now eexists. Qed.

Lemma keepsLive_setOpacity v : keepsLive (setOpacity v).
Proof. intros m H. repeat split. exact H. Qed.

Lemma live_update s r f r' :
  keepsLive f -> live s r' -> live (update r f s) r'.
Proof.
  intros Hf (m & ud & Hm & Hud & Hg & Hd). unfold live, update.
  cbn [heap set_heap].
  destruct (decide (r = r')) as [->|Hne].
  - destruct (Hf m) as ([ud' Hud'] & Eg & Ed); [eexists; exact Hud|].
    exists (f m), ud'. rewrite list_lookup_alter_eq, Hm.
    repeat split; congruence.
  - exists m, ud. rewrite list_lookup_alter_ne by assumption. auto.
Qed.

Lemma live_same_heap s s' r : heap s' = heap s -> live s r -> live s' r.
Proof. intros E. unfold live. now rewrite E. Qed.

Lemma live_alloc s m r :
  live s r -> live (set_heap (heap s ++ [m]) s) r /\ r <> length (heap s).
Proof.
  intros (m' & ud & Hm & Hrest). pose proof (lookup_lt_Some _ _ _ Hm).
  split; [|lia]. exists m', ud. cbn [heap set_heap].
  rewrite lookup_app_l by assumption. auto.
Qed.

Lemma wellFormed_resume props nextIndex url now now' s :
  wellFormed s ->
  wellFormed (transitionToNext_resume props nextIndex url now now' s).1.
Proof.
  intros Hwf. unfold transitionToNext_resume.
  destruct (imageToParticles _ _ _) as [[err|mesh] draws] eqn:E.
  - cbn [fst]. eapply wellFormed_same_objects; [| | |exact Hwf]; reflexivity.
  - destruct (imageToParticles_fresh _ _ _ _ _ E) as (ud0 & -> & _).
    cbn [userData]. destruct (seedNext ud0 draws) as [ud draws'].
    cbn [fst].
    set (r := length (heap s)).
    set (s3 := set_scene _ _).
    apply (wellFormed_animateTransition _ _ _ s3 r); [|reflexivity].
    assert (Hold : forall r', live s r' -> live s3 r' /\ r' <> r).
    { intros r' L. destruct (live_alloc s (mkMesh (Some ud0) (Fin 0.9) 0 0) r' L)
        as [L' Hne].
      split; [|exact Hne].
      apply (live_same_heap
               (update r (setUserData ud)
                  (set_heap (heap s ++ [mkMesh (Some ud0) (Fin 0.9) 0 0]) s)));
        [reflexivity|].
      apply live_update; [apply keepsLive_setUserData|exact L']. }
    constructor.
    + intros r' Hr'. apply Hold. apply (wf_current s Hwf). exact Hr'.
    + intros r' Hr'. injection Hr' as <-.
      exists (setUserData ud (mkMesh (Some ud0) (Fin 0.9) 0 0)), ud.
      split; [|repeat split].
      unfold s3, update. cbn [heap set_heap set_scene set_randomDraws
                               set_nextParticles].
      rewrite list_lookup_alter_eq. unfold r.
      rewrite lookup_app_r by lia. now rewrite Nat.sub_diag.
    + intros a b Ha Hb. injection Hb as <-.
      apply Hold. apply (wf_current s Hwf). exact Ha.
Qed.

Lemma wellFormed_animateInitial props startTime duration now s :
  wellFormed s -> wellFormed (animateInitial props startTime duration now s).
Proof.
  intros Hwf. unfold animateInitial. cbv zeta beta.
  assert (Hfin : forall (b : bool) s',
            wellFormed s' ->
            wellFormed (if b then requestAnimationFrame s'
                        else if autoAdvance props
                             then startAutoAdvance props s' else s')).
  { intros b s' H'.
    destruct b; [|destruct (autoAdvance props)]; try exact H';
      (eapply wellFormed_same_objects; [| | |exact H']); reflexivity. }
  destruct (currentParticles s) as [r|] eqn:Hr; [|now apply Hfin].
  destruct (userDataAt s r) as [ud|]; [|exact Hwf].
  apply Hfin.
  assert (Hl : forall r', live s r' ->
               live (update r (setOpacity (Fin 0.9 * easeInOutCubic
                                             (JS.min ((now - startTime)
                                                      / duration) (Fin 1))))
                       (update r (setUserData
                                    (implodeSet (now - startTime) duration ud))
                          s)) r').
  { intros r' L. apply live_update; [apply keepsLive_setOpacity|].
    apply live_update; [apply keepsLive_setUserData|exact L]. }
  constructor.
  - intros r' Hr'. apply Hl. apply (wf_current s Hwf). exact Hr'.
  - intros r' Hr'. apply Hl. apply (wf_next s Hwf). exact Hr'.
  - intros a b Ha Hb. exact (wf_distinct s Hwf a b Ha Hb).
Qed.

Lemma wellFormed_loadInitialImage props now now' s :
  wellFormed s -> wellFormed (loadInitialImage props now now' s).
Proof.
  intros Hwf. unfold loadInitialImage.
  destruct (length (images props) =? 0)%nat; [exact Hwf|].
  destruct (images props !! currentImageIndex s) as [url|]; [|exact Hwf].
  destruct (String.eqb url ""); [exact Hwf|].
  destruct (imageToParticles _ _ _) as [[err|mesh] draws] eqn:E;
    [exact Hwf|].
  destruct (imageToParticles_fresh _ _ _ _ _ E) as (ud0 & -> & _).
  cbn [userData]. destruct (seedInitial ud0 draws) as [ud draws'].
  apply wellFormed_animateInitial.
  set (r := length (heap s)).
  set (s3 := set_scene _ _).
  apply (wellFormed_same_objects s3);
    try apply (updateCameraForParticles_same s3).
  assert (Hold : forall r', live s r' -> live s3 r' /\ r' <> r).
  { intros r' L. destruct (live_alloc s (mkMesh (Some ud0) (Fin 0.9) 0 0) r' L)
      as [L' Hne].
    split; [|exact Hne].
    apply (live_same_heap
             (update r (setUserData ud)
                (set_heap (heap s ++ [mkMesh (Some ud0) (Fin 0.9) 0 0]) s)));
      [reflexivity|].
    apply live_update; [apply keepsLive_setUserData|exact L']. }
  constructor.
  - intros r' Hr'. injection Hr' as <-.
    exists (setUserData ud (mkMesh (Some ud0) (Fin 0.9) 0 0)), ud.
    split; [|repeat split].
    unfold s3, update. cbn [heap set_heap set_scene set_randomDraws
                             set_currentParticles].
    rewrite list_lookup_alter_eq. unfold r.
    rewrite lookup_app_r by lia. now rewrite Nat.sub_diag.
  - intros r' Hr'. apply Hold. apply (wf_next s Hwf). exact Hr'.
  - intros a b Ha Hb. injection Ha as <-. intros Eab.
    destruct (Hold b (wf_next s Hwf b Hb)) as [_ Hne]. congruence.
Qed.

(** The invariant holds in every state the driver reaches. *)
Lemma Reachable_wellFormed props s : Reachable props s -> wellFormed s.
Proof.
  induction 1 as [s Hc Hn|s now now' _ IH|s _ IH
                  |s nextIndex url now now' _ IH|s sess now nxt _ IH Hnxt].
  - now apply wellFormed_idle.
  - now apply wellFormed_loadInitialImage.
  - now apply wellFormed_begin.
  - now apply wellFormed_resume.
  - now apply (wellFormed_animateTransition props sess now s nxt).
Qed.


(** * More of the component *)

(** A loop keeps an invariant that may mention the counter. *)
Lemma forCount_invariant {A} (P : nat -> A -> Prop) (body : nat -> A -> A) :
  forall n start acc,
    (forall i a, (start <= i < start + n)%nat -> P i a -> P (S i) (body i a)) ->
    P start acc -> P (start + n)%nat (forCount n start body acc).
Proof.
  induction n as [|n IH]; intros start acc Hbody H0.
  - now rewrite Nat.add_0_r.
  - rewrite forCount_S. replace (start + S n)%nat with (S start + n)%nat by lia.
    apply IH.
    + intros i a Hi. apply Hbody. lia.
    + apply Hbody; [lia|exact H0].
Qed.

Lemma samplePixel_colors width height pixels x y acc :
  survives width pixels (x, y) = true ->
  s_colors (samplePixel width height pixels y x acc)
  = s_colors acc ++ colourOf width pixels (x, y).
Proof.
  unfold samplePixel, survives, colourOf. cbn [fst snd].
  set (index := Z.to_nat ((y * width + x) * 4)).
  intros Hs. apply andb_true_iff in Hs. destruct Hs as [Hin Ha].
  apply bool_decide_eq_true in Hin.
  destruct (decide (length pixels <= index + 3)%nat) as [Hout|_]; [lia|].
  destruct (Z.ltb_spec (default 0%Z (pixels !! (index + 3)%nat)) 10);
    [apply Z.leb_le in Ha; lia|].
  reflexivity.
Qed.

Lemma scan_fold_colors width height pixels :
  (width <> 0)%Z -> (height <> 0)%Z ->
  forall visited acc,
    s_colors
      (fold_left (fun acc xy => samplePixel width height pixels xy.2 xy.1 acc)
         visited acc)
    = s_colors acc
      ++ flat_map (colourOf width pixels)
           (filter (fun xy => survives width pixels xy = true) visited).
Proof.
  intros Hw Hh visited.
  induction visited as [|[x y] visited IH] using rev_ind; intros acc.
  - simpl. now rewrite app_nil_r.
  - rewrite fold_left_app. cbn [fold_left fst snd].
    destruct (survives width pixels (x, y)) eqn:E.
    + rewrite samplePixel_colors by exact E.
      rewrite filter_snoc_true by exact E.
      rewrite IH, flat_map_app. cbn [flat_map].
      now rewrite app_nil_r, app_assoc.
    + pose proof (samplePixel_spec width height pixels x y
                    (fold_left
                       (fun acc xy =>
                          samplePixel width height pixels xy.2 xy.1 acc)
                       visited acc) Hw Hh) as S.
      cbv zeta in S. rewrite E in S. rewrite S.
      rewrite filter_snoc_false by (rewrite E; discriminate).
      apply IH.
Qed.

Lemma lookup_flat_map_colourOf width pixels pts i k :
  (k < 3)%nat ->
  flat_map (colourOf width pixels) pts !! (i * 3 + k)%nat
  = match pts !! i with
    | Some xy => colourOf width pixels xy !! k
    | None => None
    end.
Proof.
  intros Hk. revert i. induction pts as [|p pts IH]; intros i.
  - reflexivity.
  - destruct i as [|i].
    + simpl. destruct k as [|[|[|k]]]; try lia; reflexivity.
    + replace (S i * 3 + k)%nat with (3 + (i * 3 + k))%nat by lia.
      cbn [flat_map]. rewrite lookup_app_r by (simpl; lia).
      replace (3 + (i * 3 + k) - length (colourOf width pixels p))%nat
        with (i * 3 + k)%nat by (simpl; lia).
      apply IH.
Qed.

(** The copy into the typed array keeps every colour. *)
Lemma instanceColors_lookup cs n j :
  length cs = (n * 3)%nat -> (j < n * 3)%nat ->
  instanceColors cs n !! j = cs !! j.
Proof.
  intros Hlen Hj. unfold instanceColors.
  pose proof (forCount_invariant
                (fun i arr =>
                   length arr = (n * 3)%nat
                   /\ forall j, (j < i * 3)%nat -> arr !! j = cs !! j)
                (fun i arr =>
                   let r := default NaN (cs !! (i * 3)%nat) in
                   let g := default NaN (cs !! (i * 3 + 1)%nat) in
                   let b := default NaN (cs !! (i * 3 + 2)%nat) in
                   <[(i * 3 + 2)%nat := b]>
                     (<[(i * 3 + 1)%nat := g]> (<[(i * 3)%nat := r]> arr)))
                n 0%nat (replicate (n * 3) (Fin 0))) as H.
  cbv beta zeta in H. destruct H as [_ H].
  - intros i a Hi [La Ha]. split; [now rewrite !length_insert|].
    intros j' Hj'.
    assert (Hc : forall c, (i * 3 + c < n * 3)%nat ->
                 default NaN (cs !! (i * 3 + c)%nat) = default NaN (cs !! (i * 3 + c)%nat)
                 /\ cs !! (i * 3 + c)%nat
                    = Some (default NaN (cs !! (i * 3 + c)%nat))).
    { intros c Hlt. split; [reflexivity|].
      destruct (lookup_lt_is_Some_2 cs (i * 3 + c)) as [v Hv]; [lia|].
      now rewrite Hv. }
    destruct (decide (j' = i * 3 + 2)%nat) as [->|N2].
    { rewrite list_lookup_insert_eq by (rewrite !length_insert; lia).
      symmetry. apply Hc. lia. }
    rewrite list_lookup_insert_ne by lia.
    destruct (decide (j' = i * 3 + 1)%nat) as [->|N1].
    { rewrite list_lookup_insert_eq by (rewrite !length_insert; lia).
      symmetry. apply Hc. lia. }
    rewrite list_lookup_insert_ne by lia.
    destruct (decide (j' = i * 3)%nat) as [->|N0].
    { rewrite list_lookup_insert_eq by lia.
      symmetry. replace (i * 3)%nat with (i * 3 + 0)%nat by lia.
      apply Hc. lia. }
    rewrite list_lookup_insert_ne by lia.
    apply Ha. lia.
  - split; [apply length_replicate|]. intros j' Hj'. lia.
  - apply H. lia.
Qed.

(** The delay of particle [i] is the [i]-th random value drawn by the loop,
    times 2000. *)
Lemma randomDelays_spec n draws :
  (randomDelays n draws).2 = (draws + n)%nat
  /\ forall i, (i < n)%nat ->
       (randomDelays n draws).1 !! i
       = Some (Fin (Math_random (draws + i)) * Fin 2000).
Proof.
  unfold randomDelays.
  pose proof (forCount_invariant
                (fun i (acc : list number * nat) =>
                   length acc.1 = n /\ acc.2 = (draws + i)%nat
                   /\ forall j, (j < i)%nat ->
                        acc.1 !! j
                        = Some (Fin (Math_random (draws + j)) * Fin 2000))
                (fun i '(arr, k) =>
                   (<[i := Fin (Math_random k) * Fin 2000]> arr, S k))
                n 0%nat (replicate n (Fin 0), draws)) as H.
  destruct H as (_ & H2 & H3).
  - intros i [a k] Hi (La & Hk & Ha). cbn [fst snd] in *.
    split; [now rewrite length_insert|]. split; [lia|].
    intros j Hj. destruct (decide (j = i)) as [->|Hne].
    + rewrite list_lookup_insert_eq by lia. now rewrite Hk.
    + rewrite list_lookup_insert_ne by lia. apply Ha. lia.
  - cbn [fst snd]. split; [apply length_replicate|]. split; [lia|].
    intros j Hj. lia.
  - split; [exact H2|exact H3].
Qed.


(** The colours and the delays of the set made from a canvas. *)
Lemma particlesFromCanvas_colours width height pixels density draws :
  (width <> 0)%Z -> (height <> 0)%Z ->
  let kept :=
    filter (fun xy => survives width pixels xy = true)
      (visitedPixels width height (samplingStep density)) in
  let made := particlesFromCanvas width height pixels density draws in
  made.2 = (draws + 2 * length kept)%nat
  /\ forall ud, userData made.1 = Some ud ->
       count ud = length kept
       /\ (forall i k, (i < length kept)%nat -> (k < 3)%nat ->
             colors ud !! (i * 3 + k)%nat
             = flat_map (colourOf width pixels) kept !! (i * 3 + k)%nat)
       /\ (forall i, (i < length kept)%nat ->
             delays ud !! i
             = Some (Fin (Math_random (draws + length kept + i)) * Fin 2000)).
Proof.
  intros Hw Hh kept made. unfold made, particlesFromCanvas.
  rewrite scanCanvas_fold.
  destruct (scan_fold_spec width height pixels Hw Hh
              (visitedPixels width height (samplingStep density))
              (mkSamples [] [] [] [] draws)) as (S1 & S2 & S3 & S4 & S5).
  pose proof (scan_fold_colors width height pixels Hw Hh
                (visitedPixels width height (samplingStep density))
                (mkSamples [] [] [] [] draws)) as S6.
  fold kept in S1, S2, S3, S4, S5, S6.
  cbn [s_originalPositions s_positions s_colors s_velocities s_draws
       app length Nat.add] in S1, S2, S3, S4, S5, S6.
  set (sm := fold_left _ _ _) in *.
  assert (Ecount : (length (s_positions sm) / 3 = length kept)%nat).
  { rewrite S2, length_flat_map_targetOf, Nat.mul_comm.
    now apply Nat.div_mul. }
  rewrite Ecount.
  destruct (randomDelays_spec (length kept) (s_draws sm)) as [Hd2 Hd1].
  destruct (randomDelays (length kept) (s_draws sm)) as [dl draws'].
  cbn [fst snd] in *. split; [lia|].
  intros ud Hud. injection Hud as <-.
  cbn [count colors delays]. split; [reflexivity|]. split.
  - intros i k Hi Hk. rewrite <- S6.
    apply instanceColors_lookup; lia.
  - intros i Hi. rewrite Hd1 by exact Hi. now rewrite S5.
Qed.



(** The values of the counter of a scan loop with a finite stride: the
    multiples of the stride below the bound. *)
Lemma forStep_multiples bound k :
  (1 <= Qfloor k)%Z ->
  forall fuel i,
    (Z.to_nat (bound - i) <= fuel)%nat ->
    forStep fuel i bound (Fin k) (fun j l => l ++ [j]) []
    = map (fun a => (i + Z.of_nat a * Qfloor k)%Z)
        (seq 0 (Z.to_nat ((bound - i + Qfloor k - 1) / Qfloor k))).
Proof.
  intros HK. set (K := Qfloor k) in *.
  induction fuel as [|fuel IH]; intros i Hfuel.
  - simpl.
    assert (((bound - i + K - 1) / K < 1)%Z)
      by (apply Z.div_lt_upper_bound; lia).
    replace (Z.to_nat ((bound - i + K - 1) / K)) with 0%nat by lia.
    reflexivity.
  - simpl. destruct (Z.ltb_spec i bound) as [Hlt|Hge].
    + rewrite forStep_collect. fold K. rewrite IH by lia.
      replace ((bound - i + K - 1) / K)%Z
        with ((bound - (i + K) + K - 1) / K + 1)%Z.
      2:{ rewrite <- Z.div_add by lia. f_equal. lia. }
      assert ((0 <= (bound - (i + K) + K - 1) / K)%Z)
        by (apply Z.div_pos; lia).
      rewrite Z2Nat.inj_add by lia. rewrite Nat.add_comm.
      change (Z.to_nat 1) with 1%nat. cbn [Nat.add seq map app].
      f_equal; [lia|].
      rewrite <- seq_shift, map_map. apply map_ext. intros a. lia.
    + assert (((bound - i + K - 1) / K < 1)%Z)
        by (apply Z.div_lt_upper_bound; lia).
      replace (Z.to_nat ((bound - i + K - 1) / K)) with 0%nat by lia.
      reflexivity.
Qed.

Lemma stepsBelow_finite bound k :
  (1 <= Qfloor k)%Z ->
  stepsBelow bound (Fin k)
  = map (fun a => (Z.of_nat a * Qfloor k)%Z)
      (seq 0 (Z.to_nat ((bound + Qfloor k - 1) / Qfloor k))).
Proof.
  intros HK. unfold stepsBelow.
  rewrite (forStep_multiples bound k HK) by lia.
  rewrite Z.sub_0_r. apply map_ext. intros a. lia.
Qed.

(** With a stride that is not finite a scan loop has one turn. *)
Lemma stepsBelow_not_finite bound step :
  JS.isFinite step = false -> (0 < bound)%Z -> stepsBelow bound step = [0%Z].
Proof.
  intros Hs Hb. unfold stepsBelow.
  destruct (Z.to_nat bound) as [|fuel] eqn:E; [lia|]. simpl.
  destruct (Z.ltb_spec 0 bound); [|lia].
  destruct step; try reflexivity. discriminate.
Qed.

Lemma length_visitedPixels width height step :
  length (visitedPixels width height step)
  = (length (stepsBelow height step) * length (stepsBelow width step))%nat.
Proof.
  unfold visitedPixels.
  induction (stepsBelow height step) as [|y ys IH]; [reflexivity|].
  cbn [flat_map]. rewrite length_app, length_map, IH. simpl. lia.
Qed.


Lemma elem_of_stepsBelow_finite bound k x :
  (1 <= Qfloor k)%Z ->
  x ∈ stepsBelow bound (Fin k)
  <-> (0 <= x < bound)%Z /\ (Qfloor k | x)%Z.
Proof.
  intros HK. rewrite stepsBelow_finite by exact HK.
  set (K := Qfloor k) in *.
  rewrite list_elem_of_fmap. split.
  - intros (a & -> & Ha). apply elem_of_seq in Ha.
    assert (Hn : (Z.of_nat a + 1 <= (bound + K - 1) / K)%Z) by lia.
    pose proof (Z.mul_div_le (bound + K - 1) K ltac:(lia)).
    split; [nia|]. now exists (Z.of_nat a).
  - intros [Hx [c ->]].
    assert (0 <= c)%Z by nia.
    exists (Z.to_nat c). split; [lia|]. apply elem_of_seq.
    assert ((c + 1 <= (bound + K - 1) / K)%Z)
      by (apply Z.div_le_lower_bound; nia).
    lia.
Qed.

(** The pixels the scan visits. *)
Lemma visitedPixels_spec density :
  match samplingStep density with
  | Fin k =>
      let n := Z.to_nat ((canvasSize + Qfloor k - 1) / Qfloor k) in
      (1 <= Qfloor k)%Z
      /\ length (visitedPixels canvasSize canvasSize (Fin k)) = (n * n)%nat
      /\ forall x y,
           (x, y) ∈ visitedPixels canvasSize canvasSize (Fin k)
           <-> (0 <= x < canvasSize)%Z /\ (0 <= y < canvasSize)%Z
               /\ (Qfloor k | x)%Z /\ (Qfloor k | y)%Z
  | step => visitedPixels canvasSize canvasSize step = [(0, 0)%Z]
  end.
Proof.
  destruct (samplingStep density) as [k| | |] eqn:E.
    + pose proof (samplingStep_finite density k E) as HK.
      cbv zeta. split; [exact HK|]. split.
      * rewrite length_visitedPixels, stepsBelow_finite by exact HK.
        now rewrite length_map, length_seq.
      * intros x y. unfold visitedPixels.
        rewrite list_elem_of_In, in_flat_map. split.
        -- intros (y' & Hy & Hin). apply in_map_iff in Hin.
           destruct Hin as (x' & Exy & Hx). injection Exy as -> ->.
           apply list_elem_of_In, elem_of_stepsBelow_finite in Hx, Hy;
             try exact HK.
           tauto.
        -- intros (Hx & Hy & Dx & Dy). exists y. split.
           ++ apply list_elem_of_In, elem_of_stepsBelow_finite; auto.
           ++ apply in_map_iff. exists x. split; [reflexivity|].
              apply list_elem_of_In, elem_of_stepsBelow_finite; auto.
    + unfold visitedPixels.
      now rewrite !stepsBelow_not_finite by (reflexivity || reflexivity).
    + unfold visitedPixels.
      now rewrite !stepsBelow_not_finite by (reflexivity || reflexivity).
    + unfold visitedPixels.
      now rewrite !stepsBelow_not_finite by (reflexivity || reflexivity).
Qed.



Lemma filter_all {A} (P : A -> Prop) `{!forall x, Decision (P x)}
    (l : list A) :
  (forall x, x ∈ l -> P x) -> filter P l = l.
Proof.
  induction l as [|x l IH]; intros Hall; [reflexivity|].
  rewrite filter_cons_True by (apply Hall; left).
  f_equal. apply IH. intros y Hy. apply Hall. now right.
Qed.

Lemma filter_none {A} (P : A -> Prop) `{!forall x, Decision (P x)}
    (l : list A) :
  (forall x, x ∈ l -> ~ P x) -> filter P l = [].
Proof.
  induction l as [|x l IH]; intros Hnone; [reflexivity|].
  rewrite filter_cons_False by (apply Hnone; left).
  apply IH. intros y Hy. apply Hnone. now right.
Qed.

(** X3.  The number of particles of a set.  Each visited pixel gives at
    most one particle: the count is at most the number of visited pixels,
    [n * n] with [n = ceil(1600 / stride)] for a finite stride and 1
    otherwise; it is that number when no visited pixel is dropped, and 0
    when every visited pixel is, in which case the sampler still resolves,
    with an empty set. *)
Theorem sampler_particle_count density url draws m draws' ud :
  imageToParticles density url draws = (inr m, draws') ->
  userData m = Some ud ->
  let pixels := canvasData (loadImage url) in
  let visited := visitedPixels canvasSize canvasSize (samplingStep density) in
  (count ud <= length visited)%nat
  /\ ((forall xy, xy ∈ visited -> survives canvasSize pixels xy = true) ->
      count ud = length visited)
  /\ ((forall xy, xy ∈ visited -> survives canvasSize pixels xy = false) ->
      count ud = 0%nat /\ positions ud = [] /\ originalPositions ud = [])
  /\ match samplingStep density with
     | Fin k =>
         let n := Z.to_nat ((canvasSize + Qfloor k - 1) / Qfloor k) in
         (count ud <= n * n)%nat
     | _ => (count ud <= 1)%nat
     end.
Proof.
  intros H Hud pixels visited.
  destruct (imageToParticles_inr _ _ _ _ _ H) as (Hv & ->).
  destruct (particlesFromCanvas_spec canvasSize canvasSize
              (canvasData (loadImage url)) density draws)
    as (ud' & draws'' & E & Ho & Hp & Hc & _);
    [discriminate|discriminate|].
  rewrite E in Hud. cbn [fst userData] in Hud. injection Hud as <-.
  fold pixels visited in Ho, Hc.
  assert (Hle : (count ud' <= length visited)%nat)
    by (rewrite Hc; apply length_filter).
  split; [exact Hle|]. split; [|split].
  - intros Hall. rewrite Hc. f_equal. apply filter_all. exact Hall.
  - intros Hnone.
    assert (Ef : filter (fun xy => survives canvasSize pixels xy = true)
                   visited = []).
    { apply filter_none. intros xy Hin. rewrite (Hnone xy Hin). discriminate. }
    rewrite Ef in Ho, Hc. cbn [flat_map length] in Ho, Hc.
    rewrite Hp. auto.
  - pose proof (visitedPixels_spec density) as Hs.
    unfold visited in Hle.
    destruct (samplingStep density) as [k| | |].
    + cbv zeta in Hs |- *. destruct Hs as (_ & Hlen & _).
      rewrite <- Hlen. exact Hle.
    + rewrite Hs in Hle. exact Hle.
    + rewrite Hs in Hle. exact Hle.
    + rewrite Hs in Hle. exact Hle.
Qed.


(** X1.  What the sampler settles with.  It rejects with "Failed to load
    image" when the load ends in [onerror], with "Image failed to load
    completely" when the image is incomplete or of size zero, with "Could
    not get canvas context" when the canvas gives no 2d context; the fourth
    message, "Invalid image dimensions", is never used, since the sizes it
    tests were tested before.  Otherwise it resolves, with a visible set
    (opacity 0.9) that carries its data.  A sampler that rejects has drawn
    no random value. *)
Theorem sampler_outcome density url draws :
  let img := loadImage url in
  let out := imageToParticles density url draws in
  match out.1 with
  | inl (FailedToLoadImage u) => u = url /\ img_onload img = false
  | inl ImageFailedToLoadCompletely =>
      img_onload img = true
      /\ (img_complete img = false \/ naturalWidth img = 0%Z
          \/ naturalHeight img = 0%Z)
  | inl CouldNotGetCanvasContext =>
      img_onload img = true /\ img_complete img = true
      /\ naturalWidth img <> 0%Z /\ naturalHeight img <> 0%Z
      /\ context2d img = false
  | inl InvalidImageDimensions => False
  | inr m =>
      validImage img /\ is_Some (userData m)
      /\ material_opacity m = Fin 0.9
      /\ geometry_disposed m = 0%nat /\ material_disposed m = 0%nat
  end
  /\ (forall err, out.1 = inl err -> out.2 = draws).
Proof.
  intros img out. unfold out, imageToParticles. fold img.
  destruct (img_onload img) eqn:E1; cbn [negb];
    [|split; [split|]; reflexivity].
  destruct (img_complete img) eqn:E2; cbn [negb orb];
    [|split; [split; [reflexivity|now left]|reflexivity]].
  destruct (Z.eqb_spec (naturalWidth img) 0) as [Ew|Nw]; cbn [orb];
    [split; [split; [reflexivity|right; now left]|reflexivity]|].
  destruct (Z.eqb_spec (naturalHeight img) 0) as [Eh|Nh]; cbn [orb];
    [split; [split; [reflexivity|right; now right]|reflexivity]|].
  destruct (context2d img) eqn:Ec; cbn [negb];
    [|split; [repeat split; assumption|reflexivity]].
  destruct (drawRect _ _) as [[[dx dy] dw] dh].
  destruct (particlesFromCanvas_spec canvasSize canvasSize
              (imageData img dx dy dw dh) density draws)
    as (ud & draws' & E & _); [discriminate|discriminate|].
  rewrite E. cbn [fst snd]. split; [|discriminate].
  split; [|split; [now eexists|repeat split]].
  unfold validImage. repeat split; assumption.
Qed.

Lemma Qfloor_bounds q z :
  (inject_Z z <= q)%Q -> (q < inject_Z z + 1)%Q -> Qfloor q = z.
Proof.
  intros H0 H1.
  pose proof (Qfloor_le q) as F0. pose proof (Qlt_floor q) as F1.
  rewrite inject_Z_plus in F1. change (inject_Z 1) with 1%Q in F1.
  assert (A : (inject_Z (Qfloor q) < inject_Z (z + 1))%Q)
    by (rewrite inject_Z_plus; change (inject_Z 1) with 1%Q; lra).
  assert (B : (inject_Z z < inject_Z (Qfloor q + 1))%Q)
    by (rewrite inject_Z_plus; change (inject_Z 1) with 1%Q; lra).
  rewrite <- Zlt_Qlt in A, B. lia.
Qed.

Lemma round_bounds q :
  (q - (1 # 2) < inject_Z (Qfloor (q + (1 # 2))))%Q
  /\ (inject_Z (Qfloor (q + (1 # 2))) <= q + (1 # 2))%Q.
Proof.
  pose proof (Qfloor_le (q + (1 # 2))) as F0.
  pose proof (Qlt_floor (q + (1 # 2))) as F1.
  rewrite inject_Z_plus in F1. change (inject_Z 1) with 1%Q in F1.
  split; lra.
Qed.


(** The running minimum and maximum of the loop of [bounds], one axis at a
    time. *)
Lemma bounds_axes ops :
  forall n start minX maxX minY maxY minZ maxZ,
    forCount n start
      (fun i '(minX, maxX, minY, maxY, minZ, maxZ) =>
         let x := get ops (i * 3) in
         let y := get ops (i * 3 + 1) in
         let z := get ops (i * 3 + 2) in
         (JS.min minX x, JS.max maxX x,
          JS.min minY y, JS.max maxY y,
          JS.min minZ z, JS.max maxZ z))
      (minX, maxX, minY, maxY, minZ, maxZ)
    = (forCount n start (fun i m => JS.min m (get ops (i * 3))) minX,
       forCount n start (fun i m => JS.max m (get ops (i * 3))) maxX,
       forCount n start (fun i m => JS.min m (get ops (i * 3 + 1))) minY,
       forCount n start (fun i m => JS.max m (get ops (i * 3 + 1))) maxY,
       forCount n start (fun i m => JS.min m (get ops (i * 3 + 2))) minZ,
       forCount n start (fun i m => JS.max m (get ops (i * 3 + 2))) maxZ).
Proof.
  induction n as [|n IH]; intros; [reflexivity|].
  rewrite !forCount_S. cbv zeta. apply IH.
Qed.

(** The minimum of finite values, from a finite start. *)
Lemma running_min (g : nat -> Q) n :
  forall start a,
    exists r,
      forCount n start (fun i m => JS.min m (Fin (g i))) (Fin a) = Fin r
      /\ (r <= a)%Q
      /\ (forall i, (start <= i < start + n)%nat -> (r <= g i)%Q)
      /\ (r = a \/ exists i, (start <= i < start + n)%nat /\ r = g i).
Proof.
  induction n as [|n IH]; intros start a.
  - exists a. simpl. repeat split; [lra|intros; lia|now left].
  - rewrite forCount_S, min_fin.
    destruct (Qle_bool a (g start)) eqn:E.
    + apply Qle_bool_iff in E.
      destruct (IH (S start) a) as (r & Er & Ha & Hall & Hat).
      exists r. split; [exact Er|]. split; [exact Ha|]. split.
      * intros i Hi. destruct (decide (i = start)) as [->|Hne]; [lra|].
        apply Hall. lia.
      * destruct Hat as [->|(i & Hi & ->)]; [now left|].
        right. exists i. split; [lia|reflexivity].
    + apply Qle_bool_false in E.
      destruct (IH (S start) (g start)) as (r & Er & Ha & Hall & Hat).
      exists r. split; [exact Er|]. split; [lra|]. split.
      * intros i Hi. destruct (decide (i = start)) as [->|Hne]; [lra|].
        apply Hall. lia.
      * right. destruct Hat as [->|(i & Hi & ->)].
        -- exists start. split; [lia|reflexivity].
        -- exists i. split; [lia|reflexivity].
Qed.

Lemma running_max (g : nat -> Q) n :
  forall start a,
    exists r,
      forCount n start (fun i m => JS.max m (Fin (g i))) (Fin a) = Fin r
      /\ (a <= r)%Q
      /\ (forall i, (start <= i < start + n)%nat -> (g i <= r)%Q)
      /\ (r = a \/ exists i, (start <= i < start + n)%nat /\ r = g i).
Proof.
  induction n as [|n IH]; intros start a.
  - exists a. simpl. repeat split; [lra|intros; lia|now left].
  - rewrite forCount_S, max_fin.
    destruct (Qle_bool a (g start)) eqn:E.
    + apply Qle_bool_iff in E.
      destruct (IH (S start) (g start)) as (r & Er & Ha & Hall & Hat).
      exists r. split; [exact Er|]. split; [lra|]. split.
      * intros i Hi. destruct (decide (i = start)) as [->|Hne]; [lra|].
        apply Hall. lia.
      * right. destruct Hat as [->|(i & Hi & ->)].
        -- exists start. split; [lia|reflexivity].
        -- exists i. split; [lia|reflexivity].
    + apply Qle_bool_false in E.
      destruct (IH (S start) a) as (r & Er & Ha & Hall & Hat).
      exists r. split; [exact Er|]. split; [exact Ha|]. split.
      * intros i Hi. destruct (decide (i = start)) as [->|Hne]; [lra|].
        apply Hall. lia.
      * destruct Hat as [->|(i & Hi & ->)]; [now left|].
        right. exists i. split; [lia|reflexivity].
Qed.

(** From the infinities the loop starts with, over at least one value. *)
Lemma axis_extent (f : nat -> number) (g : nat -> Q) n :
  (forall i, f i = Fin (g i)) -> (0 < n)%nat ->
  exists lo hi,
    forCount n 0 (fun i m => JS.min m (f i)) PosInf = Fin lo
    /\ forCount n 0 (fun i m => JS.max m (f i)) NegInf = Fin hi
    /\ (forall i, (i < n)%nat -> (lo <= g i /\ g i <= hi)%Q)
    /\ (exists i, (i < n)%nat /\ lo = g i)
    /\ (exists i, (i < n)%nat /\ hi = g i).
Proof.
  intros Hf Hn. destruct n as [|n]; [lia|].
  rewrite !forCount_S, !Hf. cbn [JS.min JS.max JS.le].
  assert (Emin : forall m start acc,
            forCount m start (fun i m => JS.min m (f i)) acc
            = forCount m start (fun i m => JS.min m (Fin (g i))) acc).
  { induction m as [|m IH]; intros start acc; [reflexivity|].
    now rewrite !forCount_S, Hf, IH. }
  assert (Emax : forall m start acc,
            forCount m start (fun i m => JS.max m (f i)) acc
            = forCount m start (fun i m => JS.max m (Fin (g i))) acc).
  { induction m as [|m IH]; intros start acc; [reflexivity|].
    now rewrite !forCount_S, Hf, IH. }
  rewrite Emin, Emax.
  destruct (running_min g n 1 (g 0%nat)) as (lo & El & Hl0 & Hl & Hlat).
  destruct (running_max g n 1 (g 0%nat)) as (hi & Eh & Hh0 & Hh & Hhat).
  exists lo, hi. split; [exact El|]. split; [exact Eh|]. split; [|split].
  - intros i Hi. destruct i as [|i]; [lra|].
    split; [apply Hl|apply Hh]; lia.
  - destruct Hlat as [->|(i & Hi & ->)];
      [exists 0%nat|exists i]; split; (lia || reflexivity).
  - destruct Hhat as [->|(i & Hi & ->)];
      [exists 0%nat|exists i]; split; (lia || reflexivity).
Qed.


Lemma get_finite a j :
  Forall (fun v => JS.isFinite v = true) a ->
  get a j = Fin (finiteValue (get a j)).
Proof.
  intros Hfin. unfold get.
  destruct (a !! j) as [v|] eqn:E; [|reflexivity].
  cbn [default]. rewrite Forall_forall in Hfin.
  assert (Hv : JS.isFinite v = true)
    by (apply Hfin; eapply list_elem_of_lookup_2; exact E).
  destruct v; try discriminate. reflexivity.
Qed.

(** The distance at which a box fills the screen, on finite positive
    data. *)
Lemma fillDistance_fin cam (w h f pi sx sy : Q) :
  fov cam = Fin f -> Math_PI = Fin pi ->
  (0 < w)%Q -> (0 < h)%Q -> (0 < f)%Q -> (0 < pi)%Q ->
  (0 < sx)%Q -> (0 < sy)%Q ->
  let t := (f * (pi / 180) / 2)%Q in
  exists d,
    fillDistance cam (Fin w) (Fin h) (Fin sx) (Fin sy) = Fin d
    /\ (d == Qmin (sx / 2 / (t * (w / h))) (sy / 2 / t))%Q
    /\ (0 < d)%Q
    /\ (2 * d * t <= sy)%Q /\ (2 * d * t * (w / h) <= sx)%Q
    /\ ((2 * d * t == sy)%Q \/ (2 * d * t * (w / h) == sx)%Q).
Proof.
  intros Hf Hpi Hw Hh Hf0 Hpi0 Hsx Hsy t.
  assert (Ht : (0 < t)%Q).
  { unfold t. apply Qlt_shift_div_l; [reflexivity|]. rewrite Qmult_0_l.
    apply Qmult_lt_0_compat; [exact Hf0|].
    apply Qlt_shift_div_l; [reflexivity|]. lra. }
  assert (Ha : (0 < w / h)%Q) by (apply Qlt_shift_div_l; lra).
  assert (Hta : (0 < t * (w / h))%Q) by (now apply Qmult_lt_0_compat).
  unfold fillDistance. rewrite Hf, Hpi.
  rewrite (div_fin w h) by lra.
  rewrite (div_fin pi 180) by (intros E; discriminate).
  cbn [JS.mul]. rewrite (div_fin (f * (pi / 180)) 2) by (intros E; discriminate).
  fold t. cbn [JS.mul].
  rewrite (div_fin sx 2), (div_fin sy 2) by (intros E; discriminate).
  rewrite (div_fin (sx / 2) (t * (w / h))) by lra.
  rewrite (div_fin (sy / 2) t) by lra.
  rewrite min_fin.
  set (dw := (sx / 2 / (t * (w / h)))%Q).
  set (dh := (sy / 2 / t)%Q).
  assert (Edw : (2 * dw * t * (w / h) == sx)%Q) by (unfold dw; field; lra).
  assert (Edh : (2 * dh * t == sy)%Q) by (unfold dh; field; lra).
  assert (Pdw : (0 < dw)%Q).
  { unfold dw. apply Qlt_shift_div_l; [exact Hta|].
    rewrite Qmult_0_l. apply Qlt_shift_div_l; [reflexivity|]. lra. }
  assert (Pdh : (0 < dh)%Q).
  { unfold dh. apply Qlt_shift_div_l; [exact Ht|].
    rewrite Qmult_0_l. apply Qlt_shift_div_l; [reflexivity|]. lra. }
  destruct (Qle_bool dw dh) eqn:E.
  - apply Qle_bool_iff in E. exists dw. split; [reflexivity|].
    split; [symmetry; apply Q.min_l; exact E|].
    split; [exact Pdw|]. split; [|split; [|now right]].
    + rewrite <- Edh. nra.
    + rewrite Edw. lra.
  - apply Qle_bool_false in E. exists dh. split; [reflexivity|].
    split; [symmetry; apply Q.min_r; lra|].
    split; [exact Pdh|]. split; [|split; [|now left]].
    + rewrite Edh. lra.
    + rewrite <- Edw. nra.
Qed.

(** X7.  The framer on a set with particles.  The sizes it works on are
    the extents of the resting positions: the differences of the largest
    and the smallest [x], and of the largest and the smallest [y], over the
    particles.  When both are positive, the window, the field of view and
    [Math.PI] being positive, it computes the distance [d] at which the box
    fills the screen: the view at that distance (of height [2 d t], of
    width [2 d t] times the aspect ratio, with [t] the half angle in
    radians taken for its tangent) lies within the box and has its width
    or its height; the target is half of it, or 5 when [d] is above
    1000. *)
Theorem framer_bounding_box s cam r m ud :
  camera s = Some cam -> currentParticles s = Some r ->
  isTransitioning s = false -> heap s !! r = Some m ->
  userData m = Some ud -> (0 < count ud)%nat ->
  originalPositions ud <> [] ->
  Forall (fun v => JS.isFinite v = true) (originalPositions ud) ->
  exists minX maxX minY maxY : Q,
    (forall i, (i < count ud)%nat ->
       exists x y,
         get (originalPositions ud) (i * 3) = Fin x
         /\ get (originalPositions ud) (i * 3 + 1) = Fin y
         /\ (minX <= x /\ x <= maxX)%Q /\ (minY <= y /\ y <= maxY)%Q)
    /\ (exists i, (i < count ud)%nat
                 /\ get (originalPositions ud) (i * 3) = Fin minX)
    /\ (exists i, (i < count ud)%nat
                 /\ get (originalPositions ud) (i * 3) = Fin maxX)
    /\ (exists i, (i < count ud)%nat
                 /\ get (originalPositions ud) (i * 3 + 1) = Fin minY)
    /\ (exists i, (i < count ud)%nat
                 /\ get (originalPositions ud) (i * 3 + 1) = Fin maxY)
    /\ framedSize m = Some (Fin (maxX - minX), Fin (maxY - minY))
    /\ forall w h f pi,
         innerWidth s = Fin w -> innerHeight s = Fin h ->
         fov cam = Fin f -> Math_PI = Fin pi ->
         (0 < w)%Q -> (0 < h)%Q -> (0 < f)%Q -> (0 < pi)%Q ->
         (0 < maxX - minX)%Q -> (0 < maxY - minY)%Q ->
         let sizeX := (maxX - minX)%Q in
         let sizeY := (maxY - minY)%Q in
         let t := (f * (pi / 180) / 2)%Q in
         exists d,
           fillDistance cam (Fin w) (Fin h) (Fin sizeX) (Fin sizeY) = Fin d
           /\ (d == Qmin (sizeX / 2 / (t * (w / h))) (sizeY / 2 / t))%Q
           /\ (0 < d)%Q
           /\ (2 * d * t <= sizeY)%Q /\ (2 * d * t * (w / h) <= sizeX)%Q
           /\ ((2 * d * t == sizeY)%Q \/ (2 * d * t * (w / h) == sizeX)%Q)
           /\ targetCameraZ (updateCameraForParticles s)
              = Fin (if Qle_bool d 1000 then d * 0.5 else 5).
Proof.
  intros Hcam Hr Ht Hm Hud Hn Hne Hfin.
  set (ops := originalPositions ud) in *.
  assert (Hb : bounds ops (count ud)
               = (forCount (count ud) 0
                    (fun i m => JS.min m (get ops (i * 3))) PosInf,
                  forCount (count ud) 0
                    (fun i m => JS.max m (get ops (i * 3))) NegInf,
                  forCount (count ud) 0
                    (fun i m => JS.min m (get ops (i * 3 + 1))) PosInf,
                  forCount (count ud) 0
                    (fun i m => JS.max m (get ops (i * 3 + 1))) NegInf,
                  forCount (count ud) 0
                    (fun i m => JS.min m (get ops (i * 3 + 2))) PosInf,
                  forCount (count ud) 0
                    (fun i m => JS.max m (get ops (i * 3 + 2))) NegInf))
    by (unfold bounds; apply bounds_axes).
  destruct (axis_extent (fun i => get ops (i * 3))
              (fun i => finiteValue (get ops (i * 3))) (count ud))
    as (x0 & x1 & Ex0 & Ex1 & Hx & Hx0 & Hx1);
    [intros i; now apply get_finite|exact Hn|].
  destruct (axis_extent (fun i => get ops (i * 3 + 1))
              (fun i => finiteValue (get ops (i * 3 + 1))) (count ud))
    as (y0 & y1 & Ey0 & Ey1 & Hy & Hy0 & Hy1);
    [intros i; now apply get_finite|exact Hn|].
  rewrite Ex0, Ex1, Ey0, Ey1 in Hb.
  assert (Hdeg : ((count ud =? 0)%nat || (length ops =? 0)%nat) = false).
  { destruct (Nat.eqb_spec (count ud) 0); [lia|].
    destruct (Nat.eqb_spec (length ops) 0) as [E|]; [|reflexivity].
    destruct ops; [contradiction|discriminate]. }
  exists x0, x1, y0, y1.
  split.
  { intros i Hi. exists (finiteValue (get ops (i * 3))),
                  (finiteValue (get ops (i * 3 + 1))).
    split; [now apply get_finite|]. split; [now apply get_finite|].
    split; [apply Hx|apply Hy]; exact Hi. }
  split.
  { destruct Hx0 as (i & Hi & ->). exists i. split; [exact Hi|].
    now apply get_finite. }
  split.
  { destruct Hx1 as (i & Hi & ->). exists i. split; [exact Hi|].
    now apply get_finite. }
  split.
  { destruct Hy0 as (i & Hi & ->). exists i. split; [exact Hi|].
    now apply get_finite. }
  split.
  { destruct Hy1 as (i & Hi & ->). exists i. split; [exact Hi|].
    now apply get_finite. }
  split.
  { unfold framedSize. rewrite Hud. fold ops. rewrite Hdeg, Hb. reflexivity. }
  intros w h f pi Ew Eh Ef Epi Hw Hh Hf Hpi Hsx Hsy sizeX sizeY t.
  destruct (fillDistance_fin cam w h f pi sizeX sizeY Ef Epi Hw Hh Hf Hpi
              Hsx Hsy) as (d & Ed & Hd & Pd & V1 & V2 & V3).
  fold t in Hd, V1, V2, V3.
  exists d. split; [exact Ed|]. split; [exact Hd|]. split; [exact Pd|].
  split; [exact V1|]. split; [exact V2|]. split; [exact V3|].
  rewrite (updateCameraForParticles_runs s cam r m) by assumption.
  unfold framedCameraZ. rewrite Hud. fold ops. rewrite Hdeg, Hb.
  rewrite Ew, Eh. cbn [JS.sub]. fold sizeX sizeY.
  assert (Es : badSize (Fin sizeX) (Fin sizeY) = false).
  { unfold badSize. cbn [JS.le JS.isFinite negb].
    assert (Qle_bool sizeX 0 = false) as ->
      by (apply Qle_bool_false; unfold sizeX; lra).
    assert (Qle_bool sizeY 0 = false) as ->
      by (apply Qle_bool_false; unfold sizeY; lra).
    reflexivity. }
  rewrite Es, Ed. unfold badDistance. cbn [JS.isFinite negb JS.le JS.gt JS.lt orb].
  assert (Qle_bool d 0 = false) as -> by (apply Qle_bool_false; lra).
  unfold JS.Qlt_bool. cbn [orb].
  destruct (Qle_bool d 1000); reflexivity.
Qed.

(** The explode loop, particle by particle. *)
Lemma explodeSet_get e d ud draws i k :
  (i < count ud)%nat -> (k < 3)%nat ->
  get (positions (explodeSet e d ud draws).1) (i * 3 + k)
  = get (positions ud) (i * 3 + k)
    + coord k (explodeVelocity e d ud i (draws + 4 * i)).
Proof.
  intros Hi Hk. unfold explodeSet.
  destruct (particle_loop
              (fun j x y z n =>
                 (x + (explodeVelocity e d ud j n).1.1,
                  y + (explodeVelocity e d ud j n).1.2,
                  z + (explodeVelocity e d ud j n).2))
              4 (explodeParticle e d (originalPositions ud) (delays ud))) with
    (n := count ud) (start := 0%nat) (a := positions ud) (draws := draws)
    as [_ Hg].
  { intros j a n. unfold explodeParticle, explodeVelocity, set3.
    cbv zeta. cbn [fst snd]. reflexivity. }
  destruct (forCount _ _ _ _) as [p draws'].
  cbn [fst positions setPositions] in *.
  rewrite Hg by assumption. rewrite decide_True by lia.
  rewrite Nat.sub_0_r.
  destruct k as [|[|[|k]]]; try lia; cbn [coord fst snd];
    rewrite ?Nat.add_0_r; reflexivity.
Qed.

Lemma explodeSet_layout e d ud draws :
  let ud' := (explodeSet e d ud draws).1 in
  originalPositions ud' = originalPositions ud
  /\ velocities ud' = velocities ud /\ colors ud' = colors ud
  /\ delays ud' = delays ud /\ count ud' = count ud.
Proof.
  unfold explodeSet. destruct (forCount _ _ _ _) as [p draws'].
  repeat split.
Qed.

(** The exponential curve at its two ends. *)
Lemma easeOutExponential_0 t :
  (t == 0)%Q -> exists z, easeOutExponential (Fin t) = Fin z /\ (z == 0)%Q.
Proof.
  intros Ht. unfold easeOutExponential. cbn [JS.strictEq JS.mul].
  assert (Qeq_bool t 1 = false) as -> by (apply Qeq_bool_false; lra).
  unfold Math_pow, JS.asNat.
  assert (E0 : (-10 * t == 0)%Q) by lra.
  assert (Qle_bool 0 (-10 * t) = true) as -> by (apply Qle_bool_iff; lra).
  assert (Ef : Qfloor (-10 * t) = 0%Z) by (now rewrite E0).
  rewrite Ef.
  assert (Qeq_bool (inject_Z 0) (-10 * t) = true) as ->
    by (apply Qeq_bool_iff; change (inject_Z 0) with 0%Q; lra).
  cbn. eexists; split; [reflexivity|]. lra.
Qed.

Lemma easeOutExponential_1 t :
  (t == 1)%Q -> easeOutExponential (Fin t) = Fin 1.
Proof.
  intros Ht. unfold easeOutExponential. cbn [JS.strictEq].
  assert (Qeq_bool t 1 = true) as -> by (now apply Qeq_bool_iff).
  reflexivity.
Qed.


(** X8.  The outgoing set in a frame of a transition.  Each particle is
    displaced from where it is by a velocity made of its direction from
    the centre (the angle of its resting position), a random force and
    noise, times the exponential ease of its own progress and 0.1; the
    frame draws four random values for each particle and leaves the
    resting positions, the colours, the delays and the count as they are.
    A particle whose delay has not elapsed yet does not move; once its
    delay and the duration have both elapsed its ease is 1. *)
Theorem explode_step props sess now s cur nxt ud i :
  wellFormed s -> currentParticles s = Some cur ->
  nextParticles s = Some nxt -> userDataAt s cur = Some ud ->
  (i < count ud)%nat ->
  let elapsed := now - startTime sess in
  let v := explodeVelocity elapsed (duration sess) ud i
             (randomDraws s + 4 * i) in
  exists ud',
    userDataAt (animateTransition props sess now s) cur = Some ud'
    /\ originalPositions ud' = originalPositions ud
    /\ colors ud' = colors ud /\ delays ud' = delays ud
    /\ count ud' = count ud
    /\ get (positions ud') (i * 3) = get (positions ud) (i * 3) + v.1.1
    /\ get (positions ud') (i * 3 + 1)
       = get (positions ud) (i * 3 + 1) + v.1.2
    /\ get (positions ud') (i * 3 + 2) = get (positions ud) (i * 3 + 2) + v.2
    /\ forall e d dl : Q,
         elapsed = Fin e -> duration sess = Fin d ->
         get (delays ud) i = Fin dl -> (0 < d)%Q ->
         ((e <= dl)%Q ->
          forall k p, (k < 3)%nat ->
            JS.isFinite
              (Math_cos (Math_atan2 (get (originalPositions ud) (i * 3 + 1))
                           (get (originalPositions ud) (i * 3)))) = true ->
            JS.isFinite
              (Math_sin (Math_atan2 (get (originalPositions ud) (i * 3 + 1))
                           (get (originalPositions ud) (i * 3)))) = true ->
            get (positions ud) (i * 3 + k) = Fin p ->
            exists p', get (positions ud') (i * 3 + k) = Fin p'
                       /\ (p' == p)%Q)
         /\ ((dl + d <= e)%Q ->
             easeOutExponential
               (particleProgress elapsed (duration sess) (get (delays ud) i))
             = Fin 1).
Proof.
  intros Hwf Hcur Hnxt Hud Hi elapsed v.
  destruct (wf_next s Hwf nxt Hnxt) as (mn & udn & Hmn & Hudn & _).
  unfold userDataAt in Hud.
  destruct (heap s !! cur) as [mc|] eqn:Hmc; [|discriminate].
  destruct (animateTransition_objects props sess now s nxt mn udn
              Hwf Hnxt Hmn Hudn) as (_ & Hc).
  specialize (Hc cur mc ud Hcur Hmc Hud). cbv zeta in Hc.
  fold elapsed in Hc.
  set (ud' := (explodeSet elapsed (duration sess) ud (randomDraws s)).1) in *.
  assert (Eud : userDataAt (animateTransition props sess now s) cur
                = Some ud').
  { unfold userDataAt. rewrite Hc.
    destruct (baseProgress elapsed (duration sess) <? Fin 1); reflexivity. }
  destruct (explodeSet_layout elapsed (duration sess) ud (randomDraws s))
    as (L1 & _ & L3 & L4 & L5).
  fold ud' in L1, L3, L4, L5.
  pose proof (explodeSet_get elapsed (duration sess) ud (randomDraws s) i 0
                Hi ltac:(lia)) as G0.
  pose proof (explodeSet_get elapsed (duration sess) ud (randomDraws s) i 1
                Hi ltac:(lia)) as G1.
  pose proof (explodeSet_get elapsed (duration sess) ud (randomDraws s) i 2
                Hi ltac:(lia)) as G2.
  fold ud' v in G0, G1, G2. rewrite Nat.add_0_r in G0.
  cbn [coord] in G0, G1, G2.
  exists ud'. do 5 (split; [assumption|]).
  split; [exact G0|]. split; [exact G1|]. split; [exact G2|].
  intros e d dl Ee Ed Edl Hd. split.
  - intros Hle k p Hk Hcos Hsin Hp.
    destruct (particleProgress_fin e d dl Hd) as (t & Et & Ht).
    assert (Ht0 : (t == 0)%Q).
    { rewrite Ht. apply clamp_inside; [|lra|lra].
      rewrite Q.max_l by lra. unfold Qdiv. ring. }
    destruct (easeOutExponential_0 t Ht0) as (z & Ez & Hz).
    assert (Ev : exists vx vy vz,
               v = (Fin vx, Fin vy, Fin vz)
               /\ (vx == 0)%Q /\ (vy == 0)%Q /\ (vz == 0)%Q).
    { unfold v, explodeVelocity. rewrite Ee, Ed, Edl, Et, Ez.
      destruct (Math_cos _) as [c| | |]; try discriminate.
      destruct (Math_sin _) as [sn| | |]; try discriminate.
      cbn [explodeForce JS.mul JS.add JS.sub].
      do 3 eexists. split; [reflexivity|]. rewrite Hz.
      repeat split; ring. }
    destruct Ev as (vx & vy & vz & Ev & Hx & Hy & Hv).
    rewrite Ev in G0, G1, G2. cbn [fst snd] in G0, G1, G2.
    destruct k as [|[|[|k]]]; try lia.
    + rewrite Nat.add_0_r in Hp |- *. rewrite G0, Hp.
      eexists; split; [reflexivity|]. lra.
    + rewrite G1, Hp. eexists; split; [reflexivity|]. lra.
    + rewrite G2, Hp. eexists; split; [reflexivity|]. lra.
  - intros Hge. rewrite Ee, Ed, Edl.
    destruct (particleProgress_fin e d dl Hd) as (t & Et & Ht).
    rewrite Et. apply easeOutExponential_1. rewrite Ht.
    apply clamp_above. rewrite Q.max_r by lra.
    apply Qle_shift_div_l; lra.
Qed.

Lemma length_set_within a i v :
  (i < length a)%nat -> length (set a i v) = length a.
Proof.
  intros Hi. unfold set. rewrite decide_True by exact Hi.
  apply length_insert.
Qed.

Lemma length_set3_within a i v :
  (i * 3 + 2 < length a)%nat -> length (set3 a i v) = length a.
Proof.
  intros Hi. unfold set3.
  assert (L1 : length (set a (i * 3) v.1.1) = length a)
    by (apply length_set_within; lia).
  assert (L2 : length (set (set a (i * 3) v.1.1) (i * 3 + 1) v.1.2)
               = length a)
    by (rewrite length_set_within; lia).
  rewrite length_set_within; lia.
Qed.

(** A particle loop over [n] particles keeps the length of an array of at
    least [3 n] slots. *)
Lemma particle_loop_length {A} (body : nat -> list number * A -> list number * A)
    (F : nat -> list number * A -> number * number * number) :
  (forall i acc, (body i acc).1 = set3 acc.1 i (F i acc)) ->
  forall n acc,
    (3 * n <= length acc.1)%nat ->
    length (forCount n 0 body acc).1 = length acc.1.
Proof.
  intros Hbody n acc Hlen.
  apply (forCount_invariant
           (fun _ a => length a.1 = length acc.1) body n 0%nat acc);
    [|reflexivity].
  intros i a Hi Ha. rewrite Hbody, length_set3_within by lia. exact Ha.
Qed.

Lemma particle_loop_length_pure (body : nat -> list number -> list number)
    (F : nat -> list number -> number * number * number) :
  (forall i a, body i a = set3 a i (F i a)) ->
  forall n a,
    (3 * n <= length a)%nat ->
    length (forCount n 0 body a) = length a.
Proof.
  intros Hbody n a Hlen.
  apply (forCount_invariant
           (fun _ b => length b = length a) body n 0%nat a);
    [|reflexivity].
  intros i b Hi Hb. rewrite Hbody, length_set3_within by lia. exact Hb.
Qed.

(** X6.  The lengths of the arrays of a set are kept.  The set the sampler
    resolves with has arrays of the lengths that go with its count, and
    the four loops that move particles (the two seeding loops, the explode
    loop and the implode loop) keep them: they write the three coordinates
    of each of the [count] particles, slots that exist, and never extend
    an array. *)
Theorem particle_loops_keep_lengths :
  (forall density url draws m draws' ud,
     imageToParticles density url draws = (inr m, draws') ->
     userData m = Some ud -> arraysMatchCount ud)
  /\ forall ud, arraysMatchCount ud ->
       (forall draws, arraysMatchCount (seedNext ud draws).1)
       /\ (forall draws, arraysMatchCount (seedInitial ud draws).1)
       /\ (forall e d draws, arraysMatchCount (explodeSet e d ud draws).1)
       /\ (forall e d, arraysMatchCount (implodeSet e d ud)).
Proof.
  split.
  - intros density url draws m draws' ud H Hud.
    destruct (imageToParticles_inr _ _ _ _ _ H) as (Hv & ->).
    destruct (particlesFromCanvas_spec canvasSize canvasSize
                (canvasData (loadImage url)) density draws)
      as (ud' & draws'' & E & Ho & Hp & Hc & Hcol & _ & Hdl);
      [discriminate|discriminate|].
    rewrite E in Hud. cbn [fst userData] in Hud. injection Hud as <-.
    assert (Hlen : length (originalPositions ud') = (3 * count ud')%nat)
      by (rewrite Ho, length_flat_map_targetOf; lia).
    unfold arraysMatchCount. rewrite Hp. auto.
  - intros ud (Hp & Ho & Hc & Hd).
    split; [|split; [|split]].
    + intros draws. unfold seedNext.
      pose proof (particle_loop_length
                    (fun i acc => seedParticle acc.1 i acc)
                    (fun i acc =>
                       farPosition (get acc.1 (i * 3)) (get acc.1 (i * 3 + 1))
                         (Math_random acc.2))
                    ltac:(intros i [a k]; reflexivity)
                    (count ud) (positions ud, draws) ltac:(cbn; lia)) as L.
      destruct (forCount _ _ _ _) as [p draws']. cbn [fst] in *.
      unfold arraysMatchCount. cbn [positions originalPositions colors delays
                                     count setPositions].
      rewrite L. auto.
    + intros draws. unfold seedInitial.
      pose proof (particle_loop_length
                    (seedParticle (originalPositions ud))
                    (fun i acc =>
                       farPosition (get (originalPositions ud) (i * 3))
                         (get (originalPositions ud) (i * 3 + 1))
                         (Math_random acc.2))
                    ltac:(intros i [a k]; reflexivity)
                    (count ud) (positions ud, draws) ltac:(cbn; lia)) as L.
      destruct (forCount _ _ _ _) as [p draws']. cbn [fst] in *.
      unfold arraysMatchCount. cbn [positions originalPositions colors delays
                                     count setPositions].
      rewrite L. auto.
    + intros e d draws. unfold explodeSet.
      pose proof (particle_loop_length
                    (explodeParticle e d (originalPositions ud) (delays ud))
                    (fun i acc =>
                       (get acc.1 (i * 3)
                        + (explodeVelocity e d ud i acc.2).1.1,
                        get acc.1 (i * 3 + 1)
                        + (explodeVelocity e d ud i acc.2).1.2,
                        get acc.1 (i * 3 + 2)
                        + (explodeVelocity e d ud i acc.2).2))
                    ltac:(intros i [a k];
                          unfold explodeParticle, explodeVelocity, set3;
                          cbv zeta; cbn [fst snd]; reflexivity)
                    (count ud) (positions ud, draws) ltac:(cbn; lia)) as L.
      destruct (forCount _ _ _ _) as [p draws']. cbn [fst] in *.
      unfold arraysMatchCount. cbn [positions originalPositions colors delays
                                     count setPositions].
      rewrite L. auto.
    + intros e d. unfold implodeSet, arraysMatchCount.
      cbn [positions originalPositions colors delays count setPositions].
      rewrite (particle_loop_length_pure
                 (implodeParticle e d (originalPositions ud) (delays ud))
                 (fun i a =>
                    let ease :=
                      easeInOutCubic
                        (particleProgress e d (get (delays ud) i)) in
                    (implodeCoordinate (get a (i * 3))
                       (get (originalPositions ud) (i * 3)) ease,
                     implodeCoordinate (get a (i * 3 + 1))
                       (get (originalPositions ud) (i * 3 + 1)) ease,
                     implodeCoordinate (get a (i * 3 + 2))
                       (get (originalPositions ud) (i * 3 + 2)) ease)))
        by (reflexivity || lia).
      auto.
Qed.

(** The framer reads the resting positions and the count of a set, not
    where its particles are nor how opaque it is. *)
Lemma framedCameraZ_layout cam width height m m' ud ud' :
  userData m = Some ud -> userData m' = Some ud' ->
  originalPositions ud' = originalPositions ud -> count ud' = count ud ->
  framedCameraZ cam width height m' = framedCameraZ cam width height m.
Proof.
  intros H1 H2 Ho Hc. unfold framedCameraZ. now rewrite H1, H2, Ho, Hc.
Qed.

Lemma seedInitial_layout ud draws :
  let ud' := (seedInitial ud draws).1 in
  originalPositions ud' = originalPositions ud
  /\ velocities ud' = velocities ud /\ colors ud' = colors ud
  /\ delays ud' = delays ud /\ count ud' = count ud.
Proof.
  unfold seedInitial. destruct (forCount _ _ _ _) as [p draws'].
  repeat split.
Qed.

Lemma seedNext_layout ud draws :
  let ud' := (seedNext ud draws).1 in
  originalPositions ud' = originalPositions ud
  /\ velocities ud' = velocities ud /\ colors ud' = colors ud
  /\ delays ud' = delays ud /\ count ud' = count ud.
Proof.
  unfold seedNext. destruct (forCount _ _ _ _) as [p draws'].
  repeat split.
Qed.

Lemma implodeSet_layout e d ud :
  let ud' := implodeSet e d ud in
  originalPositions ud' = originalPositions ud
  /\ velocities ud' = velocities ud /\ colors ud' = colors ud
  /\ delays ud' = delays ud /\ count ud' = count ud.
Proof. repeat split. Qed.

(** When the first load changes nothing. *)
Lemma loadInitialImage_gives_up_helper props now now' s :
  images props = []
  \/ images props !! currentImageIndex s = None
  \/ images props !! currentImageIndex s = Some ""%string
  \/ (exists url err,
        images props !! currentImageIndex s = Some url
        /\ (imageToParticles (particleDensity props) url (randomDraws s)).1
           = inl err) ->
  loadInitialImage props now now' s = s.
Proof.
  unfold loadInitialImage.
  intros [H|[H|[H|(url & err & H & Hrej)]]].
  - now rewrite H.
  - rewrite H. now destruct (length (images props) =? 0)%nat.
  - rewrite H. now destruct (length (images props) =? 0)%nat.
  - rewrite H. destruct (length (images props) =? 0)%nat; [reflexivity|].
    destruct (String.eqb url ""); [reflexivity|].
    destruct (imageToParticles _ _ _) as [[e|m] n]; [reflexivity|discriminate].
Qed.

(** X9.  The first load gives up silently.  Without an image at the
    current index, or when the sampler rejects, [loadInitialImage] changes
    nothing: no set is installed, no frame is requested and no timer is
    started, so that the auto-advance does not begin. *)
Theorem loadInitialImage_gives_up props now now' s :
  images props = []
  \/ images props !! currentImageIndex s = None
  \/ images props !! currentImageIndex s = Some ""%string
  \/ (exists url err,
        images props !! currentImageIndex s = Some url
        /\ (imageToParticles (particleDensity props) url (randomDraws s)).1
           = inl err) ->
  loadInitialImage props now now' s = s.
Proof. exact (loadInitialImage_gives_up_helper props now now' s). Qed.



(** A frame of the first animation on a set that carries its data. *)
Lemma animateInitial_fields props startTime duration now s r m ud :
  currentParticles s = Some r -> heap s !! r = Some m ->
  userData m = Some ud ->
  let elapsed := now - startTime in
  let progress := JS.min (elapsed / duration) (Fin 1) in
  let s' := animateInitial props startTime duration now s in
  let scheduled :=
    if progress <? Fin 1 then requestAnimationFrame s
    else if autoAdvance props then startAutoAdvance props s else s in
  heap s'
  = alter (setOpacity (Fin 0.9 * easeInOutCubic progress)) r
      (alter (setUserData (implodeSet elapsed duration ud)) r (heap s))
  /\ scene s' = scene s
  /\ currentParticles s' = currentParticles s
  /\ nextParticles s' = nextParticles s
  /\ currentImageIndex s' = currentImageIndex s
  /\ isTransitioning s' = isTransitioning s
  /\ targetCameraZ s' = targetCameraZ s
  /\ camera s' = camera s
  /\ frames s' = frames scheduled /\ timers s' = timers scheduled
  /\ autoAdvanceTimer s' = autoAdvanceTimer scheduled
  /\ animationFrameId s' = animationFrameId scheduled
  /\ nextHandle s' = nextHandle scheduled.
Proof.
  intros Hr Hm Hud elapsed progress s' scheduled.
  unfold s', scheduled, animateInitial. fold elapsed progress.
  rewrite Hr, (userDataAt_Some s r m ud Hm Hud).
  destruct (progress <? Fin 1); [|destruct (autoAdvance props)];
    repeat split; first [reflexivity|exact Hr].
Qed.

(** The state after a first load that succeeds. *)
Lemma loadInitialImage_resolved props now now' s url m draws :
  images props !! currentImageIndex s = Some url -> url <> ""%string ->
  imageToParticles (particleDensity props) url (randomDraws s)
  = (inr m, draws) ->
  let r := length (heap s) in
  let s' := loadInitialImage props now now' s in
  let elapsed := now' - now in
  let progress := JS.min (elapsed / transitionDuration props) (Fin 1) in
  currentParticles s' = Some r
  /\ nextParticles s' = nextParticles s
  /\ currentImageIndex s' = currentImageIndex s
  /\ isTransitioning s' = isTransitioning s
  /\ scene s' = scene_remove r (scene s) ++ [r]
  /\ length (heap s') = S r
  /\ (forall r', (r' < r)%nat -> heap s' !! r' = heap s !! r')
  /\ (exists ud0 ud' m',
        userData m = Some ud0 /\ heap s' !! r = Some m'
        /\ userData m' = Some ud'
        /\ material_opacity m' = Fin 0.9 * easeInOutCubic progress
        /\ geometry_disposed m' = 0%nat /\ material_disposed m' = 0%nat
        /\ originalPositions ud' = originalPositions ud0
        /\ colors ud' = colors ud0 /\ delays ud' = delays ud0
        /\ count ud' = count ud0
        /\ forall i k, (i < count ud0)%nat -> (k < 3)%nat ->
             get (positions ud') (i * 3 + k)
             = implodeCoordinate
                 (coord k (farPosition (get (originalPositions ud0) (i * 3))
                             (get (originalPositions ud0) (i * 3 + 1))
                             (Math_random (draws + i))))
                 (get (originalPositions ud0) (i * 3 + k))
                 (easeInOutCubic
                    (particleProgress elapsed (transitionDuration props)
                       (get (delays ud0) i))))
  /\ (forall cam, camera s = Some cam -> isTransitioning s = false ->
        targetCameraZ s'
        = framedCameraZ cam (innerWidth s) (innerHeight s) m)
  /\ (camera s = None \/ isTransitioning s = true ->
      targetCameraZ s' = targetCameraZ s)
  /\ ((progress <? Fin 1) = true ->
      frames s' = frames s ++ [nextHandle s] /\ timers s' = timers s)
  /\ ((progress <? Fin 1) = false ->
      frames s' = frames s
      /\ (autoAdvance props = false -> timers s' = timers s)
      /\ (autoAdvance props = true ->
          autoAdvanceTimer s' = Some (nextHandle s)
          /\ (nextHandle s, autoAdvanceInterval props) ∈ timers s')).
Proof.
  intros Hurl Hne Hsample r s' elapsed progress.
  destruct (imageToParticles_fresh _ _ _ _ _ Hsample) as (ud0 & -> & Hpos).
  assert (Hlen : (length (images props) =? 0)%nat = false).
  { apply Nat.eqb_neq. intros E. apply length_zero_iff_nil in E.
    rewrite E in Hurl. discriminate. }
  assert (Hstr : String.eqb url "" = false) by (now apply String.eqb_neq).
  unfold s', loadInitialImage.
  rewrite Hlen, Hurl, Hstr, Hsample. cbn [userData]. fold r.
  destruct (seedInitial_layout ud0 draws) as (S1 & _ & S3 & S4 & S5).
  pose proof (seedInitial_get ud0 draws) as Sget.
  destruct (seedInitial ud0 draws) as [ud1 draws1].
  cbn [fst] in S1, S3, S4, S5, Sget.
  set (m1 := setUserData ud1 (mkMesh (Some ud0) (Fin 0.9) 0 0)).
  set (s3 := set_scene _ _).
  assert (Hh3 : heap s3 = heap s ++ [m1]).
  { unfold s3, update. cbn [heap set_heap set_scene set_randomDraws
                             set_currentParticles].
    unfold r. rewrite alter_app_r_alt by lia.
    now rewrite Nat.sub_diag. }
  assert (Hc3 : currentParticles s3 = Some r) by reflexivity.
  pose proof (updateCameraForParticles_same s3) as Hsame. cbv zeta in Hsame.
  destruct Hsame as (c1 & c2 & c3 & c4 & c5 & c6 & c7 & c8 & c9 & c10).
  set (s4 := updateCameraForParticles s3) in *.
  assert (Hm3 : heap s3 !! r = Some m1).
  { rewrite Hh3. unfold r. rewrite lookup_app_r by lia.
    now rewrite Nat.sub_diag. }
  assert (Hm4 : heap s4 !! r = Some m1) by (now rewrite c1).
  assert (Hnh : nextHandle s4 = nextHandle s).
  { unfold s4, updateCameraForParticles.
    destruct (camera s3), (currentParticles s3); try reflexivity.
    destruct (isTransitioning s3); [reflexivity|].
    destruct (heap s3 !! n); reflexivity. }
  pose proof (animateInitial_fields props now (transitionDuration props) now'
                s4 r m1 ud1 ltac:(congruence) Hm4 eq_refl) as A.
  cbv zeta in A. fold elapsed progress in A.
  destruct A as (a1 & a2 & a3 & a4 & a5 & a6 & a7 & a8 & a9 & a10 & a11
                 & a12 & a13).
  set (s5 := animateInitial props now (transitionDuration props) now' s4) in *.
  split; [congruence|]. split; [rewrite a4, c4; reflexivity|].
  split; [rewrite a5, c5; reflexivity|].
  split; [rewrite a6, c6; reflexivity|].
  split; [rewrite a2, c2; reflexivity|].
  split.
  { rewrite a1, !length_alter, c1, Hh3, length_app. cbn [length]. unfold r. lia. }
  split.
  { intros r' Hr'. rewrite a1, !list_lookup_alter_ne by lia.
    rewrite c1, Hh3. now rewrite lookup_app_l by (fold r; lia). }
  split.
  { exists ud0, (implodeSet elapsed (transitionDuration props) ud1),
      (setOpacity (Fin 0.9 * easeInOutCubic progress)
         (setUserData (implodeSet elapsed (transitionDuration props) ud1) m1)).
    split; [reflexivity|]. split.
    { rewrite a1, !list_lookup_alter_eq, Hm4. reflexivity. }
    do 4 (split; [reflexivity|]).
    split; [exact S1|]. split; [exact S3|]. split; [exact S4|].
    split; [exact S5|].
    intros i k Hi Hk. rewrite implodeSet_get by (rewrite ?S5; assumption).
    rewrite S1, S4, Sget by assumption. reflexivity. }
  split.
  { intros cam Hcam Htr. rewrite a7. unfold s4.
    rewrite (updateCameraForParticles_runs s3 cam r m1)
      by first [exact Hm3|assumption|reflexivity].
    cbn [innerWidth innerHeight s3 set_scene update set_heap set_randomDraws
         set_currentParticles].
    apply (framedCameraZ_layout _ _ _ _ _ ud0 ud1); auto. }
  split.
  { intros Hno. rewrite a7. unfold s4, updateCameraForParticles.
    destruct Hno as [Hno|Hno].
    - change (camera s3) with (camera s). now rewrite Hno.
    - change (camera s3) with (camera s).
      change (isTransitioning s3) with (isTransitioning s). rewrite Hno.
      destruct (camera s); reflexivity. }
  split.
  { intros Hp. rewrite Hp in a9, a10. rewrite a9, a10.
    cbn [frames timers requestAnimationFrame set_animationFrameId set_frames
         set_nextHandle].
    rewrite c7, c8, Hnh. split; reflexivity. }
  intros Hp. rewrite Hp in a9, a10, a11.
  split.
  { rewrite a9. destruct (autoAdvance props); [|exact c7].
    cbn [frames startAutoAdvance set_autoAdvanceTimer set_timers
         set_nextHandle]. exact c7. }
  split.
  { intros Hauto. rewrite Hauto in a10. rewrite a10. exact c8. }
  intros Hauto. rewrite Hauto in a10, a11. rewrite a10, a11.
  unfold startAutoAdvance.
  cbn [timers autoAdvanceTimer set_autoAdvanceTimer set_timers set_nextHandle].
  rewrite Hnh. split; [reflexivity|].
  apply elem_of_app. right. left.
Qed.

(** X10.  The first load installs the set.  When the sampler resolves,
    [loadInitialImage] makes the new set, a fresh object, the current one
    and adds it to the scene; the objects there were are left as they are
    (a set that was current before is neither removed from the scene nor
    disposed of).  The particles are seeded far away from their resting
    positions and have made the first step back when the function returns;
    the opacity is [0.9 * easeInOutCubic(progress)].  The camera target is
    the value of the framer for the resting positions, unless a transition
    is in flight or there is no camera.  The first frame asks for a next
    frame while the progress is below 1; otherwise it starts the
    auto-advance timer when the viewer has [autoAdvance]. *)
Theorem loadInitialImage_installs props now now' s url m draws :
  images props !! currentImageIndex s = Some url -> url <> ""%string ->
  imageToParticles (particleDensity props) url (randomDraws s)
  = (inr m, draws) ->
  let r := length (heap s) in
  let s' := loadInitialImage props now now' s in
  let elapsed := now' - now in
  let progress := JS.min (elapsed / transitionDuration props) (Fin 1) in
  currentParticles s' = Some r
  /\ nextParticles s' = nextParticles s
  /\ currentImageIndex s' = currentImageIndex s
  /\ isTransitioning s' = isTransitioning s
  /\ scene s' = scene_remove r (scene s) ++ [r]
  /\ length (heap s') = S r
  /\ (forall r', (r' < r)%nat -> heap s' !! r' = heap s !! r')
  /\ (exists ud0 ud' m',
        userData m = Some ud0 /\ heap s' !! r = Some m'
        /\ userData m' = Some ud'
        /\ material_opacity m' = Fin 0.9 * easeInOutCubic progress
        /\ geometry_disposed m' = 0%nat /\ material_disposed m' = 0%nat
        /\ originalPositions ud' = originalPositions ud0
        /\ colors ud' = colors ud0 /\ delays ud' = delays ud0
        /\ count ud' = count ud0
        /\ forall i k, (i < count ud0)%nat -> (k < 3)%nat ->
             get (positions ud') (i * 3 + k)
             = implodeCoordinate
                 (coord k (farPosition (get (originalPositions ud0) (i * 3))
                             (get (originalPositions ud0) (i * 3 + 1))
                             (Math_random (draws + i))))
                 (get (originalPositions ud0) (i * 3 + k))
                 (easeInOutCubic
                    (particleProgress elapsed (transitionDuration props)
                       (get (delays ud0) i))))
  /\ (forall cam, camera s = Some cam -> isTransitioning s = false ->
        targetCameraZ s'
        = framedCameraZ cam (innerWidth s) (innerHeight s) m)
  /\ (camera s = None \/ isTransitioning s = true ->
      targetCameraZ s' = targetCameraZ s)
  /\ ((progress <? Fin 1) = true ->
      frames s' = frames s ++ [nextHandle s] /\ timers s' = timers s)
  /\ ((progress <? Fin 1) = false ->
      frames s' = frames s
      /\ (autoAdvance props = false -> timers s' = timers s)
      /\ (autoAdvance props = true ->
          autoAdvanceTimer s' = Some (nextHandle s)
          /\ (nextHandle s, autoAdvanceInterval props) ∈ timers s')).
Proof. exact (loadInitialImage_resolved props now now' s url m draws). Qed.



(** X11.  A frame of the first animation.  It works on the set that is
    current when it runs: each coordinate makes one implode step towards
    its resting position and the opacity becomes
    [0.9 * easeInOutCubic(progress)]; nothing else of the state changes but
    the scheduling.  While the progress is below 1 it asks for one more
    frame; at 1 it asks for none and starts the auto-advance timer if the
    viewer has [autoAdvance].  Without a current set it only schedules;
    with a current set that carries no data it returns at once, and then
    neither a frame nor the timer follows.  On finite times and a positive
    duration the progress is 1 exactly from the duration on. *)
Theorem animateInitial_frame props startTime duration now s :
  let elapsed := now - startTime in
  let progress := JS.min (elapsed / duration) (Fin 1) in
  let s' := animateInitial props startTime duration now s in
  (forall r m ud,
     currentParticles s = Some r -> heap s !! r = Some m ->
     userData m = Some ud ->
     (exists m' ud',
        heap s' !! r = Some m' /\ userData m' = Some ud'
        /\ material_opacity m' = Fin 0.9 * easeInOutCubic progress
        /\ geometry_disposed m' = geometry_disposed m
        /\ material_disposed m' = material_disposed m
        /\ originalPositions ud' = originalPositions ud
        /\ delays ud' = delays ud /\ colors ud' = colors ud
        /\ count ud' = count ud
        /\ forall i k, (i < count ud)%nat -> (k < 3)%nat ->
             get (positions ud') (i * 3 + k)
             = implodeCoordinate (get (positions ud) (i * 3 + k))
                 (get (originalPositions ud) (i * 3 + k))
                 (easeInOutCubic
                    (particleProgress elapsed duration (get (delays ud) i))))
     /\ (forall r', r' <> r -> heap s' !! r' = heap s !! r'))
  /\ (forall r m,
        currentParticles s = Some r -> heap s !! r = Some m ->
        userData m = None -> s' = s)
  /\ (currentParticles s = None -> heap s' = heap s)
  /\ ((forall r, currentParticles s = Some r -> is_Some (userDataAt s r)) ->
      scene s' = scene s
      /\ currentParticles s' = currentParticles s
      /\ nextParticles s' = nextParticles s
      /\ currentImageIndex s' = currentImageIndex s
      /\ isTransitioning s' = isTransitioning s
      /\ targetCameraZ s' = targetCameraZ s
      /\ ((progress <? Fin 1) = true ->
          frames s' = frames s ++ [nextHandle s]
          /\ animationFrameId s' = Some (nextHandle s)
          /\ timers s' = timers s)
      /\ ((progress <? Fin 1) = false ->
          frames s' = frames s
          /\ (autoAdvance props = false -> timers s' = timers s)
          /\ (autoAdvance props = true ->
              autoAdvanceTimer s' = Some (nextHandle s)
              /\ (nextHandle s, autoAdvanceInterval props) ∈ timers s')))
  /\ (forall e d : Q,
        elapsed = Fin e -> duration = Fin d -> (0 < d)%Q ->
        ((progress <? Fin 1) = false <-> (d <= e)%Q)).
Proof.
  intros elapsed progress s'.
  split; [|split; [|split; [|split]]].
  - intros r m ud Hr Hm Hud.
    pose proof (animateInitial_fields props startTime duration now s r m ud
                  Hr Hm Hud) as A.
    cbv zeta in A. fold elapsed progress s' in A. destruct A as (a1 & _).
    split.
    + exists (setOpacity (Fin 0.9 * easeInOutCubic progress)
                (setUserData (implodeSet elapsed duration ud) m)),
             (implodeSet elapsed duration ud).
      split; [rewrite a1, !list_lookup_alter_eq, Hm; reflexivity|].
      do 8 (split; [reflexivity|]).
      intros i k Hi Hk. now apply implodeSet_get.
    + intros r' Hne. rewrite a1. now rewrite !list_lookup_alter_ne by auto.
  - intros r m Hr Hm Hud. unfold s', animateInitial, userDataAt.
    now rewrite Hr, Hm, Hud.
  - intros Hr. unfold s', animateInitial. fold elapsed progress. rewrite Hr.
    destruct (progress <? Fin 1); [|destruct (autoAdvance props)];
      reflexivity.
  - intros Hdata.
    assert (E : exists s1,
              heap s1 = heap s1 /\ scene s1 = scene s
              /\ currentParticles s1 = currentParticles s
              /\ nextParticles s1 = nextParticles s
              /\ currentImageIndex s1 = currentImageIndex s
              /\ isTransitioning s1 = isTransitioning s
              /\ targetCameraZ s1 = targetCameraZ s
              /\ frames s1 = frames s /\ timers s1 = timers s
              /\ nextHandle s1 = nextHandle s
              /\ autoAdvanceTimer s1 = autoAdvanceTimer s
              /\ s' = if progress <? Fin 1 then requestAnimationFrame s1
                      else if autoAdvance props
                           then startAutoAdvance props s1 else s1).
    { unfold s', animateInitial. fold elapsed progress.
      destruct (currentParticles s) as [r|] eqn:Hr.
      - destruct (Hdata r eq_refl) as [ud Hud]. rewrite Hud.
        exists (update r (setOpacity (Fin 0.9 * easeInOutCubic progress))
                  (update r (setUserData (implodeSet elapsed duration ud))
                     s)).
        repeat split; first [reflexivity|exact Hr].
      - exists s. repeat split; first [reflexivity|exact Hr]. }
    destruct E as (s1 & _ & e2 & e3 & e4 & e5 & e6 & e7 & e8 & e9 & e10
                   & e11 & ->).
    destruct (progress <? Fin 1).
    + repeat split; try discriminate; try assumption; cbn; congruence.
    + destruct (autoAdvance props).
      * repeat split; try discriminate; try assumption;
          try (cbn; congruence).
        unfold startAutoAdvance.
        cbn [timers set_autoAdvanceTimer set_timers set_nextHandle].
        rewrite e10. apply elem_of_app. right. left.
      * repeat split; try discriminate; try assumption; cbn; congruence.
  - intros e d Ee Ed Hd. unfold progress. rewrite Ee, Ed.
    rewrite div_fin, min_fin by lra. 
    assert (Hone : (1 <= e / d <-> d <= e)%Q).
    { split; intros H.
      - apply (Qmult_le_compat_r _ _ d) in H; [|lra].
        assert (E : (e / d * d == e)%Q) by (field; lra). lra.
      - apply Qle_shift_div_l; lra. }
    destruct (Qle_bool (e / d) 1) eqn:E1;
      [apply Qle_bool_iff in E1 | apply Qle_bool_false in E1];
      cbn [JS.lt]; rewrite Qlt_bool_false; rewrite <- Hone; split; lra.
Qed.

Lemma startAutoAdvance_sched props s1 s :
  sched s1 = sched s ->
  sched (startAutoAdvance props s1) = sched (startAutoAdvance props s).
Proof.
  unfold sched, startAutoAdvance. intros E. injection E as E1 E2 E3.
  cbn [timers autoAdvanceTimer nextHandle set_autoAdvanceTimer set_timers
       set_nextHandle].
  now rewrite E1, E2, E3.
Qed.

Lemma updateCameraForParticles_sched s :
  sched (updateCameraForParticles s) = sched s.
Proof.
  unfold updateCameraForParticles.
  destruct (camera s), (currentParticles s); try reflexivity.
  destruct (isTransitioning s); [reflexivity|].
  destruct (heap s !! n); reflexivity.
Qed.

Lemma explodeCurrent_sched e d ep s s1 :
  explodeCurrent e d ep s = Some s1 -> sched s1 = sched s.
Proof.
  unfold explodeCurrent. destruct (currentParticles s) as [r|].
  - destruct (userDataAt s r) as [ud|]; [|discriminate].
    destruct (explodeSet e d ud (randomDraws s)) as [ud' draws'].
    intros E. injection E as <-. reflexivity.
  - intros E. injection E as <-. reflexivity.
Qed.

Lemma implodeNext_sched e d ep s s1 :
  implodeNext e d ep s = Some s1 -> sched s1 = sched s.
Proof.
  unfold implodeNext. destruct (nextParticles s) as [r|].
  - destruct (userDataAt s r) as [ud|]; [|discriminate].
    intros E. injection E as <-. reflexivity.
  - intros E. injection E as <-. reflexivity.
Qed.

Lemma promoteNext_sched sess s : sched (promoteNext sess s) = sched s.
Proof. unfold promoteNext. destruct (currentParticles s); reflexivity. Qed.

Lemma animateTransition_sched props sess now s :
  schedStep s (animateTransition props sess now s).
Proof.
  unfold animateTransition.
  destruct (explodeCurrent _ _ _ s) as [s1|] eqn:E1; [|now left].
  pose proof (explodeCurrent_sched _ _ _ _ _ E1) as H1.
  destruct (implodeNext _ _ _ s1) as [s2|] eqn:E2; [|now left].
  pose proof (implodeNext_sched _ _ _ _ _ E2) as H2.
  assert (H : sched s2 = sched s) by congruence.
  destruct (_ <? Fin 1).
  - right. left. unfold sched in *. injection H as A B C.
    cbn [timers autoAdvanceTimer nextHandle requestAnimationFrame
         set_animationFrameId set_frames set_nextHandle].
    now rewrite A, B, C.
  - unfold completeTransition.
    assert (H3 : sched (updateCameraForParticles (promoteNext sess s2))
                 = sched s)
      by (now rewrite updateCameraForParticles_sched, promoteNext_sched).
    destruct (autoAdvance props).
    + right. right. exists props. now apply startAutoAdvance_sched.
    + left. exact H3.
Qed.

Lemma animateInitial_sched props startTime duration now s :
  schedStep s (animateInitial props startTime duration now s).
Proof.
  unfold animateInitial. cbv zeta beta.
  assert (Hfin : forall (b : bool) s1,
            sched s1 = sched s ->
            schedStep s (if b then requestAnimationFrame s1
                         else if autoAdvance props
                              then startAutoAdvance props s1 else s1)).
  { intros b s1 H. destruct b; [|destruct (autoAdvance props)].
    - right. left. unfold sched in *. injection H as A B C.
      cbn [timers autoAdvanceTimer nextHandle requestAnimationFrame
           set_animationFrameId set_frames set_nextHandle].
      now rewrite A, B, C.
    - right. right. exists props. now apply startAutoAdvance_sched.
    - now left. }
  destruct (currentParticles s) as [r|]; [|now apply Hfin].
  destruct (userDataAt s r) as [ud|]; [|now left].
  now apply Hfin.
Qed.

Lemma loadInitialImage_sched props now now' s :
  schedStep s (loadInitialImage props now now' s).
Proof.
  unfold loadInitialImage.
  destruct (length (images props) =? 0)%nat; [now left|].
  destruct (images props !! currentImageIndex s) as [url|]; [|now left].
  destruct (String.eqb url ""); [now left|].
  destruct (imageToParticles _ _ _) as [[err|mesh] draws]; [now left|].
  set (s4 := updateCameraForParticles _).
  assert (H4 : sched s4 = sched s).
  { unfold s4. rewrite updateCameraForParticles_sched.
    destruct (userData mesh) as [ud|]; [|reflexivity].
    destruct (seedInitial ud draws) as [ud' draws']. reflexivity. }
  destruct (animateInitial_sched props now (transitionDuration props) now' s4)
    as [H|[H|[p H]]].
  - left. congruence.
  - right. left. rewrite H. unfold sched in *. injection H4 as A B C.
    cbn [timers autoAdvanceTimer nextHandle requestAnimationFrame
         set_animationFrameId set_frames set_nextHandle].
    now rewrite A, B, C.
  - right. right. exists p. rewrite H. now apply startAutoAdvance_sched.
Qed.

Lemma transitionToNext_begin_sched props s :
  sched (transitionToNext_begin props s).1 = sched s.
Proof.
  unfold transitionToNext_begin.
  destruct (isTransitioning s || (length (images props) =? 0)%nat);
    [reflexivity|].
  destruct (images props !! _) as [u|]; [destruct (String.eqb u "")|];
    reflexivity.
Qed.

Lemma transitionToNext_resume_sched props nextIndex url now now' s :
  schedStep s (transitionToNext_resume props nextIndex url now now' s).1.
Proof.
  unfold transitionToNext_resume.
  destruct (imageToParticles _ _ _) as [[err|mesh] draws]; [now left|].
  destruct (userData mesh) as [ud0|]; [|now left].
  destruct (seedNext ud0 draws) as [ud draws']. cbn [fst].
  set (s3 := set_scene _ _).
  assert (H3 : sched s3 = sched s) by reflexivity.
  destruct (animateTransition_sched props
              {| nextIndex := nextIndex; startTime := now;
                 duration := transitionDuration props |} now' s3)
    as [H|[H|[p H]]].
  - left. congruence.
  - right. left. rewrite H. reflexivity.
  - right. right. exists p. rewrite H. now apply startAutoAdvance_sched.
Qed.

(** The schedule stays tidy. *)
Lemma timersTidy_sched s s' :
  sched s' = sched s -> timersTidy s -> timersTidy s'.
Proof.
  unfold sched. intros E [T1 T2]. injection E as E1 E2 E3.
  constructor; rewrite ?E1, ?E2, ?E3; assumption.
Qed.

Lemma timersTidy_startAutoAdvance props s :
  timersTidy s -> timersTidy (startAutoAdvance props s).
Proof.
  intros [T1 T2]. unfold startAutoAdvance. constructor.
  - cbn [nextHandle set_autoAdvanceTimer set_timers set_nextHandle]. lia.
  - right. exists (nextHandle s), (autoAdvanceInterval props).
    cbn [timers autoAdvanceTimer nextHandle set_autoAdvanceTimer set_timers
         set_nextHandle].
    split; [|split; [reflexivity|lia]].
    destruct T2 as [E|(h & d & E & Ea & Hh)].
    + rewrite E. now destruct (autoAdvanceTimer s) as [t|];
        [destruct (t =? 0)%nat|].
    + rewrite E, Ea. destruct (Nat.eqb_spec h 0) as [E0|_]; [lia|].
      rewrite filter_cons_False by (cbn [fst]; intros N; now apply N).
      reflexivity.
Qed.

Lemma timersTidy_step s s' :
  schedStep s s' -> timersTidy s -> timersTidy s'.
Proof.
  intros [H|[H|[p H]]] T.
  - exact (timersTidy_sched s s' H T).
  - apply (timersTidy_sched (requestAnimationFrame s) s' H).
    destruct T as [T1 T2]. constructor.
    + cbn [nextHandle requestAnimationFrame set_animationFrameId set_frames
           set_nextHandle]. lia.
    + cbn [timers autoAdvanceTimer nextHandle requestAnimationFrame
           set_animationFrameId set_frames set_nextHandle].
      destruct T2 as [E|(h & d & E & Ea & Hh)]; [now left|].
      right. exists h, d. repeat split; try assumption; lia.
  - apply (timersTidy_sched (startAutoAdvance p s) s' H).
    now apply timersTidy_startAutoAdvance.
Qed.

Lemma wellFormed_onImagesChanged props now now' s :
  wellFormed s -> wellFormed (onImagesChanged props now now' s).
Proof.
  intros Hwf. unfold onImagesChanged.
  destruct ((0 <? length (images props))%nat && negb (isTransitioning s));
    [|exact Hwf].
  apply wellFormed_loadInitialImage. cbv zeta.
  cbn [currentParticles set_currentImageIndex].
  destruct (currentParticles s) as [r|] eqn:Hr.
  - constructor.
    + intros r' E. discriminate.
    + intros b Hb. cbn [nextParticles set_currentParticles update set_heap
                         set_scene set_currentImageIndex] in Hb.
      pose proof (wf_distinct s Hwf r b Hr Hb) as Hne.
      destruct (wf_next s Hwf b Hb) as (m & ud & Hm & Hrest).
      exists m, ud. split; [|exact Hrest].
      cbn [heap set_currentParticles update set_heap set_scene
           set_currentImageIndex].
      now rewrite list_lookup_alter_ne.
    + intros a b E. discriminate.
  - eapply wellFormed_same_objects; [| | |exact Hwf]; reflexivity.
Qed.

Lemma onImagesChanged_sched props now now' s :
  schedStep s (onImagesChanged props now now' s).
Proof.
  unfold onImagesChanged.
  destruct ((0 <? length (images props))%nat && negb (isTransitioning s));
    [|now left].
  cbv zeta. set (s2 := match _ with Some _ => _ | None => _ end).
  assert (H2 : sched s2 = sched s).
  { unfold s2. cbn [currentParticles set_currentImageIndex].
    destruct (currentParticles s); reflexivity. }
  destruct (loadInitialImage_sched props now now' s2) as [H|[H|[p H]]].
  - left. congruence.
  - right. left. rewrite H. unfold sched in *. injection H2 as A B C.
    cbn [timers autoAdvanceTimer nextHandle requestAnimationFrame
         set_animationFrameId set_frames set_nextHandle].
    now rewrite A, B, C.
  - right. right. exists p. rewrite H. now apply startAutoAdvance_sched.
Qed.

Lemma timersTidy_fires props t s :
  timersTidy s -> timersTidy (autoAdvanceFires props t s).1.
Proof.
  intros [T1 T2]. unfold autoAdvanceFires.
  apply (timersTidy_sched
           (set_timers (filter (fun e => fst e <> t) (timers s)) s));
    [apply transitionToNext_begin_sched|].
  constructor; [exact T1|].
  cbn [timers autoAdvanceTimer nextHandle set_timers].
  destruct T2 as [E|(h & d & E & Ea & Hh)]; [left; now rewrite E|].
  rewrite E. destruct (decide (h = t)) as [->|Hne].
  - left. rewrite filter_cons_False by (cbn [fst]; intros N; now apply N).
    reflexivity.
  - right. exists h, d. rewrite filter_cons_True by exact Hne.
    repeat split; try assumption; lia.
Qed.


(** X16.  The invariants of a mounted viewer.  In every state it reaches,
    the current set and the incoming set are objects that carry their data
    and were not disposed of, and they are two different objects; at most
    one timer is pending, and it is the one whose handle the component
    keeps in [autoAdvanceTimer]: the auto-advance never runs twice at a
    time. *)
Theorem viewer_invariants s :
  Runs s ->
  wellFormed s
  /\ (length (timers s) <= 1)%nat
  /\ (forall h d, (h, d) ∈ timers s ->
        autoAdvanceTimer s = Some h /\ (0 < h < nextHandle s)%nat).
Proof.
  intros H.
  assert (Inv : wellFormed s /\ timersTidy s).
  { induction H as [s Hc Hn Ht Hh
                   |props s now now' _ [W T]
                   |props s now now' _ [W T]
                   |props s _ [W T]
                   |props s nextIndex url now now' _ [W T]
                   |props s sess now nxt _ [W T] Hnxt
                   |props s startTime duration now _ [W T]
                   |props s t d _ [W T] Hin
                   |s width height _ [W T]
                   |s _ [W T]
                   |s z _ [W T]].
    - split; [now apply wellFormed_idle|].
      constructor; [exact Hh|now left].
    - split; [now apply wellFormed_loadInitialImage|].
      exact (timersTidy_step _ _ (loadInitialImage_sched props now now' s) T).
    - split; [now apply wellFormed_onImagesChanged|].
      exact (timersTidy_step _ _ (onImagesChanged_sched props now now' s) T).
    - split; [now apply wellFormed_begin|].
      exact (timersTidy_sched _ _ (transitionToNext_begin_sched props s) T).
    - split; [now apply wellFormed_resume|].
      exact (timersTidy_step _ _
               (transitionToNext_resume_sched props nextIndex url now now' s)
               T).
    - split; [now apply (wellFormed_animateTransition props sess now s nxt)|].
      exact (timersTidy_step _ _ (animateTransition_sched props sess now s) T).
    - split; [now apply wellFormed_animateInitial|].
      exact (timersTidy_step _ _
               (animateInitial_sched props startTime duration now s) T).
    - split; [|now apply timersTidy_fires].
      unfold autoAdvanceFires. apply wellFormed_begin.
      eapply wellFormed_same_objects; [| | |exact W]; reflexivity.
    - split.
      + eapply wellFormed_same_objects; [| | |exact W]; reflexivity.
      + apply (timersTidy_sched s); [reflexivity|exact T].
    - split.
      + eapply wellFormed_same_objects; [| | |exact W];
          apply (updateCameraForParticles_same s).
      + exact (timersTidy_sched _ _ (updateCameraForParticles_sched s) T).
    - split.
      + eapply wellFormed_same_objects; [| | |exact W]; reflexivity.
      + apply (timersTidy_sched s); [reflexivity|exact T]. }
  destruct Inv as [W [T1 T2]]. split; [exact W|].
  destruct T2 as [E|(h & d & E & Ea & Hh)]; rewrite E.
  - split; [cbn; lia|]. intros h d Hin. inversion Hin.
  - split; [cbn; lia|]. intros h' d' Hin.
    apply list_elem_of_singleton in Hin. injection Hin as -> ->. auto.
Qed.

(** X14.  [startAutoAdvance] restarts the timer.  The handles of the
    browser being positive and given out in increasing order, the call
    leaves one timer of its own pending, of the interval of the viewer, and
    keeps its handle; the timer whose handle it kept before is cancelled,
    and the other pending timers are left alone.  Nothing else of the state
    changes. *)
Theorem startAutoAdvance_restarts props s :
  (forall h d, (h, d) ∈ timers s -> (0 < h < nextHandle s)%nat) ->
  (forall old, autoAdvanceTimer s = Some old ->
     (0 < old < nextHandle s)%nat) ->
  let s' := startAutoAdvance props s in
  let t := nextHandle s in
  autoAdvanceTimer s' = Some t
  /\ (forall d, (t, d) ∈ timers s' <-> d = autoAdvanceInterval props)
  /\ (forall old d, autoAdvanceTimer s = Some old -> (old, d) ∉ timers s')
  /\ (forall h d,
        h <> t -> autoAdvanceTimer s <> Some h ->
        ((h, d) ∈ timers s' <-> (h, d) ∈ timers s))
  /\ nextHandle s' = S t
  /\ heap s' = heap s /\ scene s' = scene s
  /\ currentParticles s' = currentParticles s
  /\ nextParticles s' = nextParticles s
  /\ currentImageIndex s' = currentImageIndex s
  /\ isTransitioning s' = isTransitioning s
  /\ frames s' = frames s /\ targetCameraZ s' = targetCameraZ s.
Proof.
  intros Hfresh Hkept s' t. unfold s', startAutoAdvance. fold t.
  cbn [timers autoAdvanceTimer nextHandle heap scene currentParticles
       nextParticles currentImageIndex isTransitioning frames targetCameraZ
       set_autoAdvanceTimer set_timers set_nextHandle].
  set (pending := match autoAdvanceTimer s with
                  | Some t0 => if (t0 =? 0)%nat then timers s
                               else filter (fun e => fst e <> t0) (timers s)
                  | None => timers s
                  end).
  assert (Hsub : forall h d, (h, d) ∈ pending -> (h, d) ∈ timers s).
  { intros h d. unfold pending. destruct (autoAdvanceTimer s) as [t0|];
      [destruct (t0 =? 0)%nat|]; try tauto.
    intros H. apply list_elem_of_filter in H. tauto. }
  assert (Hnot : forall d, (t, d) ∉ pending).
  { intros d H. apply Hsub, Hfresh in H. unfold t in H. lia. }
  split; [reflexivity|]. split; [|split; [|split]].
  - intros d. rewrite elem_of_app. split.
    + intros [H|H]; [now apply Hnot in H|].
      apply list_elem_of_singleton in H. now injection H.
    + intros ->. right. left.
  - intros old d Hold H. apply elem_of_app in H. destruct H as [H|H].
    + pose proof (Hkept old Hold) as Hrange.
      unfold pending in H. rewrite Hold in H.
      destruct (Nat.eqb_spec old 0) as [E|_]; [lia|].
      apply list_elem_of_filter in H. destruct H as [H _]. now apply H.
    + apply list_elem_of_singleton in H. injection H as E _.
      pose proof (Hkept old Hold) as Hrange. unfold t in E. lia.
  - intros h d Hne Hkeep. rewrite elem_of_app. split.
    + intros [H|H]; [now apply Hsub|].
      apply list_elem_of_singleton in H. injection H as E _. contradiction.
    + intros H. left. unfold pending.
      destruct (autoAdvanceTimer s) as [t0|]; [|exact H].
      destruct (t0 =? 0)%nat; [exact H|].
      apply list_elem_of_filter. split; [|exact H].
      cbn [fst]. intros E. apply Hkeep. now rewrite E.
  - repeat split; reflexivity.
Qed.

(** X12.  The image a transition goes to.  Without a transition in flight
    and with a list of [n] images, [transitionToNext] goes to the index
    [(current + 1) mod n]: the next one, and the first one after the last;
    this is an index of the list whatever the current index is.  With a
    non-empty URL there the call sets the busy flag, changes nothing else
    and awaits the sampler, and a second call in the meantime does nothing.
    With an empty URL there it returns with the state as it was: nothing
    is loaded and no timer is started. *)
Theorem transitionToNext_next_image props s :
  isTransitioning s = false -> images props <> [] ->
  let n := length (images props) in
  let k := ((currentImageIndex s + 1) mod n)%nat in
  (k < n)%nat
  /\ (currentImageIndex s + 1 < n -> k = currentImageIndex s + 1)%nat
  /\ (currentImageIndex s + 1 = n -> k = 0)%nat
  /\ exists url,
       images props !! k = Some url
       /\ (url <> ""%string ->
           transitionToNext_begin props s
           = (set_isTransitioning true s, Some (k, url))
           /\ transitionToNext_begin props (set_isTransitioning true s)
              = (set_isTransitioning true s, None))
       /\ (url = ""%string -> transitionToNext_begin props s = (s, None)).
Proof.
  intros Htr Hne n k.
  assert (Hn : (0 < n)%nat)
    by (unfold n; destruct (images props); [contradiction|cbn; lia]).
  assert (Hk : (k < n)%nat) by (apply Nat.mod_upper_bound; lia).
  split; [exact Hk|]. split; [|split].
  - intros H. now apply Nat.mod_small.
  - intros H. unfold k. rewrite H. now apply Nat.Div0.mod_same.
  - destruct (lookup_lt_is_Some_2 (images props) k Hk) as [url Hurl].
    exists url. split; [exact Hurl|].
    assert (Hlen : (length (images props) =? 0)%nat = false)
      by (apply Nat.eqb_neq; fold n; lia).
    unfold transitionToNext_begin. rewrite Htr, Hlen. cbn [orb].
    fold n k. rewrite Hurl. split.
    + intros Hs. apply String.eqb_neq in Hs. rewrite Hs.
      split; reflexivity.
    + intros ->. cbn [String.eqb]. f_equal.
      destruct s; cbn in Htr |- *; now subst.
Qed.

(** X13.  A transition starts.  When the sampler resolves,
    [transitionToNext] installs the new set, a fresh object, as the
    incoming one, seeds it, adds it to the scene and runs the first frame
    of a session that starts at the clock of the call and lasts
    [transitionDuration].  While the progress of that frame is below 1 the
    transition is then in flight: the current set is the one it was and is
    still in the scene if it was, the index and the busy flag are
    untouched, and one frame is requested.  A transition whose first frame
    already has the progress 1 completes within the call. *)
Theorem transitionToNext_starts props nextIndex url now now' s m draws :
  wellFormed s ->
  imageToParticles (particleDensity props) url (randomDraws s)
  = (inr m, draws) ->
  let r := length (heap s) in
  let out := transitionToNext_resume props nextIndex url now now' s in
  let progress := baseProgress (now' - now) (transitionDuration props) in
  out.2 = Some {| nextIndex := nextIndex; startTime := now;
                  duration := transitionDuration props |}
  /\ length (heap out.1) = S r
  /\ live out.1 r
  /\ ((progress <? Fin 1) = true ->
      nextParticles out.1 = Some r
      /\ currentParticles out.1 = currentParticles s
      /\ isTransitioning out.1 = isTransitioning s
      /\ currentImageIndex out.1 = currentImageIndex s
      /\ scene out.1 = scene_remove r (scene s) ++ [r]
      /\ frames out.1 = frames s ++ [nextHandle s]
      /\ timers out.1 = timers s)
  /\ ((progress <? Fin 1) = false ->
      currentParticles out.1 = Some r /\ nextParticles out.1 = None
      /\ currentImageIndex out.1 = nextIndex
      /\ isTransitioning out.1 = false
      /\ In r (scene out.1)
      /\ forall cur, currentParticles s = Some cur -> ~ In cur (scene out.1)).
Proof.
  intros Hwf Hsample r out progress.
  destruct (imageToParticles_fresh _ _ _ _ _ Hsample) as (ud0 & -> & _).
  unfold out, transitionToNext_resume. rewrite Hsample. cbn [userData].
  fold r. destruct (seedNext ud0 draws) as [ud draws'].
  set (sess := {| nextIndex := nextIndex; startTime := now;
                  duration := transitionDuration props |}).
  set (m1 := setUserData ud (mkMesh (Some ud0) (Fin 0.9) 0 0)).
  set (s3 := set_scene _ _). cbn [fst snd].
  assert (Hh3 : heap s3 = heap s ++ [m1]).
  { unfold s3, update. cbn [heap set_heap set_scene set_randomDraws
                             set_nextParticles].
    unfold r. rewrite alter_app_r_alt by lia.
    now rewrite Nat.sub_diag. }
  assert (Hm3 : heap s3 !! r = Some m1).
  { rewrite Hh3. unfold r. rewrite lookup_app_r by lia.
    now rewrite Nat.sub_diag. }
  assert (Hold : forall r', live s r' -> live s3 r' /\ r' <> r).
  { intros r' (m' & ud' & Hm' & Hrest).
    pose proof (lookup_lt_Some _ _ _ Hm') as Hlt. fold r in Hlt.
    split; [|lia]. exists m', ud'. split; [|exact Hrest].
    rewrite Hh3. now rewrite lookup_app_l by (fold r; lia). }
  assert (Hwf3 : wellFormed s3).
  { constructor.
    - intros r' Hr'. apply Hold. apply (wf_current s Hwf). exact Hr'.
    - intros r' Hr'. injection Hr' as <-. exists m1, ud.
      split; [exact Hm3|]. repeat split.
    - intros a b Ha Hb. injection Hb as <-.
      apply Hold. apply (wf_current s Hwf). exact Ha. }
  destruct (animateTransition_frame props sess now' s3 r m1 ud Hwf3
              eq_refl Hm3 eq_refl) as (h2 & n2 & Es & Hn & _ & Hlen).
  cbn [startTime duration sess] in Es. fold progress in Es.
  destruct (wellFormed_animateTransition props sess now' s3 r Hwf3 eq_refl)
    as [Hwf' _].
  assert (Hr3 : In r (scene s3)).
  { unfold s3. cbn [scene set_scene]. unfold scene_add.
    apply in_or_app. right. now left. }
  split; [reflexivity|]. split; [|split].
  - rewrite Es. destruct (progress <? Fin 1).
    + rewrite requestAnimationFrame_heap. cbn [heap set_heap].
      rewrite Hlen, Hh3, length_app. cbn [length]. fold r. lia.
    + destruct (completeTransition_fields props sess
                  (set_heap h2 (set_randomDraws n2 s3))) as (Eh & _).
      rewrite Eh, (proj1 (promoteNext_fields sess _)).
      cbn [heap currentParticles set_heap set_randomDraws].
      destruct (currentParticles s3); rewrite ?length_alter, Hlen, Hh3,
        length_app; cbn [length]; fold r; lia.
  - destruct (progress <? Fin 1) eqn:Hp.
    + apply (wf_next _ Hwf'). rewrite Es. reflexivity.
    + apply (wf_current _ Hwf'). rewrite Es.
      destruct (completeTransition_fields props sess
                  (set_heap h2 (set_randomDraws n2 s3)))
        as (_ & _ & Ec & _).
      rewrite Ec. reflexivity.
  - split.
    + intros Hp. rewrite Hp in Es. rewrite Es. repeat split.
    + intros Hp. rewrite Hp in Es. rewrite Es.
      destruct (completeTransition_fields props sess
                  (set_heap h2 (set_randomDraws n2 s3)))
        as (_ & Esc & Ec & En & Ei & Et & _).
      destruct (promoteNext_fields sess
                  (set_heap h2 (set_randomDraws n2 s3)))
        as (_ & Psc & _).
      split; [rewrite Ec; reflexivity|]. split; [exact En|].
      split; [exact Ei|]. split; [exact Et|].
      rewrite Esc, Psc. cbn [currentParticles scene set_heap set_randomDraws].
      change (currentParticles s3) with (currentParticles s).
      destruct (currentParticles s) as [cur|] eqn:Hcur.
      * destruct (Hold cur (wf_current s Hwf cur Hcur)) as [_ Hne].
        split.
        -- apply scene_remove_other; [congruence|exact Hr3].
        -- intros cur' E. injection E as <-. apply scene_remove_not_in.
      * split; [exact Hr3|]. intros cur E. discriminate.
Qed.

(** X15.  The watcher of the images.  While a transition is in flight, or
    when the new list is empty, it does nothing: the change is not taken up.
    Otherwise it goes back to the first image: the current set leaves the
    scene and is disposed of once, and the first image is loaded as on
    mount; when that succeeds a fresh set is the current one and is in the
    scene, when it fails the viewer is left without a current set. *)
Theorem onImagesChanged_restarts props now now' s :
  let s' := onImagesChanged props now now' s in
  (images props = [] \/ isTransitioning s = true -> s' = s)
  /\ (images props <> [] -> isTransitioning s = false ->
      currentImageIndex s' = 0%nat
      /\ nextParticles s' = nextParticles s
      /\ isTransitioning s' = false
      /\ (forall r m,
            currentParticles s = Some r -> heap s !! r = Some m ->
            ~ In r (scene s') /\ currentParticles s' <> Some r
            /\ heap s' !! r = Some (dispose m))
      /\ (forall url m draws,
            images props !! 0%nat = Some url -> url <> ""%string ->
            imageToParticles (particleDensity props) url (randomDraws s)
            = (inr m, draws) ->
            currentParticles s' = Some (length (heap s))
            /\ In (length (heap s)) (scene s'))
      /\ (forall url err,
            images props !! 0%nat = Some url ->
            (imageToParticles (particleDensity props) url (randomDraws s)).1
            = inl err ->
            currentParticles s' = None
            /\ frames s' = frames s /\ timers s' = timers s)).
Proof.
  intros s'. split.
  - intros [H|H]; unfold s', onImagesChanged.
    + now rewrite H.
    + rewrite H. now rewrite Bool.andb_false_r.
  - intros Hne Htr.
    assert (Hlen : (0 <? length (images props))%nat = true).
    { apply Nat.ltb_lt. destruct (images props); [contradiction|cbn; lia]. }
    unfold s', onImagesChanged. rewrite Hlen, Htr. cbn [negb andb].
    cbv zeta. cbn [currentParticles set_currentImageIndex].
    set (s2 := match currentParticles s with Some _ => _ | None => _ end).
    assert (F2 : currentImageIndex s2 = 0%nat
                 /\ nextParticles s2 = nextParticles s
                 /\ isTransitioning s2 = false
                 /\ currentParticles s2 = None
                 /\ length (heap s2) = length (heap s)
                 /\ randomDraws s2 = randomDraws s
                 /\ frames s2 = frames s /\ timers s2 = timers s).
    { unfold s2. destruct (currentParticles s) eqn:Hcp;
        cbn [currentImageIndex nextParticles isTransitioning currentParticles
             heap randomDraws frames timers set_currentParticles update
             set_heap set_scene set_currentImageIndex];
        rewrite ?length_alter; repeat split;
        first [reflexivity|exact Htr|exact Hcp]. }
    destruct F2 as (f1 & f2 & f3 & f4 & f5 & f6 & f7 & f8).
    assert (Hcase :
              (exists url m draws,
                 images props !! 0%nat = Some url /\ url <> ""%string
                 /\ imageToParticles (particleDensity props) url
                      (randomDraws s) = (inr m, draws))
              \/ loadInitialImage props now now' s2 = s2).
    { destruct (images props !! 0%nat) as [url|] eqn:Hurl.
      - destruct (String.eqb_spec url "") as [->|Hs].
        + right. apply loadInitialImage_gives_up_helper.
          right. right. left. now rewrite f1.
        + destruct (imageToParticles (particleDensity props) url
                      (randomDraws s)) as [[err|m] draws] eqn:Hi.
          * right. apply loadInitialImage_gives_up_helper.
            right. right. right. exists url, err.
            rewrite f1, f6, Hi. auto.
          * left. exists url, m, draws. auto.
      - right. apply loadInitialImage_gives_up_helper.
        right. left. now rewrite f1. }
    assert (Hold : forall r', (r' < length (heap s))%nat ->
              heap (loadInitialImage props now now' s2) !! r'
              = heap s2 !! r').
    { intros r' Hr'. destruct Hcase as [(url & m & draws & Hu & Hs & Hi)|E].
      - destruct (loadInitialImage_resolved props now now' s2 url m draws)
          as (_ & _ & _ & _ & _ & _ & Hkeep & _);
          [now rewrite f1|exact Hs|now rewrite f6|].
        apply Hkeep. now rewrite f5.
      - now rewrite E. }
    assert (Hfields :
              currentImageIndex (loadInitialImage props now now' s2) = 0%nat
              /\ nextParticles (loadInitialImage props now now' s2)
                 = nextParticles s
              /\ isTransitioning (loadInitialImage props now now' s2) = false).
    { destruct Hcase as [(url & m & draws & Hu & Hs & Hi)|E].
      - destruct (loadInitialImage_resolved props now now' s2 url m draws)
          as (_ & e2 & e3 & e4 & _);
          [now rewrite f1|exact Hs|now rewrite f6|].
        repeat split; congruence.
      - rewrite E. auto. }
    destruct Hfields as (g1 & g2 & g3).
    split; [exact g1|]. split; [exact g2|]. split; [exact g3|].
    split; [|split].
    + intros r m Hr Hm. pose proof (lookup_lt_Some _ _ _ Hm) as Hlt.
      assert (Hs2 : scene s2 = scene_remove r (scene s)
                    /\ heap s2 !! r = Some (dispose m)).
      { unfold s2. rewrite Hr.
        cbn [scene heap set_currentParticles update set_heap set_scene
             set_currentImageIndex].
        split; [reflexivity|]. now rewrite list_lookup_alter_eq, Hm. }
      destruct Hs2 as [Hsc Hh2].
      split; [|split].
      * destruct Hcase as [(url & m0 & draws & Hu & Hs & Hi)|E].
        -- destruct (loadInitialImage_resolved props now now' s2 url m0 draws)
             as (_ & _ & _ & _ & e5 & _);
             [now rewrite f1|exact Hs|now rewrite f6|].
           rewrite e5, Hsc, f5. intros Hin. apply in_app_or in Hin.
           destruct Hin as [Hin|[Hin|[]]]; [|lia].
           unfold scene_remove in Hin.
           apply list_elem_of_In, list_elem_of_filter in Hin.
           destruct Hin as [_ Hin].
           apply list_elem_of_filter in Hin. now destruct Hin as [Hin _].
        -- rewrite E, Hsc. apply scene_remove_not_in.
      * destruct Hcase as [(url & m0 & draws & Hu & Hs & Hi)|E].
        -- destruct (loadInitialImage_resolved props now now' s2 url m0 draws)
             as (e1 & _); [now rewrite f1|exact Hs|now rewrite f6|].
           rewrite e1, f5. intros N. injection N as N. lia.
        -- rewrite E, f4. discriminate.
      * rewrite Hold by exact Hlt. exact Hh2.
    + intros url m draws Hu Hs Hi.
      destruct (loadInitialImage_resolved props now now' s2 url m draws)
        as (e1 & _ & _ & _ & e5 & _);
        [now rewrite f1|exact Hs|now rewrite f6|].
      rewrite e1, e5, f5. split; [reflexivity|].
      apply in_or_app. right. now left.
    + intros url err Hu Hrej.
      assert (E : loadInitialImage props now now' s2 = s2).
      { apply loadInitialImage_gives_up_helper. right. right. right.
        exists url, err. now rewrite f1, f6. }
      rewrite E. auto.
Qed.

(** The distance of the two framers of the work gallery, for a rectangle
    of positive sides: the rectangle, widened by a tenth, lies within the
    view at that distance and has its width or its height. *)
Lemma fitDistance_fin cam (w h f pi sx sy : Q) :
  fov cam = Fin f -> Math_PI = Fin pi ->
  (0 < w)%Q -> (0 < h)%Q -> (0 < f)%Q -> (0 < pi)%Q ->
  (0 < sx)%Q -> (0 < sy)%Q ->
  let t := (f * (pi / 180) / 2)%Q in
  exists d,
    fitDistance cam (Fin w) (Fin h) (Fin sx) (Fin sy) = Fin d
    /\ (d == Qmax (sx / 2 / (t * (w / h))) (sy / 2 / t) * 1.1)%Q
    /\ (0 < d)%Q
    /\ (1.1 * sx <= 2 * d * t * (w / h))%Q /\ (1.1 * sy <= 2 * d * t)%Q
    /\ ((1.1 * sx == 2 * d * t * (w / h))%Q \/ (1.1 * sy == 2 * d * t)%Q).
Proof.
  intros Hf Hpi Hw Hh Hf0 Hpi0 Hsx Hsy t.
  assert (Ht : (0 < t)%Q).
  { unfold t. apply Qlt_shift_div_l; [reflexivity|]. rewrite Qmult_0_l.
    apply Qmult_lt_0_compat; [exact Hf0|].
    apply Qlt_shift_div_l; [reflexivity|]. lra. }
  assert (Ha : (0 < w / h)%Q) by (apply Qlt_shift_div_l; lra).
  assert (Hta : (0 < t * (w / h))%Q) by (now apply Qmult_lt_0_compat).
  unfold fitDistance. rewrite Hf, Hpi.
  rewrite (div_fin w h) by lra.
  rewrite (div_fin pi 180) by (intros E; discriminate).
  cbn [JS.mul]. rewrite (div_fin (f * (pi / 180)) 2) by (intros E; discriminate).
  fold t. cbn [JS.mul].
  rewrite (div_fin sx 2), (div_fin sy 2) by (intros E; discriminate).
  rewrite (div_fin (sx / 2) (t * (w / h))) by lra.
  rewrite (div_fin (sy / 2) t) by lra.
  rewrite max_fin.
  set (dw := (sx / 2 / (t * (w / h)))%Q).
  set (dh := (sy / 2 / t)%Q).
  assert (Edw : (2 * dw * t * (w / h) == sx)%Q) by (unfold dw; field; lra).
  assert (Edh : (2 * dh * t == sy)%Q) by (unfold dh; field; lra).
  assert (Pdw : (0 < dw)%Q).
  { unfold dw. apply Qlt_shift_div_l; [exact Hta|].
    rewrite Qmult_0_l. apply Qlt_shift_div_l; [reflexivity|]. lra. }
  assert (Pdh : (0 < dh)%Q).
  { unfold dh. apply Qlt_shift_div_l; [exact Ht|].
    rewrite Qmult_0_l. apply Qlt_shift_div_l; [reflexivity|]. lra. }
  destruct (Qle_bool dw dh) eqn:E.
  - apply Qle_bool_iff in E. cbn [JS.mul]. exists (dh * 1.1)%Q.
    split; [reflexivity|].
    split; [now rewrite (Q.max_r _ _ E)|].
    split; [nra|].
    assert (X : (2 * dw * t * (w / h) <= 2 * dh * t * (w / h))%Q) by nra.
    split; [nra|]. split; [nra|]. right. nra.
  - apply Qle_bool_false in E. cbn [JS.mul]. exists (dw * 1.1)%Q.
    split; [reflexivity|].
    split; [rewrite Q.max_l by lra; reflexivity|].
    split; [nra|].
    assert (X : (2 * dh * t <= 2 * dw * t)%Q) by nra.
    split; [nra|]. split; [nra|]. left. nra.
Qed.

(** X17.  The framer of a work image.  Without a camera it does nothing.
    With one it sets the camera target and nothing else, whatever the
    state: it is not held back by a transition and has no fallback value.
    For a rectangle of positive sides, the window, the field of view and
    [Math.PI] being positive, the target is the distance [d] at which the
    rectangle fits the screen with a margin of a tenth: the view at [d] (of
    height [2 d t], of width [2 d t] times the aspect ratio, with [t] the
    half angle in radians taken for its tangent) holds 1.1 times the
    rectangle and has 1.1 times its width or 1.1 times its height. *)
Theorem updateCameraForWorkImage_fits s :
  (camera s = None ->
   forall width height, updateCameraForWorkImage width height s = s)
  /\ (forall cam width height,
        camera s = Some cam ->
        updateCameraForWorkImage width height s
        = set_targetCameraZ
            (fitDistance cam (innerWidth s) (innerHeight s) width height) s)
  /\ forall cam (width height w h f pi : Q),
       camera s = Some cam ->
       innerWidth s = Fin w -> innerHeight s = Fin h ->
       fov cam = Fin f -> Math_PI = Fin pi ->
       (0 < w)%Q -> (0 < h)%Q -> (0 < f)%Q -> (0 < pi)%Q ->
       (0 < width)%Q -> (0 < height)%Q ->
       let t := (f * (pi / 180) / 2)%Q in
       exists d,
         targetCameraZ (updateCameraForWorkImage (Fin width) (Fin height) s)
         = Fin d
         /\ (d == Qmax (width / 2 / (t * (w / h))) (height / 2 / t) * 1.1)%Q
         /\ (0 < d)%Q
         /\ (1.1 * width <= 2 * d * t * (w / h))%Q
         /\ (1.1 * height <= 2 * d * t)%Q
         /\ ((1.1 * width == 2 * d * t * (w / h))%Q
             \/ (1.1 * height == 2 * d * t)%Q).
Proof.
  split; [|split].
  - intros Hc width height. unfold updateCameraForWorkImage. now rewrite Hc.
  - intros cam width height Hc. unfold updateCameraForWorkImage.
    now rewrite Hc.
  - intros cam width height w h f pi Hc Hw Hh Hf Hpi W0 H0 F0 P0 X0 Y0 t.
    destruct (fitDistance_fin cam w h f pi width height Hf Hpi W0 H0 F0 P0
                X0 Y0) as (d & Ed & R).
    exists d. split; [|exact R].
    unfold updateCameraForWorkImage. rewrite Hc, Hw, Hh. exact Ed.
Qed.

Lemma Qceiling_bounds q :
  (inject_Z (Qceiling q) - 1 < q)%Q /\ (q <= inject_Z (Qceiling q))%Q.
Proof.
  split; [|apply Qle_ceiling].
  pose proof (Qceiling_lt q) as H.
  unfold Z.sub in H. rewrite inject_Z_plus, inject_Z_opp in H.
  change (inject_Z 1) with 1%Q in H. lra.
Qed.

Lemma grid_cells (n cols rows : Z) (q : Q) :
  (0 < inject_Z cols)%Q -> (q * inject_Z cols == inject_Z n)%Q ->
  (inject_Z rows - 1 < q)%Q -> (q <= inject_Z rows)%Q ->
  (cols * (rows - 1) < n)%Z /\ (n <= cols * rows)%Z.
Proof.
  intros Hc Eq R1 R2. split.
  - rewrite Zlt_Qlt, inject_Z_mult. unfold Z.sub.
    rewrite inject_Z_plus, inject_Z_opp. change (inject_Z 1) with 1%Q.
    generalize dependent (inject_Z rows). generalize dependent (inject_Z n).
    generalize dependent (inject_Z cols). intros c Hc m Eq w R1 R2.
    assert (0 < (q - (w - 1)) * c)%Q by (apply Qmult_lt_0_compat; lra).
    lra.
  - rewrite Zle_Qle, inject_Z_mult.
    generalize dependent (inject_Z rows). generalize dependent (inject_Z n).
    generalize dependent (inject_Z cols). intros c Hc m Eq w R1 R2.
    assert (0 <= (w - q) * c)%Q by (apply Qmult_le_0_compat; lra).
    lra.
Qed.

(** X18.  The framer of the work grid.  Without a camera or without planes
    it does nothing.  With [n] planes, the square root of [n] being a
    positive number [r], the grid has [cols] columns, [r] rounded up, and
    [rows] rows, the least number of rows of [cols] cells that hold the
    [n] planes, so that no row is empty; and the framer is the one of a
    work image for the rectangle of the grid, 0.4 a cell and a margin of
    0.2 on each side. *)
Theorem updateCameraForWorkGrid_grid s (n : nat) :
  (camera s = None \/ n = 0%nat -> updateCameraForWorkGrid n s = s)
  /\ forall cam r,
       camera s = Some cam -> (0 < n)%nat ->
       Math_sqrt (Fin (inject_Z (Z.of_nat n))) = Fin r -> (0 < r)%Q ->
       exists cols rows : Z,
         (inject_Z cols - 1 < r)%Q /\ (r <= inject_Z cols)%Q
         /\ (0 < cols)%Z /\ (0 < rows)%Z
         /\ (cols * (rows - 1) < Z.of_nat n)%Z
         /\ (Z.of_nat n <= cols * rows)%Z
         /\ updateCameraForWorkGrid n s
            = updateCameraForWorkImage
                (Fin (inject_Z cols * 0.4 - 0.4 + 0.2 * 2))
                (Fin (inject_Z rows * 0.4 - 0.4 + 0.2 * 2)) s.
Proof.
  split.
  - intros [Hc| ->]; unfold updateCameraForWorkGrid.
    + now rewrite Hc.
    + now destruct (camera s).
  - intros cam r Hc Hn Hr R0.
    set (cols := Qceiling r).
    destruct (Qceiling_bounds r) as [C1 C2]. fold cols in C1, C2.
    assert (Hcols : (0 < cols)%Z).
    { apply Z.lt_nge. intros N. 
      assert (inject_Z cols <= 0)%Q by (change 0%Q with (inject_Z 0); now rewrite <- Zle_Qle).
      lra. }
    assert (Hcq : (0 < inject_Z cols)%Q) by lra.
    set (q := (inject_Z (Z.of_nat n) / inject_Z cols)%Q).
    set (rows := Qceiling q).
    destruct (Qceiling_bounds q) as [R1 R2]. fold rows in R1, R2.
    assert (Hnq : (0 < inject_Z (Z.of_nat n))%Q).
    { change 0%Q with (inject_Z 0). rewrite <- Zlt_Qlt. lia. }
    assert (Eq : (q * inject_Z cols == inject_Z (Z.of_nat n))%Q)
      by (unfold q; field; lra).
    assert (Hq : (0 < q)%Q).
    { unfold q. apply Qlt_shift_div_l; lra. }
    exists cols, rows. split; [exact C1|]. split; [exact C2|].
    split; [exact Hcols|].
    assert (Hrows : (0 < rows)%Z).
    { apply Z.lt_nge. intros N.
      assert (inject_Z rows <= 0)%Q by (change 0%Q with (inject_Z 0); now rewrite <- Zle_Qle).
      lra. }
    split; [exact Hrows|].
    destruct (grid_cells (Z.of_nat n) cols rows q Hcq Eq R1 R2) as [G1 G2].
    split; [exact G1|]. split; [exact G2|].
    unfold updateCameraForWorkGrid, updateCameraForWorkImage. rewrite Hc.
      destruct (n =? 0)%nat eqn:E; [apply Nat.eqb_eq in E; lia|].
      rewrite Hr. cbn [Math_ceil]. fold cols.
      rewrite (div_fin _ (inject_Z cols)) by lra.
      fold q. cbn [Math_ceil]. fold rows. reflexivity.
Qed.

Lemma updateCameraForParticles_twice s :
  updateCameraForParticles (updateCameraForParticles s)
  = updateCameraForParticles s.
Proof.
  unfold updateCameraForParticles at 2.
  destruct (camera s) as [cam|] eqn:Hc;
    [|unfold updateCameraForParticles; now rewrite Hc].
  destruct (currentParticles s) as [r|] eqn:Hr;
    [|unfold updateCameraForParticles; now rewrite Hc, Hr].
  destruct (isTransitioning s) eqn:Ht;
    [unfold updateCameraForParticles; now rewrite Hc, Hr, Ht|].
  destruct (heap s !! r) as [m|] eqn:Hm;
    [|unfold updateCameraForParticles; now rewrite Hc, Hr, Ht, Hm].
  unfold updateCameraForParticles.
  cbn [camera currentParticles isTransitioning heap innerWidth innerHeight
       set_targetCameraZ].
  rewrite Hc, Hr, Ht, Hm. reflexivity.
Qed.

(** X19.  Resizing.  Without a camera or without a renderer [handleResize]
    does nothing.  With both, the renderer takes the size of the window,
    the aspect of the camera becomes the width over the height, and the
    state is the one the framer of the particles gives: only the camera
    target can change, and it does not during a transition.  A second call
    for the same window changes nothing. *)
Theorem handleResize_settles s d :
  (camera s = None \/ renderer d = None -> handleResize s d = (s, d))
  /\ (camera s <> None -> renderer d <> None ->
      handleResize s d
      = (updateCameraForParticles s,
         {| renderer := Some (innerWidth s, innerHeight s);
            cameraAspect := innerWidth s / innerHeight s |}))
  /\ (handleResize s d).1
     = set_targetCameraZ (targetCameraZ (handleResize s d).1) s
  /\ (isTransitioning s = true -> (handleResize s d).1 = s)
  /\ handleResize (handleResize s d).1 (handleResize s d).2
     = handleResize s d.
Proof.
  assert (Hset : updateCameraForParticles s
                 = set_targetCameraZ
                     (targetCameraZ (updateCameraForParticles s)) s).
  { unfold updateCameraForParticles.
    destruct (camera s); [|now destruct s].
    destruct (currentParticles s) as [r|]; [|now destruct s].
    destruct (isTransitioning s); [now destruct s|].
    destruct (heap s !! r); now destruct s. }
  assert (Hsame : forall x, set_targetCameraZ (targetCameraZ x) x = x)
    by (now intros []).
  assert (Hbusy : isTransitioning s = true -> updateCameraForParticles s = s).
  { intros Ht. unfold updateCameraForParticles. rewrite Ht.
    now destruct (camera s), (currentParticles s). }
  unfold handleResize.
  destruct (camera s) as [cam|] eqn:Hc, (renderer d) as [sz|] eqn:Hr.
  - split; [intros [N|N]; discriminate|]. split; [reflexivity|].
    cbn [fst snd]. split; [exact Hset|]. split; [exact Hbusy|].
    destruct (updateCameraForParticles_same s) as (_ & _ & _ & _ & _ & _ & _ & _ & _ & E).
    cbv zeta in E. rewrite E, Hc. cbn [renderer].
    rewrite updateCameraForParticles_twice.
    assert (Ew : innerWidth (updateCameraForParticles s) = innerWidth s
                 /\ innerHeight (updateCameraForParticles s) = innerHeight s).
    { rewrite Hset. split; reflexivity. }
    destruct Ew as [-> ->]. reflexivity.
  - split; [reflexivity|]. split; [intros _ N; now contradiction N|].
    cbn [fst snd]. rewrite Hc, Hr. repeat split; auto.
  - split; [reflexivity|]. split; [intros N; now contradiction N|].
    cbn [fst snd]. rewrite Hc. repeat split; auto.
  - split; [reflexivity|]. split; [intros N; now contradiction N|].
    cbn [fst snd]. rewrite Hc. repeat split; auto.
Qed.

Context `{browser : Browser}.

(** ** The overlay *)

Lemma forEach_app {A B : Type} (l1 l2 : list A) i
    (body : A -> nat -> B -> B) acc :
  forEach (l1 ++ l2) i body acc
  = forEach l2 (i + length l1) body (forEach l1 i body acc).
Proof.
  revert i acc. induction l1 as [|x l1 IH]; intros i acc; cbn [forEach app length].
  - now rewrite Nat.add_0_r.
  - rewrite IH. f_equal. lia.
Qed.

Lemma mapOverlay_texts_id c :
  mapOverlay (fun o => set_texts (texts o) o) c = c.
Proof. now destruct c as [s d p r []]. Qed.

Lemma forEach_updateText l g body :
  (forall mesh j c', body mesh j c' = updateText mesh (g mesh j) c') ->
  forall i c,
    forEach l i body c
    = mapOverlay
        (fun o => set_texts (writeTexts l i g (texts o)) o) c.
Proof.
  intros Hb.
  induction l as [|r l IH]; intros i c; cbn [forEach writeTexts].
  - now rewrite mapOverlay_texts_id.
  - rewrite IH, Hb. reflexivity.
Qed.

Lemma length_writeTexts l g : forall i ts,
  length (writeTexts l i g ts) = length ts.
Proof.
  induction l as [|r l IH]; intros i ts; cbn [writeTexts]; [reflexivity|].
  rewrite IH. apply length_alter.
Qed.

Lemma writeTexts_other l g r : forall i ts,
  r ∉ l -> writeTexts l i g ts !! r = ts !! r.
Proof.
  induction l as [|r' l IH]; intros i ts Hr; cbn [writeTexts]; [reflexivity|].
  apply not_elem_of_cons in Hr as [Hne Hr].
  rewrite IH by exact Hr. apply list_lookup_alter_ne. congruence.
Qed.

(** The texts after a loop of writes: what every write keeps of a text is
    kept, and what each write of a text establishes, whatever the text was
    before, holds of the texts the loop walks over. *)
Lemma writeTexts_inv (I P : nat -> Text -> Prop) g l :
  forall i ts,
    (forall r j y, I r y -> I r (g r j y)) ->
    (forall j r y, l !! j = Some r -> I r y -> P r (g r (i + j)%nat y)) ->
    forall r y0, ts !! r = Some y0 -> I r y0 ->
      exists y, writeTexts l i g ts !! r = Some y
                /\ I r y /\ (r ∈ l -> P r y).
Proof.
  induction l as [|r' l IH]; intros i ts HI HP r y0 Hy0 I0.
  - exists y0. cbn [writeTexts]. split; [exact Hy0|]. split; [exact I0|].
    intros Hin. inversion Hin.
  - cbn [writeTexts].
    assert (H1 : exists y1, alter (g r' i) r' ts !! r = Some y1 /\ I r y1
                            /\ (r = r' -> y1 = g r' i y0)).
    { destruct (decide (r = r')) as [->|Hne].
      - exists (g r' i y0). rewrite list_lookup_alter_eq, Hy0.
        split; [reflexivity|]. split; [now apply HI|]. reflexivity.
      - exists y0. rewrite list_lookup_alter_ne by congruence.
        split; [exact Hy0|]. split; [exact I0|]. intros E. contradiction. }
    destruct H1 as (y1 & Hy1 & I1 & E1).
    destruct (IH (S i) (alter (g r' i) r' ts) HI) with (r := r) (y0 := y1)
      as (y & Hy & Iy & Py); [|exact Hy1|exact I1|].
    { intros j r0 z Hj Iz.
      replace (S i + j)%nat with (i + S j)%nat by lia.
      apply HP; [exact Hj|exact Iz]. }
    exists y. split; [exact Hy|]. split; [exact Iy|].
    intros Hin. destruct (decide (r ∈ l)) as [Hl|Hl]; [now apply Py|].
    apply elem_of_cons in Hin as [->|Hin]; [|contradiction].
    rewrite writeTexts_other in Hy by exact Hl.
    rewrite Hy1 in Hy. injection Hy as <-. rewrite E1 by reflexivity.
    specialize (HP 0%nat r' y0 eq_refl I0).
    now rewrite Nat.add_0_r in HP.
Qed.

Lemma menuEase_fin p : menuEase (Fin p) = Fin (menuEaseQ p).
Proof.
  unfold menuEase, menuEaseQ, JS.lt, JS.Qlt_bool.
  destruct (Qle_bool 0.5 p); cbn [negb]; reflexivity.
Qed.

Lemma menuEaseQ_range p :
  (0 <= p)%Q -> (p <= 1)%Q -> (0 <= menuEaseQ p)%Q /\ (menuEaseQ p <= 1)%Q.
Proof.
  intros H0 H1. unfold menuEaseQ.
  destruct (Qle_bool 0.5 p) eqn:E.
  - apply Qle_bool_iff in E. unfold Qdiv. change (/ 2)%Q with (1 # 2)%Q.
    assert (0 <= (1 - p) * (1 - p))%Q by nra.
    assert ((1 - p) * (1 - p) <= 1 # 4)%Q by nra.
    split; lra.
  - apply Qle_bool_false in E. 
    assert (0 <= p * p)%Q by nra.
    assert (p * p <= 1 # 4)%Q by nra.
    split; lra.
Qed.

Lemma menuEaseQ_1 p : (p == 1)%Q -> (menuEaseQ p == 1)%Q.
Proof.
  intros E. unfold menuEaseQ.
  destruct (Qle_bool 0.5 p) eqn:E1.
  - rewrite E. reflexivity.
  - apply Qle_bool_false in E1. lra.
Qed.

(** The writes of a frame of an animation, for the ease [e]. *)
Lemma menuAnimate_unfold a c :
  let now := Date_now (dateNowCalls (overlay c)) in
  let progress :=
    JS.min ((now - menuStartTime a) / menuDuration a) (Fin 1) in
  let c2 :=
    mapOverlay
      (fun o =>
         set_texts
           (writeTexts (elementsOf (overlay c) (meshes a)) 0
              (frameWrite a (menuEase progress)) (texts o))
           (set_dateNowCalls (S (dateNowCalls o)) o))
      c in
  menuAnimate a c
  = if progress <? Fin 1 then requestMenuFrame a c2 else c2.
Proof.
  cbv zeta. unfold menuAnimate, dateNow.
  rewrite (forEach_updateText _
             (frameWrite a
                (menuEase
                   (JS.min
                      ((Date_now (dateNowCalls (overlay c)) - menuStartTime a)
                       / menuDuration a) (Fin 1)))))
    by reflexivity.
  destruct c as [st d p r o]. destruct o. reflexivity.
Qed.

Lemma lt_fin a b : (Fin a <? Fin b) = negb (Qle_bool b a).
Proof. reflexivity. Qed.

(** X20.  A frame of an animation of the menu, at the time [t], for an
    animation started at [t0] that lasts [d] > 0.  With [p] the least of
    [(t - t0) / d] and 1, and [e] the ease of [p] ([2 p p] below one half,
    [1 - (2 - 2 p)^2 / 2] from there on, which lies between 0 and 1 once
    the time has reached [t0], and is 1 once [d] has gone by), every text
    of the array of the animation takes the opacity
    [start + (target - start) e] and the like scale, from the values the
    animation took at its start and not from the current ones: the last
    frame puts the texts on the targets whatever was written to them
    since.  A frame before the end asks for exactly one more frame, the
    last one for none.  Nothing else changes: not the other texts, not
    the colour, the glow or the position of a text, not the menu. *)
Theorem menuAnimate_frame a c (d t0 t : Q) :
  menuDuration a = Fin d -> (0 < d)%Q ->
  menuStartTime a = Fin t0 ->
  Date_now (dateNowCalls (overlay c)) = Fin t ->
  let c' := menuAnimate a c in
  let els := elementsOf (overlay c) (meshes a) in
  exists p : Q,
    (p == Qmin ((t - t0) / d) 1)%Q
    /\ ((0 <= t - t0)%Q -> (0 <= menuEaseQ p)%Q /\ (menuEaseQ p <= 1)%Q)
    /\ ((d <= t - t0)%Q -> (menuEaseQ p == 1)%Q)
    /\ display c' = display c /\ page c' = page c /\ rig c' = rig c
    /\ state c' = set_nextHandle (nextHandle (state c')) (state c)
    /\ overlay c'
       = set_menuFrames (menuFrames (overlay c'))
           (set_texts (texts (overlay c'))
              (set_dateNowCalls (S (dateNowCalls (overlay c))) (overlay c)))
    /\ ((t - t0 < d)%Q ->
        menuFrames (overlay c')
        = menuFrames (overlay c) ++ [(nextHandle (state c), a)]
        /\ nextHandle (state c') = S (nextHandle (state c)))
    /\ ((d <= t - t0)%Q ->
        menuFrames (overlay c') = menuFrames (overlay c)
        /\ nextHandle (state c') = nextHandle (state c))
    /\ length (texts (overlay c')) = length (texts (overlay c))
    /\ (forall r, r ∉ els ->
          texts (overlay c') !! r = texts (overlay c) !! r)
    /\ forall r x,
         r ∈ els -> texts (overlay c) !! r = Some x ->
         exists y,
           texts (overlay c') !! r = Some y
           /\ color y = color x
           /\ emissiveIntensity y = emissiveIntensity x
           /\ position y = position x
           /\ text_geometry_disposed y = text_geometry_disposed x
           /\ text_material_disposed y = text_material_disposed x
           /\ forall so ss to ts,
                (forall j, els !! j = Some r ->
                           startOpacities a !! j = Some (Fin so)
                           /\ startScales a !! j = Some (Fin ss)) ->
                targetOpacity a = Fin to -> targetScale a = Fin ts ->
                opacity y = Fin (so + (to - so) * menuEaseQ p)
                /\ scale_x y = Fin (ss + (ts - ss) * menuEaseQ p)
                /\ ((d <= t - t0)%Q ->
                    opacity y =~ Fin to /\ scale_x y =~ Fin ts).
Proof.
  intros Hd D0 Ht0 Ht c' els. unfold c'.
  rewrite menuAnimate_unfold. cbv zeta. rewrite Hd, Ht0, Ht.
  cbn [JS.sub]. rewrite (div_fin (t - t0) d) by lra. rewrite min_fin.
  fold els.
  set (p := if Qle_bool ((t - t0) / d) 1 then ((t - t0) / d)%Q else 1%Q).
  assert (Ep : (if Qle_bool ((t - t0) / d) 1 then Fin ((t - t0) / d)
                else Fin 1) = Fin p)
    by (unfold p; now destruct (Qle_bool ((t - t0) / d) 1)).
  rewrite Ep, menuEase_fin, lt_fin.
  assert (Hq : ((t - t0) / d * d == t - t0)%Q) by (field; lra).
  assert (Hp : (p == Qmin ((t - t0) / d) 1)%Q).
  { unfold p. destruct (Qle_bool ((t - t0) / d) 1) eqn:E.
    - apply Qle_bool_iff in E. now rewrite Q.min_l.
    - apply Qle_bool_false in E. rewrite Q.min_r by lra. reflexivity. }
  assert (Hp1 : (p <= 1)%Q).
  { rewrite Hp. apply Q.le_min_r. }
  assert (Hlate : (d <= t - t0)%Q -> (p == 1)%Q).
  { intros L. rewrite Hp. apply Q.min_r.
    apply Qle_shift_div_l; [exact D0|]. lra. }
  assert (Hearly : (t - t0 < d)%Q -> (p < 1)%Q).
  { intros L. rewrite Hp. apply Q.min_lt_iff. left.
    apply Qlt_shift_div_r; [exact D0|]. lra. }
  assert (Hpos : (0 <= t - t0)%Q -> (0 <= p)%Q).
  { intros L. rewrite Hp. apply Q.min_glb; [|lra].
    apply Qle_shift_div_l; [exact D0|]. lra. }
  exists p. split; [exact Hp|].
  split; [intros L; apply menuEaseQ_range; auto|].
  split; [intros L; apply menuEaseQ_1; auto|].
  set (g := frameWrite a (Fin (menuEaseQ p))).
  set (c2 := mapOverlay _ c).
  assert (Hres : (if negb (Qle_bool 1 p) then requestMenuFrame a c2 else c2)
                 = (if negb (Qle_bool 1 p) then requestMenuFrame a c2
                    else c2)) by reflexivity.
  assert (Htexts : texts (overlay (if negb (Qle_bool 1 p)
                                   then requestMenuFrame a c2 else c2))
                   = writeTexts els 0 g (texts (overlay c))).
  { destruct (negb (Qle_bool 1 p)); reflexivity. }
  split; [now destruct (negb (Qle_bool 1 p))|].
  split; [now destruct (negb (Qle_bool 1 p))|].
  split; [now destruct (negb (Qle_bool 1 p))|].
  split.
  { destruct (negb (Qle_bool 1 p)); unfold c2; destruct c as [st ? ? ? ?];
      destruct st; reflexivity. }
  split.
  { destruct (negb (Qle_bool 1 p)); unfold c2; destruct c as [? ? ? ? o];
      destruct o; reflexivity. }
  split.
  { intros L. apply Hearly in L.
    assert (E : Qle_bool 1 p = false) by (now apply Qle_bool_false).
    rewrite E. cbn [negb]. split; reflexivity. }
  split.
  { intros L. apply Hlate in L.
    assert (E : Qle_bool 1 p = true) by (apply Qle_bool_iff; lra).
    rewrite E. cbn [negb]. split; reflexivity. }
  rewrite Htexts.
  split; [apply length_writeTexts|].
  split; [intros r Hr; now apply writeTexts_other|].
  intros r x Hin Hx.
  pose (I := fun (_ : nat) (y : Text) =>
               color y = color x
               /\ emissiveIntensity y = emissiveIntensity x
               /\ position y = position x
               /\ text_geometry_disposed y = text_geometry_disposed x
               /\ text_material_disposed y = text_material_disposed x).
  pose (P := fun (r' : nat) (y : Text) =>
               r' = r ->
               forall so ss to ts,
                 (forall j, els !! j = Some r ->
                            startOpacities a !! j = Some (Fin so)
                            /\ startScales a !! j = Some (Fin ss)) ->
                 targetOpacity a = Fin to -> targetScale a = Fin ts ->
                 opacity y = Fin (so + (to - so) * menuEaseQ p)
                 /\ scale_x y = Fin (ss + (ts - ss) * menuEaseQ p)).
  destruct (writeTexts_inv I P g els 0 (texts (overlay c))) with (r := r)
    (y0 := x) as (y & Hy & Iy & Py).
  - intros r0 j y Hy. exact Hy.
  - intros j r0 y Hj _ -> so ss to ts Hs Hto Hts.
    destruct (Hs j Hj) as [Eo Es].
    unfold g, frameWrite, item. cbn [opacity scale_x setText_scale_x setText_opacity].
    rewrite Nat.add_0_l, Eo, Es, Hto, Hts. cbn [default]. split; reflexivity.
  - exact Hx.
  - unfold I. repeat split; reflexivity.
  - exists y. split; [exact Hy|]. destruct Iy as (i1 & i2 & i3 & i4 & i5).
    repeat (split; [assumption|]).
    intros so ss to ts Hs Hto Hts.
    destruct (Py Hin eq_refl so ss to ts Hs Hto Hts) as [Eo Es].
    split; [exact Eo|]. split; [exact Es|].
    intros L. rewrite Eo, Es. unfold JS.eqv.
    pose proof (menuEaseQ_1 p (Hlate L)) as E1.
    split; rewrite E1; ring.
Qed.

(** ** What the menu keeps *)

Lemma menuKept_refl c : menuKept c c.
Proof.
  split; try reflexivity. now destruct (state c).
Qed.

Lemma menuKept_trans c1 c2 c3 :
  menuKept c1 c2 -> menuKept c2 c3 -> menuKept c1 c3.
Proof.
  intros [] []. split; try congruence; [|lia].
  rewrite kept_state1, kept_state0. reflexivity.
Qed.

Lemma menuKept_flag f c :
  (forall o, arrays (f o) = arrays o /\ textChildren (f o) = textChildren o
             /\ textMesh (f o) = textMesh o
             /\ workTextMesh (f o) = workTextMesh o
             /\ cvTextMesh (f o) = cvTextMesh o
             /\ contactTextMesh (f o) = contactTextMesh o
             /\ emailTextMesh (f o) = emailTextMesh o
             /\ cvTextMeshes (f o) = cvTextMeshes o
             /\ texts (f o) = texts o) ->
  menuKept c (mapOverlay f c).
Proof.
  intros Hf. destruct (Hf (overlay c)) as (? & ? & ? & ? & ? & ? & ? & ? & Ht).
  split; cbn [mapOverlay state display page rig overlay]; try assumption;
    try reflexivity.
  - now destruct (state c).
  - now rewrite Ht.
Qed.

Lemma menuAnimate_kept a c : menuKept c (menuAnimate a c).
Proof.
  rewrite menuAnimate_unfold. cbv zeta.
  set (g := frameWrite a _). set (els := elementsOf _ _).
  set (c2 := mapOverlay _ c).
  assert (K2 : menuKept c c2).
  { split; unfold c2; cbn [mapOverlay state display page rig overlay];
      try reflexivity.
    - now destruct (state c).
    - cbn [texts set_texts]. apply length_writeTexts. }
  destruct (_ <? Fin 1); [|exact K2].
  apply (menuKept_trans _ c2); [exact K2|].
  split; unfold requestMenuFrame;
    cbn [mapOverlay mapState state display page rig overlay]; try reflexivity.
  cbn. lia.
Qed.

Lemma animateMenuTransition_kept ms to ts dur c :
  menuKept c (animateMenuTransition ms to ts dur c).
Proof.
  unfold animateMenuTransition, dateNow.
  set (c1 := mapOverlay _ c).
  apply (menuKept_trans _ c1); [|apply menuAnimate_kept].
  apply menuKept_flag. intros o. now destruct o.
Qed.

(** The animations leave the flags of the menu and the other callbacks. *)
Lemma menuAnimate_flags a c :
  let c' := menuAnimate a c in
  showingEmail (overlay c') = showingEmail (overlay c)
  /\ showingCV (overlay c') = showingCV (overlay c)
  /\ revealTimers (overlay c') = revealTimers (overlay c)
  /\ fontLoads (overlay c') = fontLoads (overlay c).
Proof.
  cbv zeta. rewrite menuAnimate_unfold. cbv zeta.
  destruct (_ <? Fin 1); repeat split; reflexivity.
Qed.

Lemma animateMenuTransition_flags ms to ts dur c :
  let c' := animateMenuTransition ms to ts dur c in
  showingEmail (overlay c') = showingEmail (overlay c)
  /\ showingCV (overlay c') = showingCV (overlay c)
  /\ revealTimers (overlay c') = revealTimers (overlay c)
  /\ fontLoads (overlay c') = fontLoads (overlay c).
Proof.
  cbv zeta. unfold animateMenuTransition, dateNow.
  set (c1 := mapOverlay _ c). set (a := mkMenuAnimation _ _ _ _ _ _ _).
  destruct (menuAnimate_flags a c1) as (-> & -> & -> & ->).
  repeat split; reflexivity.
Qed.

(** An optional animation. *)
Lemma maybe_animate_kept (b : bool) ms to ts dur c :
  menuKept c (if b then animateMenuTransition ms to ts dur c else c).
Proof.
  destruct b; [apply animateMenuTransition_kept|apply menuKept_refl].
Qed.

Lemma maybe_animate_flags (b : bool) ms to ts dur c :
  let c' := if b then animateMenuTransition ms to ts dur c else c in
  showingEmail (overlay c') = showingEmail (overlay c)
  /\ showingCV (overlay c') = showingCV (overlay c)
  /\ revealTimers (overlay c') = revealTimers (overlay c)
  /\ fontLoads (overlay c') = fontLoads (overlay c).
Proof.
  destruct b; [apply animateMenuTransition_flags|].
  cbv zeta. repeat split; reflexivity.
Qed.

Lemma set_flag_kept f c :
  (f = set_showingEmail true \/ f = set_showingEmail false
   \/ f = set_showingCV true \/ f = set_showingCV false) ->
  menuKept c (mapOverlay f c).
Proof.
  intros H. apply menuKept_flag. intros o.
  destruct H as [->|[->|[->| ->]]]; repeat split; reflexivity.
Qed.

Lemma showEmail_spec c :
  let c' := showEmail c in
  menuKept c c'
  /\ showingEmail (overlay c') = true
  /\ showingCV (overlay c') = showingCV (overlay c)
  /\ revealTimers (overlay c') = revealTimers (overlay c)
  /\ fontLoads (overlay c') = fontLoads (overlay c).
Proof.
  cbv zeta. unfold showEmail.
  set (c1 := mapOverlay (set_showingEmail true) c).
  assert (K1 : menuKept c c1) by (apply set_flag_kept; auto).
  set (c2 := if (0 <? _)%nat then _ else c1).
  assert (K2 : menuKept c1 c2) by apply maybe_animate_kept.
  destruct (maybe_animate_flags (0 <? length (menuItemsOf (overlay c1)))%nat
              (Own (menuItemsOf (overlay c1))) (Fin 0) (Fin 0) (Fin 300) c1)
    as (F1 & F2 & F3 & F4).
  fold c2 in F1, F2, F3, F4.
  destruct (emailTextMesh (overlay c2)) as [e|].
  - destruct (animateMenuTransition_flags (Own [e]) (Fin 0.8) (Fin 1)
                (Fin 300) c2) as (-> & -> & -> & ->).
    split; [|rewrite F1, F2, F3, F4; repeat split; reflexivity].
    eapply menuKept_trans; [exact K1|].
    eapply menuKept_trans; [exact K2|]. apply animateMenuTransition_kept.
  - split; [|rewrite F1, F2, F3, F4; repeat split; reflexivity].
    eapply menuKept_trans; [exact K1|exact K2].
Qed.

Lemma showMenu_spec c :
  let c' := showMenu c in
  menuKept c c'
  /\ showingEmail (overlay c') = false
  /\ showingCV (overlay c') = showingCV (overlay c)
  /\ revealTimers (overlay c') = revealTimers (overlay c)
  /\ fontLoads (overlay c') = fontLoads (overlay c).
Proof.
  cbv zeta. unfold showMenu.
  set (c1 := mapOverlay (set_showingEmail false) c).
  assert (K1 : menuKept c c1) by (apply set_flag_kept; auto).
  set (c2 := match emailTextMesh (overlay c1) with Some _ => _ | None => c1 end).
  assert (K2 : menuKept c1 c2
               /\ showingEmail (overlay c2) = false
               /\ showingCV (overlay c2) = showingCV (overlay c)
               /\ revealTimers (overlay c2) = revealTimers (overlay c)
               /\ fontLoads (overlay c2) = fontLoads (overlay c)).
  { unfold c2. destruct (emailTextMesh (overlay c1)) as [e|].
    - destruct (animateMenuTransition_flags (Own [e]) (Fin 0) (Fin 0)
                  (Fin 300) c1) as (-> & -> & -> & ->).
      split; [apply animateMenuTransition_kept|]. repeat split; reflexivity.
    - split; [apply menuKept_refl|]. repeat split; reflexivity. }
  destruct K2 as (K2 & F1 & F2 & F3 & F4).
  destruct (maybe_animate_flags (0 <? length (menuItemsOf (overlay c2)))%nat
              (Own (menuItemsOf (overlay c2))) (Fin 0.8) (Fin 1) (Fin 300) c2)
    as (-> & -> & -> & ->).
  split; [|now rewrite F1, F2, F3, F4].
  eapply menuKept_trans; [exact K1|].
  eapply menuKept_trans; [exact K2|]. apply maybe_animate_kept.
Qed.

Lemma hideCVWords_spec c :
  let c' := hideCVWords c in
  menuKept c c'
  /\ showingEmail (overlay c') = showingEmail (overlay c)
  /\ showingCV (overlay c') = false
  /\ revealTimers (overlay c') = revealTimers (overlay c)
  /\ fontLoads (overlay c') = fontLoads (overlay c).
Proof.
  cbv zeta. unfold hideCVWords.
  set (c1 := mapOverlay (set_showingCV false) c).
  assert (K1 : menuKept c c1) by (apply set_flag_kept; auto).
  set (c2 := if (0 <? length (cvWords (overlay c1)))%nat then _ else c1).
  assert (K2 : menuKept c1 c2) by apply maybe_animate_kept.
  destruct (maybe_animate_flags (0 <? length (cvWords (overlay c1)))%nat
              (Shared (cvTextMeshes (overlay c1))) (Fin 0) (Fin 0) (Fin 300)
              c1) as (F1 & F2 & F3 & F4).
  fold c2 in F1, F2, F3, F4.
  set (c3 := if (0 <? length (nonNull [textMesh (overlay c2)]))%nat
             then _ else c2).
  assert (K3 : menuKept c2 c3) by apply maybe_animate_kept.
  destruct (maybe_animate_flags
              (0 <? length (nonNull [textMesh (overlay c2)]))%nat
              (Own (nonNull [textMesh (overlay c2)])) (Fin 0.8) (Fin 1)
              (Fin 300) c2) as (G1 & G2 & G3 & G4).
  fold c3 in G1, G2, G3, G4.
  destruct (maybe_animate_flags (0 <? length (menuItemsOf (overlay c2)))%nat
              (Own (menuItemsOf (overlay c2))) (Fin 0.8) (Fin 1) (Fin 300) c3)
    as (-> & -> & -> & ->).
  split; [|now rewrite G1, G2, G3, G4, F1, F2, F3, F4].
  eapply menuKept_trans; [exact K1|].
  eapply menuKept_trans; [exact K2|].
  eapply menuKept_trans; [exact K3|]. apply maybe_animate_kept.
Qed.

Lemma showCVWords_spec c :
  let c' := showCVWords c in
  menuKept c c'
  /\ showingEmail (overlay c') = showingEmail (overlay c)
  /\ showingCV (overlay c') = true.
Proof.
  cbv zeta. unfold showCVWords.
  set (c1 := mapOverlay (set_showingCV true) c).
  assert (K1 : menuKept c c1) by (apply set_flag_kept; auto).
  set (all := nonNull _).
  set (c2 := if (0 <? length all)%nat then _ else c1).
  assert (K2 : menuKept c1 c2) by apply maybe_animate_kept.
  destruct (maybe_animate_flags (0 <? length all)%nat
              (Own all) (Fin 0) (Fin 0) (Fin 300) c1) as (F1 & F2 & _).
  fold c2 in F1, F2.
  set (c3 := if (length (cvWords (overlay c2)) =? 0)%nat then _ else c2).
  assert (K3 : menuKept c2 c3
               /\ showingEmail (overlay c3) = showingEmail (overlay c2)
               /\ showingCV (overlay c3) = showingCV (overlay c2)).
  { unfold c3. destruct (length (cvWords (overlay c2)) =? 0)%nat;
      [|split; [apply menuKept_refl|split; reflexivity]].
    unfold createCVWords. destruct (textMesh (overlay c2));
      [|split; [apply menuKept_refl|split; reflexivity]].
    split; [|split; reflexivity].
    apply menuKept_flag. intros o. repeat split; reflexivity. }
  destruct K3 as (K3 & G1 & G2).
  split.
  - eapply menuKept_trans; [exact K1|].
    eapply menuKept_trans; [exact K2|].
    eapply menuKept_trans; [exact K3|].
    split; cbn [mapOverlay mapState state display page rig overlay];
      try reflexivity.
    cbn. lia.
  - cbn [mapOverlay mapState state display page rig overlay].
    cbn [showingEmail showingCV set_revealTimers].
    rewrite G1, G2, F1, F2. split; reflexivity.
Qed.

(** ** Clicks *)

Lemma menuKept_cvWords c c' :
  menuKept c c' -> cvWords (overlay c') = cvWords (overlay c).
Proof.
  intros K. unfold cvWords. now rewrite (kept_arrays _ _ K), (kept_cvTextMeshes _ _ K).
Qed.

(** What a click leaves as it is: the variables and the arrays of the
    texts, the element and the renderer. *)
Lemma clickKept_of_menuKept c c' : menuKept c c' -> clickKept c c'.
Proof.
  intros K. split; try apply K. now apply menuKept_cvWords.
Qed.

Lemma clickKept_refl c : clickKept c c.
Proof. split; reflexivity. Qed.

Lemma clickKept_trans c1 c2 c3 :
  clickKept c1 c2 -> clickKept c2 c3 -> clickKept c1 c3.
Proof. intros [] []. split; congruence. Qed.

Lemma updateCameraForParticles_set s :
  updateCameraForParticles s
  = set_targetCameraZ (targetCameraZ (updateCameraForParticles s)) s.
Proof.
  unfold updateCameraForParticles.
  destruct (camera s); [|now destruct s].
  destruct (currentParticles s) as [r|]; [|now destruct s].
  destruct (isTransitioning s); [now destruct s|].
  destruct (heap s !! r); now destruct s.
Qed.

Lemma updateCameraForParticles_handle n s :
  targetCameraZ (updateCameraForParticles (set_nextHandle n s))
  = targetCameraZ (updateCameraForParticles s).
Proof.
  unfold updateCameraForParticles.
  cbn [camera currentParticles isTransitioning heap innerWidth innerHeight
       set_nextHandle].
  destruct (camera s); [|reflexivity].
  destruct (currentParticles s) as [r|]; [|reflexivity].
  destruct (isTransitioning s); [reflexivity|].
  destruct (heap s !! r); reflexivity.
Qed.

(** The first test. *)
Lemma clickTitle_spec m c :
  let c' := clickTitle m c in
  let hit := isText (textMesh (overlay c)) m
             || isText (workTextMesh (overlay c)) m in
  clickKept c c'
  /\ (nextHandle (state c) <= nextHandle (state c'))%nat
  /\ (hit = false -> c' = c)
  /\ (hit = true ->
      showingEmail (overlay c') = false /\ showingCV (overlay c') = false
      /\ isCameraZoomedOut (rig c') = negb (isCameraZoomedOut (rig c))
      /\ rig c' = set_isCameraZoomedOut (negb (isCameraZoomedOut (rig c)))
                    (rig c)
      /\ state c'
         = set_nextHandle (nextHandle (state c'))
             (set_targetCameraZ (targetCameraZ (state c')) (state c))
      /\ targetCameraZ (state c')
         = (if isCameraZoomedOut (rig c)
            then targetCameraZ (updateCameraForParticles (state c))
            else currentCameraZ (rig c) * Fin 3)
      /\ revealTimers (overlay c') = revealTimers (overlay c)
      /\ fontLoads (overlay c') = fontLoads (overlay c)).
Proof.
  cbv zeta. unfold clickTitle.
  destruct (isText (textMesh (overlay c)) m
            || isText (workTextMesh (overlay c)) m).
  2: { split; [apply clickKept_refl|]. split; [lia|].
       split; [reflexivity|discriminate]. }
  set (c1 := if showingEmail (overlay c) then showMenu c else c).
  assert (H1 : menuKept c c1 /\ showingEmail (overlay c1) = false
               /\ showingCV (overlay c1) = showingCV (overlay c)
               /\ revealTimers (overlay c1) = revealTimers (overlay c)
               /\ fontLoads (overlay c1) = fontLoads (overlay c)).
  { unfold c1. destruct (showingEmail (overlay c)) eqn:E.
    - apply showMenu_spec.
    - split; [apply menuKept_refl|]. repeat split; [exact E]. }
  destruct H1 as (K1 & E1 & V1 & R1 & F1).
  set (c2 := if showingCV (overlay c1) then hideCVWords c1 else c1).
  assert (H2 : menuKept c1 c2 /\ showingEmail (overlay c2) = false
               /\ showingCV (overlay c2) = false
               /\ revealTimers (overlay c2) = revealTimers (overlay c)
               /\ fontLoads (overlay c2) = fontLoads (overlay c)).
  { unfold c2. destruct (showingCV (overlay c1)) eqn:E.
    - destruct (hideCVWords_spec c1) as (K & e1 & e2 & e3 & e4).
      cbv zeta in *. split; [exact K|]. rewrite e1, e2, e3, e4.
      repeat split; assumption.
    - split; [apply menuKept_refl|]. repeat split; assumption. }
  destruct H2 as (K2 & E2 & V2 & R2 & F2).
  assert (K : menuKept c c2) by (eapply menuKept_trans; eassumption).
  pose proof (clickKept_of_menuKept _ _ K) as CK.
  pose proof (kept_rig _ _ K) as Hrig.
  pose proof (kept_state _ _ K) as Hst.
  pose proof (kept_handle _ _ K) as Hh.
  assert (Hu : nextHandle (updateCameraForParticles (state c2))
               = nextHandle (state c2))
    by (rewrite (updateCameraForParticles_set (state c2)); reflexivity).
  rewrite Hrig.
  destruct (isCameraZoomedOut (rig c)) eqn:Z.
  - split.
    { destruct CK. split; cbn [mapRig mapState overlay page display];
        assumption. }
    split; [cbn [mapRig mapState state]; cbn [nextHandle set_targetCameraZ];
            rewrite ?Hu; exact Hh|].
    split; [discriminate|]. intros _.
    cbn [mapRig mapState overlay rig state]. rewrite ?Hrig.
    cbn [isCameraZoomedOut set_isCameraZoomedOut]. rewrite ?Z. cbn [negb].
    split; [exact E2|]. split; [exact V2|]. split; [reflexivity|].
    split; [reflexivity|].
    split.
    { set (u := updateCameraForParticles (state c2)).
      assert (Eu : u = set_targetCameraZ (targetCameraZ u) (state c2))
        by apply updateCameraForParticles_set.
      assert (En : nextHandle u = nextHandle (state c2))
        by (rewrite Eu; reflexivity).
      rewrite En. rewrite Eu at 1. rewrite Hst at 1.
      now destruct (state c). }
    split.
    { rewrite Hst. apply updateCameraForParticles_handle. }
    split; assumption.
  - split.
    { destruct CK. split; cbn [mapRig mapState overlay page display];
        assumption. }
    split; [cbn [mapRig mapState state]; cbn [nextHandle set_targetCameraZ];
            rewrite ?Hu; exact Hh|].
    split; [discriminate|]. intros _.
    cbn [mapRig mapState overlay rig state]. rewrite ?Hrig.
    cbn [isCameraZoomedOut set_isCameraZoomedOut]. rewrite ?Z. cbn [negb].
    split; [exact E2|]. split; [exact V2|]. split; [reflexivity|].
    split; [reflexivity|].
    split.
    { rewrite Hst at 1. now destruct (state c). }
    split; [reflexivity|]. split; assumption.
Qed.

(** The second and the third test. *)
Lemma clickContact_spec m c :
  let c' := clickContact m c in
  let E := showingEmail (overlay c) in
  let V := showingCV (overlay c) in
  menuKept c c'
  /\ showingCV (overlay c') = V
  /\ showingEmail (overlay c')
     = (if isText (contactTextMesh (overlay c)) m && negb E && negb V
        then true
        else if isText (emailTextMesh (overlay c)) m && E then false
        else E)
  /\ revealTimers (overlay c') = revealTimers (overlay c)
  /\ fontLoads (overlay c') = fontLoads (overlay c).
Proof.
  cbv zeta. unfold clickContact.
  destruct (isText (contactTextMesh (overlay c)) m
            && negb (showingEmail (overlay c))
            && negb (showingCV (overlay c))).
  - destruct (showEmail_spec c) as (K & e1 & e2 & e3 & e4).
    cbv zeta in *. now rewrite e1, e2, e3, e4.
  - destruct (isText (emailTextMesh (overlay c)) m
              && showingEmail (overlay c)).
    + destruct (showMenu_spec c) as (K & e1 & e2 & e3 & e4).
      cbv zeta in *. now rewrite e1, e2, e3, e4.
    + split; [apply menuKept_refl|]. repeat split; reflexivity.
Qed.

Lemma clickCV_spec m c :
  let c' := clickCV m c in
  let E := showingEmail (overlay c) in
  let V := showingCV (overlay c) in
  menuKept c c'
  /\ showingEmail (overlay c') = E
  /\ showingCV (overlay c')
     = (if isText (cvTextMesh (overlay c)) m && negb V && negb E
        then true
        else if V && bool_decide (m ∈ cvWords (overlay c)) then false
        else V).
Proof.
  cbv zeta. unfold clickCV.
  destruct (isText (cvTextMesh (overlay c)) m
            && negb (showingCV (overlay c))
            && negb (showingEmail (overlay c))).
  - destruct (showCVWords_spec c) as (K & e1 & e2).
    cbv zeta in *. now rewrite e1, e2.
  - destruct (showingCV (overlay c)
              && bool_decide (m ∈ cvWords (overlay c))).
    + destruct (hideCVWords_spec c) as (K & e1 & e2 & e3 & e4).
      cbv zeta in *. now rewrite e1, e2.
    + split; [apply menuKept_refl|]. repeat split; reflexivity.
Qed.

(** The texts being different objects, a text is the value of one
    variable at most, or a word. *)
Lemma isText_true v m : isText v m = true <-> v = Some m.
Proof. unfold isText. apply bool_decide_eq_true. Qed.

Lemma isText_false v m : isText v m = false <-> v <> Some m.
Proof. unfold isText. apply bool_decide_eq_false. Qed.

Lemma nonNull_cons v vs :
  nonNull (v :: vs)
  = match v with Some r => r :: nonNull vs | None => nonNull vs end.
Proof. unfold nonNull. cbn [omap]. now destruct v. Qed.

Lemma elem_of_nonNull r vs : r ∈ nonNull vs <-> Some r ∈ vs.
Proof.
  unfold nonNull. rewrite list_elem_of_omap. split.
  - intros (x & Hx & E). cbn in E. now subst.
  - intros H. exists (Some r). split; [exact H|reflexivity].
Qed.

Lemma NoDup_nonNull_lookup vs : forall i j m,
  NoDup (nonNull vs) ->
  vs !! i = Some (Some m) -> vs !! j = Some (Some m) -> i = j.
Proof.
  induction vs as [|v vs IH]; intros i j m Hnd Hi Hj; [discriminate|].
  rewrite nonNull_cons in Hnd.
  destruct i as [|i], j as [|j]; cbn in Hi, Hj.
  - reflexivity.
  - injection Hi as ->. apply NoDup_cons in Hnd as [Hn _].
    exfalso. apply Hn. apply elem_of_nonNull.
    now apply list_elem_of_lookup_2 in Hj.
  - injection Hj as ->. apply NoDup_cons in Hnd as [Hn _].
    exfalso. apply Hn. apply elem_of_nonNull.
    now apply list_elem_of_lookup_2 in Hi.
  - f_equal. apply (IH i j m); [|exact Hi|exact Hj].
    destruct v; [now apply NoDup_cons in Hnd|exact Hnd].
Qed.

Lemma distinctTexts_roles o m :
  distinctTexts o ->
  let vs := [textMesh o; workTextMesh o; cvTextMesh o; contactTextMesh o;
             emailTextMesh o] in
  (forall i j, vs !! i = Some (Some m) -> vs !! j = Some (Some m) -> i = j)
  /\ (Some m ∈ vs -> m ∉ cvWords o).
Proof.
  intros Hd vs. unfold distinctTexts in Hd. fold vs in Hd.
  apply NoDup_app in Hd as (Hnd & Hdis & _). split.
  - intros i j. now apply NoDup_nonNull_lookup.
  - intros Hin. apply Hdis. now apply elem_of_nonNull.
Qed.

(** The flags after the three tests, from the flags before and what the
    text that was hit is. *)
Lemma click_flags m c0 :
  let c' := clickCV m (clickContact m (clickTitle m c0)) in
  let o := overlay c0 in
  let T := isText (textMesh o) m || isText (workTextMesh o) m in
  let E1 := if T then false else showingEmail o in
  let V1 := if T then false else showingCV o in
  let E2 := if isText (contactTextMesh o) m && negb E1 && negb V1 then true
            else if isText (emailTextMesh o) m && E1 then false else E1 in
  clickKept c0 c'
  /\ showingEmail (overlay c') = E2
  /\ showingCV (overlay c')
     = (if isText (cvTextMesh o) m && negb V1 && negb E2 then true
        else if V1 && bool_decide (m ∈ cvWords o) then false else V1)
  /\ isCameraZoomedOut (rig c')
     = (if T then negb (isCameraZoomedOut (rig c0))
        else isCameraZoomedOut (rig c0))
  /\ (T = false -> targetCameraZ (state c') = targetCameraZ (state c0)).
Proof.
  cbv zeta.
  destruct (clickTitle_spec m c0) as (K1 & _ & N1 & Y1). cbv zeta in *.
  set (c1 := clickTitle m c0) in *.
  destruct (clickContact_spec m c1) as (K2 & V2 & E2 & _). cbv zeta in *.
  set (c2 := clickContact m c1) in *.
  destruct (clickCV_spec m c2) as (K3 & E3 & V3). cbv zeta in *.
  set (c3 := clickCV m c2) in *.
  pose proof (clickKept_of_menuKept _ _ K2) as CK2.
  pose proof (clickKept_of_menuKept _ _ K3) as CK3.
  assert (CK : clickKept c0 c3).
  { eapply clickKept_trans; [exact K1|].
    eapply clickKept_trans; [exact CK2|exact CK3]. }
  split; [exact CK|].
  rewrite E3, V3, V2, E2.
  rewrite (click_cvTextMesh _ _ CK2), (click_cvWords _ _ CK2).
  rewrite (click_cvTextMesh _ _ K1), (click_cvWords _ _ K1).
  rewrite (click_contactTextMesh _ _ K1), (click_emailTextMesh _ _ K1).
  rewrite (kept_rig _ _ K3), (kept_rig _ _ K2).
  assert (Hz : targetCameraZ (state c3) = targetCameraZ (state c1)).
  { rewrite (kept_state _ _ K3), (kept_state _ _ K2). reflexivity. }
  rewrite Hz.
  destruct (isText (textMesh (overlay c0)) m
            || isText (workTextMesh (overlay c0)) m).
  - destruct (Y1 eq_refl) as (e1 & v1 & z1 & _). rewrite e1, v1, z1.
    repeat split; try reflexivity. discriminate.
  - rewrite (N1 eq_refl). repeat split; reflexivity.
Qed.

(** X21.  Clicks and the menu.  The email and the words of the CV are never
    shown together: a click keeps it so.  Without a raycaster, without a
    camera or when no text is hit, a click changes neither the menu nor
    the zoom.  With the texts being different objects, a click on the
    title or on WORK closes the email and the CV and toggles the zoom; on
    CONTACT it shows the email unless the CV is shown; on the email it
    closes it; on CV it shows the words unless the email is shown; on a
    word it closes the CV; and only the title and WORK touch the zoom and
    the camera target.  A click never changes which texts there are. *)
Theorem handleClick_menu x y hits c :
  showingEmail (overlay c) && showingCV (overlay c) = false ->
  let c' := handleClick x y hits c in
  let o := overlay c in
  let o' := overlay c' in
  showingEmail o' && showingCV o' = false
  /\ clickKept c c'
  /\ (raycaster (rig c) = false \/ camera (state c) = None \/ hits = [] ->
      showingEmail o' = showingEmail o /\ showingCV o' = showingCV o
      /\ isCameraZoomedOut (rig c') = isCameraZoomedOut (rig c)
      /\ state c' = state c)
  /\ forall m rest,
       raycaster (rig c) = true -> camera (state c) <> None ->
       hits = m :: rest -> distinctTexts o ->
       (textMesh o = Some m \/ workTextMesh o = Some m ->
        showingEmail o' = false /\ showingCV o' = false
        /\ isCameraZoomedOut (rig c') = negb (isCameraZoomedOut (rig c)))
       /\ (contactTextMesh o = Some m ->
           showingEmail o' = showingEmail o || negb (showingCV o)
           /\ showingCV o' = showingCV o)
       /\ (emailTextMesh o = Some m ->
           showingEmail o' = false /\ showingCV o' = showingCV o)
       /\ (cvTextMesh o = Some m ->
           showingCV o' = showingCV o || negb (showingEmail o)
           /\ showingEmail o' = showingEmail o)
       /\ (m ∈ cvWords o ->
           showingCV o' = false /\ showingEmail o' = showingEmail o)
       /\ (textMesh o <> Some m -> workTextMesh o <> Some m ->
           isCameraZoomedOut (rig c') = isCameraZoomedOut (rig c)
           /\ targetCameraZ (state c') = targetCameraZ (state c)).
Proof.
  intros Hex c' o o'. unfold o', c', o, handleClick.
  destruct (raycaster (rig c)) eqn:Hray.
  2: { split; [exact Hex|]. split; [apply clickKept_refl|].
       split; [intros _; repeat split; reflexivity|].
       intros m rest N. discriminate. }
  destruct (camera (state c)) as [cam|] eqn:Hcam.
  2: { split; [exact Hex|]. split; [apply clickKept_refl|].
       split; [intros _; repeat split; reflexivity|].
       intros m rest _ N. now contradiction N. }
  set (c0 := mapRig _ c).
  assert (K0 : clickKept c c0) by (split; reflexivity).
  destruct hits as [|m hits].
  { split; [exact Hex|]. split; [exact K0|].
    split; [intros _; repeat split; reflexivity|].
    intros m rest _ _ N. discriminate. }
  destruct (click_flags m c0) as (CK & E' & V' & Z' & TZ). cbv zeta in *.
  change (overlay c0) with (overlay c) in *.
  change (isCameraZoomedOut (rig c0)) with (isCameraZoomedOut (rig c)) in *.
  change (state c0) with (state c) in *.
  set (cf := clickCV m _) in *.
  split.
  { rewrite E', V'.
    destruct (showingEmail (overlay c)), (showingCV (overlay c)),
      (isText (textMesh (overlay c)) m || isText (workTextMesh (overlay c)) m),
      (isText (contactTextMesh (overlay c)) m),
      (isText (emailTextMesh (overlay c)) m),
      (isText (cvTextMesh (overlay c)) m),
      (bool_decide (m ∈ cvWords (overlay c)));
      try reflexivity; discriminate. }
  split; [eapply clickKept_trans; [exact K0|exact CK]|].
  split; [intros [N|[N|N]]; discriminate|].
  intros m' rest _ _ Hm Hd. injection Hm as <- <-.
  destruct (distinctTexts_roles (overlay c) m Hd) as [Hone Hw].
  cbv zeta in Hone, Hw.
  assert (R : forall i j v w,
              [textMesh (overlay c); workTextMesh (overlay c);
               cvTextMesh (overlay c); contactTextMesh (overlay c);
               emailTextMesh (overlay c)] !! i = Some v ->
              [textMesh (overlay c); workTextMesh (overlay c);
               cvTextMesh (overlay c); contactTextMesh (overlay c);
               emailTextMesh (overlay c)] !! j = Some w ->
              i <> j -> v = Some m -> isText w m = false).
  { intros i j v w Hi Hj Hne ->. apply isText_false. intros ->.
    apply Hne. now apply Hone. }
  assert (Wn : forall i v,
              [textMesh (overlay c); workTextMesh (overlay c);
               cvTextMesh (overlay c); contactTextMesh (overlay c);
               emailTextMesh (overlay c)] !! i = Some v ->
              v = Some m -> bool_decide (m ∈ cvWords (overlay c)) = false).
  { intros i v Hi ->. apply bool_decide_eq_false. apply Hw.
    now apply list_elem_of_lookup_2 in Hi. }
  assert (Wy : forall i v,
              [textMesh (overlay c); workTextMesh (overlay c);
               cvTextMesh (overlay c); contactTextMesh (overlay c);
               emailTextMesh (overlay c)] !! i = Some v ->
              m ∈ cvWords (overlay c) -> isText v m = false).
  { intros i v Hi Hin. apply isText_false. intros ->.
    apply list_elem_of_lookup_2 in Hi. now apply Hw in Hi. }
  rewrite E', V', Z'.
  split.
  { intros [Ht|Ht].
    - apply isText_true in Ht as Ht'. rewrite Ht'. cbn [orb].
      rewrite (R 0%nat 3%nat _ _ eq_refl eq_refl ltac:(lia) Ht),
        (R 0%nat 4%nat _ _ eq_refl eq_refl ltac:(lia) Ht),
        (R 0%nat 2%nat _ _ eq_refl eq_refl ltac:(lia) Ht).
      cbn. repeat split; reflexivity.
    - apply isText_true in Ht as Ht'. rewrite Ht'. rewrite orb_true_r.
      rewrite (R 1%nat 3%nat _ _ eq_refl eq_refl ltac:(lia) Ht),
        (R 1%nat 4%nat _ _ eq_refl eq_refl ltac:(lia) Ht),
        (R 1%nat 2%nat _ _ eq_refl eq_refl ltac:(lia) Ht).
      cbn. repeat split; reflexivity. }
  split.
  { intros Ht. apply isText_true in Ht as Ht'. rewrite Ht'.
    rewrite (R 3%nat 0%nat _ _ eq_refl eq_refl ltac:(lia) Ht),
      (R 3%nat 1%nat _ _ eq_refl eq_refl ltac:(lia) Ht),
      (R 3%nat 2%nat _ _ eq_refl eq_refl ltac:(lia) Ht),
      (R 3%nat 4%nat _ _ eq_refl eq_refl ltac:(lia) Ht),
      (Wn 3%nat _ eq_refl Ht).
    clear -Hex.
    destruct (showingEmail (overlay c)), (showingCV (overlay c));
      try discriminate; split; reflexivity. }
  split.
  { intros Ht. apply isText_true in Ht as Ht'. rewrite Ht'.
    rewrite (R 4%nat 0%nat _ _ eq_refl eq_refl ltac:(lia) Ht),
      (R 4%nat 1%nat _ _ eq_refl eq_refl ltac:(lia) Ht),
      (R 4%nat 2%nat _ _ eq_refl eq_refl ltac:(lia) Ht),
      (R 4%nat 3%nat _ _ eq_refl eq_refl ltac:(lia) Ht),
      (Wn 4%nat _ eq_refl Ht).
    clear -Hex.
    destruct (showingEmail (overlay c)), (showingCV (overlay c));
      try discriminate; split; reflexivity. }
  split.
  { intros Ht. apply isText_true in Ht as Ht'. rewrite Ht'.
    rewrite (R 2%nat 0%nat _ _ eq_refl eq_refl ltac:(lia) Ht),
      (R 2%nat 1%nat _ _ eq_refl eq_refl ltac:(lia) Ht),
      (R 2%nat 3%nat _ _ eq_refl eq_refl ltac:(lia) Ht),
      (R 2%nat 4%nat _ _ eq_refl eq_refl ltac:(lia) Ht),
      (Wn 2%nat _ eq_refl Ht).
    clear -Hex.
    destruct (showingEmail (overlay c)), (showingCV (overlay c));
      try discriminate; split; reflexivity. }
  split.
  { intros Hin.
    rewrite (Wy 0%nat _ eq_refl Hin), (Wy 1%nat _ eq_refl Hin), (Wy 2%nat _ eq_refl Hin),
      (Wy 3%nat _ eq_refl Hin), (Wy 4%nat _ eq_refl Hin).
    rewrite (bool_decide_eq_true_2 _ Hin).
    clear -Hex.
    destruct (showingEmail (overlay c)), (showingCV (overlay c));
      try discriminate; split; reflexivity. }
  intros N1 N2. apply isText_false in N1, N2.
  rewrite N1, N2 in *. split; [reflexivity|]. now apply TZ.
Qed.

(** The rig and the state after the three tests. *)
Lemma click_rig m c0 :
  let c' := clickCV m (clickContact m (clickTitle m c0)) in
  rig c' = set_isCameraZoomedOut (isCameraZoomedOut (rig c')) (rig c0)
  /\ state c'
     = set_nextHandle (nextHandle (state c'))
         (set_targetCameraZ (targetCameraZ (state c')) (state c0))
  /\ (nextHandle (state c0) <= nextHandle (state c'))%nat
  /\ targetCameraZ (state c') = targetCameraZ (state (clickTitle m c0)).
Proof.
  cbv zeta.
  destruct (clickTitle_spec m c0) as (K1 & M1 & N1 & Y1). cbv zeta in *.
  set (c1 := clickTitle m c0) in *.
  destruct (clickContact_spec m c1) as (K2 & _). cbv zeta in *.
  set (c2 := clickContact m c1) in *.
  destruct (clickCV_spec m c2) as (K3 & _). cbv zeta in *.
  set (c3 := clickCV m c2) in *.
  pose proof (menuKept_trans _ _ _ K2 K3) as K.
  rewrite (kept_rig _ _ K).
  assert (H1 : rig c1 = set_isCameraZoomedOut (isCameraZoomedOut (rig c1))
                          (rig c0)
               /\ state c1
                  = set_nextHandle (nextHandle (state c1))
                      (set_targetCameraZ (targetCameraZ (state c1))
                         (state c0))).
  { destruct (isText (textMesh (overlay c0)) m
              || isText (workTextMesh (overlay c0)) m).
    - destruct (Y1 eq_refl) as (_ & _ & _ & Er & Es & _).
      split; [rewrite Er; reflexivity|exact Es].
    - rewrite (N1 eq_refl). split; [now destruct (rig c0)|].
      now destruct (state c0). }
  destruct H1 as [Hr Hs]. split; [exact Hr|].
  pose proof (kept_state _ _ K) as Hk.
  pose proof (kept_handle _ _ K) as Hh.
  assert (Et : targetCameraZ (state c3) = targetCameraZ (state c1))
    by (rewrite Hk; reflexivity).
  split; [|split; [lia|exact Et]].
  rewrite Hk at 1. rewrite Hs at 1. rewrite Et. now destruct (state c0).
Qed.

(** X22.  Clicks and the zoom.  A click on the title or on WORK toggles the
    zoom.  Zooming out sets the camera target to three times the distance
    the camera is at in that frame, not three times its target; zooming in
    calls the framer of the particles, so that the target stays where it
    was, zoomed out, when the framer does not run: during a transition.
    Nothing else of the state of the viewer changes but the next handle of
    the browser, which the animations of the menu take. *)
Theorem handleClick_zoom x y m rest c :
  raycaster (rig c) = true -> camera (state c) <> None ->
  textMesh (overlay c) = Some m \/ workTextMesh (overlay c) = Some m ->
  let c' := handleClick x y (m :: rest) c in
  isCameraZoomedOut (rig c') = negb (isCameraZoomedOut (rig c))
  /\ targetCameraZ (state c')
     = (if isCameraZoomedOut (rig c)
        then targetCameraZ (updateCameraForParticles (state c))
        else currentCameraZ (rig c) * Fin 3)
  /\ (isCameraZoomedOut (rig c) = true -> isTransitioning (state c) = true ->
      targetCameraZ (state c') = targetCameraZ (state c))
  /\ state c'
     = set_nextHandle (nextHandle (state c'))
         (set_targetCameraZ (targetCameraZ (state c')) (state c))
  /\ (nextHandle (state c) <= nextHandle (state c'))%nat
  /\ currentCameraZ (rig c') = currentCameraZ (rig c)
  /\ clickKept c c'.
Proof.
  intros Hray Hcam Hm c'. unfold c', handleClick. rewrite Hray.
  destruct (camera (state c)) as [cam|] eqn:Ec; [clear Hcam|now contradiction Hcam].
  set (c0 := mapRig _ c).
  destruct (click_rig m c0) as (Hr & Hs & Hn & Ht). cbv zeta in *.
  destruct (click_flags m c0) as (CK & _ & _ & Z' & _). cbv zeta in *.
  destruct (clickTitle_spec m c0) as (_ & _ & _ & Y1). cbv zeta in *.
  change (overlay c0) with (overlay c) in *.
  change (state c0) with (state c) in *.
  change (isCameraZoomedOut (rig c0)) with (isCameraZoomedOut (rig c)) in *.
  change (currentCameraZ (rig c0)) with (currentCameraZ (rig c)) in *.
  assert (T : isText (textMesh (overlay c)) m
              || isText (workTextMesh (overlay c)) m = true).
  { destruct Hm as [Hm|Hm]; apply isText_true in Hm; rewrite Hm;
      [reflexivity|apply orb_true_r]. }
  rewrite T in *. destruct (Y1 eq_refl) as (_ & _ & _ & _ & _ & Tz & _).
  set (cf := clickCV m _) in *.
  split; [exact Z'|]. rewrite Ht, Tz.
  split; [reflexivity|].
  split.
  { intros Hz Htr. rewrite Hz. unfold updateCameraForParticles.
    rewrite Htr. now destruct (camera (state c)), (currentParticles (state c)). }
  split; [rewrite <- Tz, <- Ht; exact Hs|].
  split; [exact Hn|].
  split; [rewrite Hr; reflexivity|].
  eapply clickKept_trans; [|exact CK]. split; reflexivity.
Qed.

(** ** The mouse and the render loop *)

(** X23.  The mouse.  For a pointer inside a window of positive size,
    [handleMouseMove] puts the mouse at [(2 x / w - 1, 2 y / h - 1)],
    both between -1 and 1, aims the rotation at 0.15 times these
    coordinates, hence within 0.15 either way, and gives the raycaster
    the point with the vertical coordinate reversed.  It changes nothing
    else.  A click at the same place gives the raycaster the same point,
    and leaves the aim of the rotation where it was. *)
Theorem handleMouseMove_range c (x y w h : Q) :
  innerWidth (state c) = Fin w -> innerHeight (state c) = Fin h ->
  (0 < w)%Q -> (0 < h)%Q ->
  (0 <= x)%Q -> (x <= w)%Q -> (0 <= y)%Q -> (y <= h)%Q ->
  let c' := handleMouseMove (Fin x) (Fin y) c in
  let mx := (x / w * 2 - 1)%Q in
  let my := (y / h * 2 - 1)%Q in
  ((-1 <= mx)%Q /\ (mx <= 1)%Q /\ (-1 <= my)%Q /\ (my <= 1)%Q)
  /\ mouseX (rig c') = Fin mx /\ mouseY (rig c') = Fin my
  /\ mouse (rig c') = (Fin mx, Fin (- my))
  /\ targetRotationY (rig c') = Fin (mx * 0.15)
  /\ targetRotationX (rig c') = Fin (- my * 0.15)
  /\ (Qabs (mx * 0.15) <= 0.15)%Q /\ (Qabs (- my * 0.15) <= 0.15)%Q
  /\ (state c' = state c /\ display c' = display c /\ page c' = page c
      /\ overlay c' = overlay c)
  /\ (currentRotationX (rig c') = currentRotationX (rig c)
      /\ currentRotationY (rig c') = currentRotationY (rig c)
      /\ currentCameraZ (rig c') = currentCameraZ (rig c)
      /\ isCameraZoomedOut (rig c') = isCameraZoomedOut (rig c)
      /\ camera_position (rig c') = camera_position (rig c)
      /\ raycaster (rig c') = raycaster (rig c))
  /\ forall hits,
       raycaster (rig c) = true -> camera (state c) <> None ->
       let k := handleClick (Fin x) (Fin y) hits c in
       (mouse (rig k)).1 = Fin mx /\ (mouse (rig k)).2 =~ Fin (- my)
       /\ targetRotationX (rig k) = targetRotationX (rig c)
       /\ targetRotationY (rig k) = targetRotationY (rig c)
       /\ mouseX (rig k) = mouseX (rig c) /\ mouseY (rig k) = mouseY (rig c).
Proof.
  intros Hw Hh W0 H0 X0 X1 Y0 Y1 c' mx my.
  assert (Mx : (0 <= x / w)%Q /\ (x / w <= 1)%Q).
  { split; [apply Qle_shift_div_l; lra|apply Qle_shift_div_r; lra]. }
  assert (My : (0 <= y / h)%Q /\ (y / h <= 1)%Q).
  { split; [apply Qle_shift_div_l; lra|apply Qle_shift_div_r; lra]. }
  split; [unfold mx, my; repeat split; lra|].
  unfold c', handleMouseMove. cbn [mapRig rig state display page overlay].
  rewrite Hw, Hh, (div_fin x w), (div_fin y h) by lra.
  cbn [mouseX mouseY mouse targetRotationX targetRotationY currentRotationX
       currentRotationY currentCameraZ isCameraZoomedOut camera_position
       raycaster JS.mul JS.sub JS.neg].
  fold mx my.
  do 5 (split; [reflexivity|]).
  split; [apply Qabs_Qle_condition; unfold mx; split; lra|].
  split; [apply Qabs_Qle_condition; unfold my; split; lra|].
  split; [repeat split; reflexivity|].
  split; [repeat split; reflexivity|].
  intros hits Hray Hcam. unfold handleClick. rewrite Hray.
  destruct (camera (state c)) as [cam|]; [|now contradiction Hcam].
  rewrite Hw, Hh, (div_fin x w), (div_fin y h) by lra.
  cbn [JS.mul JS.sub JS.neg JS.add].
  set (c0 := mapRig _ c).
  destruct hits as [|m hits].
  - unfold c0. cbn [mapRig rig mouse set_mouse fst snd targetRotationX
                    targetRotationY mouseX mouseY].
    repeat split; try reflexivity. unfold JS.eqv, my. ring.
  - destruct (click_rig m c0) as (-> & _). cbv zeta.
    unfold c0. cbn [mapRig rig mouse set_mouse set_isCameraZoomedOut fst snd
                    targetRotationX targetRotationY mouseX mouseY].
    repeat split; try reflexivity. unfold JS.eqv, my. ring.
Qed.

Lemma hoverKept_refl c : hoverKept c c.
Proof.
  split; try reflexivity; [now destruct (page c)|now destruct (overlay c)].
Qed.

Lemma hoverKept_trans c1 c2 c3 :
  hoverKept c1 c2 -> hoverKept c2 c3 -> hoverKept c1 c3.
Proof.
  intros [a1 a2 a3 a4 a5 a6] [b1 b2 b3 b4 b5 b6]. split; try congruence.
  - rewrite b4, a4. reflexivity.
  - rewrite b5, a5. reflexivity.
Qed.

Lemma updateText_hoverKept r f c : hoverKept c (updateText r f c).
Proof.
  split; unfold updateText; cbn [mapOverlay state display page rig overlay];
    try reflexivity.
  - now destruct (page c).
  - cbn [texts set_texts]. apply length_alter.
Qed.

Lemma resetGlow_hoverKept v c : hoverKept c (resetGlow v c).
Proof.
  destruct v; [apply updateText_hoverKept|apply hoverKept_refl].
Qed.

Lemma set_cursor_hoverKept v c : hoverKept c (mapPage (set_cursor v) c).
Proof.
  split; cbn [mapPage state display page rig overlay]; try reflexivity.
  now destruct (overlay c).
Qed.

Lemma forEach_hoverKept (l : list nat) f : forall i c,
  hoverKept c (forEach l i (fun mesh _ c' => updateText mesh f c') c).
Proof.
  induction l as [|r l IH]; intros i c; cbn [forEach];
    [apply hoverKept_refl|].
  eapply hoverKept_trans; [apply updateText_hoverKept|apply IH].
Qed.

Lemma hover_hoverKept hits c : hoverKept c (hover hits c).
Proof.
  unfold hover.
  set (c1 := if negb _ then _ else c).
  assert (K1 : hoverKept c c1).
  { unfold c1. destruct (negb _);
      [apply resetGlow_hoverKept|apply hoverKept_refl]. }
  set (c2 := if negb _ && negb _ then _ else c1).
  assert (K2 : hoverKept c1 c2).
  { unfold c2. destruct (negb _ && negb _); [|apply hoverKept_refl].
    eapply hoverKept_trans; [apply resetGlow_hoverKept|].
    eapply hoverKept_trans; apply resetGlow_hoverKept. }
  set (c3 := if showingEmail _ then _ else c2).
  assert (K3 : hoverKept c2 c3).
  { unfold c3. destruct (showingEmail _);
      [apply resetGlow_hoverKept|apply hoverKept_refl]. }
  set (c4 := if showingCV _ then _ else c3).
  assert (K4 : hoverKept c3 c4).
  { unfold c4. destruct (showingCV _);
      [apply forEach_hoverKept|apply hoverKept_refl]. }
  assert (K : hoverKept c c4).
  { eapply hoverKept_trans; [exact K1|].
    eapply hoverKept_trans; [exact K2|].
    eapply hoverKept_trans; [exact K3|exact K4]. }
  destruct hits as [|m hits].
  - destruct (containerRef (page c4)); [|exact K].
    eapply hoverKept_trans; [exact K|apply set_cursor_hoverKept].
  - destruct ((textValue opacity c4 m >? Fin 0.1)
              && (textValue scale_x c4 m >? Fin 0.1)); [|exact K].
    set (c5 := updateText m _ c4).
    assert (K5 : hoverKept c c5).
    { eapply hoverKept_trans; [exact K|apply updateText_hoverKept]. }
    destruct (containerRef (page c5)); [|exact K5].
    eapply hoverKept_trans; [exact K5|apply set_cursor_hoverKept].
Qed.

(** One frame of the render loop. *)
Lemma animate_step hits c :
  renderer (display c) <> None -> sceneCreated (page c) = true ->
  camera (state c) <> None ->
  let c' := animate hits c in
  let r := rig c in
  let z := currentCameraZ r
           + (targetCameraZ (state c) - currentCameraZ r) * Fin 0.01 in
  let rx := currentRotationX r
            + (targetRotationX r - currentRotationX r) * Fin 0.05 in
  let ry := currentRotationY r
            + (targetRotationY r - currentRotationY r) * Fin 0.05 in
  state c' = requestAnimationFrame (state c)
  /\ display c' = display c
  /\ page c' = set_cursor (cursor (page c')) (page c)
  /\ overlay c'
     = set_dateNowCalls (S (S (dateNowCalls (overlay c))))
         (set_texts (texts (overlay c')) (overlay c))
  /\ length (texts (overlay c')) = length (texts (overlay c))
  /\ rig c'
     = set_camera_position
         (Math_sin (Date_now (dateNowCalls (overlay c)) * Fin 0.0001) * Fin 2
          + ry * Fin 2,
          Math_cos (Date_now (S (dateNowCalls (overlay c))) * Fin 0.0001)
          * Fin 2 + rx * Fin 2,
          z)
         (set_currentRotationY ry
            (set_currentRotationX rx (set_currentCameraZ z r))).
Proof.
  intros Hr Hs Hc. cbv zeta. unfold animate.
  destruct (renderer (display c)); [|now contradiction Hr].
  rewrite Hs. destruct (camera (state c)); [|now contradiction Hc].
  set (c1 := mapRig _ c).
  set (c2 := if raycaster (rig c1) then hover hits c1 else c1).
  assert (K : hoverKept c1 c2).
  { unfold c2. destruct (raycaster (rig c1));
      [apply hover_hoverKept|apply hoverKept_refl]. }
  destruct K as [k1 k2 k3 k4 k5 k6].
  unfold dateNow.
  cbn [mapRig mapState mapOverlay state display page rig overlay].
  rewrite k1, k2, k3, k4, k5.
  unfold c1. cbn [mapRig mapState mapOverlay state display page rig overlay].
  cbn [dateNowCalls set_texts set_dateNowCalls texts].
  split; [reflexivity|]. split; [reflexivity|].
  split; [now destruct (page c)|].
  split; [now destruct (overlay c)|].
  split; [exact k6|]. reflexivity.
Qed.

Lemma animateLoop_cons i hits c :
  animateLoop (i :: hits) c = animateLoop hits (animate i c).
Proof. reflexivity. Qed.

(** Frames of the render loop in a row. *)
Lemma animateLoop_spec hits : forall c (t z tx rx ty ry : Q),
  renderer (display c) <> None -> sceneCreated (page c) = true ->
  camera (state c) <> None ->
  targetCameraZ (state c) = Fin t -> currentCameraZ (rig c) = Fin z ->
  targetRotationX (rig c) = Fin tx -> currentRotationX (rig c) = Fin rx ->
  targetRotationY (rig c) = Fin ty -> currentRotationY (rig c) = Fin ry ->
  let n := length hits in
  let c' := animateLoop hits c in
  exists z' rx' ry',
    currentCameraZ (rig c') = Fin z'
    /\ currentRotationX (rig c') = Fin rx'
    /\ currentRotationY (rig c') = Fin ry'
    /\ (z' - t == Qpow 0.99 n * (z - t))%Q
    /\ (rx' - tx == Qpow 0.95 n * (rx - tx))%Q
    /\ (ry' - ty == Qpow 0.95 n * (ry - ty))%Q
    /\ targetCameraZ (state c') = Fin t
    /\ targetRotationX (rig c') = Fin tx
    /\ targetRotationY (rig c') = Fin ty
    /\ ((0 < n)%nat -> (camera_position (rig c')).2 = Fin z')
    /\ nextHandle (state c') = (nextHandle (state c) + n)%nat
    /\ frames (state c') = frames (state c) ++ seq (nextHandle (state c)) n
    /\ ((0 < n)%nat ->
        animationFrameId (state c') = Some (nextHandle (state c) + n - 1)%nat)
    /\ state c'
       = set_animationFrameId (animationFrameId (state c'))
           (set_frames (frames (state c'))
              (set_nextHandle (nextHandle (state c')) (state c)))
    /\ display c' = display c
    /\ dateNowCalls (overlay c') = (dateNowCalls (overlay c) + 2 * n)%nat
    /\ length (texts (overlay c')) = length (texts (overlay c))
    /\ mouse (rig c') = mouse (rig c)
    /\ isCameraZoomedOut (rig c') = isCameraZoomedOut (rig c).
Proof.
  induction hits as [|i hits IH];
    intros c t z tx rx ty ry Hr Hs Hc Ht Hz Htx Hrx Hty Hry n c'.
  - exists z, rx, ry. unfold c', n. cbn [animateLoop length Qpow].
    repeat split; try assumption; try reflexivity; try lia; try ring.
    all: first [ cbn [seq]; now rewrite app_nil_r
               | now destruct (state c) ].
  - unfold c', n. rewrite animateLoop_cons. cbn [length].
    destruct (animate_step i c Hr Hs Hc) as (Es & Ed & Ep & Eo & El & Er).
    cbv zeta in *.
    set (c1 := animate i c) in *.
    rewrite Ht, Hz, Htx, Hrx, Hty, Hry in Er. cbn [JS.add JS.sub JS.mul] in Er.
    destruct (IH c1 t (z + (t - z) * 0.01)%Q tx (rx + (tx - rx) * 0.05)%Q
                ty (ry + (ty - ry) * 0.05)%Q)
      as (z' & rx' & ry' & a1 & a2 & a3 & a4 & a5 & a6 & a7 & a8 & a9 & a10
          & a11 & a12 & a13 & a14 & a15 & a16 & a17 & a18 & a19).
    + now rewrite Ed.
    + rewrite Ep. cbn [sceneCreated set_cursor]. exact Hs.
    + rewrite Es. exact Hc.
    + rewrite Es. exact Ht.
    + rewrite Er. reflexivity.
    + rewrite Er. exact Htx.
    + rewrite Er. reflexivity.
    + rewrite Er. exact Hty.
    + rewrite Er. reflexivity.
    + cbv zeta in *. exists z', rx', ry'.
      split; [exact a1|]. split; [exact a2|]. split; [exact a3|].
      split; [rewrite a4; cbn [Qpow]; ring|].
      split; [rewrite a5; cbn [Qpow]; ring|].
      split; [rewrite a6; cbn [Qpow]; ring|].
      split; [exact a7|]. split; [exact a8|]. split; [exact a9|].
      split.
      { intros _. destruct hits as [|j hits'].
        - cbn [animateLoop] in *. rewrite Er in a1 |- *.
          cbn [camera_position set_camera_position snd] in *.
          cbn [currentCameraZ set_camera_position set_currentRotationY
               set_currentRotationX set_currentCameraZ] in a1.
          exact a1.
        - apply a10. cbn [length]. lia. }
      rewrite Es in a11, a12, a13.
      cbn [nextHandle frames requestAnimationFrame set_animationFrameId
           set_frames set_nextHandle] in a11, a12, a13.
      split; [rewrite a11; lia|].
      split; [rewrite a12, <- app_assoc; reflexivity|].
      split.
      { intros _. destruct hits as [|j hits'].
        - cbn [animateLoop length]. rewrite Es.
          cbn [animationFrameId requestAnimationFrame set_animationFrameId].
          f_equal. lia.
        - rewrite a13 by (cbn [length]; lia). f_equal. cbn [length]. lia. }
      split.
      { rewrite a14 at 1. rewrite Es. now destruct (state c). }
      split; [rewrite a15; exact Ed|].
      split; [rewrite a16, Eo; cbn [dateNowCalls set_dateNowCalls]; lia|].
      split; [rewrite a17; exact El|].
      split; [rewrite a18, Er; reflexivity|].
      rewrite a19, Er. reflexivity.
Qed.


(** ** The words of the CV *)

Lemma div4_S i :
  (S i / 4 = i / 4 + (if (S i mod 4 =? 0) then 1 else 0))%nat.
Proof.
  pose proof (Nat.div_mod_eq i 4) as E1.
  pose proof (Nat.div_mod_eq (S i) 4) as E2.
  pose proof (Nat.mod_upper_bound i 4 ltac:(lia)) as B1.
  pose proof (Nat.mod_upper_bound (S i) 4 ltac:(lia)) as B2.
  destruct (S i mod 4 =? 0)%nat eqn:E.
  - apply Nat.eqb_eq in E. lia.
  - apply Nat.eqb_neq in E. lia.
Qed.

(** What the body of the loop does for the word [i]. *)
Lemma placeWord_step (all : list string) w i cy ci c :
  all !! i = Some w -> (ci < 3)%nat ->
  exists x,
    placeWord cvWordColors (Fin 0.06) 4 w i
      (cvCurrentX all i, Fin cy, ci, c)
    = (cvCurrentX all (S i),
       Fin (if (S i mod 4 =? 0)%nat then cy - 0.06 else cy)%Q,
       ((ci + 1) mod 3)%nat, addWord x c)
    /\ opacity x = Fin 0 /\ scale_x x = Fin 0
    /\ emissiveIntensity x = Fin 0.5
    /\ text_geometry_disposed x = 0%nat
    /\ text_material_disposed x = 0%nat
    /\ cvWordColors !! ci = Some (color x)
    /\ position x = (wordX (cvCurrentX all i) w, Fin cy, Fin 0.1).
Proof.
  intros Hw Hci.
  assert (Hcol : exists col, cvWordColors !! ci = Some col).
  { destruct ci as [|[|[|ci]]]; [eexists; reflexivity..|lia]. }
  destruct Hcol as [col Hcol].
  unfold placeWord, wordX. cbn [cvCurrentX]. rewrite Hw, Hcol.
  rewrite Nat.add_1_r. cbn [default length cvWordColors].
  destruct (wordBoundingBox w) as [[mn mx]|];
    destruct (S i mod 4 =? 0)%nat; eexists;
    (split; [reflexivity|repeat split; reflexivity]).
Qed.

Lemma addWord_spec x c :
  let c' := addWord x c in
  let n := length (texts (overlay c)) in
  state c' = state c /\ display c' = display c /\ page c' = page c
  /\ rig c' = rig c
  /\ texts (overlay c') = texts (overlay c) ++ [x]
  /\ textChildren (overlay c') = textChildren (overlay c) ++ [n]
  /\ arrays (overlay c')
     = alter (fun a => a ++ [n]) (cvTextMeshes (overlay c))
         (arrays (overlay c))
  /\ overlay c'
     = set_arrays (arrays (overlay c'))
         (set_textChildren (textChildren (overlay c'))
            (set_texts (texts (overlay c')) (overlay c))).
Proof.
  cbv zeta. unfold addWord. cbn [mapOverlay state display page rig overlay].
  repeat split; reflexivity.
Qed.

(** The loop over the words, from the word [i] on. *)
Lemma placeWord_loop (all : list string) :
  forall ws i (cy : Q) ci c,
    drop i all = ws -> (ci < 3)%nat ->
    let res :=
      forEach ws i (placeWord cvWordColors (Fin 0.06) 4)
        (cvCurrentX all i, Fin cy, ci, c) in
    let c' := res.2 in
    let n := length (texts (overlay c)) in
    state c' = state c /\ display c' = display c /\ page c' = page c
    /\ rig c' = rig c
    /\ textChildren (overlay c')
       = textChildren (overlay c) ++ seq n (length ws)
    /\ arrays (overlay c')
       = alter (fun a => a ++ seq n (length ws)) (cvTextMeshes (overlay c))
           (arrays (overlay c))
    /\ overlay c'
       = set_arrays (arrays (overlay c'))
           (set_textChildren (textChildren (overlay c'))
              (set_texts (texts (overlay c')) (overlay c)))
    /\ exists news,
         texts (overlay c') = texts (overlay c) ++ news
         /\ length news = length ws
         /\ forall k word,
              ws !! k = Some word ->
              exists x y,
                news !! k = Some x
                /\ opacity x = Fin 0 /\ scale_x x = Fin 0
                /\ emissiveIntensity x = Fin 0.5
                /\ text_geometry_disposed x = 0%nat
                /\ text_material_disposed x = 0%nat
                /\ cvWordColors !! ((ci + k) mod 3)%nat = Some (color x)
                /\ position x
                   = (wordX (cvCurrentX all (i + k)) word, Fin y, Fin 0.1)
                /\ (y == cy - 0.06 * inject_Z
                                    (Z.of_nat ((i + k) / 4 - i / 4)))%Q.
Proof.
  induction ws as [|w ws IH]; intros i cy ci c Hd Hci res c' n.
  - unfold c', res. cbn [forEach snd length seq].
    do 4 (split; [reflexivity|]).
    split; [now rewrite app_nil_r|].
    split.
    { symmetry. apply list_alter_id. intros a. apply app_nil_r. }
    split; [now destruct (overlay c)|].
    exists []. rewrite app_nil_r. split; [reflexivity|]. split; [reflexivity|].
    intros k word Hk. discriminate.
  - assert (Hw : all !! i = Some w).
    { rewrite <- (Nat.add_0_r i), <- lookup_drop, Hd. reflexivity. }
    assert (Hd' : drop (S i) all = ws).
    { rewrite (drop_S _ _ _ Hw) in Hd. now injection Hd. }
    unfold c', res. cbn [forEach].
    destruct (placeWord_step all w i cy ci c Hw Hci)
      as (x & -> & x1 & x2 & x3 & x4 & x5 & x6 & x7).
    destruct (addWord_spec x c) as (s1 & s2 & s3 & s4 & s5 & s6 & s7 & s8).
    cbv zeta in *. set (c1 := addWord x c) in *.
    assert (Hci' : ((ci + 1) mod 3 < 3)%nat)
      by (apply Nat.mod_upper_bound; lia).
    destruct (IH (S i)
                (if (S i mod 4 =? 0)%nat then (cy - 0.06)%Q else cy)
                ((ci + 1) mod 3)%nat c1 Hd' Hci')
      as (e1 & e2 & e3 & e4 & e5 & e6 & e7 & news & t1 & t2 & t3).
    cbv zeta in *.
    set (cf := (forEach ws (S i) _ _).2) in *.
    assert (Hn1 : length (texts (overlay c1)) = S n).
    { rewrite s5, length_app. cbn [length]. unfold n. lia. }
    rewrite Hn1 in *.
    split; [congruence|]. split; [congruence|]. split; [congruence|].
    split; [congruence|].
    split.
    { rewrite e5, s6, <- app_assoc. reflexivity. }
    split.
    { rewrite e6, s7.
      replace (cvTextMeshes (overlay c1)) with (cvTextMeshes (overlay c))
        by (rewrite s8; reflexivity).
      rewrite list_alter_alter_eq. apply list_alter_ext; [|reflexivity].
      intros a _. cbn [compose length seq]. now rewrite <- app_assoc. }
    split.
    { rewrite e7. rewrite s8. reflexivity. }
    exists (x :: news). split; [rewrite t1, s5, <- app_assoc; reflexivity|].
    split; [cbn [length]; now rewrite t2|].
    intros k word Hk. destruct k as [|k].
    + injection Hk as <-. exists x, cy. cbn [lookup list_lookup].
      rewrite !Nat.add_0_r, Nat.mod_small by exact Hci.
      do 7 (split; [assumption || reflexivity|]).
      split; [exact x7|]. rewrite Nat.sub_diag. cbn. ring.
    + cbn [lookup list_lookup] in Hk |- *.
      destruct (t3 k word Hk)
        as (x' & y & y0 & y1 & y2 & y3 & y4 & y5 & y6 & y7 & y8).
      exists x', y. split; [exact y0|].
      do 5 (split; [assumption|]).
      split.
      { rewrite <- y6. f_equal.
        rewrite Nat.Div0.add_mod_idemp_l. f_equal. lia. }
      split.
      { rewrite y7. replace (S i + k)%nat with (i + S k)%nat by lia.
        reflexivity. }
      rewrite y8. replace (S i + k)%nat with (i + S k)%nat by lia.
      pose proof (div4_S i) as D.
      assert (Hle : (S i / 4 <= (i + S k) / 4)%nat)
        by (apply Nat.Div0.div_le_mono; lia).
      destruct (S i mod 4 =? 0)%nat.
      * replace ((i + S k) / 4 - i / 4)%nat
          with (S ((i + S k) / 4 - S i / 4))%nat by lia.
        rewrite Nat2Z.inj_succ. unfold Z.succ. rewrite inject_Z_plus.
        change (inject_Z 1) with 1%Q. ring.
      * replace ((i + S k) / 4 - i / 4)%nat
          with ((i + S k) / 4 - S i / 4)%nat by lia.
        reflexivity.
Qed.

(** The ordinate of the first row (lines 1271-1274). *)
Lemma cv_startY :
  exists q,
    ((Math_ceil (ofNat (length cvWordList) / ofNat 4) - Fin 1) * Fin 0.06
     + Fin 0.04) / Fin 2 = Fin q
    /\ (q == 0.17)%Q.
Proof. eexists. split; [vm_compute; reflexivity|reflexivity]. Qed.

(** X25.  The words of the CV.  When the font arrives the loader adds the 23
    words as 23 new texts, after the texts there are, to the scene and to
    [cvTextMeshes], and touches nothing else.  Each starts hidden, with
    opacity 0 and scale 0.  The colours go round cyan, magenta and yellow.
    The words stand four to a row in six rows 0.06 apart, the first at
    height 0.17 and the last at -0.13, so that the block is centred; each
    row starts at the abscissa -0.6, and a word starts where the word
    before it in the row ends plus 0.06. *)
Theorem cvWordsLoaded_layout c :
  let c' := cvWordsLoaded c in
  let n := length (texts (overlay c)) in
  length cvWordList = 23%nat
  /\ state c' = state c /\ display c' = display c /\ page c' = page c
  /\ rig c' = rig c
  /\ overlay c'
     = set_arrays (arrays (overlay c'))
         (set_textChildren (textChildren (overlay c'))
            (set_texts (texts (overlay c')) (overlay c)))
  /\ textChildren (overlay c') = textChildren (overlay c) ++ seq n 23
  /\ arrays (overlay c')
     = alter (fun a => a ++ seq n 23) (cvTextMeshes (overlay c))
         (arrays (overlay c))
  /\ length (texts (overlay c')) = (n + 23)%nat
  /\ (forall r, (r < n)%nat ->
        texts (overlay c') !! r = texts (overlay c) !! r)
  /\ forall k word,
       cvWordList !! k = Some word ->
       exists x y,
         texts (overlay c') !! (n + k)%nat = Some x
         /\ opacity x = Fin 0 /\ scale_x x = Fin 0
         /\ emissiveIntensity x = Fin 0.5
         /\ text_geometry_disposed x = 0%nat
         /\ text_material_disposed x = 0%nat
         /\ cvWordColors !! (k mod 3)%nat = Some (color x)
         /\ position x
            = (wordX (cvCurrentX cvWordList k) word, Fin y, Fin 0.1)
         /\ (y == 0.17 - 0.06 * inject_Z (Z.of_nat (k / 4)))%Q
         /\ (-0.13 <= y)%Q /\ (y <= 0.17)%Q
         /\ ((k mod 4 = 0)%nat -> cvCurrentX cvWordList k = Fin (-0.6)).
Proof.
  intros c' n. split; [reflexivity|].
  destruct cv_startY as (q & Eq & Hq).
  unfold c', cvWordsLoaded. cbv zeta. rewrite Eq.
  destruct (placeWord_loop cvWordList cvWordList 0 q 0 c eq_refl ltac:(lia))
    as (e1 & e2 & e3 & e4 & e5 & e6 & e7 & news & t1 & t2 & t3).
  cbv zeta in *. change (cvCurrentX cvWordList 0) with (Fin (-0.6)) in *.
  set (cf := (forEach cvWordList 0 _ _).2) in *.
  change (length cvWordList) with 23%nat in *. fold n in e5, e6.
  do 4 (split; [assumption|]).
  split; [exact e7|]. split; [exact e5|]. split; [exact e6|].
  split; [rewrite t1, length_app, t2; reflexivity|].
  split; [intros r Hr; rewrite t1; now apply lookup_app_l|].
  intros k word Hk.
  destruct (t3 k word Hk)
    as (x & y & y0 & y1 & y2 & y3 & y4 & y5 & y6 & y7 & y8).
  cbn [Nat.add] in y6, y7, y8.
  assert (Hk23 : (k < 23)%nat) by (apply lookup_lt_Some in Hk; exact Hk).
  exists x, y.
  split.
  { rewrite t1, lookup_app_r by (unfold n; lia).
    replace (n + k - length (texts (overlay c)))%nat with k by (unfold n; lia).
    exact y0. }
  do 5 (split; [assumption|]).
  split; [exact y6|]. split; [exact y7|].
  assert (Ey : (y == 0.17 - 0.06 * inject_Z (Z.of_nat (k / 4)))%Q).
  { rewrite y8, Hq. change (0 / 4)%nat with 0%nat. now rewrite Nat.sub_0_r. }
  split; [exact Ey|].
  assert (Hdiv : (k / 4 <= 5)%nat).
  { pose proof (Nat.div_mod_eq k 4). lia. }
  assert (Hz : (0 <= inject_Z (Z.of_nat (k / 4)))%Q
               /\ (inject_Z (Z.of_nat (k / 4)) <= 5)%Q).
  { split.
    - change 0%Q with (inject_Z 0). rewrite <- Zle_Qle. lia.
    - change 5%Q with (inject_Z 5). rewrite <- Zle_Qle. lia. }
  split; [lra|]. split; [lra|].
  intros Hm. destruct k as [|k]; [reflexivity|].
  cbn [cvCurrentX]. apply Nat.eqb_eq in Hm. now rewrite Hm.
Qed.

End Properties.

(** * The properties on the run of the test host *)

Section Examples.

#[local] Existing Instance TestHost.host.

Open Scope string_scope.

(** A state given in full is well formed when its two references are. *)
Ltac well_formed :=
  constructor;
  [ intros r H; vm_compute in H; try discriminate; injection H as <-;
    do 2 eexists; repeat split; reflexivity
  | intros r H; vm_compute in H; try discriminate; injection H as <-;
    do 2 eexists; repeat split; reflexivity
  | intros a b Ha Hb; vm_compute in Ha, Hb; congruence ].

Lemma inFlight_wellFormed : wellFormed Demo.inFlight.
Proof. well_formed. Qed.

Lemma halfWay_wellFormed : wellFormed Demo.halfWay.
Proof. well_formed. Qed.

(** C1 on the run: [next] is called again while the transition is in
    flight. *)
Lemma transitionToNext_guard_witness :
  isTransitioning Demo.inFlight = true
  /\ transitionToNext_begin Demo.props Demo.inFlight = (Demo.inFlight, None).
Proof.
  split; [reflexivity|].
  apply (proj1 (transitionToNext_guard Demo.props Demo.inFlight
                  (or_introl eq_refl))).
Defined.

Lemma settled_wellFormed : wellFormed Demo.settled.
Proof. well_formed. Qed.

(** C2 on the run: after the transition the third image fails to load. *)
Lemma sampling_failure_aborts_witness :
  transitionToNext_begin Demo.props Demo.settled
  = (set_isTransitioning true Demo.settled, Some (2%nat, "broken.png"))
  /\ transitionToNext_resume Demo.props 2 "broken.png" (Fin 20000) (Fin 20000)
       (set_isTransitioning true Demo.settled)
     = (Demo.settled, None).
Proof.
  assert (Hb : transitionToNext_begin Demo.props Demo.settled
               = (set_isTransitioning true Demo.settled,
                  Some (2%nat, "broken.png")))
    by (vm_compute; reflexivity).
  assert (Hr : (imageToParticles (particleDensity Demo.props) "broken.png"
                  (randomDraws (set_isTransitioning true Demo.settled))).1
               = inl (FailedToLoadImage "broken.png"))
    by (vm_compute; reflexivity).
  split; [exact Hb|].
  destruct (sampling_failure_aborts Demo.props 2 "broken.png"
              (Fin 20000) (Fin 20000) (set_isTransitioning true Demo.settled)
              (FailedToLoadImage "broken.png") Hr)
    as (_ & _ & _ & _ & _ & _ & _ & _ & _ & Hback & _).
  exact (proj1 (Hback Demo.settled Hb)).
Defined.

(** C3 on the run: the frame at 12000, when the 2000 of the duration have
    elapsed. *)
Lemma transition_completion_witness :
  currentParticles Demo.halfWay = Some 0%nat
  /\ nextParticles Demo.halfWay = Some 1%nat
  /\ currentParticles (animateTransition Demo.props Demo.session (Fin 12000)
                         Demo.halfWay) = Some 1%nat
  /\ nextParticles (animateTransition Demo.props Demo.session (Fin 12000)
                      Demo.halfWay) = None.
Proof.
  assert (Hn : nextParticles Demo.halfWay = Some 1%nat) by reflexivity.
  assert (Hd : JS.lt (baseProgress (JS.sub (Fin 12000)
                                      (startTime Demo.session))
                        (duration Demo.session)) (Fin 1) = false)
    by (vm_compute; reflexivity).
  pose proof (transition_completion Demo.props Demo.session (Fin 12000)
                Demo.halfWay 1 halfWay_wellFormed Hn Hd) as H.
  cbv zeta in H. destruct H as (_ & H1 & H2 & _).
  split; [reflexivity|]. split; [exact Hn|]. split; [exact H1|exact H2].
Defined.

(** C4 on the first image of the run. *)
Lemma sampler_array_lengths_witness :
  validImage (loadImage "one.png")
  /\ exists m ud draws',
       imageToParticles (Fin (1 # 1600)) "one.png" 0 = (inr m, draws')
       /\ userData m = Some ud
       /\ count ud
          = length (sampledPixels (loadImage "one.png") (Fin (1 # 1600)))
       /\ length (positions ud) = (3 * count ud)%nat
       /\ length (originalPositions ud) = (3 * count ud)%nat
       /\ length (colors ud) = (3 * count ud)%nat
       /\ length (delays ud) = count ud
       /\ (length (positions ud) / 3 = count ud)%nat.
Proof.
  assert (Hv : validImage (loadImage "one.png"))
    by (repeat split; (reflexivity || discriminate)).
  split; [exact Hv|].
  exact (sampler_array_lengths (Fin (1 # 1600)) "one.png" 0 Hv).
Defined.

(** C5 on the first image of the run: its one particle comes from the
    pixel (0, 0). *)
Lemma sampler_target_positions_witness :
  exists pixelX pixelY : Z,
    let x := (inject_Z pixelX / inject_Z canvasSize * 2 - 1)%Q in
    let y := (1 - inject_Z pixelY / inject_Z canvasSize * 2)%Q in
    (0 <= pixelX < canvasSize)%Z /\ (0 <= pixelY < canvasSize)%Z
    /\ sampledPixels (loadImage "one.png") (Fin (1 # 1600)) !! 0%nat
       = Some (pixelX, pixelY)
    /\ originalPositions Demo.sampled !! (0 * 3)%nat = Some (Fin x)
    /\ originalPositions Demo.sampled !! (0 * 3 + 1)%nat = Some (Fin y)
    /\ originalPositions Demo.sampled !! (0 * 3 + 2)%nat = Some (Fin 0)
    /\ (-1 <= x /\ x <= 1)%Q /\ (-1 <= y /\ y <= 1)%Q.
Proof.
  assert (H1 : imageToParticles (Fin (1 # 1600)) "one.png" 0
               = (inr (mkMesh (Some Demo.sampled) (Fin 0.9) 0 0), 2%nat))
    by (vm_compute; reflexivity).
  assert (H3 : (0 < count Demo.sampled)%nat) by (vm_compute; lia).
  exact (sampler_target_positions (Fin (1 # 1600)) "one.png" 0
           (mkMesh (Some Demo.sampled) (Fin 0.9) 0 0) 2 Demo.sampled 0
           H1 eq_refl H3).
Defined.


(** C7 on the run: the framer called after the first load, on a set of one
    particle, whose size is zero. *)
Lemma framer_fallback_witness :
  targetCameraZ (updateCameraForParticles Demo.loaded) = Fin 5.
Proof.
  destruct (framer_fallback Demo.loaded) as (_ & H & _).
  assert (Hm : heap Demo.loaded !! 0%nat = Some Demo.firstSet)
    by (vm_compute; reflexivity).
  destruct (H (mkCamera (Fin 5) (Fin 0.1) (Fin 1000)) 0%nat Demo.firstSet
              eq_refl eq_refl eq_refl Hm) as (_ & _ & _ & Hsize).
  edestruct Hsize as [Hs _].
  - vm_compute. reflexivity.
  - apply Hs. left. vm_compute. reflexivity.
Defined.

(** C8 on the run: the particle of the first image. *)
Lemma seeding_far_positions_witness :
  get (positions (seedNext Demo.sampled 2).1) (0 * 3)
  = JS.mul (get (originalPositions Demo.sampled) (0 * 3))
      (JS.add (Fin 10)
         (JS.mul
            (Math_sqrt
               (JS.add
                  (JS.mul (get (originalPositions Demo.sampled) (0 * 3))
                     (get (originalPositions Demo.sampled) (0 * 3)))
                  (JS.mul (get (originalPositions Demo.sampled) (0 * 3 + 1))
                     (get (originalPositions Demo.sampled) (0 * 3 + 1)))))
            (Fin 5))).
Proof.
  assert (Hi : (0 < count Demo.sampled)%nat) by (vm_compute; lia).
  assert (Hp : positions Demo.sampled = originalPositions Demo.sampled)
    by reflexivity.
  exact (proj1 (seeding_far_positions Demo.sampled 2 0 Hi Hp)).
Defined.

(** C9 on the run: the frame at 11000. *)
Lemma transition_opacity_witness :
  exists m,
    heap (animateTransition Demo.props Demo.session (Fin 11000) Demo.inFlight)
    !! 1%nat = Some m
    /\ material_opacity m
       = JS.mul (Fin 0.9)
           (easeInOutCubic
              (JS.min
                 (JS.div (JS.sub (Fin 11000) (startTime Demo.session))
                    (duration Demo.session)) (Fin 1))).
Proof.
  exact (proj1 (proj2 (transition_opacity Demo.props Demo.session (Fin 11000)
                         Demo.inFlight 0 1 inFlight_wellFormed
                         eq_refl eq_refl))).
Defined.


(** ** Where the code parts from the specification *)

(** C7, as the specification words it, fails: a viewer whose current set
    has no particle, zoomed out to 15, is resized while a transition is in
    flight; the framer returns at its entry test and the target stays at
    15. *)
Lemma framer_keeps_target_while_transitioning :
  ~ framerFallsBackWhateverTheState.
Proof.
  intros H.
  assert (Hm : heap Demo.resizedWhileLoading !! 0%nat = Some Demo.emptySet)
    by (vm_compute; reflexivity).
  specialize (H TestHost.host Demo.resizedWhileLoading 0%nat
                Demo.emptySet (mkUserData [] [] [] [] [] 0)
                eq_refl Hm eq_refl eq_refl).
  vm_compute in H. discriminate H.
Qed.

(** C8, as the specification words it, fails: the particle whose resting
    position is the centre of the canvas is seeded on the axis of the
    camera; with the random value 1/2 it starts at the origin, the point
    the camera looks at. *)
Lemma centre_particle_is_seeded_in_view : ~ seedingHidesEveryParticle.
Proof.
  intros H.
  assert (Hunit : -1 <= 0 /\ 0 <= 1) by (split; discriminate).
  assert (Hhalf : 0 <= 1 # 2 /\ 1 # 2 < 1) by (split; [discriminate|reflexivity]).
  assert (Hone : 0 < 1) by reflexivity.
  refine (H TestHost.host 0 0 (1 # 2) _ _ _ 1 1
            Hunit Hunit Hhalf Hone Hone eq_refl _).
  unfold inFrustum. cbn [fst snd].
  repeat split; apply Qle_bool_imp_le; vm_compute; reflexivity.
Qed.

(** The centre of the canvas is a pixel the scan visits whenever the stride
    divides 800, and its resting position is the centre. *)
Lemma centre_pixel_rests_at_centre :
  Forall2 JS.eqv (targetOf canvasSize canvasSize (800, 800)%Z)
    [Fin 0; Fin 0; Fin 0].
Proof. repeat constructor. Qed.

(** ** More of the component, on the test host *)

(** X3 on the first image of the run: one pixel is visited, and kept. *)
Lemma sampler_particle_count_witness :
  (count Demo.sampled
   <= length (visitedPixels canvasSize canvasSize
                (samplingStep (Fin (1 # 1600)))))%nat.
Proof.
  assert (H1 : imageToParticles (Fin (1 # 1600)) "one.png" 0
               = (inr (mkMesh (Some Demo.sampled) (Fin 0.9) 0 0), 2%nat))
    by (vm_compute; reflexivity).
  exact (proj1 (sampler_particle_count (Fin (1 # 1600)) "one.png" 0
                  (mkMesh (Some Demo.sampled) (Fin 0.9) 0 0) 2 Demo.sampled
                  H1 eq_refl)).
Defined.



(** X7 on a set of two particles at opposite corners. *)
Lemma framer_bounding_box_witness :
  exists minX maxX minY maxY : Q,
    framedSize (mkMesh (Some Tour.corners) (Fin 0.9) 0 0)
    = Some (Fin (maxX - minX), Fin (maxY - minY))
    /\ (exists i, (i < 2)%nat
                  /\ get (originalPositions Tour.corners) (i * 3) = Fin minX)
    /\ (exists i, (i < 2)%nat
                  /\ get (originalPositions Tour.corners) (i * 3) = Fin maxX).
Proof.
  assert (Hfin : Forall (fun v => JS.isFinite v = true)
                   (originalPositions Tour.corners))
    by (repeat constructor).
  destruct (framer_bounding_box Tour.framed
              (mkCamera (Fin 5) (Fin 0.1) (Fin 1000)) 0
              (mkMesh (Some Tour.corners) (Fin 0.9) 0 0) Tour.corners
              eq_refl eq_refl eq_refl eq_refl eq_refl
              ltac:(cbn; lia) ltac:(discriminate) Hfin)
    as (x0 & x1 & y0 & y1 & _ & A0 & A1 & _ & _ & E & _).
  exists x0, x1, y0, y1. split; [exact E|]. split; [exact A0|exact A1].
Defined.

(** X8 on the run: the outgoing particle in the frame at 11000. *)
Lemma explode_step_witness :
  exists ud ud',
    userDataAt Demo.inFlight 0 = Some ud
    /\ userDataAt (animateTransition Demo.props Demo.session (Fin 11000)
                     Demo.inFlight) 0 = Some ud'
    /\ originalPositions ud' = originalPositions ud
    /\ delays ud' = delays ud /\ count ud' = count ud.
Proof.
  assert (Hm : exists ud, userDataAt Demo.inFlight 0 = Some ud
                          /\ (0 < count ud)%nat).
  { eexists. split; [vm_compute; reflexivity|]. vm_compute. lia. }
  destruct Hm as (ud & Hud & Hc).
  destruct (explode_step Demo.props Demo.session (Fin 11000) Demo.inFlight
              0 1 ud 0 inFlight_wellFormed eq_refl eq_refl Hud Hc)
    as (ud' & E & H1 & _ & H3 & H4 & _).
  exists ud, ud'. auto.
Defined.

(** X9 on the run, mounted with the third image first. *)
Lemma loadInitialImage_gives_up_witness :
  loadInitialImage Demo.props (Fin 0) (Fin 0) Tour.atBroken = Tour.atBroken.
Proof.
  apply loadInitialImage_gives_up. right. right. right.
  exists "broken.png", (FailedToLoadImage "broken.png").
  split; vm_compute; reflexivity.
Defined.

(** X10 on the run: the load of the first image. *)
Lemma loadInitialImage_installs_witness :
  currentParticles (loadInitialImage Demo.props (Fin 0) (Fin 0) Demo.initial)
  = Some 0%nat
  /\ scene (loadInitialImage Demo.props (Fin 0) (Fin 0) Demo.initial)
     = [0%nat].
Proof.
  assert (H1 : imageToParticles (particleDensity Demo.props) "one.png"
                 (randomDraws Demo.initial)
               = (inr (mkMesh (Some Demo.sampled) (Fin 0.9) 0 0), 2%nat))
    by (vm_compute; reflexivity).
  destruct (loadInitialImage_installs Demo.props (Fin 0) (Fin 0) Demo.initial
              "one.png" (mkMesh (Some Demo.sampled) (Fin 0.9) 0 0) 2
              eq_refl ltac:(discriminate) H1)
    as (E1 & _ & _ & _ & E5 & _).
  split; [exact E1|exact E5].
Defined.

(** X12 on the run: from the first image to the second. *)
Lemma transitionToNext_next_image_witness :
  transitionToNext_begin Demo.props Demo.loaded
  = (set_isTransitioning true Demo.loaded, Some (1%nat, "one.png")).
Proof.
  destruct (transitionToNext_next_image Demo.props Demo.loaded eq_refl
              ltac:(discriminate)) as (_ & _ & _ & url & Hurl & Hgo & _).
  cbv zeta in Hurl, Hgo.
  assert (E : url = "one.png") by (vm_compute in Hurl; congruence).
  subst url. exact (proj1 (Hgo ltac:(discriminate))).
Defined.

Lemma awaiting_wellFormed : wellFormed Demo.awaiting.
Proof. well_formed. Qed.

(** X13 on the run: the second image is sampled and the transition
    starts. *)
Lemma transitionToNext_starts_witness :
  (transitionToNext_resume Demo.props 1 "one.png" (Fin 10000) (Fin 10000)
     Demo.awaiting).2
  = Some Demo.session
  /\ nextParticles Demo.inFlight = Some 1%nat.
Proof.
  assert (H1 : exists m draws,
                 imageToParticles (particleDensity Demo.props) "one.png"
                   (randomDraws Demo.awaiting) = (inr m, draws))
    by (do 2 eexists; vm_compute; reflexivity).
  destruct H1 as (m & draws & H1).
  destruct (transitionToNext_starts Demo.props 1 "one.png" (Fin 10000)
              (Fin 10000) Demo.awaiting m draws awaiting_wellFormed H1)
    as (E & _).
  split; [exact E|reflexivity].
Defined.

(** X14 on the run: the timer is restarted after the transition. *)
Lemma startAutoAdvance_restarts_witness :
  autoAdvanceTimer (startAutoAdvance Demo.props Demo.settled)
  = Some (nextHandle Demo.settled)
  /\ forall old d,
       autoAdvanceTimer Demo.settled = Some old ->
       (old, d) ∉ timers (startAutoAdvance Demo.props Demo.settled).
Proof.
  assert (Hf : forall h d, (h, d) ∈ timers Demo.settled ->
                 (0 < h < nextHandle Demo.settled)%nat).
  { intros h d H. vm_compute in H.
    apply list_elem_of_singleton in H. injection H as -> _.
    vm_compute. lia. }
  assert (Hk : forall old, autoAdvanceTimer Demo.settled = Some old ->
                 (0 < old < nextHandle Demo.settled)%nat).
  { intros old H. vm_compute in H. injection H as <-. vm_compute. lia. }
  destruct (startAutoAdvance_restarts Demo.props Demo.settled Hf Hk)
    as (E1 & _ & E3 & _).
  split; [exact E1|exact E3].
Defined.

(** The run is a run of a mounted viewer. *)
Lemma settled_Runs : Runs Demo.settled.
Proof.
  assert (E1 : Demo.loaded
               = loadInitialImage Demo.props (Fin 0) (Fin 0) Demo.initial)
    by (vm_compute; reflexivity).
  assert (E2 : Demo.awaiting
               = (transitionToNext_begin Demo.props Demo.loaded).1)
    by (vm_compute; reflexivity).
  assert (E3 : Demo.inFlight
               = (transitionToNext_resume Demo.props 1 "one.png" (Fin 10000)
                    (Fin 10000) Demo.awaiting).1)
    by (vm_compute; reflexivity).
  assert (E4 : Demo.halfWay
               = animateTransition Demo.props Demo.session (Fin 11000)
                   Demo.inFlight)
    by (vm_compute; reflexivity).
  assert (E5 : Demo.settled
               = animateTransition Demo.props Demo.session (Fin 12000)
                   Demo.halfWay)
    by (vm_compute; reflexivity).
  rewrite E5. apply (run_frame _ _ _ _ 1%nat); [|reflexivity].
  rewrite E4. apply (run_frame _ _ _ _ 1%nat); [|reflexivity].
  rewrite E3. apply run_resume.
  rewrite E2. apply run_begin.
  rewrite E1. apply run_load.
  apply run_mounted; (reflexivity || (cbn; lia)).
Qed.

(** X16 on the run: after the transition one timer is pending. *)
Lemma viewer_invariants_witness :
  wellFormed Demo.settled /\ (length (timers Demo.settled) <= 1)%nat.
Proof.
  destruct (viewer_invariants Demo.settled settled_Runs) as (W & L & _).
  split; [exact W|exact L].
Defined.

#[local] Existing Instance Stage.browser.

(** X20 on the frame that ends the hiding of the menu, 400 ms after a
    click on CONTACT: WORK is at opacity 0 and scale 0, and no frame is
    asked for. *)
Lemma menuAnimate_frame_witness :
  exists y,
    texts (overlay (menuAnimate Stage.hidingMenu Stage.contacted)) !! 1%nat
    = Some y
    /\ JS.eqv (opacity y) (Fin 0) /\ JS.eqv (scale_x y) (Fin 0)
    /\ menuFrames (overlay (menuAnimate Stage.hidingMenu Stage.contacted))
       = menuFrames (overlay Stage.contacted).
Proof.
  destruct (menuAnimate_frame (browser := Stage.browser) Stage.hidingMenu Stage.contacted 300 0 400
              eq_refl eq_refl eq_refl eq_refl)
    as (p & _ & _ & _ & _ & _ & _ & _ & _ & _ & Hlast & _ & _ & Hv).
  assert (L : (300 <= 400 - 0)%Q) by (vm_compute; discriminate).
  assert (Hx : exists x, texts (overlay Stage.contacted) !! 1%nat = Some x)
    by (eexists; vm_compute; reflexivity).
  destruct Hx as [x Hx].
  destruct (Hv 1%nat x) as (y & Hy & _ & _ & _ & _ & _ & Hval);
    [apply (bool_decide_unpack _); vm_compute; exact I|exact Hx|].
  destruct (Hval 0.8 1 0 0)%Q as (_ & _ & Hend); [|reflexivity..|].
  { intros [|[|[|j]]] Hj; try discriminate Hj; split; reflexivity. }
  exists y. split; [exact Hy|].
  split; [exact (proj1 (Hend L))|]. split; [exact (proj2 (Hend L))|].
  exact (proj1 (Hlast L)).
Defined.

(** X21 on a click on CONTACT with the menu shown: the email is shown. *)
Lemma handleClick_menu_witness :
  showingEmail
    (overlay (handleClick (Fin 960) (Fin 540) [3%nat] Stage.mounted)) = true
  /\ showingCV
       (overlay (handleClick (Fin 960) (Fin 540) [3%nat] Stage.mounted))
     = false.
Proof.
  destruct (handleClick_menu (browser := Stage.browser) (Fin 960) (Fin 540) [3%nat] Stage.mounted
              eq_refl) as (_ & _ & _ & H).
  destruct (H 3%nat [] eq_refl ltac:(discriminate) eq_refl) as (_ & Hc & _).
  { apply (bool_decide_unpack _). vm_compute. exact I. }
  exact (Hc eq_refl).
Defined.

(** X22 on a click on the title: the camera is sent three times as far. *)
Lemma handleClick_zoom_witness :
  isCameraZoomedOut
    (rig (handleClick (Fin 960) (Fin 300) [0%nat] Stage.mounted)) = true
  /\ targetCameraZ
       (state (handleClick (Fin 960) (Fin 300) [0%nat] Stage.mounted))
     = JS.mul (Fin 5) (Fin 3).
Proof.
  destruct (handleClick_zoom (browser := Stage.browser) (Fin 960) (Fin 300) 0 [] Stage.mounted eq_refl
              ltac:(discriminate) (or_introl eq_refl)) as (Hz & Ht & _).
  split; [exact Hz|exact Ht].
Defined.

(** X23 on a pointer at the middle of the top edge of the window. *)
Lemma handleMouseMove_range_witness :
  mouse (rig (handleMouseMove (Fin 960) (Fin 0) Stage.mounted))
  = (Fin (960 / 1920 * 2 - 1), Fin (- (0 / 1080 * 2 - 1))).
Proof.
  assert (W0 : (0 < 1920)%Q) by reflexivity.
  assert (H0 : (0 < 1080)%Q) by reflexivity.
  assert (X0 : (0 <= 960)%Q) by discriminate.
  assert (X1 : (960 <= 1920)%Q) by discriminate.
  assert (Y0 : (0 <= 0)%Q) by discriminate.
  assert (Y1 : (0 <= 1080)%Q) by discriminate.
  destruct (handleMouseMove_range (browser := Stage.browser) Stage.mounted
              960 0 1920 1080 eq_refl eq_refl W0 H0 X0 X1 Y0 Y1)
    as (_ & _ & _ & Hm & _).
  exact Hm.
Defined.


End Examples.
